(* ===== verification/_CoqProject ===== *)
-Q . S2P
Prelude.v
Assembler.v
Machine.v
Utf8.v
Str.v
Emit.v
Verify.v
Codegen.v
Compare.v
LiteralSearch.v
CharClass.v
Alternation.v
Compiled.v
Flow.v
Listing.v
Testing.v
Fuzz.v
Os.v
CoreDetect.v
Prog.v
Attach.v
Ringbuf.v
UnitTests.v
RingSafety.v
LoaderTests.v
TestSuites.v
SystemTests.v
RingProtocol.v
RingPoll.v
RingDemo.v
RingWeak.v
RingResources.v
Concurrent.v
