(* ===== verification/Prelude.v ===== *)
(** * A verification of ebpfkit

    ebpfkit compiles byte patterns to eBPF programs, loads them with the bpf(2)
    system call, attaches them to sockets, and consumes ring buffers that programs
    write to.  This library models the crate's Rust code and proves it correct.

    ** The program and its model

    - [src/src/assembler.rs] (instructions, opcodes, macros, listings) is
      [Assembler].
    - [src/src/compiler/emit.rs] (jump patching) is [Emit].
    - [src/src/compiler/verify.rs] (errors, limits, instruction estimates, the
      parser of bracket expressions) is [Verify], with UTF-8 validation in [Utf8].
    - [src/src/compiler/codegen.rs] (the four compilers) is [Codegen]; the check of
      jump targets of [src/src/compiler/mod.rs] is its [jump_offsets_are_valid].
      What each compiler emits, and what the emitted program does, is in
      [LiteralSearch], [CharClass] (with the interpreter of
      [src/tests/unit/compiler.rs] in the module [Interp]) and [Alternation]; they
      share the unrolled comparison of [Compare].  [Compiled] has what the output of
      all compilers has in common, [Flow] its control flow and use of registers,
      [Listing] a reader of their listings.
    - [src/src/loader/core_detect.rs] (kernel version and feature gates) is
      [CoreDetect], with strings in [Str].
    - [src/src/loader/prog.rs] (loading and attaching) is [Prog], over the errors and
      the monad of [Os]; the number of the bpf system call, of [src/src/loader/mod.rs],
      is [SYS_BPF] of [Os].
    - [src/src/lib.rs] (the entry point) is [Attach].
    - [src/src/loader/ringbuf.rs] (ring buffers) is [Ringbuf]; [RingSafety],
      [RingProtocol], [RingPoll] and [RingResources] have its theorems, [RingDemo] a
      concrete ring, [RingWeak] a ring in weakly ordered memory.
    - The two process-wide variables of the crate, the cached page size of ringbuf.rs
      and the [Once] of core_detect.rs, are run by several threads in [Concurrent].
    - The unit tests in these files are [UnitTests] and, where they make system calls,
      [LoaderTests]; the tests under [src/tests] are [TestSuites] and, where they depend
      on the system, the host or a generator, [SystemTests]; the fuzz targets of
      [src/fuzz] and the benchmarks of [src/benches/compile_bench.rs] are [Fuzz]; all are
      written with the assertions of [Testing].

    Functions keep their names; a method or destructor is prefixed with its type
    ([EpollFd_wait], [RingbufConsumer_drop]).  [page_size()] of ringbuf.rs is
    [get_page_size], since [page_size] is a field of its consumer.

    ** How the code is represented

    A Rust integer is a [Z]; casts, wrapping, checked and saturating operations are
    written out ([wrap_u], [wrap_s], [u_arith], [s_arith], ...).  The width of [usize]
    and whether overflow panics are the class [Arch], so theorems hold for 32-bit and
    64-bit targets and for debug and release builds unless they say otherwise.  A
    function that can fail returns [res]: a value, an error, a panic, or [OutOfFuel]
    for a loop whose fuel ran out.  Vectors are lists; indexing outside panics.  Code
    that calls the operating system is in the monad [io] of [Os].

    Code that is not in the repository is a parameter.  The machine that runs a
    program is any [step] function with the laws [BpfIsa] of the instructions used
    ([Machine], with an executable [Reference]).  System calls and shared memory are
    the classes [ProgSyscalls] and [RingSyscalls]; what their documentation promises is
    [ProgKernel], [RingProtocol], [PollKernel] and [RingResources].  Every such interface has a
    concrete instance ([Reference], [DemoKernel], [RingDemo], [DemoProcess]), on which
    the witnesses of the theorems are evaluated.  Every access to the ring takes the
    system to a new state, in which the kernel may have worked in between, so the
    interleaving of consumer and producer is explicit.  The atomic accesses carry their
    [Ordering], and [RingProtocol] promises something only for the orderings the code
    uses; it is implemented by the sequentially consistent ring of [RingDemo] and by the
    view machine of [RingWeak], where a load may return an old write.

    ** What the theorems show

    - Compilers: a compiled literal search accepts exactly the packets that contain
      the pattern, a class exactly its bytes, an alternation exactly the windows that
      start with an alternative; programs read only the packet; they have the
      estimated length, fit the verifier limit, end with [exit], and jump only inside
      themselves; their instructions satisfy the encoding rules of the instruction set
      ([insn_typed]); no path reads a register before it is written, no instruction is
      dead, and the verdict depends only on the registers the caller sets; every outcome
      of compiling, errors and panics included, is stated.
    - Parser: equal to a structurally recursive reference grammar, round trip with a
      printer, the exact condition of the non-ASCII error.
    - Assembler: register packing and its inverse, listings, the exact condition of a
      panic, and that the listing of a compiled program exists and can be read back.
    - Loader: the effect of loading and attaching in every outcome, the text of the
      verifier log in errors; and that the attached filter returns 0 on the context of a
      socket filter, which does not start with the bounds of the packet as the compiler
      assumes ([attached_filter_on_sk_buff]).
    - Capability detection: the grammar of release strings, the round trip with a
      printed version, the gates, the single warning and its text.
    - Ring buffers: delivery of records exactly once and in order against a concurrent
      producer, termination, memory safety against a hostile one, release of mappings
      and descriptors on every path, with one report for each mapping the kernel does not
      take back, the arithmetic of record lengths and of the mapping, and the retries of
      the wait.  For [poll_ringbuf] as a whole: delivery or
      an error that consumed nothing, exactly-once delivery over any history of polls,
      and liveness on a cooperative system.  On weakly ordered memory the acquire and
      release accesses are enough, and examples show that relaxed ones are not.
    - Threads: concurrent calls agree on the page size, and print the warning once.
    - Tests: the unit tests and the suites under [src/tests] pass on the model in every
      build, those with system calls on the systems described, the property tests for
      every generated string, and no input crashes a fuzz target.

    ** Fuel and bounds

    The loops of the class parser take the length of their input as fuel, which is
    enough since each iteration advances (the reference theorem has no [OutOfFuel]).
    Runs of compiled programs have explicit bounds on the number of instructions.
    [consume_ring_records] and [EpollFd_wait] can be kept busy by the kernel; they take
    fuel as an argument, and [consume_ring_records_terminates], [epoll_wait_retries] and
    [poll_ringbuf_live] say how much is enough.  The packets of a
    literal search are below 4 GiB, as the 32-bit words it loads their bounds from
    require; the window of an alternation is anywhere in the 64-bit address space.

    ** What is not modelled

    The kernel and its verifier, libc, the test, fuzzing and benchmark harnesses, which
    are not in the repository and are parameters or left out.  Of the code: the
    re-exports of [src/src/lib.rs], [src/src/compiler/mod.rs] and [src/src/loader/mod.rs]
    and the files under [src/tests] that only declare modules have no behaviour.  Left
    out is a failure of [eprintln!] itself, which panics. *)

From stdpp Require Export base list strings pretty gmap.
From Stdlib Require Export ZArith Lia.

(** ** Scopes, tactics and hint databases *)

#[global] Open Scope Z_scope.

(** Facts about machine integers, used by [auto with mach]. *)
Create HintDb mach.

(** ** Outcomes of Rust code *)

(** A Rust computation of type [Result<A, E>] that may also panic.  [OutOfFuel]
    is the outcome of a model loop whose fuel ran out: no Rust run has it, and
    the termination theorems show that no operation of the library returns it. *)
Inductive res (E A : Type) : Type :=
| Ok (a : A)
| Err (e : E)
| Panic
| OutOfFuel.
Arguments Ok {E A} a.
Arguments Err {E A} e.
Arguments Panic {E A}.
Arguments OutOfFuel {E A}.

#[export] Instance res_ret {E} : MRet (res E) := fun A a => Ok a.

#[export] Instance res_bind {E} : MBind (res E) := fun A B f m =>
  match m with
  | Ok a => f a
  | Err e => Err e
  | Panic => Panic
  | OutOfFuel => OutOfFuel
  end.

(** [map_err] of a [Result]; it also is the coercion of [?] into another error type. *)
Definition map_err {E F A} (f : E -> F) (m : res E A) : res F A :=
  match m with
  | Ok a => Ok a
  | Err e => Err (f e)
  | Panic => Panic
  | OutOfFuel => OutOfFuel
  end.

Lemma bind_Ok {E A B} (m : res E A) (f : A -> res E B) b :
  (m ≫= f) = Ok b <-> exists a, m = Ok a /\ f a = Ok b.
Proof. destruct m; cbn; split; intros HH; try destruct HH as (a' & Ha & Hb); simplify_eq; eauto. Qed.

Lemma Ok_bind {E A B} (a : A) (f : A -> res E B) : (Ok a ≫= f) = f a.
Proof. reflexivity. Qed.

Lemma Err_bind {E A B} (e : E) (f : A -> res E B) : (Err e ≫= f) = Err e.
Proof. reflexivity. Qed.

Lemma bind_assoc {E A B C} (m : res E A) (f : A -> res E B) (g : B -> res E C) :
  ((m ≫= f) ≫= g) = (m ≫= fun a => f a ≫= g).
Proof. by destruct m. Qed.

(** ** Machine integers

    A [w]-bit Rust integer is a [Z] in its range. *)

(** The cast [as uw]. *)
Definition wrap_u (w z : Z) : Z := z mod 2 ^ w.

(** The cast [as iw]. *)
Definition wrap_s (w z : Z) : Z := (z + 2 ^ (w - 1)) mod 2 ^ w - 2 ^ (w - 1).

Definition in_u (w z : Z) : bool := (0 <=? z) && (z <? 2 ^ w).
Definition in_s (w z : Z) : bool := (- 2 ^ (w - 1) <=? z) && (z <? 2 ^ (w - 1)).

(** The build the crate is compiled for: the width of [usize], and whether an
    arithmetic overflow panics (debug profile) or wraps (release profile). *)
Class Arch := mkArch {
  usize_bits : Z;
  usize_bits_ok : usize_bits = 32 \/ usize_bits = 64;
  overflow_checks : bool;
}.

Definition arch64_debug : Arch := mkArch 64 (or_intror eq_refl) true.
Definition arch64_release : Arch := mkArch 64 (or_intror eq_refl) false.
Definition arch32_debug : Arch := mkArch 32 (or_introl eq_refl) true.
Definition arch32_release : Arch := mkArch 32 (or_introl eq_refl) false.

Section arith.
  Context `{Arch} {E : Type}.

(** The result of [+], [-] or [*] on an unsigned ([u_arith]) or signed
    ([s_arith]) integer, from the exact result [z]. *)
Definition u_arith (w z : Z) : res E Z :=
  if in_u w z then Ok z else if overflow_checks then Panic else Ok (wrap_u w z).

Definition s_arith (w z : Z) : res E Z :=
  if in_s w z then Ok z else if overflow_checks then Panic else Ok (wrap_s w z).

Definition usize_add (a b : Z) : res E Z := u_arith usize_bits (a + b).
Definition usize_sub (a b : Z) : res E Z := u_arith usize_bits (a - b).
Definition usize_mul (a b : Z) : res E Z := u_arith usize_bits (a * b).
Definition isize_sub (a b : Z) : res E Z := s_arith usize_bits (a - b).
End arith.

(** [usize::MAX], and the methods on [usize] that never panic. *)
Definition usize_max `{Arch} : Z := 2 ^ usize_bits - 1.

Definition usize_checked_add `{Arch} (a b : Z) : option Z :=
  if a + b <=? usize_max then Some (a + b) else None.

Definition usize_checked_mul `{Arch} (a b : Z) : option Z :=
  if a * b <=? usize_max then Some (a * b) else None.

Definition usize_saturating_add `{Arch} (a b : Z) : Z := Z.min (a + b) usize_max.

Definition as_usize `{Arch} (z : Z) : Z := wrap_u usize_bits z.
Definition as_isize `{Arch} (z : Z) : Z := wrap_s usize_bits z.

Lemma wrap_u_small w z : 0 <= z < 2 ^ w -> wrap_u w z = z.
Proof. apply Z.mod_small. Qed.

Lemma wrap_s_small w z : 0 < w -> - 2 ^ (w - 1) <= z < 2 ^ (w - 1) -> wrap_s w z = z.
Proof.
  intros Hw Hz. unfold wrap_s.
  replace (2 ^ w) with (2 * 2 ^ (w - 1))
    by (rewrite <- Z.pow_succ_r by lia; f_equal; lia).
  rewrite Z.mod_small; lia.
Qed.

Lemma wrap_u_range w z : 0 <= w -> 0 <= wrap_u w z < 2 ^ w.
Proof. intros. apply Z.mod_pos_bound. apply Z.pow_pos_nonneg; lia. Qed.

Lemma wrap_s_range w z : 0 < w -> - 2 ^ (w - 1) <= wrap_s w z < 2 ^ (w - 1).
Proof.
  intros Hw. unfold wrap_s.
  assert (Hp : 2 ^ w = 2 * 2 ^ (w - 1))
    by (rewrite <- Z.pow_succ_r by lia; f_equal; lia).
  assert (0 < 2 ^ (w - 1)) by (apply Z.pow_pos_nonneg; lia).
  pose proof (Z.mod_pos_bound (z + 2 ^ (w - 1)) (2 ^ w)) as Hb. lia.
Qed.

Lemma usize_bits_ge_32 `{Arch} : 32 <= usize_bits.
Proof. destruct usize_bits_ok; lia. Qed.

Lemma usize_pow_ge `{Arch} : 2 ^ 32 <= 2 ^ usize_bits.
Proof. apply Z.pow_le_mono_r; [lia | apply usize_bits_ge_32]. Qed.

Lemma isize_pow_ge `{Arch} : 2 ^ 31 <= 2 ^ (usize_bits - 1).
Proof. apply Z.pow_le_mono_r; [lia |]. pose proof usize_bits_ge_32. lia. Qed.

Section arith_lemmas.
  Context `{Arch} {E : Type}.

Lemma u_arith_ok w z : 0 <= z < 2 ^ w -> u_arith (E := E) w z = Ok z.
Proof. intros. unfold u_arith, in_u. by rewrite (proj2 (andb_true_iff _ _)) by lia. Qed.

Lemma s_arith_ok w z : - 2 ^ (w - 1) <= z < 2 ^ (w - 1) -> s_arith (E := E) w z = Ok z.
Proof. intros. unfold s_arith, in_s. by rewrite (proj2 (andb_true_iff _ _)) by lia. Qed.

Lemma u_arith_overflow w z : 2 ^ w <= z ->
  u_arith (E := E) w z = if overflow_checks then Panic else Ok (wrap_u w z).
Proof. intros. unfold u_arith, in_u. by rewrite (proj2 (andb_false_iff _ _)) by lia. Qed.

(** Arithmetic on values far below the smallest [usize] range is exact. *)
Lemma usize_add_small a b : 0 <= a + b < 2 ^ 32 -> usize_add (E := E) a b = Ok (a + b).
Proof. intros. apply u_arith_ok. pose proof usize_pow_ge. lia. Qed.

Lemma usize_sub_small a b : 0 <= a - b < 2 ^ 32 -> usize_sub (E := E) a b = Ok (a - b).
Proof. intros. apply u_arith_ok. pose proof usize_pow_ge. lia. Qed.

Lemma usize_mul_small a b : 0 <= a * b < 2 ^ 32 -> usize_mul (E := E) a b = Ok (a * b).
Proof. intros. apply u_arith_ok. pose proof usize_pow_ge. lia. Qed.

Lemma isize_sub_small a b :
  - 2 ^ 31 <= a - b < 2 ^ 31 -> isize_sub (E := E) a b = Ok (a - b).
Proof. intros. apply s_arith_ok. pose proof isize_pow_ge. lia. Qed.

Lemma as_isize_small z : - 2 ^ 31 <= z < 2 ^ 31 -> as_isize z = z.
Proof.
  intros. apply wrap_s_small; [pose proof usize_bits_ge_32; lia |].
  pose proof isize_pow_ge. lia.
Qed.

Lemma as_usize_small z : 0 <= z < 2 ^ 32 -> as_usize z = z.
Proof. intros. apply wrap_u_small. pose proof usize_pow_ge. lia. Qed.
End arith_lemmas.

(** Removes the casts and the checked operations whose operands are in range. *)
Ltac mach_step :=
  first
  [ rewrite usize_add_small by lia | rewrite usize_sub_small by lia
  | rewrite usize_mul_small by lia | rewrite isize_sub_small by lia
  | rewrite as_isize_small by lia | rewrite as_usize_small by lia
  | rewrite wrap_s_small by lia | rewrite wrap_u_small by lia
  | rewrite s_arith_ok by lia | rewrite u_arith_ok by lia
  | rewrite Ok_bind ].
Ltac mach := repeat (mach_step; cbn [mbind res_bind]).

(** [lia] with division and modulo by constants. *)
Ltac dlia := Z.to_euclidean_division_equations; lia.

(** Equality of structures up to linear arithmetic in the leaves. *)
Ltac feq := repeat first [reflexivity | lia | f_equal].

(** Evaluates the conditions on closed terms. *)
Ltac closed_ifs :=
  repeat match goal with |- context [if ?b then _ else _] =>
    let v := eval vm_compute in b in
    lazymatch v with true => idtac | false => idtac end; change b with v; cbv iota
  end.

(** ** Vectors and slices *)

Definition vec_len {A} (l : list A) : Z := Z.of_nat (length l).

(** [v[i]]: an index outside the vector panics. *)
Definition vec_get {E A} (l : list A) (i : Z) : res E A :=
  if 0 <=? i then match l !! Z.to_nat i with Some a => Ok a | None => Panic end
  else Panic.

(** [v[i] = a]. *)
Definition vec_set {E A} (l : list A) (i : Z) (a : A) : res E (list A) :=
  if (0 <=? i) && (i <? vec_len l) then Ok (<[Z.to_nat i := a]> l) else Panic.

Lemma vec_len_app {A} (l k : list A) : vec_len (l ++ k) = vec_len l + vec_len k.
Proof. unfold vec_len. rewrite length_app. lia. Qed.

Lemma vec_len_cons {A} (a : A) l : vec_len (a :: l) = 1 + vec_len l.
Proof. unfold vec_len. cbn [length]. lia. Qed.

Lemma vec_len_nil {A} : vec_len (@nil A) = 0.
Proof. reflexivity. Qed.

Lemma vec_len_nonneg {A} (l : list A) : 0 <= vec_len l.
Proof. unfold vec_len. lia. Qed.
#[export] Hint Resolve vec_len_nonneg : mach.

Create Rewrite HintDb vec.
#[export] Hint Rewrite @vec_len_app @vec_len_cons @vec_len_nil : vec.

(** The loop test [idx < v.len()] at the end of a scanned prefix. *)
Lemma index_at_end {A} (l : list A) : (vec_len l <? vec_len (l ++ [])) = false.
Proof. rewrite app_nil_r. apply Z.ltb_irrefl. Qed.

Lemma index_before_end {A} (l : list A) a k : (vec_len l <? vec_len (l ++ a :: k)) = true.
Proof. autorewrite with vec. pose proof (vec_len_nonneg k). lia. Qed.

(** Moving the scanned element to the prefix. *)
Lemma app_cons_snoc {A} (l : list A) a k : l ++ a :: k = (l ++ [a]) ++ k.
Proof. by rewrite <- app_assoc. Qed.

Lemma vec_len_snoc {A} (l : list A) a : vec_len (l ++ [a]) = vec_len l + 1.
Proof. by autorewrite with vec. Qed.

(** Reading and writing at the junction of two segments. *)
Lemma vec_get_middle {E A} (l k : list A) a i :
  i = vec_len l -> vec_get (E := E) (l ++ a :: k) i = Ok a.
Proof.
  intros ->. unfold vec_get, vec_len. rewrite (proj2 (Z.leb_le _ _)) by lia.
  rewrite Nat2Z.id. by rewrite list_lookup_middle.
Qed.

Lemma vec_set_middle {E A} (l k : list A) a b i :
  i = vec_len l -> vec_set (E := E) (l ++ a :: k) i b = Ok (l ++ b :: k).
Proof.
  intros ->. unfold vec_set. rewrite vec_len_app, vec_len_cons.
  pose proof (vec_len_nonneg l). pose proof (vec_len_nonneg k).
  rewrite (proj2 (andb_true_iff _ _)) by lia.
  unfold vec_len. rewrite Nat2Z.id, <- (Nat.add_0_r (length l)).
  by rewrite insert_app_r.
Qed.

Lemma vec_get_lookup {E A} (l : list A) (i : nat) :
  vec_get (E := E) l (Z.of_nat i) = match l !! i with Some a => Ok a | None => Panic end.
Proof.
  unfold vec_get. rewrite (proj2 (Z.leb_le _ _)) by lia. by rewrite Nat2Z.id.
Qed.

(** ** Bytes *)

(** [b'c'], the byte of an ASCII character literal. *)
Definition chr (s : string) : Z :=
  match s with
  | String a _ => Z.of_N (Ascii.N_of_ascii a)
  | EmptyString => 0
  end.

(** The bytes of a byte-string literal. *)
Fixpoint bytes (s : string) : list Z :=
  match s with
  | String a s => Z.of_N (Ascii.N_of_ascii a) :: bytes s
  | EmptyString => []
  end.

Lemma bytes_app s t : bytes (s +:+ t) = bytes s ++ bytes t.
Proof. induction s as [|a s IH]; [done|]. cbn. by rewrite <- IH. Qed.

Definition is_byte (b : Z) : Prop := 0 <= b < 256.

Lemma bytes_is_byte s : Forall is_byte (bytes s).
Proof.
  induction s as [|a s IH]; constructor; [|done]. unfold is_byte.
  pose proof (Ascii.N_ascii_bounded a). lia.
Qed.
