(* ===== verification/Assembler.v ===== *)
(** * The eBPF assembler (src/src/assembler.rs)

    The instruction record with its packed register byte, the opcode and
    register constants, the instruction macros, and the textual rendering of
    instructions and programs.  The theorems give the round trip of the register
    nibbles, the exact condition under which rendering an instruction panics, and
    the shape of a rendered program. *)

From S2P Require Import Prelude.

(** ** Constants *)

(** Instruction classes. *)
Definition BPF_LD : Z := 0x00.
Definition BPF_LDX : Z := 0x01.
Definition BPF_ST : Z := 0x02.
Definition BPF_STX : Z := 0x03.
Definition BPF_ALU : Z := 0x04.
Definition BPF_JMP : Z := 0x05.
Definition BPF_JMP32 : Z := 0x06.
Definition BPF_ALU64 : Z := 0x07.

(** Memory sizes. *)
Definition BPF_B : Z := 0x10.
Definition BPF_H : Z := 0x08.
Definition BPF_W : Z := 0x00.
Definition BPF_DW : Z := 0x18.

(** ALU operations. *)
Definition BPF_ADD : Z := 0x00.
Definition BPF_SUB : Z := 0x10.
Definition BPF_MUL : Z := 0x20.
Definition BPF_DIV : Z := 0x30.
Definition BPF_OR : Z := 0x40.
Definition BPF_AND : Z := 0x50.
Definition BPF_LSH : Z := 0x60.
Definition BPF_RSH : Z := 0x70.
Definition BPF_NEG : Z := 0x80.
Definition BPF_MOD : Z := 0x90.
Definition BPF_XOR : Z := 0xa0.
Definition BPF_MOV : Z := 0xb0.
Definition BPF_ARSH : Z := 0xc0.
Definition BPF_END : Z := 0xd0.

(** Jump operations. *)
Definition BPF_JA : Z := 0x00.
Definition BPF_JEQ : Z := 0x10.
Definition BPF_JGT : Z := 0x20.
Definition BPF_JGE : Z := 0x30.
Definition BPF_JSET : Z := 0x40.
Definition BPF_JNE : Z := 0x50.
Definition BPF_JSGT : Z := 0x60.
Definition BPF_JSGE : Z := 0x70.
Definition BPF_CALL : Z := 0x80.
Definition BPF_EXIT : Z := 0x90.
Definition BPF_JLT : Z := 0xa0.
Definition BPF_JLE : Z := 0xb0.
Definition BPF_JSLT : Z := 0xc0.
Definition BPF_JSLE : Z := 0xd0.

(** Source classes and memory modes. *)
Definition BPF_K : Z := 0x00.
Definition BPF_X : Z := 0x08.
Definition BPF_IMM : Z := 0x00.
Definition BPF_ABS : Z := 0x20.
Definition BPF_IND : Z := 0x40.
Definition BPF_MEM : Z := 0x60.

(** Registers. *)
Definition R0 : Z := 0.
Definition R1 : Z := 1.
Definition R2 : Z := 2.
Definition R3 : Z := 3.
Definition R4 : Z := 4.
Definition R5 : Z := 5.
Definition R6 : Z := 6.
Definition R7 : Z := 7.
Definition R8 : Z := 8.
Definition R9 : Z := 9.
Definition R10 : Z := 10.

(** ** Instructions *)

(** [BpfInsn]: [code] and [regs] are [u8], [off] is [i16], [imm] is [i32]. *)
Record BpfInsn := mkBpfInsn {
  code : Z;
  regs : Z;
  off : Z;
  imm : Z;
}.

#[export] Instance BpfInsn_eq_dec : EqDecision BpfInsn.
Proof. solve_decision. Defined.

(** The fields are in the range of their Rust types. *)
Definition insn_wf (i : BpfInsn) : bool :=
  in_u 8 (code i) && in_u 8 (regs i) && in_s 16 (off i) && in_s 32 (imm i).

(** [BpfInsn::new].  The shift is on [u8]: bits shifted out are lost. *)
Definition new (code dst src off imm : Z) : BpfInsn :=
  mkBpfInsn code (Z.lor (wrap_u 8 (Z.shiftl src 4)) (Z.land dst 0x0F)) off imm.

Definition dst_reg (i : BpfInsn) : Z := Z.land (regs i) 0x0F.
Definition src_reg (i : BpfInsn) : Z := Z.shiftr (regs i) 4.

(** ** Macros *)

Definition alu64_imm (op dst imm : Z) : BpfInsn :=
  new (Z.lor (Z.lor BPF_ALU64 op) BPF_K) dst 0 0 imm.

Definition alu64_reg (op dst src : Z) : BpfInsn :=
  new (Z.lor (Z.lor BPF_ALU64 op) BPF_X) dst src 0 0.

Definition ldx_mem (size dst src off : Z) : BpfInsn :=
  new (Z.lor (Z.lor BPF_LDX BPF_MEM) size) dst src off 0.

Definition jmp_imm (op dst imm off : Z) : BpfInsn :=
  new (Z.lor (Z.lor BPF_JMP op) BPF_K) dst 0 off imm.

Definition jmp_reg (op dst src off : Z) : BpfInsn :=
  new (Z.lor (Z.lor BPF_JMP op) BPF_X) dst src off 0.

Definition exit : BpfInsn := new (Z.lor BPF_JMP BPF_EXIT) 0 0 0 0.

(** ** Rendering *)

(** [{}] of an integer. *)
Definition fmt_dec (z : Z) : string := pretty z.

(** [{:+}] of an integer. *)
Definition fmt_plus (z : Z) : string :=
  if 0 <=? z then ("+" +:+ pretty z)%string else pretty z.

Definition hex_digit (z : Z) : string :=
  match String.get (Z.to_nat z) "0123456789abcdef" with
  | Some c => String c EmptyString
  | None => EmptyString
  end.

(** [{:02x}] of a [u8]. *)
Definition fmt_02x (z : Z) : string := (hex_digit (z / 16) +:+ hex_digit (z mod 16))%string.

Fixpoint zeros (n : nat) : string :=
  match n with O => EmptyString | S n => String (Ascii.ascii_of_nat 48) (zeros n) end.

(** [{:04}] of a [usize]. *)
Definition fmt_04 (z : Z) : string :=
  (zeros (4 - String.length (pretty z)) +:+ pretty z)%string.

Section display.
  Context `{Arch} {E : Type}.

(** [self.off + 1] on [i16]. *)
Definition off_plus_1 (i : BpfInsn) : res E Z := s_arith 16 (off i + 1).

(** [<BpfInsn as Display>::fmt]: the text it writes. *)
Definition fmt (i : BpfInsn) : res E string :=
  let c := code i in
  if c =? Z.lor BPF_JMP BPF_EXIT then mret "exit"
  else if c =? Z.lor (Z.lor BPF_LDX BPF_MEM) BPF_B then
    mret ("r" +:+ fmt_dec (dst_reg i) +:+ " = *(u8 *)(r" +:+ fmt_dec (src_reg i)
          +:+ " + " +:+ fmt_dec (off i) +:+ ")")%string
  else if c =? Z.lor (Z.lor BPF_LDX BPF_MEM) BPF_W then
    mret ("r" +:+ fmt_dec (dst_reg i) +:+ " = *(u32 *)(r" +:+ fmt_dec (src_reg i)
          +:+ " + " +:+ fmt_dec (off i) +:+ ")")%string
  else if c =? Z.lor (Z.lor BPF_ALU64 BPF_MOV) BPF_K then
    mret ("r" +:+ fmt_dec (dst_reg i) +:+ " = " +:+ fmt_dec (imm i))%string
  else if c =? Z.lor (Z.lor BPF_ALU64 BPF_MOV) BPF_X then
    mret ("r" +:+ fmt_dec (dst_reg i) +:+ " = r" +:+ fmt_dec (src_reg i))%string
  else if c =? Z.lor (Z.lor BPF_ALU64 BPF_ADD) BPF_K then
    mret ("r" +:+ fmt_dec (dst_reg i) +:+ " += " +:+ fmt_dec (imm i))%string
  else if c =? Z.lor (Z.lor BPF_ALU64 BPF_ADD) BPF_X then
    mret ("r" +:+ fmt_dec (dst_reg i) +:+ " += r" +:+ fmt_dec (src_reg i))%string
  else if c =? Z.lor BPF_JMP BPF_JA then
    t ← off_plus_1 i;
    mret ("goto " +:+ fmt_plus t)%string
  else if c =? Z.lor (Z.lor BPF_JMP BPF_JEQ) BPF_K then
    t ← off_plus_1 i;
    mret ("if r" +:+ fmt_dec (dst_reg i) +:+ " == " +:+ fmt_dec (imm i)
          +:+ " goto " +:+ fmt_plus t)%string
  else if c =? Z.lor (Z.lor BPF_JMP BPF_JNE) BPF_K then
    t ← off_plus_1 i;
    mret ("if r" +:+ fmt_dec (dst_reg i) +:+ " != " +:+ fmt_dec (imm i)
          +:+ " goto " +:+ fmt_plus t)%string
  else if c =? Z.lor (Z.lor BPF_JMP BPF_JGT) BPF_X then
    t ← off_plus_1 i;
    mret ("if r" +:+ fmt_dec (dst_reg i) +:+ " > r" +:+ fmt_dec (src_reg i)
          +:+ " goto " +:+ fmt_plus t)%string
  else if c =? Z.lor (Z.lor BPF_JMP BPF_JLT) BPF_K then
    t ← off_plus_1 i;
    mret ("if r" +:+ fmt_dec (dst_reg i) +:+ " < " +:+ fmt_dec (imm i)
          +:+ " goto " +:+ fmt_plus t)%string
  else if c =? Z.lor (Z.lor BPF_JMP BPF_JLE) BPF_K then
    t ← off_plus_1 i;
    mret ("if r" +:+ fmt_dec (dst_reg i) +:+ " <= " +:+ fmt_dec (imm i)
          +:+ " goto " +:+ fmt_plus t)%string
  else
    mret ("code=0x" +:+ fmt_02x c +:+ " dst=r" +:+ fmt_dec (dst_reg i) +:+ " src=r"
          +:+ fmt_dec (src_reg i) +:+ " off=" +:+ fmt_dec (off i) +:+ " imm="
          +:+ fmt_dec (imm i))%string.

(** The lines of a program from the instruction at [index] on. *)
Fixpoint format_lines (index : Z) (program : list BpfInsn) : res E (list string) :=
  match program with
  | [] => mret []
  | instruction :: rest =>
      text ← fmt instruction;
      lines ← format_lines (index + 1) rest;
      mret ((fmt_04 index +:+ ": " +:+ text)%string :: lines)
  end.

(** [join] of a vector of strings. *)
Fixpoint join (sep : string) (l : list string) : string :=
  match l with
  | [] => EmptyString
  | [s] => s
  | s :: rest => (s +:+ sep +:+ join sep rest)%string
  end.

Definition newline : string := String (Ascii.ascii_of_nat 10) EmptyString.

Definition format_program (program : list BpfInsn) : res E string :=
  match program with
  | [] => mret "# empty program"
  | _ => lines ← format_lines 0 program; mret (join newline lines)
  end.
End display.


(** ** The packed register byte *)

(** The destination nibble of a new instruction is the low nibble of [dst]. *)
Lemma dst_reg_new c d s o k : dst_reg (new c d s o k) = d mod 16.
Proof.
  unfold dst_reg, new, wrap_u. cbn [regs].
  change 15 with (Z.ones 4). change 16 with (2 ^ 4). rewrite <- (Z.land_ones d 4) by lia.
  apply Z.bits_inj'; intros n Hn.
  rewrite !Z.land_spec, Z.lor_spec, Z.land_spec.
  destruct (Z.ltb_spec n 4).
  - rewrite Z.mod_pow2_bits_low by lia. rewrite Z.shiftl_spec_low by lia.
    by destruct (Z.testbit d n), (Z.testbit (Z.ones 4) n).
  - rewrite !(Z.ones_spec_high 4 n) by lia. by rewrite !andb_false_r.
Qed.

(** The source nibble is the low nibble of [src]: higher bits are shifted out. *)
Lemma src_reg_new c d s o k : src_reg (new c d s o k) = s mod 16.
Proof.
  unfold src_reg, new, wrap_u. cbn [regs].
  change 15 with (Z.ones 4). change 16 with (2 ^ 4). rewrite <- (Z.land_ones s 4) by lia.
  apply Z.bits_inj'; intros n Hn.
  rewrite Z.shiftr_spec, Z.lor_spec, !Z.land_spec by lia.
  rewrite (Z.ones_spec_high 4 (n + 4)) by lia. rewrite andb_false_r, orb_false_r.
  destruct (Z.ltb_spec n 4).
  - rewrite Z.mod_pow2_bits_low, Z.shiftl_spec, Z.ones_spec_low by lia.
    rewrite andb_true_r. f_equal. lia.
  - rewrite Z.mod_pow2_bits_high, Z.ones_spec_high by lia. by rewrite andb_false_r.
Qed.

Lemma dst_reg_new_small c d s o k : 0 <= d < 16 -> dst_reg (new c d s o k) = d.
Proof. intros. rewrite dst_reg_new. by apply Z.mod_small. Qed.

Lemma src_reg_new_small c d s o k : 0 <= s < 16 -> src_reg (new c d s o k) = s.
Proof. intros. rewrite src_reg_new. by apply Z.mod_small. Qed.

(** A byte is its two nibbles. *)
Lemma nibbles b : 0 <= b < 256 -> Z.lor (wrap_u 8 (Z.shiftl (Z.shiftr b 4) 4)) (Z.land (Z.land b 15) 15) = b.
Proof.
  intros Hb. unfold wrap_u.
  replace (Z.shiftl (Z.shiftr b 4) 4 mod 2 ^ 8) with (Z.ldiff b (Z.ones 4)).
  - change 15 with (Z.ones 4). rewrite <- Z.land_assoc, Z.land_diag, Z.lor_comm.
    apply Z.bits_inj'; intros n Hn. rewrite Z.lor_spec, Z.land_spec, Z.ldiff_spec.
    by destruct (Z.testbit b n), (Z.testbit (Z.ones 4) n).
  - rewrite Z.ldiff_ones_r by lia. symmetry. apply Z.mod_small.
    rewrite Z.shiftl_mul_pow2, Z.shiftr_div_pow2 by lia. dlia.
Qed.

Lemma packed_range d s : 0 <= Z.lor (wrap_u 8 (Z.shiftl s 4)) (Z.land d 15) < 256.
Proof.
  pose proof (wrap_u_range 8 (Z.shiftl s 4) ltac:(lia)) as Hs.
  assert (Hd : 0 <= Z.land d 15 < 16) by (change 15 with (Z.ones 4); rewrite Z.land_ones by lia; dlia).
  set (a := wrap_u 8 _) in *. set (b := Z.land d 15) in *.
  assert (H0 : 0 <= Z.lor a b) by (apply Z.lor_nonneg; lia). split; [done|].
  destruct (Z.eq_dec (Z.lor a b) 0) as [->|Hne]; [lia|].
  apply (Z.log2_lt_pow2 _ 8); [lia|]. rewrite Z.log2_lor by lia.
  assert (forall z, 0 <= z < 256 -> Z.log2 z < 8) as Hlog.
  { intros z Hz. destruct (Z.eq_dec z 0) as [->|]; [done|]. apply Z.log2_lt_pow2; lia. }
  apply Z.max_lub_lt; apply Hlog; lia.
Qed.

(** ** Theorems *)

(** C27. Packing and unpacking registers are inverse.  An instruction built by
    [BpfInsn::new] from [u8] fields is well formed, [dst_reg] and [src_reg] give the
    low nibble of what was passed (higher bits never leak into the other register),
    and rebuilding any well-formed instruction from its accessors is the identity. *)
Theorem register_packing_roundtrip :
  (forall c d s o k, in_u 8 c = true -> in_u 8 d = true -> in_u 8 s = true ->
     in_s 16 o = true -> in_s 32 k = true ->
     let i := new c d s o k in
     insn_wf i = true /\ dst_reg i = d mod 16 /\ src_reg i = s mod 16)
  /\ (forall i, insn_wf i = true -> new (code i) (dst_reg i) (src_reg i) (off i) (imm i) = i).
Proof.
  split.
  - intros c d s o k Hc Hd Hs Ho Hk. cbv zeta.
    split; [|split; [apply dst_reg_new|apply src_reg_new]].
    unfold insn_wf. cbn [code off imm new]. rewrite Hc, Ho, Hk, !andb_true_r. cbn [andb].
    unfold in_u. pose proof (packed_range d s). cbn [regs new]. lia.
  - intros [c r o k] Hwf. unfold insn_wf, in_u in Hwf. cbn [code regs off imm] in Hwf.
    unfold new, dst_reg, src_reg. cbn [code regs off imm]. f_equal. apply nibbles. lia.
Qed.

(** ** Rendering panics *)

(** The opcodes whose rendering computes [self.off + 1]. *)
Definition renders_target (c : Z) : bool :=
  existsb (Z.eqb c)
    [Z.lor BPF_JMP BPF_JA; Z.lor (Z.lor BPF_JMP BPF_JEQ) BPF_K; Z.lor (Z.lor BPF_JMP BPF_JNE) BPF_K;
     Z.lor (Z.lor BPF_JMP BPF_JGT) BPF_X; Z.lor (Z.lor BPF_JMP BPF_JLT) BPF_K;
     Z.lor (Z.lor BPF_JMP BPF_JLE) BPF_K].

Section rendering.
  Context `{Arch} {E : Type}.

Lemma off_plus_1_cases i : in_s 16 (off i) = true ->
  off_plus_1 (E := E) i
  = if off i =? 32767 then if overflow_checks then Panic else Ok (-32768) else Ok (off i + 1).
Proof.
  unfold in_s. intros Ho. unfold off_plus_1. destruct (Z.eqb_spec (off i) 32767) as [->|].
  - unfold s_arith, in_s. by destruct overflow_checks.
  - apply s_arith_ok. lia.
Qed.

(** Rendering is total, except for the target of a jump at the largest offset. *)
Lemma fmt_cases i : in_s 16 (off i) = true ->
  (exists s, fmt (E := E) i = Ok s)
  /\ (renders_target (code i) && (off i =? 32767) && overflow_checks) = false
  \/ fmt (E := E) i = Panic
  /\ (renders_target (code i) && (off i =? 32767) && overflow_checks) = true.
Proof.
  intros Ho. unfold fmt, renders_target. rewrite !off_plus_1_cases by done.
  cbn [existsb].
  repeat match goal with
  | |- context [code i =? ?c] =>
      destruct (Z.eqb_spec (code i) c) as [Heq|_];
      [ rewrite ?Heq; cbn [Z.eqb Z.lor Pos.lor Pos.eqb orb andb BPF_JMP BPF_JLE BPF_K];
        destruct (off i =? 32767), overflow_checks; cbn; eauto |]
  end.
  cbn. eauto.
Qed.

Lemma format_lines_ok index program :
  Forall (fun i => exists s, fmt (E := E) i = Ok s) program ->
  exists lines, format_lines (E := E) index program = Ok lines
    /\ length lines = length program
    /\ forall k i, program !! k = Some i -> exists s, fmt (E := E) i = Ok s
         /\ lines !! k = Some (fmt_04 (index + Z.of_nat k) +:+ ": " +:+ s)%string.
Proof.
  intros Hall. revert index. induction Hall as [|i program [s Hs] _ IH]; intros index.
  { by exists []. }
  destruct (IH (index + 1)) as (lines & Hl & Hlen & Hat).
  exists ((fmt_04 index +:+ ": " +:+ s)%string :: lines). cbn [format_lines].
  rewrite Hs, Ok_bind, Hl. split_and!; [done|by cbn; f_equal|].
  intros [|k] i' Hk; cbn in Hk.
  - simplify_eq. exists s. by rewrite Z.add_0_r.
  - destruct (Hat _ _ Hk) as (s' & ? & Hk'). exists s'. split; [done|].
    etransitivity; [exact Hk'|]. feq.
Qed.

Lemma format_lines_panic index program i :
  Forall (fun i => in_s 16 (off i) = true) program -> i ∈ program -> fmt (E := E) i = Panic ->
  format_lines (E := E) index program = Panic.
Proof.
  intros Hwf. revert index. induction Hwf as [|j program Hj Hwf IH]; intros index Hin Hp.
  { by apply elem_of_nil in Hin. }
  cbn [format_lines]. destruct (fmt_cases j Hj) as [[[s Hs] _]|[-> _]]; [|done].
  rewrite Hs, Ok_bind. apply elem_of_cons in Hin as [->|Hin]; [congruence|]. by rewrite IH.
Qed.

(** C26. A listing is either complete, one numbered line per instruction in order, or
    it does not exist.  In a build with overflow checks [format_program] panics
    exactly when some instruction is one of the rendered jumps and has the largest
    offset, 32767, whose target [off + 1] is not an [i16]; in a build without them
    it never panics. *)
Theorem format_program_spec program :
  Forall (fun i => insn_wf i = true) program ->
  match format_program (E := E) program with
  | Ok text =>
      (program = [] /\ text = "# empty program"%string
       \/ program <> [] /\ exists lines, text = join newline lines
            /\ length lines = length program
            /\ forall k i, program !! k = Some i -> exists s, fmt (E := E) i = Ok s
                 /\ lines !! k = Some (fmt_04 (Z.of_nat k) +:+ ": " +:+ s)%string)
      /\ (overflow_checks = true -> forall i, i ∈ program ->
            renders_target (code i) = true -> off i <> 32767)
  | Panic => overflow_checks = true
      /\ exists i, i ∈ program /\ renders_target (code i) = true /\ off i = 32767
  | Err _ | OutOfFuel => False
  end.
Proof.
  intros Hwf.
  assert (Hoff : Forall (fun i => in_s 16 (off i) = true) program).
  { eapply Forall_impl; [exact Hwf|]. intros i Hi. unfold insn_wf in Hi.
    destruct (in_s 16 (off i)); [done|]. by rewrite !andb_false_r in Hi. }
  destruct (existsb (fun i => renders_target (code i) && (off i =? 32767) && overflow_checks)
              program) eqn:He.
  - apply existsb_exists in He as (i & Hin & Hi). apply list_elem_of_In in Hin.
    pose proof (proj1 (Forall_forall _ _) Hoff i Hin) as Hio.
    destruct (fmt_cases i Hio) as [[_ ?]|[Hp _]]; [congruence|].
    pose proof (format_lines_panic 0 program i Hoff Hin Hp) as Hl.
    destruct program as [|j program]; [done|]. unfold format_program. rewrite Hl.
    change (mbind _ Panic) with (@Panic E string). cbv iota.
    apply andb_true_iff in Hi as [[??]%andb_true_iff ?].
    split; [done|]. exists i. split_and!; [done|done|by apply Z.eqb_eq].
  - assert (Hok : Forall (fun i => exists s, fmt (E := E) i = Ok s) program
        /\ (overflow_checks = true -> forall i, i ∈ program ->
              renders_target (code i) = true -> off i <> 32767)).
    { rewrite <- not_true_iff_false, existsb_exists in He. split.
      - apply Forall_forall. intros i Hin. pose proof (proj1 (Forall_forall _ _) Hoff i Hin) as Hio.
        destruct (fmt_cases i Hio) as [[? _]|[_ Hp]]; [done|]. destruct He. exists i.
        split; [by apply list_elem_of_In|done].
      - intros Ho i Hin Hr Hi. destruct He. exists i. split; [by apply list_elem_of_In|].
        by rewrite Hr, Hi, Ho. }
    destruct Hok as [Hok Hno]. destruct (format_lines_ok 0 program Hok) as (lines & Hl & Hlen & Hat).
    destruct program as [|j program]; [split; [by left|done]|]. unfold format_program.
    rewrite Hl, Ok_bind. split; [right|done]. split; [done|]. by exists lines.
Qed.
End rendering.

(** ** Witnesses *)

(** The examples of the documentation and of the unit tests. *)
Example format_program_example :
  format_program (H := arch64_debug) (E := Empty_set)
    [alu64_imm BPF_MOV R0 1; jmp_imm BPF_JNE R7 255 3; jmp_reg BPF_JGT R6 R3 8;
     ldx_mem BPF_W R2 R1 4; new 0xff R1 R2 (-1) 42; exit]
  = Ok ("0000: r0 = 1" +:+ newline +:+ "0001: if r7 != 255 goto +4" +:+ newline
        +:+ "0002: if r6 > r3 goto +9" +:+ newline +:+ "0003: r2 = *(u32 *)(r1 + 4)" +:+ newline
        +:+ "0004: code=0xff dst=r1 src=r2 off=-1 imm=42" +:+ newline +:+ "0005: exit")%string.
Proof. vm_compute. reflexivity. Qed.

Example far_jump_panics :
  format_program (H := arch64_debug) (E := Empty_set) [jmp_imm BPF_JA R0 0 32767; exit] = Panic
  /\ format_program (H := arch64_release) (E := Empty_set) [jmp_imm BPF_JA R0 0 32767]
     = Ok "0000: goto -32768"%string.
Proof. split; vm_compute; reflexivity. Qed.

Lemma format_program_spec_witness :
  exists i, i ∈ [jmp_imm BPF_JA R0 0 32767; exit]
    /\ renders_target (code i) = true /\ off i = 32767.
Proof.
  pose proof (format_program_spec (H := arch64_debug) (E := Empty_set)
    [jmp_imm BPF_JA R0 0 32767; exit] ltac:(repeat constructor)) as Hs.
  rewrite (proj1 far_jump_panics) in Hs. exact (proj2 Hs).
Defined.

Lemma register_packing_roundtrip_witness :
  let i := new (Z.lor (Z.lor BPF_ALU64 BPF_ADD) BPF_X) R3 R7 2 0 in
  (insn_wf i = true /\ dst_reg i = R3 mod 16 /\ src_reg i = R7 mod 16)
  /\ new (code i) (dst_reg i) (src_reg i) (off i) (imm i) = i.
Proof.
  split; [by apply (proj1 register_packing_roundtrip)|].
  by apply (proj2 register_packing_roundtrip).
Defined.
