(* ===== verification/Machine.v ===== *)
(** * The eBPF machine the compiled programs run on

    The kernel's eBPF virtual machine is not part of the crate.  [BpfIsa] states
    what the generated programs rely on: the documented effect (RFC 9669, the BPF
    instruction set) of each instruction form the compiler emits, as laws of an
    abstract [step] function.  The correctness theorems of the compiler are proved
    against this interface.  [Reference] is an executable machine that satisfies
    it, so the laws are consistent and the theorems can be run.

    [Interp] is the interpreter the crate's own tests use for character-class
    programs (src/tests/unit/compiler.rs, [run_char_class]), with the proof that
    its steps are those of any [BpfIsa] machine on the programs it accepts. *)

From S2P Require Import Prelude Assembler.

(** ** Machine states *)

(** A register file maps a register number to its 64-bit contents. *)
Definition regfile : Type := Z -> Z.

Definition set_reg (rs : regfile) (r v : Z) : regfile :=
  fun q => if q =? r then v else rs q.

Lemma set_reg_eq rs r v : set_reg rs r v r = v.
Proof. unfold set_reg. by rewrite Z.eqb_refl. Qed.

Lemma set_reg_ne rs r q v : q <> r -> set_reg rs r v q = rs q.
Proof. intros. unfold set_reg. by rewrite (proj2 (Z.eqb_neq q r)). Qed.

(** The readable memory: [mem n a] is the value of the [n] bytes at address [a],
    or [None] when they may not be read. *)
Definition memory : Type := Z -> Z -> option Z.

Record cpu := mkCpu { pc : Z; rf : regfile }.

(** The effect of one instruction. *)
Inductive outcome : Type :=
| Next (c : cpu)
| Done (r0 : Z)
| Fault.

Definition fetch (prog : list BpfInsn) (pc : Z) : option BpfInsn :=
  if 0 <=? pc then prog !! Z.to_nat pc else None.

(** 64-bit values: an immediate is sign extended. *)
Definition u64 (z : Z) : Z := z mod 2 ^ 64.

(** Bytes read by a load of a given size. *)
Definition size_bytes (size : Z) : Z :=
  if size =? BPF_B then 1 else if size =? BPF_H then 2 else if size =? BPF_W then 4 else 8.

Definition jump_to (c : cpu) (taken : bool) (o : Z) : outcome :=
  Next (mkCpu (if taken then pc c + 1 + o else pc c + 1) (rf c)).

Definition write_reg (c : cpu) (r v : Z) : outcome :=
  Next (mkCpu (pc c + 1) (set_reg (rf c) r v)).

(** ** The instruction set interface *)

(** The laws are stated for the instruction [i] at the program counter. *)
Class BpfIsa (step : memory -> list BpfInsn -> cpu -> outcome) : Prop := {
  isa_exit : forall mem prog c i,
    fetch prog (pc c) = Some i -> code i = Z.lor BPF_JMP BPF_EXIT ->
    step mem prog c = Done (rf c R0);
  isa_ldx : forall mem prog c i size,
    fetch prog (pc c) = Some i ->
    size ∈ [BPF_B; BPF_H; BPF_W; BPF_DW] ->
    code i = Z.lor (Z.lor BPF_LDX BPF_MEM) size ->
    step mem prog c =
      match mem (size_bytes size) (u64 (rf c (src_reg i) + off i)) with
      | Some v => write_reg c (dst_reg i) v
      | None => Fault
      end;
  isa_mov_k : forall mem prog c i,
    fetch prog (pc c) = Some i -> code i = Z.lor (Z.lor BPF_ALU64 BPF_MOV) BPF_K ->
    step mem prog c = write_reg c (dst_reg i) (u64 (imm i));
  isa_mov_x : forall mem prog c i,
    fetch prog (pc c) = Some i -> code i = Z.lor (Z.lor BPF_ALU64 BPF_MOV) BPF_X ->
    step mem prog c = write_reg c (dst_reg i) (rf c (src_reg i));
  isa_add_k : forall mem prog c i,
    fetch prog (pc c) = Some i -> code i = Z.lor (Z.lor BPF_ALU64 BPF_ADD) BPF_K ->
    step mem prog c = write_reg c (dst_reg i) (u64 (rf c (dst_reg i) + imm i));
  isa_add_x : forall mem prog c i,
    fetch prog (pc c) = Some i -> code i = Z.lor (Z.lor BPF_ALU64 BPF_ADD) BPF_X ->
    step mem prog c = write_reg c (dst_reg i) (u64 (rf c (dst_reg i) + rf c (src_reg i)));
  isa_ja : forall mem prog c i,
    fetch prog (pc c) = Some i -> code i = Z.lor BPF_JMP BPF_JA ->
    step mem prog c = jump_to c true (off i);
  isa_jne_k : forall mem prog c i,
    fetch prog (pc c) = Some i -> code i = Z.lor (Z.lor BPF_JMP BPF_JNE) BPF_K ->
    step mem prog c = jump_to c (negb (rf c (dst_reg i) =? u64 (imm i))) (off i);
  isa_jlt_k : forall mem prog c i,
    fetch prog (pc c) = Some i -> code i = Z.lor (Z.lor BPF_JMP BPF_JLT) BPF_K ->
    step mem prog c = jump_to c (rf c (dst_reg i) <? u64 (imm i)) (off i);
  isa_jle_k : forall mem prog c i,
    fetch prog (pc c) = Some i -> code i = Z.lor (Z.lor BPF_JMP BPF_JLE) BPF_K ->
    step mem prog c = jump_to c (rf c (dst_reg i) <=? u64 (imm i)) (off i);
  isa_jgt_x : forall mem prog c i,
    fetch prog (pc c) = Some i -> code i = Z.lor (Z.lor BPF_JMP BPF_JGT) BPF_X ->
    step mem prog c = jump_to c (rf c (src_reg i) <? rf c (dst_reg i)) (off i);
}.

(** ** Runs *)

(** How a run of at most [fuel] instructions ends. *)
Inductive run_result : Type :=
| Returned (r0 : Z)
| Faulted
| Running (c : cpu).

Section run.
  Context (step : memory -> list BpfInsn -> cpu -> outcome).

Fixpoint run (fuel : nat) (mem : memory) (prog : list BpfInsn) (c : cpu) : run_result :=
  match fuel with
  | O => Running c
  | S fuel =>
      match step mem prog c with
      | Next c' => run fuel mem prog c'
      | Done v => Returned v
      | Fault => Faulted
      end
  end.

(** [n] instructions lead from [c] to [c']. *)
Definition steps (n : nat) (mem : memory) (prog : list BpfInsn) (c c' : cpu) : Prop :=
  run n mem prog c = Running c'.

Lemma run_add n m mem prog c c' :
  steps n mem prog c c' -> run (n + m) mem prog c = run m mem prog c'.
Proof.
  unfold steps. revert c. induction n as [|n IH]; cbn; intros c Hc.
  - by injection Hc as ->.
  - destruct (step mem prog c); naive_solver.
Qed.

(** A run that has returned is not affected by more fuel. *)
Lemma run_mono n m mem prog c v :
  run n mem prog c = Returned v -> (n <= m)%nat -> run m mem prog c = Returned v.
Proof.
  revert m c. induction n as [|n IH]; cbn; intros m c Hr Hm; [done|].
  destruct m as [|m]; [lia|]. cbn. destruct (step mem prog c); try done.
  apply IH; [done|lia].
Qed.

Lemma steps_one mem prog c c' : step mem prog c = Next c' -> steps 1 mem prog c c'.
Proof. unfold steps. cbn. by intros ->. Qed.

Lemma steps_trans n m mem prog c1 c2 c3 :
  steps n mem prog c1 c2 -> steps m mem prog c2 c3 -> steps (n + m) mem prog c1 c3.
Proof. intros H1 H2. unfold steps. by rewrite (run_add _ _ _ _ _ _ H1). Qed.

Lemma steps_run_return n m mem prog c c' v :
  steps n mem prog c c' -> run m mem prog c' = Returned v ->
  run (n + m) mem prog c = Returned v.
Proof. intros H1 H2. by rewrite (run_add _ _ _ _ _ _ H1). Qed.
End run.

(** [returns step b mem prog c v]: within [b] instructions the run from [c] exits
    with [v] in [R0], and so reads no memory outside [mem]. *)
Definition returns step (b : nat) mem prog c (v : Z) : Prop :=
  run step b mem prog c = Returned v.

Section returns_lemmas.
  Context {step : memory -> list BpfInsn -> cpu -> outcome}.
  Context {mem : memory} {prog : list BpfInsn}.

Lemma returns_mono b b' c v :
  returns step b mem prog c v -> (b <= b')%nat -> returns step b' mem prog c v.
Proof. apply run_mono. Qed.

Lemma returns_exit b c v :
  step mem prog c = Done v -> returns step (S b) mem prog c v.
Proof. unfold returns. cbn. by intros ->. Qed.

Lemma returns_step b c c' v :
  step mem prog c = Next c' -> returns step b mem prog c' v ->
  returns step (S b) mem prog c v.
Proof. unfold returns. cbn. by intros ->. Qed.

Lemma returns_steps n b c c' v :
  steps step n mem prog c c' -> returns step b mem prog c' v ->
  returns step (n + b) mem prog c v.
Proof. apply steps_run_return. Qed.

Lemma steps_S n c c' c'' :
  step mem prog c = Next c' -> steps step n mem prog c' c'' ->
  steps step (S n) mem prog c c''.
Proof. unfold steps. cbn. by intros ->. Qed.
End returns_lemmas.

(** Two register files that agree except on [r]. *)
Definition same_except (r : Z) (rs rs' : regfile) : Prop :=
  forall q, q <> r -> rs' q = rs q.

Lemma same_except_refl r rs : same_except r rs rs.
Proof. by intros q _. Qed.

Lemma same_except_set r rs rs' v :
  same_except r (set_reg rs r v) rs' -> same_except r rs rs'.
Proof. intros Hs q Hq. rewrite Hs by done. by apply set_reg_ne. Qed.

Lemma u64_small z : 0 <= z < 2 ^ 64 -> u64 z = z.
Proof. apply Z.mod_small. Qed.

(** Evaluates the register reads of an updated register file. *)
Ltac reg := repeat first [ rewrite set_reg_eq | rewrite set_reg_ne by discriminate ].

(** ** A reference machine *)

Module Reference.

Definition step (mem : memory) (prog : list BpfInsn) (c : cpu) : outcome :=
  match fetch prog (pc c) with
  | None => Fault
  | Some i =>
      let d := rf c (dst_reg i) in
      let s := rf c (src_reg i) in
      let k := u64 (imm i) in
      let load n :=
        match mem n (u64 (s + off i)) with
        | Some v => write_reg c (dst_reg i) v
        | None => Fault
        end in
      if code i =? Z.lor BPF_JMP BPF_EXIT then Done (rf c R0)
      else if code i =? Z.lor (Z.lor BPF_LDX BPF_MEM) BPF_B then load 1
      else if code i =? Z.lor (Z.lor BPF_LDX BPF_MEM) BPF_H then load 2
      else if code i =? Z.lor (Z.lor BPF_LDX BPF_MEM) BPF_W then load 4
      else if code i =? Z.lor (Z.lor BPF_LDX BPF_MEM) BPF_DW then load 8
      else if code i =? Z.lor (Z.lor BPF_ALU64 BPF_MOV) BPF_K then
        write_reg c (dst_reg i) k
      else if code i =? Z.lor (Z.lor BPF_ALU64 BPF_MOV) BPF_X then
        write_reg c (dst_reg i) s
      else if code i =? Z.lor (Z.lor BPF_ALU64 BPF_ADD) BPF_K then
        write_reg c (dst_reg i) (u64 (d + imm i))
      else if code i =? Z.lor (Z.lor BPF_ALU64 BPF_ADD) BPF_X then
        write_reg c (dst_reg i) (u64 (d + s))
      else if code i =? Z.lor BPF_JMP BPF_JA then jump_to c true (off i)
      else if code i =? Z.lor (Z.lor BPF_JMP BPF_JNE) BPF_K then
        jump_to c (negb (d =? k)) (off i)
      else if code i =? Z.lor (Z.lor BPF_JMP BPF_JLT) BPF_K then
        jump_to c (d <? k) (off i)
      else if code i =? Z.lor (Z.lor BPF_JMP BPF_JLE) BPF_K then
        jump_to c (d <=? k) (off i)
      else if code i =? Z.lor (Z.lor BPF_JMP BPF_JGT) BPF_X then
        jump_to c (s <? d) (off i)
      else Fault
  end.

#[export] Instance isa : BpfIsa step.
Proof.
  split; intros mem prog c i.
  2: { intros size Hf Hs Hc. unfold step. rewrite Hf, Hc.
       repeat (apply elem_of_cons in Hs as [->|Hs]; [done|]). by apply elem_of_nil in Hs. }
  all: intros Hf Hc; unfold step; by rewrite Hf, Hc.
Qed.

End Reference.

(** ** Step lemmas for the instructions the compiler emits *)

(** Fetching inside a program given as segments. *)
Lemma fetch_middle (l k : list BpfInsn) i p :
  p = vec_len l -> fetch (l ++ i :: k) p = Some i.
Proof.
  intros ->. unfold fetch, vec_len. rewrite (proj2 (Z.leb_le _ _)) by lia.
  rewrite Nat2Z.id. by apply list_lookup_middle.
Qed.

Lemma fetch_app_r (l k : list BpfInsn) p :
  vec_len l <= p -> fetch (l ++ k) p = fetch k (p - vec_len l).
Proof.
  intros Hp. unfold fetch, vec_len in *.
  rewrite !(proj2 (Z.leb_le _ _)) by lia. rewrite lookup_app_r by lia. f_equal. lia.
Qed.

Lemma fetch_app_l (l k : list BpfInsn) p i :
  fetch l p = Some i -> fetch (l ++ k) p = Some i.
Proof. unfold fetch. destruct (0 <=? p); [|done]. apply lookup_app_l_Some. Qed.

Section step_lemmas.
  Context {step : memory -> list BpfInsn -> cpu -> outcome} {Hisa : BpfIsa step}.
  Context (mem : memory) (prog : list BpfInsn) (p : Z) (rs : regfile).

Lemma step_exit :
  fetch prog p = Some exit -> step mem prog (mkCpu p rs) = Done (rs R0).
Proof. intros Hf. by apply (isa_exit _ _ (mkCpu p rs) _ Hf). Qed.


Lemma step_mov_k d k :
  fetch prog p = Some (alu64_imm BPF_MOV d k) -> 0 <= d < 16 ->
  step mem prog (mkCpu p rs) = Next (mkCpu (p + 1) (set_reg rs d (u64 k))).
Proof.
  intros Hf Hd. rewrite (isa_mov_k _ _ (mkCpu p rs) _ Hf eq_refl).
  unfold alu64_imm. by rewrite dst_reg_new_small.
Qed.

Lemma step_mov_x d s :
  fetch prog p = Some (alu64_reg BPF_MOV d s) -> 0 <= d < 16 -> 0 <= s < 16 ->
  step mem prog (mkCpu p rs) = Next (mkCpu (p + 1) (set_reg rs d (rs s))).
Proof.
  intros Hf Hd Hs. rewrite (isa_mov_x _ _ (mkCpu p rs) _ Hf eq_refl).
  unfold alu64_reg. by rewrite dst_reg_new_small, src_reg_new_small.
Qed.

Lemma step_add_k d k :
  fetch prog p = Some (alu64_imm BPF_ADD d k) -> 0 <= d < 16 ->
  step mem prog (mkCpu p rs) = Next (mkCpu (p + 1) (set_reg rs d (u64 (rs d + k)))).
Proof.
  intros Hf Hd. rewrite (isa_add_k _ _ (mkCpu p rs) _ Hf eq_refl).
  unfold alu64_imm. by rewrite dst_reg_new_small.
Qed.

Lemma step_add_x d s :
  fetch prog p = Some (alu64_reg BPF_ADD d s) -> 0 <= d < 16 -> 0 <= s < 16 ->
  step mem prog (mkCpu p rs) = Next (mkCpu (p + 1) (set_reg rs d (u64 (rs d + rs s)))).
Proof.
  intros Hf Hd Hs. rewrite (isa_add_x _ _ (mkCpu p rs) _ Hf eq_refl).
  unfold alu64_reg. by rewrite dst_reg_new_small, src_reg_new_small.
Qed.

Lemma step_ldx size d s o v :
  fetch prog p = Some (ldx_mem size d s o) -> size ∈ [BPF_B; BPF_H; BPF_W; BPF_DW] ->
  0 <= d < 16 -> 0 <= s < 16 -> mem (size_bytes size) (u64 (rs s + o)) = Some v ->
  step mem prog (mkCpu p rs) = Next (mkCpu (p + 1) (set_reg rs d v)).
Proof.
  intros Hf Hsz Hd Hs Hm. rewrite (isa_ldx _ _ (mkCpu p rs) _ _ Hf Hsz eq_refl).
  unfold ldx_mem. rewrite dst_reg_new_small, src_reg_new_small by done. cbn. by rewrite Hm.
Qed.

Lemma step_ja d k o :
  fetch prog p = Some (jmp_imm BPF_JA d k o) ->
  step mem prog (mkCpu p rs) = Next (mkCpu (p + 1 + o) rs).
Proof. intros Hf. by rewrite (isa_ja _ _ (mkCpu p rs) _ Hf eq_refl). Qed.

Lemma step_jne_k d k o :
  fetch prog p = Some (jmp_imm BPF_JNE d k o) -> 0 <= d < 16 ->
  step mem prog (mkCpu p rs)
  = Next (mkCpu (if rs d =? u64 k then p + 1 else p + 1 + o) rs).
Proof.
  intros Hf Hd. rewrite (isa_jne_k _ _ (mkCpu p rs) _ Hf eq_refl).
  unfold jmp_imm. rewrite dst_reg_new_small by done. unfold jump_to. cbn.
  by destruct (rs d =? u64 k).
Qed.

Lemma step_jlt_k d k o :
  fetch prog p = Some (jmp_imm BPF_JLT d k o) -> 0 <= d < 16 ->
  step mem prog (mkCpu p rs)
  = Next (mkCpu (if rs d <? u64 k then p + 1 + o else p + 1) rs).
Proof.
  intros Hf Hd. rewrite (isa_jlt_k _ _ (mkCpu p rs) _ Hf eq_refl).
  unfold jmp_imm. by rewrite dst_reg_new_small.
Qed.

Lemma step_jle_k d k o :
  fetch prog p = Some (jmp_imm BPF_JLE d k o) -> 0 <= d < 16 ->
  step mem prog (mkCpu p rs)
  = Next (mkCpu (if rs d <=? u64 k then p + 1 + o else p + 1) rs).
Proof.
  intros Hf Hd. rewrite (isa_jle_k _ _ (mkCpu p rs) _ Hf eq_refl).
  unfold jmp_imm. by rewrite dst_reg_new_small.
Qed.

Lemma step_jgt_x d s o :
  fetch prog p = Some (jmp_reg BPF_JGT d s o) -> 0 <= d < 16 -> 0 <= s < 16 ->
  step mem prog (mkCpu p rs)
  = Next (mkCpu (if rs s <? rs d then p + 1 + o else p + 1) rs).
Proof.
  intros Hf Hd Hs. rewrite (isa_jgt_x _ _ (mkCpu p rs) _ Hf eq_refl).
  unfold jmp_reg. by rewrite dst_reg_new_small, src_reg_new_small.
Qed.
End step_lemmas.

(** The two-instruction program that returns a constant. *)
Lemma const_program_run {step} `{BpfIsa step} mem rs k :
  returns step 2 mem [alu64_imm BPF_MOV R0 k; exit] (mkCpu 0 rs) (u64 k).
Proof.
  eapply returns_step; [by apply (step_mov_k _ _ _ _ R0 k)|].
  apply returns_exit. rewrite step_exit by done. by reg.
Qed.
