(* ===== verification/Utf8.v ===== *)
(** * UTF-8 (the parts of [std::str] the crate uses)

    [from_utf8] is the validation of [std::str::from_utf8], returning the scalar
    values of the text; [encode] is the UTF-8 encoding.  The theorems show that
    the accepted byte strings are exactly the encodings of Unicode scalar values. *)

From S2P Require Import Prelude.

(** ** Validation *)

(** A continuation byte [10xxxxxx]. *)
Definition is_cont (b : Z) : bool := (0x80 <=? b) && (b <=? 0xBF).

(** The admissible first two bytes of a three-byte and of a four-byte sequence:
    they exclude overlong forms, surrogates and values above U+10FFFF. *)
Definition lead3 (b0 b1 : Z) : bool :=
  ((b0 =? 0xE0) && (0xA0 <=? b1) && (b1 <=? 0xBF))
  || ((0xE1 <=? b0) && (b0 <=? 0xEC) && is_cont b1)
  || ((b0 =? 0xED) && (0x80 <=? b1) && (b1 <=? 0x9F))
  || ((0xEE <=? b0) && (b0 <=? 0xEF) && is_cont b1).

Definition lead4 (b0 b1 : Z) : bool :=
  ((b0 =? 0xF0) && (0x90 <=? b1) && (b1 <=? 0xBF))
  || ((0xF1 <=? b0) && (b0 <=? 0xF3) && is_cont b1)
  || ((b0 =? 0xF4) && (0x80 <=? b1) && (b1 <=? 0x8F)).

Fixpoint from_utf8 (l : list Z) : option (list Z) :=
  match l with
  | [] => Some []
  | b0 :: l1 =>
      if b0 <? 0x80 then cons b0 <$> from_utf8 l1
      else match l1 with
      | [] => None
      | b1 :: l2 =>
          if (0xC2 <=? b0) && (b0 <=? 0xDF) && is_cont b1 then
            cons ((b0 - 0xC0) * 64 + (b1 - 0x80)) <$> from_utf8 l2
          else match l2 with
          | [] => None
          | b2 :: l3 =>
              if lead3 b0 b1 && is_cont b2 then
                cons ((b0 - 0xE0) * 4096 + (b1 - 0x80) * 64 + (b2 - 0x80)) <$> from_utf8 l3
              else match l3 with
              | [] => None
              | b3 :: l4 =>
                  if lead4 b0 b1 && is_cont b2 && is_cont b3 then
                    cons ((b0 - 0xF0) * 262144 + (b1 - 0x80) * 4096
                          + (b2 - 0x80) * 64 + (b3 - 0x80)) <$> from_utf8 l4
                  else None
              end
          end
      end
  end.

(** ** Encoding *)

(** A Unicode scalar value (a Rust [char]). *)
Definition is_scalar (c : Z) : bool :=
  ((0 <=? c) && (c <? 0xD800)) || ((0xE000 <=? c) && (c <=? 0x10FFFF)).

Definition encode_char (c : Z) : list Z :=
  if c <? 0x80 then [c]
  else if c <? 0x800 then [0xC0 + c / 64; 0x80 + c mod 64]
  else if c <? 0x10000 then [0xE0 + c / 4096; 0x80 + c / 64 mod 64; 0x80 + c mod 64]
  else [0xF0 + c / 262144; 0x80 + c / 4096 mod 64; 0x80 + c / 64 mod 64; 0x80 + c mod 64].

Definition encode (s : list Z) : list Z := s ≫= encode_char.

(** ** Round trips *)

Lemma from_utf8_encode_char c l :
  is_scalar c = true -> from_utf8 (encode_char c ++ l) = cons c <$> from_utf8 l.
Proof.
  intros Hc. unfold is_scalar in Hc. unfold encode_char.
  destruct (Z.ltb_spec c 0x80); [|destruct (Z.ltb_spec c 0x800);
    [|destruct (Z.ltb_spec c 0x10000)]]; cbn [app from_utf8].
  - by rewrite (proj2 (Z.ltb_lt _ _)).
  - rewrite (proj2 (Z.ltb_ge _ _)) by dlia.
    replace (_ && _ && is_cont _) with true by (unfold is_cont; dlia).
    do 2 f_equal. dlia.
  - rewrite (proj2 (Z.ltb_ge _ _)) by dlia.
    replace ((194 <=? _) && _ && _) with false by dlia.
    replace (lead3 _ _ && _) with true by (unfold lead3, is_cont; dlia).
    do 2 f_equal. dlia.
  - rewrite (proj2 (Z.ltb_ge _ _)) by dlia.
    replace ((194 <=? _) && _ && _) with false by dlia.
    replace (lead3 _ _ && _) with false by (unfold lead3, is_cont; dlia).
    replace (lead4 _ _ && _ && _) with true by (unfold lead4, is_cont; dlia).
    do 2 f_equal. dlia.
Qed.

Lemma from_utf8_encode s :
  Forall (fun c => is_scalar c = true) s -> from_utf8 (encode s) = Some s.
Proof.
  induction 1 as [|c s Hc _ IH]; [done|].
  cbn. rewrite from_utf8_encode_char by done. unfold encode in IH. by rewrite IH.
Qed.

(** Each accepted sequence is the encoding of the scalar value it decodes to. *)
Lemma encode_char_2 b0 b1 :
  (0xC2 <=? b0) && (b0 <=? 0xDF) && is_cont b1 = true ->
  let c := (b0 - 0xC0) * 64 + (b1 - 0x80) in
  encode_char c = [b0; b1] /\ is_scalar c = true.
Proof.
  intros Hb c. unfold is_cont in Hb. subst c. split; [|unfold is_scalar; lia].
  unfold encode_char. rewrite (proj2 (Z.ltb_ge _ _)), (proj2 (Z.ltb_lt _ _)) by lia.
  f_equal; [dlia|f_equal; dlia].
Qed.

Lemma encode_char_3 b0 b1 b2 :
  lead3 b0 b1 && is_cont b2 = true ->
  let c := (b0 - 0xE0) * 4096 + (b1 - 0x80) * 64 + (b2 - 0x80) in
  encode_char c = [b0; b1; b2] /\ is_scalar c = true.
Proof.
  intros Hb c. unfold lead3, is_cont in Hb. subst c. split; [|unfold is_scalar; lia].
  unfold encode_char.
  rewrite !(proj2 (Z.ltb_ge _ _)), (proj2 (Z.ltb_lt _ _)) by lia.
  repeat (f_equal; [dlia|]). f_equal; dlia.
Qed.

Lemma encode_char_4 b0 b1 b2 b3 :
  lead4 b0 b1 && is_cont b2 && is_cont b3 = true ->
  let c := (b0 - 0xF0) * 262144 + (b1 - 0x80) * 4096 + (b2 - 0x80) * 64 + (b3 - 0x80) in
  encode_char c = [b0; b1; b2; b3] /\ is_scalar c = true.
Proof.
  intros Hb c. unfold lead4, is_cont in Hb. subst c. split; [|unfold is_scalar; lia].
  unfold encode_char. rewrite !(proj2 (Z.ltb_ge _ _)) by lia.
  repeat (f_equal; [dlia|]). f_equal; dlia.
Qed.

(** [from_utf8] accepts only encodings of scalar values. *)
Lemma from_utf8_sound n l s :
  (length l <= n)%nat -> Forall is_byte l -> from_utf8 l = Some s ->
  encode s = l /\ Forall (fun c => is_scalar c = true) s.
Proof.
  revert l s. induction n as [|n IH]; intros l s Hn Hl Hs.
  { destruct l; [by simplify_eq/=|cbn in Hn; lia]. }
  assert (Hstep : forall c p l' s', from_utf8 l' = Some s' -> l = p ++ l' ->
    p <> [] -> encode_char c = p -> is_scalar c = true -> s = c :: s' ->
    encode s = l /\ Forall (fun c => is_scalar c = true) s).
  { intros c p l' s' Hs' -> Hp Hc Hsc ->. apply Forall_app in Hl as [_ Hl].
    destruct (IH l' s') as [He Hf]; [|done..|].
    - rewrite length_app in Hn. destruct p; [done|cbn in Hn; lia].
    - split; [|by constructor]. cbn. rewrite Hc. f_equal. exact He. }
  destruct l as [|b0 l1]; [by simplify_eq/=|]. cbn [from_utf8] in Hs.
  apply Forall_cons in Hl as Hb0. destruct Hb0 as [Hb0 _]. unfold is_byte in Hb0.
  destruct (Z.ltb_spec b0 0x80).
  { apply fmap_Some in Hs as (s' & Hs' & ->). apply (Hstep b0 [b0] l1 s'); try done.
    - unfold encode_char. by rewrite (proj2 (Z.ltb_lt _ _)).
    - unfold is_scalar. lia. }
  destruct l1 as [|b1 l2]; [done|]. destruct (_ && is_cont b1) eqn:E2.
  { apply fmap_Some in Hs as (s' & Hs' & ->).
    destruct (encode_char_2 b0 b1 E2). by eapply (Hstep _ [b0; b1] l2 s'). }
  destruct l2 as [|b2 l3]; [done|]. destruct (lead3 b0 b1 && _) eqn:E3.
  { apply fmap_Some in Hs as (s' & Hs' & ->).
    destruct (encode_char_3 b0 b1 b2 E3). by eapply (Hstep _ [b0; b1; b2] l3 s'). }
  destruct l3 as [|b3 l4]; [done|]. destruct (lead4 b0 b1 && _ && _) eqn:E4; [|done].
  apply fmap_Some in Hs as (s' & Hs' & ->).
  destruct (encode_char_4 b0 b1 b2 b3 E4). by eapply (Hstep _ [b0; b1; b2; b3] l4 s').
Qed.

(** ** ASCII *)

(** The encoding of a text is pure ASCII exactly when the text is. *)
Lemma encode_char_ascii c : is_scalar c = true ->
  existsb (fun b => 0x80 <=? b) (encode_char c) = (0x80 <=? c).
Proof.
  intros Hc. unfold is_scalar in Hc. unfold encode_char.
  destruct (Z.ltb_spec c 0x80); [cbn; lia|].
  destruct (Z.ltb_spec c 0x800); [|destruct (Z.ltb_spec c 0x10000)]; cbn; dlia.
Qed.

Lemma encode_ascii s : Forall (fun c => is_scalar c = true) s ->
  existsb (fun b => 0x80 <=? b) (encode s) = existsb (fun c => 0x80 <=? c) s.
Proof.
  induction 1 as [|c s Hc _ IH]; [done|]. cbn. unfold encode in IH.
  rewrite existsb_app, IH. by rewrite encode_char_ascii.
Qed.

Lemma from_utf8_ascii l :
  existsb (fun b => 0x80 <=? b) l = false -> from_utf8 l = Some l.
Proof.
  induction l as [|b l IH]; [done|]. cbn. intros [Hb Hl]%orb_false_iff.
  rewrite (proj2 (Z.ltb_lt _ _)) by lia. by rewrite IH.
Qed.
