(* ===== verification/Str.v ===== *)
(** * Strings (the parts of [str] and [String] the crate uses)

    A Rust [str] is the list of its scalar values.  White space, trimming, the
    printing of integers, and the lossy decoding of a byte buffer. *)

From S2P Require Import Prelude Utf8.

Definition str := list Z.

(** [char::is_ascii_digit]. *)
Definition is_ascii_digit (c : Z) : bool := (48 <=? c) && (c <=? 57).

(** [char::is_whitespace]: the Unicode property [White_Space]. *)
Definition is_whitespace (c : Z) : bool :=
  (9 <=? c) && (c <=? 13)
  || existsb (Z.eqb c) [0x20; 0x85; 0xA0; 0x1680; 0x2028; 0x2029; 0x202F; 0x205F; 0x3000]
  || (0x2000 <=? c) && (c <=? 0x200A).

Fixpoint trim_start_matches (p : Z -> bool) (s : str) : str :=
  match s with
  | [] => []
  | c :: rest => if p c then trim_start_matches p rest else s
  end.

(** [str::trim_matches] with a predicate, and [str::trim]. *)
Definition trim_matches (p : Z -> bool) (s : str) : str :=
  reverse (trim_start_matches p (reverse (trim_start_matches p s))).

Definition trim (s : str) : str := trim_matches is_whitespace s.

(** The text of [{}] of an integer. *)
Definition print (n : Z) : str := bytes (pretty n).

(** ** [Debug] of a string *)

(** The characters beyond ASCII that [Debug] writes as they are: those that are
    printable and do not extend a grapheme, by tables of the standard library that
    follow the Unicode version. *)
Class Unicode := {
  shown_as_is : Z -> bool;
}.

Definition hex_char (d : Z) : Z := if d <? 10 then 48 + d else 87 + d.

(** Lower-case hexadecimal digits; a character has at most six. *)
Fixpoint hex_digits (fuel : nat) (n : Z) : str :=
  match fuel with
  | O => []
  | S fuel => (if n <? 16 then [] else hex_digits fuel (n / 16)) ++ [hex_char (n mod 16)]
  end.

Definition escape_unicode (c : Z) : str := bytes "\u{" ++ hex_digits 6 c ++ bytes "}".

Section debug.
  Context `{Unicode}.

(** [char::escape_debug_ext] with the arguments of [<str as Debug>::fmt]. *)
Definition escape_debug (c : Z) : str :=
  if c =? 0 then bytes "\0"
  else if c =? 9 then bytes "\t"
  else if c =? 13 then bytes "\r"
  else if c =? 10 then bytes "\n"
  else if (c =? 92) || (c =? 34) then [92; c]
  else if c <? 128 then if (32 <=? c) && (c <? 127) then [c] else escape_unicode c
  else if shown_as_is c then [c] else escape_unicode c.

Definition debug_str (s : str) : str := 34 :: concat (map escape_debug s) ++ [34].
End debug.

(** [String::from_utf8_lossy]: each maximal ill-formed piece becomes U+FFFD. *)
Definition REPLACEMENT : Z := 0xFFFD.

Fixpoint from_utf8_lossy (l : list Z) : str :=
  match l with
  | [] => []
  | b0 :: l1 =>
      if b0 <? 0x80 then b0 :: from_utf8_lossy l1
      else match l1 with
      | [] => [REPLACEMENT]
      | b1 :: l2 =>
          if (0xC2 <=? b0) && (b0 <=? 0xDF) && is_cont b1 then
            (b0 - 0xC0) * 64 + (b1 - 0x80) :: from_utf8_lossy l2
          else if lead3 b0 b1 then
            match l2 with
            | [] => [REPLACEMENT]
            | b2 :: l3 =>
                if is_cont b2 then
                  (b0 - 0xE0) * 4096 + (b1 - 0x80) * 64 + (b2 - 0x80) :: from_utf8_lossy l3
                else REPLACEMENT :: from_utf8_lossy l2
            end
          else if lead4 b0 b1 then
            match l2 with
            | [] => [REPLACEMENT]
            | b2 :: l3 =>
                if is_cont b2 then
                  match l3 with
                  | [] => [REPLACEMENT]
                  | b3 :: l4 =>
                      if is_cont b3 then
                        (b0 - 0xF0) * 262144 + (b1 - 0x80) * 4096 + (b2 - 0x80) * 64 + (b3 - 0x80)
                        :: from_utf8_lossy l4
                      else REPLACEMENT :: from_utf8_lossy l3
                  end
                else REPLACEMENT :: from_utf8_lossy l2
            end
          else REPLACEMENT :: from_utf8_lossy l1
      end
  end.

(** ** Lossy decoding *)

(** Well-formed text is decoded without loss. *)
Lemma from_utf8_lossy_valid n l s :
  (length l <= n)%nat -> from_utf8 l = Some s -> from_utf8_lossy l = s.
Proof.
  revert l s. induction n as [|n IH]; intros l s Hn.
  { destruct l; [cbn; congruence|cbn in Hn; lia]. }
  destruct l as [|b0 l1]; [cbn; congruence|]. cbn [from_utf8 from_utf8_lossy length] in *.
  assert (Hcons : forall c k, (length k <= n)%nat -> cons c <$> from_utf8 k = Some s ->
    c :: from_utf8_lossy k = s).
  { intros c k Hk (s' & Hs' & ->)%fmap_Some. by rewrite (IH k s'). }
  destruct (b0 <? 0x80); [by apply Hcons; lia|].
  destruct l1 as [|b1 l2]; [done|]. cbn [length] in Hn.
  destruct ((0xC2 <=? b0) && (b0 <=? 0xDF) && is_cont b1); [by apply Hcons; lia|].
  destruct l2 as [|b2 l3]; [done|]. cbn [length] in Hn.
  destruct (lead3 b0 b1) eqn:H3; cbn [andb].
  - destruct (is_cont b2) eqn:Hc2; [by apply Hcons; lia|]. destruct l3 as [|b3 l4]; [done|].
    by rewrite andb_false_r.
  - destruct l3 as [|b3 l4]; [done|]. cbn [length] in Hn.
    destruct (lead4 b0 b1); cbn [andb]; [|done]. destruct (is_cont b2); cbn [andb]; [|done].
    destruct (is_cont b3); [|done]. by apply Hcons; lia.
Qed.

(** ** Trimming *)

Section trimming.
  Context (p : Z -> bool).

Lemma trim_start_matches_app ws s :
  Forall (fun c => p c = true) ws -> trim_start_matches p (ws ++ s) = trim_start_matches p s.
Proof. induction 1 as [|c ws Hc _ IH]; [done|]. cbn. by rewrite Hc. Qed.

Lemma trim_matches_all ws : Forall (fun c => p c = true) ws -> trim_matches p ws = [].
Proof.
  intros Hws. unfold trim_matches. rewrite <- (app_nil_r ws).
  by rewrite trim_start_matches_app.
Qed.

(** Padding is removed on both sides, and the text inside is kept. *)
Lemma trim_matches_line pre body post c e :
  Forall (fun c => p c = true) pre -> Forall (fun c => p c = true) post ->
  head body = Some c -> p c = false -> last body = Some e -> p e = false ->
  trim_matches p (pre ++ body ++ post) = body.
Proof.
  intros Hpre Hpost Hh Hc He Hl. unfold trim_matches.
  rewrite (trim_start_matches_app pre) by done.
  destruct body as [|c' body]; [done|]. injection Hh as ->.
  cbn [app trim_start_matches]. rewrite Hc, app_comm_cons, reverse_app.
  rewrite trim_start_matches_app by by apply Forall_reverse.
  apply last_Some in He as [init Hinit]. rewrite Hinit, reverse_app.
  change (reverse [e] ++ reverse init) with (e :: reverse init). cbn [trim_start_matches].
  rewrite Hl, reverse_cons, reverse_involutive. done.
Qed.
End trimming.

(** Trimming removes characters. *)
Lemma Forall_trim_start (P : Z -> Prop) p s : Forall P s -> Forall P (trim_start_matches p s).
Proof. induction 1 as [|c s Hc Hs IH]; [constructor|]. cbn. destruct (p c); [done|by constructor]. Qed.

Lemma Forall_trim (P : Z -> Prop) s : Forall P s -> Forall P (trim s).
Proof.
  intros Hs. unfold trim, trim_matches.
  by apply Forall_reverse, Forall_trim_start, Forall_reverse, Forall_trim_start.
Qed.

Lemma digit_not_whitespace c : is_ascii_digit c = true -> is_whitespace c = false.
Proof. unfold is_ascii_digit, is_whitespace. cbn [existsb]. lia. Qed.

(** ** Printed numbers *)

(** The value of a string of decimal digits, from [acc] on. *)
Definition digits_value (acc : Z) (ds : str) : Z := foldl (fun acc c => acc * 10 + (c - 48)) acc ds.

Definition digits (ds : str) : Prop := Forall (fun c => is_ascii_digit c = true) ds.

Lemma digits_value_ge acc ds : 0 <= acc -> digits ds -> acc <= digits_value acc ds.
Proof.
  intros Ha Hds. revert acc Ha.
  induction Hds as [|c ds Hc Hds IH]; intros acc Ha; [done|].
  unfold is_ascii_digit in Hc. cbn [digits_value foldl]. specialize (IH (acc * 10 + (c - 48))).
  unfold digits_value in *. lia.
Qed.

Lemma pretty_char_digit d : (d < 10)%N ->
  Z.of_N (Ascii.N_of_ascii (pretty_N_char d)) = 48 + Z.of_N d.
Proof.
  intros Hd. assert (Hin : In d (map N.of_nat (seq 0 10))).
  { apply in_map_iff. exists (N.to_nat d). split; [lia|]. apply in_seq. lia. }
  cbn in Hin. repeat destruct Hin as [<-|Hin]; done.
Qed.

Lemma pretty_go_numeral n s : digits (bytes s) ->
  digits (bytes (pretty_N_go n s))
  /\ digits_value 0 (bytes (pretty_N_go n s)) = digits_value (Z.of_N n) (bytes s)
  /\ ((0 < n)%N -> bytes (pretty_N_go n s) <> []) /\ (bytes s <> [] -> bytes (pretty_N_go n s) <> []).
Proof.
  revert s. induction (N.lt_wf_0 n) as [n _ IH]. intros s Hs.
  destruct (decide (n = 0)%N) as [->|Hn]; [rewrite pretty_N_go_0; by split_and!|].
  rewrite pretty_N_go_step by lia.
  pose proof (N.div_mod n 10 ltac:(lia)) as Hdiv. pose proof (N.mod_lt n 10 ltac:(lia)) as Hlt.
  remember (n mod 10)%N as d eqn:Hd0. clear Hd0. pose proof (pretty_char_digit d Hlt) as Hc.
  set (ch := pretty_N_char d) in *.
  destruct (IH (n / 10)%N) with (s := String ch s) as (Hd & Hv & _ & Hne).
  { apply N.div_lt; lia. }
  { cbn [bytes]. constructor; [|done]. unfold is_ascii_digit.
    lia. }
  split_and!; [done| |intros _; by apply Hne|intros _; by apply Hne].
  rewrite Hv. cbn [bytes digits_value foldl]. unfold digits_value. f_equal. rewrite Hc. lia.
Qed.

(** A printed number is a numeral of that number. *)
Lemma print_digits n :
  0 <= n -> print n <> [] /\ digits (print n) /\ digits_value 0 (print n) = n.
Proof.
  intros Hn. destruct (decide (n = 0)) as [->|Hz].
  - split_and!; [done|by repeat constructor|done].
  - assert (Hp : print n = bytes (pretty_N_go (Z.to_N n) EmptyString)) by (destruct n; (done || lia)).
    rewrite Hp. destruct (pretty_go_numeral (Z.to_N n) EmptyString) as (Hd & Hv & Hne & _); [constructor|].
    split_and!; [apply Hne; lia|done|]. rewrite Hv. cbn. lia.
Qed.


(** ** Escaped strings *)

(** The characters of an escape sequence are printable ASCII. *)
Definition printable_ascii (c : Z) : Prop := 32 <= c < 127.

Lemma hex_digits_printable fuel n : 0 <= n -> Forall printable_ascii (hex_digits fuel n).
Proof.
  revert n. induction fuel as [|fuel IH]; intros n Hn; [constructor|]. cbn [hex_digits].
  apply Forall_app_2.
  - destruct (n <? 16); [constructor|]. apply IH. dlia.
  - constructor; [|constructor]. unfold hex_char, printable_ascii. destruct (_ <? _) eqn:?; dlia.
Qed.

Lemma escape_unicode_printable c : 0 <= c -> Forall printable_ascii (escape_unicode c).
Proof.
  intros Hc. unfold escape_unicode. apply Forall_app_2; [repeat constructor; by vm_compute|].
  apply Forall_app_2; [by apply hex_digits_printable|repeat constructor; by vm_compute].
Qed.

(** A string escaped for [Debug] has no control characters: it stays on one line. *)
Lemma debug_str_line `{Unicode} s :
  Forall (fun c => 0 <= c) s -> Forall (fun c => printable_ascii c \/ 128 <= c) (debug_str s).
Proof.
  intros Hs. assert (Hprint : forall l, Forall printable_ascii l ->
    Forall (fun c => printable_ascii c \/ 128 <= c) l).
  { intros l Hl. eapply Forall_impl; [exact Hl|]. by left. }
  unfold debug_str. apply Forall_cons_2; [left; by vm_compute|].
  apply Forall_app_2; [|apply Forall_cons_2; [left; by vm_compute|constructor]].
  induction Hs as [|c s Hc _ IH]; [constructor|]. cbn [map concat]. apply Forall_app_2; [|done].
  unfold escape_debug.
  repeat match goal with |- context [if ?b then _ else _] => destruct b eqn:? end;
    try (apply Hprint; repeat constructor; by vm_compute);
    try (apply Hprint, escape_unicode_printable; done).
  - apply Hprint. repeat constructor; unfold printable_ascii; lia.
  - apply Forall_cons_2; [left; unfold printable_ascii; lia|constructor].
  - apply Forall_cons_2; [right; lia|constructor].
Qed.
