(* ===== verification/Emit.v ===== *)
(** * Jump patching (src/src/compiler/emit.rs) *)

From S2P Require Import Prelude Assembler.

Section emit.
  Context `{Arch} {E : Type}.

(** The displacement from the instruction at [from] to the one at [to],
    truncated to [i16]. *)
Definition jump_offset (from to : Z) : res E Z :=
  d ← isize_sub (as_isize to) (as_isize from);
  d ← isize_sub d 1;
  mret (wrap_s 16 d).

Definition patch_match_jump (program : list BpfInsn) (from match_idx : Z)
  : res E (list BpfInsn) :=
  o ← jump_offset from match_idx;
  vec_set program from (new (Z.lor BPF_JMP BPF_JA) R0 0 o 0).

Definition patch_reg_jump (program : list BpfInsn) (from to dst src op : Z)
  : res E (list BpfInsn) :=
  o ← jump_offset from to;
  vec_set program from (new (Z.lor (Z.lor BPF_JMP op) BPF_X) dst src o 0).

Definition patch_imm_jump (program : list BpfInsn) (from to dst imm op : Z)
  : res E (list BpfInsn) :=
  o ← jump_offset from to;
  vec_set program from (new (Z.lor (Z.lor BPF_JMP op) BPF_K) dst 0 o imm).

(** Inside a program of at most [2^15] instructions the displacement is exact. *)
Lemma jump_offset_exact from to :
  0 <= from < 2 ^ 15 -> 0 <= to < 2 ^ 15 -> jump_offset from to = Ok (to - from - 1).
Proof. intros. unfold jump_offset. by mach. Qed.

(** Each patch rewrites the instruction at [from] into a jump that lands on [to]. *)
Lemma patch_match_jump_at l k i to :
  vec_len l < 2 ^ 15 -> 0 <= to < 2 ^ 15 ->
  patch_match_jump (l ++ i :: k) (vec_len l) to
  = Ok (l ++ jmp_imm BPF_JA R0 0 (to - vec_len l - 1) :: k).
Proof.
  intros. pose proof (vec_len_nonneg l). unfold patch_match_jump.
  rewrite jump_offset_exact by lia. cbn [mbind res_bind]. by apply vec_set_middle.
Qed.

Lemma patch_reg_jump_at l k i to dst src op :
  vec_len l < 2 ^ 15 -> 0 <= to < 2 ^ 15 ->
  patch_reg_jump (l ++ i :: k) (vec_len l) to dst src op
  = Ok (l ++ jmp_reg op dst src (to - vec_len l - 1) :: k).
Proof.
  intros. pose proof (vec_len_nonneg l). unfold patch_reg_jump.
  rewrite jump_offset_exact by lia. cbn [mbind res_bind]. by apply vec_set_middle.
Qed.

Lemma patch_imm_jump_at l k i to dst imm op :
  vec_len l < 2 ^ 15 -> 0 <= to < 2 ^ 15 ->
  patch_imm_jump (l ++ i :: k) (vec_len l) to dst imm op
  = Ok (l ++ jmp_imm op dst imm (to - vec_len l - 1) :: k).
Proof.
  intros. pose proof (vec_len_nonneg l). unfold patch_imm_jump.
  rewrite jump_offset_exact by lia. cbn [mbind res_bind]. by apply vec_set_middle.
Qed.
End emit.
