(* ===== verification/Verify.v ===== *)
(** * Limits and character-class syntax (src/src/compiler/verify.rs)

    The compile errors, the instruction-count estimates with the 4096-instruction
    cap, and the parser of bracket expressions: escapes, tokens, ranges.  Indices
    into a slice stay below [isize::MAX], so [idx + 1], [idx + 2] and [idx + 3]
    are exact; the estimates multiply lengths and keep their width. *)

From S2P Require Import Prelude Utf8 Str.

Inductive CompileError : Type :=
| PatternTooLong (len max : Z)
| InvalidPattern (reason : string).

#[export] Instance CompileError_eq_dec : EqDecision CompileError.
Proof. solve_decision. Defined.

(** [<CompileError as Display>::fmt], derived from the [#[error]] attributes. *)
Definition CompileError_fmt (e : CompileError) : str :=
  match e with
  | PatternTooLong len max =>
      bytes "pattern length " ++ print len ++ bytes " exceeds BPF verifier limit of " ++ print max
      ++ bytes " bytes. Fix: use userspace matching for patterns longer than " ++ print max
      ++ bytes " bytes."
  | InvalidPattern reason =>
      bytes "invalid pattern: " ++ bytes reason
      ++ bytes ". Fix: use a supported subset (literal bytes, alternation, and ranges with start <= end)."
  end.

Definition MAX_BPF_PATTERN_LEN : Z := 1024.
Definition MAX_BPF_INSTRUCTION_LEN : Z := 4096.

Inductive PatternRange : Type :=
| Single (v : Z)
| Span (lo hi : Z).

#[export] Instance PatternRange_eq_dec : EqDecision PatternRange.
Proof. solve_decision. Defined.

Inductive Token : Type :=
| Byte (b : Z)
| Dash
| Class_ (c : list PatternRange).

Record CharRange := mkCharRange { lo : Z; hi : Z }.

(** ** Instruction counts *)

Definition compile_with_limit (expected_instruction_count : Z) : res CompileError unit :=
  if MAX_BPF_INSTRUCTION_LEN <? expected_instruction_count then
    Err (PatternTooLong expected_instruction_count MAX_BPF_INSTRUCTION_LEN)
  else Ok tt.

Section counts.
  Context `{Arch} {E : Type}.

Definition literal_search_instruction_count (pattern_len : Z) : res E Z :=
  if pattern_len =? 0 then mret 4
  else
    n ← usize_mul pattern_len 2;
    usize_add 14 n.

Definition estimate_character_class_instructions (ranges : list PatternRange) : res E Z :=
  match ranges with
  | [] => mret 2
  | _ =>
      n ← usize_mul (vec_len ranges) 2;
      usize_add 4 n
  end.

(** [alternative_count.sum()], from the partial sum [acc]. *)
Fixpoint alternative_count_sum (acc : Z) (alternatives : list (list Z)) : res E Z :=
  match alternatives with
  | [] => mret acc
  | alt :: rest =>
      n ← (match alt with
           | [] => mret 0
           | _ => m ← usize_mul (vec_len alt) 2; usize_add 4 m
           end);
      acc ← usize_add acc n;
      alternative_count_sum acc rest
  end.

Definition is_empty {A} (l : list A) : bool := match l with [] => true | _ => false end.

Definition estimate_alternation_instructions (alternatives : list (list Z)) : res E Z :=
  if is_empty alternatives || existsb is_empty alternatives then mret 2
  else
    n ← alternative_count_sum 0 alternatives;
    usize_add 4 n.
End counts.

(** ** The character-class parser *)

Definition invalid {A} (reason : string) : res CompileError A := Err (InvalidPattern reason).

Definition reversed_reason : string := "character class range endpoints are reversed".
Definition dashes_reason : string := "character class contains consecutive unescaped dashes".
Definition unterminated_reason : string := "unterminated character-class escape".
Definition negated_reason : string := "negated character-class escapes are not supported".
Definition unknown_reason : string := "unknown character-class escape sequence".
Definition non_ascii_reason : string :=
  "character class contains non-ASCII codepoints; use raw bytes or an escape sequence".

(** The token of the escape [\escaped]. *)
Definition escape_token (escaped : Z) : res CompileError Token :=
  if escaped =? chr "n" then mret (Byte 10)
  else if escaped =? chr "r" then mret (Byte 13)
  else if escaped =? chr "t" then mret (Byte 9)
  else if escaped =? chr "\" then mret (Byte (chr "\"))
  else if escaped =? chr "]" then mret (Byte (chr "]"))
  else if escaped =? chr "[" then mret (Byte (chr "["))
  else if escaped =? chr "-" then mret (Byte (chr "-"))
  else if escaped =? chr "." then mret (Byte (chr "."))
  else if escaped =? chr "d" then mret (Class_ [Span (chr "0") (chr "9")])
  else if escaped =? chr "s" then mret (Class_ [Span 9 13; Single (chr " ")])
  else if escaped =? chr "w" then
    mret (Class_ [Span (chr "a") (chr "z"); Span (chr "A") (chr "Z");
                  Span (chr "0") (chr "9"); Single (chr "_")])
  else if (escaped =? chr "D") || (escaped =? chr "S") || (escaped =? chr "W") then
    invalid negated_reason
  else invalid unknown_reason.

Definition decode_character_class_escape (class : list Z) (idx : Z)
  : res CompileError (Token * Z) :=
  if vec_len class <=? idx + 1 then invalid unterminated_reason
  else
    escaped ← vec_get class (idx + 1);
    token ← escape_token escaped;
    mret (token, 2).

(** The scanning loop of [parse_character_class]. *)
Fixpoint scan_loop (fuel : nat) (class : list Z) (tokens : list Token) (idx : Z)
  : res CompileError (list Token) :=
  if idx <? vec_len class then
    match fuel with
    | O => OutOfFuel
    | S fuel =>
        b ← vec_get class idx;
        if b =? chr "\" then
          '(token, consumed) ← decode_character_class_escape class idx;
          scan_loop fuel class (tokens ++ [token]) (idx + consumed)
        else if b =? chr "-" then scan_loop fuel class (tokens ++ [Dash]) (idx + 1)
        else scan_loop fuel class (tokens ++ [Byte b]) (idx + 1)
    end
  else mret tokens.

(** The three tokens at [idx] when they form a range [start-end]. *)
Definition range_at (tokens : list Token) (idx : Z) : res CompileError (option (Z * Z)) :=
  if idx + 2 <? vec_len tokens then
    t0 ← vec_get tokens idx;
    t1 ← vec_get tokens (idx + 1);
    t2 ← vec_get tokens (idx + 2);
    match t0, t1, t2 with
    | Byte s, Dash, Byte e => mret (Some (s, e))
    | _, _, _ => mret None
    end
  else mret None.

Definition is_dash (t : Token) : bool := match t with Dash => true | _ => false end.

(** Whether the tokens at [idx] and [idx + 1] are both unescaped dashes. *)
Definition double_dash_at (tokens : list Token) (idx : Z) : res CompileError bool :=
  t0 ← vec_get tokens idx;
  if is_dash t0 && (idx + 1 <? vec_len tokens) then
    t1 ← vec_get tokens (idx + 1);
    mret (is_dash t1)
  else mret false.

Definition token_ranges (t : Token) : list PatternRange :=
  match t with
  | Byte b => [Single b]
  | Dash => [Single (chr "-")]
  | Class_ c => c
  end.

(** The loop of [tokens_to_ranges]. *)
Fixpoint ranges_loop (fuel : nat) (tokens : list Token) (ranges : list PatternRange)
    (idx : Z) : res CompileError (list PatternRange) :=
  if idx <? vec_len tokens then
    match fuel with
    | O => OutOfFuel
    | S fuel =>
        r ← range_at tokens idx;
        match r with
        | Some (s, e) =>
            if e <? s then invalid reversed_reason
            else ranges_loop fuel tokens (ranges ++ [Span s e]) (idx + 3)
        | None =>
            dd ← double_dash_at tokens idx;
            if (dd : bool) then invalid dashes_reason
            else
              t ← vec_get tokens idx;
              ranges_loop fuel tokens (ranges ++ token_ranges t) (idx + 1)
        end
    end
  else mret ranges.

(** Each iteration advances, so the number of tokens bounds the iterations. *)
Definition tokens_to_ranges (tokens : list Token) : res CompileError (list PatternRange) :=
  ranges_loop (length tokens) tokens [] 0.

Definition parse_character_class (class : list Z) : res CompileError (list PatternRange) :=
  if (match from_utf8 class with Some _ => true | None => false end)
     && existsb (fun b => 0x80 <=? b) class
  then invalid non_ascii_reason
  else
    tokens ← scan_loop (length class) class [] 0;
    tokens_to_ranges tokens.

(** ** Reference grammar

    The same parser by structural recursion on the remaining input, with no
    index arithmetic, no bounds checks and no fuel. *)

Fixpoint lex (l : list Z) : res CompileError (list Token) :=
  match l with
  | [] => mret []
  | b :: l1 =>
      if b =? chr "\" then
        match l1 with
        | [] => invalid unterminated_reason
        | e :: l2 => t ← escape_token e; ts ← lex l2; mret (t :: ts)
        end
      else ts ← lex l1; mret ((if b =? chr "-" then Dash else Byte b) :: ts)
  end.

Fixpoint group (ts : list Token) : res CompileError (list PatternRange) :=
  match ts with
  | [] => mret []
  | Byte s :: Dash :: Byte e :: ts3 =>
      if e <? s then invalid reversed_reason
      else rs ← group ts3; mret (Span s e :: rs)
  | Dash :: Dash :: _ => invalid dashes_reason
  | t :: ts1 => rs ← group ts1; mret (token_ranges t ++ rs)
  end.

(** Membership of a byte in a range and in a class. *)
Definition range_matches (b : Z) (r : PatternRange) : bool :=
  match r with
  | Single v => b =? v
  | Span lo hi => (lo <=? b) && (b <=? hi)
  end.

Definition class_matches (rs : list PatternRange) (b : Z) : bool :=
  existsb (range_matches b) rs.

(** A range of bytes with ordered endpoints. *)
Definition range_wf (r : PatternRange) : Prop :=
  match r with
  | Single v => is_byte v
  | Span lo hi => is_byte lo /\ is_byte hi /\ lo <= hi
  end.

Definition token_wf (t : Token) : Prop :=
  match t with
  | Byte b => is_byte b
  | Dash => True
  | Class_ c => c <> [] /\ Forall range_wf c
  end.

(** ** The loops compute the reference grammar *)

Lemma scan_loop_lex fuel pre suf tokens :
  (length suf <= fuel)%nat ->
  scan_loop fuel (pre ++ suf) tokens (vec_len pre)
  = (ts ← lex suf; mret (tokens ++ ts)).
Proof.
  revert pre suf tokens. induction fuel as [|fuel IH]; intros pre [|b l1] tokens Hf;
    cbn in Hf; cbn [scan_loop]; rewrite ?index_at_end, ?index_before_end;
    try (cbn; by rewrite !app_nil_r); [lia|].
  rewrite vec_get_middle by done. cbn [mbind res_bind lex].
  destruct (b =? chr "\").
  - unfold decode_character_class_escape. rewrite app_cons_snoc, <- vec_len_snoc with (a := b).
    destruct l1 as [|e l2].
    { rewrite app_nil_r. by rewrite (proj2 (Z.leb_le _ _)). }
    pose proof (index_before_end (pre ++ [b]) e l2).
    rewrite (proj2 (Z.leb_gt _ _)) by lia.
    rewrite vec_get_middle by done. cbn [mbind res_bind].
    destruct (escape_token e) as [t| | |]; cbn; try done.
    rewrite app_cons_snoc. replace (vec_len pre + 2) with (vec_len ((pre ++ [b]) ++ [e]))
      by (autorewrite with vec; lia).
    rewrite IH by (cbn in Hf; lia). destruct (lex l2); cbn; try done.
    by rewrite <- app_assoc.
  - rewrite app_cons_snoc, <- vec_len_snoc with (a := b).
    destruct (b =? chr "-"); rewrite IH by lia; destruct (lex l1); cbn; try done;
      by rewrite <- app_assoc.
Qed.

Lemma range_at_app pre ts :
  range_at (pre ++ ts) (vec_len pre)
  = Ok (match ts with Byte s :: Dash :: Byte e :: _ => Some (s, e) | _ => None end).
Proof.
  unfold range_at. destruct ts as [|t0 [|t1 [|t2 ts]]].
  1-3: rewrite (proj2 (Z.ltb_ge _ _)) by (autorewrite with vec; lia).
  - done.
  - by destruct t0.
  - by destruct t0, t1.
  - rewrite (proj2 (Z.ltb_lt _ _))
      by (pose proof (vec_len_nonneg ts); autorewrite with vec; lia).
    rewrite (vec_get_middle _ _ _ (vec_len pre)) by done. cbn [mbind res_bind].
    rewrite app_cons_snoc, (vec_get_middle _ _ _ (vec_len pre + 1))
      by (autorewrite with vec; lia). cbn [mbind res_bind].
    rewrite app_cons_snoc, (vec_get_middle _ _ _ (vec_len pre + 2))
      by (autorewrite with vec; lia).
    by destruct t0, t1, t2.
Qed.

Lemma double_dash_at_app pre t ts :
  double_dash_at (pre ++ t :: ts) (vec_len pre)
  = Ok (match t :: ts with Dash :: Dash :: _ => true | _ => false end).
Proof.
  unfold double_dash_at. rewrite (vec_get_middle _ _ _ (vec_len pre)) by done. cbn [mbind res_bind].
  destruct t; try done. rewrite app_cons_snoc, <- vec_len_snoc with (a := Dash).
  destruct ts as [|t1 ts]; cbn [is_dash andb].
  - by rewrite index_at_end.
  - rewrite index_before_end, vec_get_middle by done. by destruct t1.
Qed.

Lemma ranges_loop_group fuel pre ts ranges :
  (length ts <= fuel)%nat ->
  ranges_loop fuel (pre ++ ts) ranges (vec_len pre)
  = (rs ← group ts; mret (ranges ++ rs)).
Proof.
  revert pre ts ranges. induction fuel as [|fuel IH]; intros pre [|t ts] ranges Hf;
    cbn in Hf; cbn [ranges_loop]; rewrite ?index_at_end, ?index_before_end;
    try (cbn; by rewrite !app_nil_r); [lia|].
  rewrite range_at_app. cbn [mbind res_bind].
  destruct (match t :: ts with Byte s :: Dash :: Byte e :: _ => Some (s, e) | _ => None end)
    as [[s e]|] eqn:Hr.
  - destruct t as [s'| |]; try done. destruct ts as [|[| |] [|[e'| |] ts]]; try done.
    injection Hr as -> ->. cbn [group]. destruct (e <? s); [done|].
    replace (pre ++ _) with ((pre ++ [Byte s; Dash; Byte e]) ++ ts) by by rewrite <- app_assoc.
    replace (vec_len pre + 3) with (vec_len (pre ++ [Byte s; Dash; Byte e]))
      by (autorewrite with vec; lia).
    rewrite IH by (cbn in Hf; lia). destruct (group ts); cbn; try done. by rewrite <- app_assoc.
  - rewrite double_dash_at_app, vec_get_middle by done. cbn [mbind res_bind].
    rewrite app_cons_snoc, <- vec_len_snoc with (a := t), IH by lia.
    assert (Hg : group (t :: ts) =
      if (match t :: ts with Dash :: Dash :: _ => true | _ => false end)
      then invalid dashes_reason else rs ← group ts; mret (token_ranges t ++ rs)).
    { destruct t as [s| |]; cbn [group]; destruct ts as [|[| |] [|[| |] ?]]; done. }
    rewrite Hg. destruct (match t :: ts with Dash :: Dash :: _ => true | _ => false end); [done|].
    destruct (group ts); cbn; try done. by rewrite <- app_assoc.
Qed.

Lemma tokens_to_ranges_group tokens : tokens_to_ranges tokens = group tokens.
Proof.
  unfold tokens_to_ranges. rewrite (ranges_loop_group _ [] tokens) by lia.
  by destruct (group tokens).
Qed.

Lemma scan_loop_total class : scan_loop (length class) class [] 0 = lex class.
Proof. rewrite (scan_loop_lex _ [] class []) by lia. by destruct (lex class). Qed.

(** The validation in front of the scanner. *)
Definition non_ascii_text (class : list Z) : bool :=
  (match from_utf8 class with Some _ => true | None => false end)
  && existsb (fun b => 0x80 <=? b) class.

Lemma parse_reference class :
  parse_character_class class =
  if non_ascii_text class then invalid non_ascii_reason else lex class ≫= group.
Proof.
  unfold parse_character_class, non_ascii_text. destruct (_ && _); [done|].
  rewrite scan_loop_total. destruct (lex class); cbn; try done.
  apply tokens_to_ranges_group.
Qed.

(** ** What the parser returns *)

Lemma escape_token_outcome e :
  (exists t, escape_token e = Ok t /\ token_wf t)
  \/ escape_token e = invalid negated_reason \/ escape_token e = invalid unknown_reason.
Proof.
  unfold escape_token.
  repeat (destruct (_ =? _); [left; eexists; split; [reflexivity|];
    cbn; unfold is_byte; repeat (constructor || lia || done)|]).
  destruct (_ || _); auto.
Qed.

Lemma lex_outcome l :
  (exists ts, lex l = Ok ts /\ (Forall is_byte l -> Forall token_wf ts)
     /\ (l <> [] -> ts <> []))
  \/ lex l = invalid negated_reason \/ lex l = invalid unknown_reason
  \/ lex l = invalid unterminated_reason.
Proof.
  induction l as [l IH] using (induction_ltof1 _ (@length Z)). unfold ltof in IH.
  destruct l as [|b l1]; [left; eexists; split; [reflexivity|done]|].
  cbn [lex]. destruct (b =? chr "\").
  - destruct l1 as [|e l2]; [by auto|].
    destruct (escape_token_outcome e) as [(t & -> & Ht)|[->| ->]]; [|by auto..].
    cbn [mbind res_bind]. destruct (IH l2) as [(ts & -> & Hts & _)|[->|[->| ->]]];
      [cbn; lia| |by auto..].
    left. eexists. split; [reflexivity|]. split; [|done].
    intros (_ & (_ & Hl)%Forall_cons)%Forall_cons. by constructor; auto.
  - destruct (IH l1) as [(ts & -> & Hts & _)|[->|[->| ->]]]; [cbn; lia| |by auto..].
    left. eexists. split; [reflexivity|]. split; [|done].
    intros [Hb Hl]%Forall_cons. constructor; [|auto]. by destruct (b =? chr "-").
Qed.

(** A step of [group] on a token stream of a given shape. *)
Lemma group_range s e ts :
  group (Byte s :: Dash :: Byte e :: ts) =
  if e <? s then invalid reversed_reason else rs ← group ts; mret (Span s e :: rs).
Proof. done. Qed.

Lemma group_single t ts :
  (match t :: ts with Byte s :: Dash :: Byte e :: _ => Some (s, e) | _ => None end) = None ->
  group (t :: ts) =
    if (match t :: ts with Dash :: Dash :: _ => true | _ => false end)
    then invalid dashes_reason else rs ← group ts; mret (token_ranges t ++ rs).
Proof. destruct t as [s| |]; cbn [group]; destruct ts as [|[| |] [|[| |] ?]]; done. Qed.

Lemma token_ranges_wf t :
  token_wf t -> token_ranges t <> [] /\ Forall range_wf (token_ranges t).
Proof.
  destruct t as [b| |c]; cbn [token_ranges token_wf]; intros Ht; [| |done];
    (split; [done|]); by constructor.
Qed.

Lemma group_outcome ts :
  (exists rs, group ts = Ok rs /\
     (Forall token_wf ts -> Forall range_wf rs /\ (ts <> [] -> rs <> [])))
  \/ group ts = invalid reversed_reason \/ group ts = invalid dashes_reason.
Proof.
  induction ts as [ts IH] using (induction_ltof1 _ (@length Token)). unfold ltof in IH.
  destruct ts as [|t ts]; [left; eexists; split; [reflexivity|done]|].
  destruct (match t :: ts with Byte s :: Dash :: Byte e :: _ => Some (s, e) | _ => None end)
    as [[s e]|] eqn:Hr.
  - destruct t as [s'| |]; try done. destruct ts as [|[| |] [|[e'| |] ts]]; try done.
    injection Hr as -> ->. rewrite group_range. destruct (Z.ltb_spec e s); [by auto|].
    destruct (IH ts) as [(rs & -> & Hrs)|[->| ->]]; [cbn; lia| |by auto..].
    left. eexists. split; [reflexivity|].
    intros (Hs & (_ & (He & Hts)%Forall_cons)%Forall_cons)%Forall_cons.
    split; [|done]. constructor; [by split_and!|]. by apply Hrs.
  - rewrite group_single by done.
    destruct (match t :: ts with Dash :: Dash :: _ => true | _ => false end); [by auto|].
    destruct (IH ts) as [(rs & -> & Hrs)|[->| ->]]; [cbn; lia| |by auto..].
    left. eexists. split; [reflexivity|]. intros [Ht Hts]%Forall_cons.
    destruct (token_ranges_wf t Ht) as [Hne Hwf]. split.
    + apply Forall_app. split; [done|by apply Hrs].
    + intros _ [? _]%app_eq_nil. done.
Qed.

(** A successful parse returns byte ranges with ordered endpoints, and at least
    one of them for a non-empty class. *)
Lemma parse_ok_wf class rs :
  Forall is_byte class -> parse_character_class class = Ok rs ->
  Forall range_wf rs /\ (class <> [] -> rs <> []).
Proof.
  intros Hb. rewrite parse_reference. destruct (non_ascii_text class); [done|].
  destruct (lex_outcome class) as [(ts & -> & Hts & Hne)|[->|[->| ->]]]; try done.
  cbn. intros Hg. destruct (group_outcome ts) as [(rs' & Hg' & Hw)|[Hg'|Hg']];
    rewrite Hg in Hg'; try done.
  injection Hg' as <-. destruct (Hw (Hts Hb)) as [? Hn]. auto.
Qed.

(** The outcomes of a parse: ranges, or one of the six diagnostics. *)
Definition parse_reasons : list string :=
  [non_ascii_reason; unterminated_reason; negated_reason; unknown_reason;
   reversed_reason; dashes_reason].

Lemma parse_outcome class :
  (exists rs, parse_character_class class = Ok rs)
  \/ (exists reason, reason ∈ parse_reasons /\
        parse_character_class class = Err (InvalidPattern reason)).
Proof.
  rewrite parse_reference. destruct (non_ascii_text class).
  { right. eexists. split; [|reflexivity]. set_solver. }
  destruct (lex_outcome class) as [(ts & -> & _)|[->|[->| ->]]]; cbn [mbind res_bind];
    [|right; eexists; split; [|reflexivity]; set_solver..].
  destruct (group_outcome ts) as [(rs & -> & _)|[->| ->]]; [by eauto|..];
    right; eexists; (split; [|reflexivity]); set_solver.
Qed.

(** ** How many ranges a class can hold: at most two per byte of its text *)

Definition token_size (t : Token) : nat := length (token_ranges t).

Lemma escape_token_size e t : escape_token e = Ok t -> (token_size t <= 4)%nat.
Proof.
  unfold escape_token.
  repeat (destruct (_ =? _); [intros [= <-]; cbn; lia|]). by destruct (_ || _).
Qed.

Lemma lex_size l ts :
  lex l = Ok ts -> (sum_list_with token_size ts <= 2 * length l)%nat.
Proof.
  revert ts. induction l as [l IH] using (induction_ltof1 _ (@length Z)). unfold ltof in IH.
  intros ts. destruct l as [|b l1]; [by intros [= <-]|]. cbn [lex].
  destruct (b =? chr "\").
  - destruct l1 as [|e l2]; [done|].
    intros (t & Ht & (ts' & Hts & [= <-])%bind_Ok)%bind_Ok.
    apply escape_token_size in Ht. apply IH in Hts; [|cbn; lia].
    cbn [length sum_list_with]. lia.
  - intros (ts' & Hts & [= <-])%bind_Ok. apply IH in Hts; [|cbn; lia].
    assert (Hd : forall c, token_size (if b =? c then Dash else Byte b) = 1%nat)
      by (intros c; by destruct (b =? c)).
    cbn [length sum_list_with]. rewrite Hd. lia.
Qed.

Lemma group_size ts rs : group ts = Ok rs -> (length rs <= sum_list_with token_size ts)%nat.
Proof.
  revert rs. induction ts as [ts IH] using (induction_ltof1 _ (@length Token)). unfold ltof in IH.
  intros rs. destruct ts as [|t ts]; [by intros [= <-]|].
  destruct (match t :: ts with Byte s :: Dash :: Byte e :: _ => Some (s, e) | _ => None end)
    as [[s e]|] eqn:Hr.
  - destruct t as [s'| |]; try done. destruct ts as [|[| |] [|[e'| |] ts]]; try done.
    injection Hr as -> ->. rewrite group_range. destruct (e <? s); [done|].
    intros (rs' & Hrs & [= <-])%bind_Ok. apply IH in Hrs; [|cbn; lia].
    cbn [length sum_list_with]. change (token_size (Byte s)) with 1%nat. lia.
  - rewrite group_single by done.
    destruct (match t :: ts with Dash :: Dash :: _ => true | _ => false end); [done|].
    intros (rs' & Hrs & [= <-])%bind_Ok. apply IH in Hrs; [|cbn; lia].
    rewrite length_app. cbn [sum_list_with]. unfold token_size at 1. lia.
Qed.

Lemma parse_size class rs :
  parse_character_class class = Ok rs -> vec_len rs <= 2 * vec_len class.
Proof.
  rewrite parse_reference. destruct (non_ascii_text class); [done|].
  intros (ts & Hts & Hrs)%bind_Ok. apply lex_size in Hts. apply group_size in Hrs.
  unfold vec_len. lia.
Qed.

(** ** Printing ranges back *)

(** A byte as a class literal: the two bytes with a syntactic role are escaped. *)
Definition print_byte (b : Z) : list Z :=
  if (b =? chr "\") || (b =? chr "-") then [chr "\"; b] else [b].

Definition print_range (r : PatternRange) : list Z :=
  match r with
  | Single v => print_byte v
  | Span lo hi => print_byte lo ++ [chr "-"] ++ print_byte hi
  end.

Definition print_class (rs : list PatternRange) : list Z := rs ≫= print_range.

Definition range_ascii (r : PatternRange) : Prop :=
  match r with
  | Single v => v < 0x80
  | Span lo hi => lo < 0x80 /\ hi < 0x80
  end.

Definition range_tokens (r : PatternRange) : list Token :=
  match r with
  | Single v => [Byte v]
  | Span lo hi => [Byte lo; Dash; Byte hi]
  end.

Lemma lex_print_byte b l : lex (print_byte b ++ l) = (ts ← lex l; mret (Byte b :: ts)).
Proof.
  unfold print_byte. destruct (Z.eqb_spec b (chr "\")) as [->|]; [done|].
  destruct (Z.eqb_spec b (chr "-")) as [->|]; [done|]. cbn [orb app lex].
  by rewrite !(proj2 (Z.eqb_neq _ _)).
Qed.

Lemma lex_print_range r l :
  lex (print_range r ++ l) = (ts ← lex l; mret (range_tokens r ++ ts)).
Proof.
  destruct r as [v|lo hi]; cbn [print_range]; [apply lex_print_byte|].
  rewrite <- !app_assoc, lex_print_byte. cbn [app lex chr].
  rewrite lex_print_byte. by destruct (lex l).
Qed.

Lemma lex_print_class rs : lex (print_class rs) = Ok (rs ≫= range_tokens).
Proof.
  induction rs as [|r rs IH]; [done|]. cbn. rewrite lex_print_range.
  unfold print_class in IH. by rewrite IH.
Qed.

Lemma group_range_tokens rs : Forall range_wf rs -> group (rs ≫= range_tokens) = Ok rs.
Proof.
  induction 1 as [|r rs Hr _ IH]; [done|]. destruct r as [v|lo hi].
  - change (group (Byte v :: (rs ≫= range_tokens)) = Ok (Single v :: rs)).
    rewrite group_single; [rewrite IH|]; by destruct rs as [|[|]].
  - change (group (Byte lo :: Dash :: Byte hi :: (rs ≫= range_tokens)) = Ok (Span lo hi :: rs)).
    cbn in Hr. rewrite group_range, (proj2 (Z.ltb_ge _ _)) by lia. by rewrite IH.
Qed.

Lemma print_class_ascii rs : Forall range_ascii rs ->
  existsb (fun b => 0x80 <=? b) (print_class rs) = false.
Proof.
  assert (Hb : forall b, b < 0x80 -> existsb (fun b => 0x80 <=? b) (print_byte b) = false).
  { intros b Hb. unfold print_byte.
    destruct (_ || _); cbn [existsb]; rewrite (proj2 (Z.leb_gt _ b)) by lia; done. }
  induction 1 as [|r rs Hr _ IH]; [done|].
  change (print_class (r :: rs)) with (print_range r ++ print_class rs).
  rewrite existsb_app, IH, orb_false_r. destruct r as [v|lo hi]; cbn [range_ascii] in Hr;
    cbn [print_range]; [by apply Hb|].
  rewrite !existsb_app, !Hb by lia. done.
Qed.

Lemma existsb_ascii_valid l :
  existsb (fun b => 0x80 <=? b) l = false -> non_ascii_text l = false.
Proof. intros Hl. unfold non_ascii_text. by rewrite Hl, andb_false_r. Qed.

(** ** Theorems *)

(** C9. The index-based loops of the parser compute the reference grammar on every
    input: they terminate, stay in bounds, and agree on every error. *)
Theorem parse_character_class_reference class :
  parse_character_class class =
    (if non_ascii_text class then invalid non_ascii_reason else lex class ≫= group)
  /\ ((exists rs, parse_character_class class = Ok rs)
      \/ exists reason, reason ∈ parse_reasons /\
           parse_character_class class = Err (InvalidPattern reason)).
Proof. split; [apply parse_reference | apply parse_outcome]. Qed.

(** C17. Every list of ASCII ranges is the parse of its printed form. *)
Theorem parse_print_roundtrip rs :
  Forall range_wf rs -> Forall range_ascii rs ->
  parse_character_class (print_class rs) = Ok rs.
Proof.
  intros Hw Ha. rewrite parse_reference.
  rewrite existsb_ascii_valid by by apply print_class_ascii.
  rewrite lex_print_class. by apply group_range_tokens.
Qed.

Lemma parse_print_roundtrip_witness :
  parse_character_class (print_class [Span 33 45; Single 92; Single 45; Span 97 122])
  = Ok [Span 33 45; Single 92; Single 45; Span 97 122].
Proof.
  apply parse_print_roundtrip; repeat constructor; cbn; unfold is_byte; lia.
Defined.

(** The non-ASCII diagnostic is returned exactly for the UTF-8 texts that contain
    a character outside ASCII; other byte strings are read as raw bytes. *)
Theorem parse_non_ascii_iff class :
  Forall is_byte class ->
  parse_character_class class = invalid non_ascii_reason <->
  exists s, Forall (fun c => is_scalar c = true) s /\ class = encode s
            /\ exists c, c ∈ s /\ 0x80 <= c.
Proof.
  intros Hb. rewrite parse_reference. split.
  - intros Hp. assert (Hn : non_ascii_text class = true).
    { destruct (non_ascii_text class); [done|].
      destruct (lex_outcome class) as [(ts & Hl & _)|[Hl|[Hl|Hl]]]; rewrite Hl in Hp; try done.
      cbn in Hp. destruct (group_outcome ts) as [(rs & Hg & _)|[Hg|Hg]];
        rewrite Hg in Hp; done. }
    unfold non_ascii_text in Hn. destruct (from_utf8 class) as [s|] eqn:Hs; [|done].
    destruct (from_utf8_sound _ _ _ (Nat.le_refl _) Hb Hs) as [He Hsc].
    exists s. split_and!; [done..|]. rewrite <- He, encode_ascii in Hn by done.
    apply existsb_exists in Hn as (c & Hc & Hge). exists c.
    split; [by apply list_elem_of_In|lia].
  - intros (s & Hsc & -> & c & Hc & Hge).
    assert (Hn : non_ascii_text (encode s) = true).
    { unfold non_ascii_text. rewrite from_utf8_encode by done. cbn.
      rewrite encode_ascii by done. apply existsb_exists. exists c.
      split; [by apply list_elem_of_In|lia]. }
    by rewrite Hn.
Qed.

Lemma parse_non_ascii_witness :
  parse_character_class [0xC3; 0xA9] = invalid non_ascii_reason <->
  exists s, Forall (fun c => is_scalar c = true) s /\ [0xC3; 0xA9] = encode s
            /\ exists c, c ∈ s /\ 0x80 <= c.
Proof. apply parse_non_ascii_iff. repeat constructor; unfold is_byte; lia. Defined.
