(* ===== verification/Codegen.v ===== *)
(** * Code generation (src/src/compiler/codegen.rs)

    The four compilers, statement by statement: instructions are pushed on a
    growing program with placeholder jumps, and a second pass patches the jumps
    at the recorded indices. *)

From S2P Require Import Prelude Assembler Emit Verify.

Section codegen.
  Context `{Arch}.

(** ** [compile_literal_search] *)

(** The unrolled comparison of the pattern from its byte [i] on; returns the
    program and the indices of the placeholder jumps. *)
Fixpoint literal_compare_loop (i : Z) (pattern : list Z) (prog : list BpfInsn)
    (jump_to_next_targets : list Z) : list BpfInsn * list Z :=
  match pattern with
  | [] => (prog, jump_to_next_targets)
  | byte :: rest =>
      let prog := prog ++ [ldx_mem BPF_B R7 R5 (wrap_s 16 i)] in
      let jump_idx := vec_len prog in
      let prog := prog ++ [exit] in
      literal_compare_loop (i + 1) rest prog (jump_to_next_targets ++ [jump_idx])
  end.

(** The second backpatching step, over the recorded jumps from the [i]-th on. *)
Fixpoint literal_backpatch (pattern : list Z) (next_iter_idx : Z) (i : Z)
    (jump_to_next_targets : list Z) (prog : list BpfInsn)
  : res CompileError (list BpfInsn) :=
  match jump_to_next_targets with
  | [] => mret prog
  | jump_idx :: rest =>
      pattern_byte ← vec_get pattern i;
      d ← usize_sub next_iter_idx jump_idx;
      d ← usize_sub d 1;
      prog ← vec_set prog jump_idx (jmp_imm BPF_JNE R7 pattern_byte (wrap_s 16 d));
      literal_backpatch pattern next_iter_idx (i + 1) rest prog
  end.

Definition compile_literal_search (pattern : list Z) : res CompileError (list BpfInsn) :=
  count ← literal_search_instruction_count (vec_len pattern);
  _ ← compile_with_limit count;
  if MAX_BPF_PATTERN_LEN <? vec_len pattern then
    Err (PatternTooLong (vec_len pattern) MAX_BPF_PATTERN_LEN)
  else
    _ ← literal_search_instruction_count (E := CompileError) (vec_len pattern);
    let prog := [] in
    let prog := prog ++ [ldx_mem BPF_W R2 R1 0] in
    let prog := prog ++ [ldx_mem BPF_W R3 R1 4] in
    if is_empty pattern then
      let prog := prog ++ [alu64_imm BPF_MOV R0 1] in
      let prog := prog ++ [exit] in
      mret prog
    else
      let p_len := wrap_s 32 (vec_len pattern) in
      let prog := prog ++ [alu64_imm BPF_MOV R4 0] in
      (* loop start *)
      let loop_start_idx := vec_len prog in
      let prog := prog ++ [alu64_reg BPF_MOV R5 R2] in
      let prog := prog ++ [alu64_reg BPF_ADD R5 R4] in
      let prog := prog ++ [alu64_reg BPF_MOV R6 R5] in
      let prog := prog ++ [alu64_imm BPF_ADD R6 p_len] in
      let bounds_check_idx := vec_len prog in
      let prog := prog ++ [exit] in
      let '(prog, jump_to_next_targets) := literal_compare_loop 0 pattern prog [] in
      let prog := prog ++ [alu64_imm BPF_MOV R0 1] in
      let prog := prog ++ [exit] in
      (* next iteration *)
      let next_iter_idx := vec_len prog in
      let prog := prog ++ [alu64_imm BPF_ADD R4 1] in
      back ← isize_sub (as_isize loop_start_idx) (as_isize (vec_len prog));
      back ← isize_sub back 1;
      let jump_back_offset := wrap_s 16 back in
      let prog := prog ++ [jmp_imm BPF_JA R0 0 jump_back_offset] in
      (* loop fail *)
      let loop_fail_idx := vec_len prog in
      let prog := prog ++ [alu64_imm BPF_MOV R0 0] in
      let prog := prog ++ [exit] in
      (* backpatch *)
      d ← usize_sub loop_fail_idx bounds_check_idx;
      d ← usize_sub d 1;
      let bounds_offset := wrap_s 16 d in
      prog ← vec_set prog bounds_check_idx (jmp_reg BPF_JGT R6 R3 bounds_offset);
      literal_backpatch pattern next_iter_idx 0 jump_to_next_targets prog.

(** ** [compile_char_class] and [compile_character_class] *)

(** The comparisons of the ranges; returns the program and the indices of the
    jumps to the match label. *)
Fixpoint char_class_loop (ranges : list CharRange) (prog : list BpfInsn)
    (match_jumps : list Z) : list BpfInsn * list Z :=
  match ranges with
  | [] => (prog, match_jumps)
  | r :: rest =>
      let prog := prog ++ [jmp_imm BPF_JLT R7 (lo r) 1] in
      let prog := prog ++ [jmp_imm BPF_JLE R7 (hi r) 0] in
      char_class_loop rest prog (match_jumps ++ [vec_len prog - 1])
  end.

Definition set_off (i : BpfInsn) (o : Z) : BpfInsn := mkBpfInsn (code i) (regs i) o (imm i).

Fixpoint char_class_patch (match_target : Z) (match_jumps : list Z) (prog : list BpfInsn)
  : res CompileError (list BpfInsn) :=
  match match_jumps with
  | [] => mret prog
  | idx :: rest =>
      o ← s_arith 16 (wrap_s 16 match_target - wrap_s 16 idx);
      o ← s_arith 16 (o - 1);
      i ← vec_get prog idx;
      prog ← vec_set prog idx (set_off i o);
      char_class_patch match_target rest prog
  end.

Definition compile_char_class (ranges : list CharRange) : res CompileError (list BpfInsn) :=
  if is_empty ranges then invalid "character class must have at least one range"
  else if existsb (fun r => hi r <? lo r) ranges then invalid reversed_reason
  else
    n ← usize_mul (vec_len ranges) 2;
    estimated ← usize_add 4 n;
    _ ← compile_with_limit estimated;
    let '(prog, match_jumps) := char_class_loop ranges [] [] in
    let prog := prog ++ [alu64_imm BPF_MOV R0 0] in
    let prog := prog ++ [exit] in
    let match_target := vec_len prog in
    let prog := prog ++ [alu64_imm BPF_MOV R0 1] in
    let prog := prog ++ [exit] in
    char_class_patch match_target match_jumps prog.

Definition to_char_range (r : PatternRange) : CharRange :=
  match r with
  | Single v => mkCharRange v v
  | Span lo hi => mkCharRange lo hi
  end.

Definition compile_character_class (class : list Z) : res CompileError (list BpfInsn) :=
  if is_empty class then mret [alu64_imm BPF_MOV R0 0; exit]
  else
    ranges ← parse_character_class class;
    compile_char_class (to_char_range <$> ranges).

(** ** [compile_alternation] *)

(** The program under construction and the four index vectors. *)
Record AltState := mkAltState {
  alt_prog : list BpfInsn;
  mismatch_jump_indices : list (list Z);
  bound_jump_indices : list Z;
  match_jump_indices : list Z;
  alternative_start_indices : list Z;
}.

Fixpoint alt_bytes_loop (offset : Z) (alt : list Z) (prog : list BpfInsn)
    (alt_mismatches : list Z) : list BpfInsn * list Z :=
  match alt with
  | [] => (prog, alt_mismatches)
  | expected :: rest =>
      let prog := prog ++ [ldx_mem BPF_B R7 R5 (wrap_s 16 offset)] in
      let mismatch_idx := vec_len prog in
      let prog := prog ++ [jmp_imm BPF_JNE R7 expected 0] in
      alt_bytes_loop (offset + 1) rest prog (alt_mismatches ++ [mismatch_idx])
  end.

(** The code of one alternative. *)
Definition alt_emit (st : AltState) (alt : list Z) : AltState :=
  let prog := alt_prog st in
  let starts := alternative_start_indices st ++ [vec_len prog] in
  let bound_check_idx := vec_len prog in
  let prog := prog ++ [alu64_reg BPF_MOV R6 R5] in
  let prog := prog ++ [alu64_imm BPF_ADD R6 (wrap_s 32 (vec_len alt))] in
  let prog := prog ++ [jmp_reg BPF_JGT R6 R3 0] in
  let bounds := bound_jump_indices st ++ [bound_check_idx + 2] in
  let '(prog, alt_mismatches) := alt_bytes_loop 0 alt prog [] in
  let match_idx := vec_len prog in
  let prog := prog ++ [jmp_imm BPF_JA R0 0 0] in
  mkAltState prog (mismatch_jump_indices st ++ [alt_mismatches]) bounds
    (match_jump_indices st ++ [match_idx]) starts.

(** [alternative_start_indices.get(i).copied().unwrap_or(fail_idx)]. *)
Definition start_or (starts : list Z) (i fail_idx : Z) : Z :=
  match starts !! Z.to_nat i with Some s => s | None => fail_idx end.

Fixpoint patch_alt_mismatches (next_alt_idx : Z) (alt_mismatches : list Z)
    (prog : list BpfInsn) : res CompileError (list BpfInsn) :=
  match alt_mismatches with
  | [] => mret prog
  | jump_idx :: rest =>
      i ← vec_get prog jump_idx;
      prog ← patch_imm_jump prog jump_idx next_alt_idx R7 (imm i) BPF_JNE;
      patch_alt_mismatches next_alt_idx rest prog
  end.

Fixpoint patch_mismatches (starts : list Z) (fail_idx alt_idx : Z)
    (mismatches : list (list Z)) (prog : list BpfInsn) : res CompileError (list BpfInsn) :=
  match mismatches with
  | [] => mret prog
  | alt_mismatches :: rest =>
      prog ← patch_alt_mismatches (start_or starts (alt_idx + 1) fail_idx) alt_mismatches prog;
      patch_mismatches starts fail_idx (alt_idx + 1) rest prog
  end.

Fixpoint patch_bounds (starts : list Z) (fail_idx alt_position : Z)
    (bounds : list Z) (prog : list BpfInsn) : res CompileError (list BpfInsn) :=
  match bounds with
  | [] => mret prog
  | bound_jump_idx :: rest =>
      let next_alt_idx := start_or starts (alt_position + 1) fail_idx in
      prog ← patch_reg_jump prog bound_jump_idx next_alt_idx R6 R3 BPF_JGT;
      patch_bounds starts fail_idx (alt_position + 1) rest prog
  end.

Fixpoint patch_matches (success_idx : Z) (matches : list Z) (prog : list BpfInsn)
  : res CompileError (list BpfInsn) :=
  match matches with
  | [] => mret prog
  | jump_idx :: rest =>
      prog ← patch_match_jump prog jump_idx success_idx;
      patch_matches success_idx rest prog
  end.

Definition compile_alternation (alternatives : list (list Z))
  : res CompileError (list BpfInsn) :=
  if is_empty alternatives then mret [alu64_imm BPF_MOV R0 0; exit]
  else if existsb is_empty alternatives then mret [alu64_imm BPF_MOV R0 1; exit]
  else
    estimate ← estimate_alternation_instructions alternatives;
    _ ← compile_with_limit estimate;
    _ ← estimate_alternation_instructions (E := CompileError) alternatives;
    let st := foldl alt_emit (mkAltState [] [] [] [] []) alternatives in
    let prog := alt_prog st in
    let fail_idx := vec_len prog in
    let prog := prog ++ [alu64_imm BPF_MOV R0 0] in
    let prog := prog ++ [exit] in
    let success_idx := vec_len prog in
    let prog := prog ++ [alu64_imm BPF_MOV R0 1] in
    let prog := prog ++ [exit] in
    let starts := alternative_start_indices st in
    prog ← patch_mismatches starts fail_idx 0 (mismatch_jump_indices st) prog;
    prog ← patch_bounds starts fail_idx 0 (bound_jump_indices st) prog;
    patch_matches success_idx (match_jump_indices st) prog.

End codegen.

(** ** Structural checks

    [assert_jump_offsets_are_valid] of src/src/compiler/mod.rs: every jump of a
    program lands on one of its instructions. *)

Definition jump_target_valid (len idx : Z) (insn : BpfInsn) : bool :=
  if (Z.land (code insn) 0x07 =? BPF_JMP)
     && negb (Z.land (code insn) 0xF0 =? BPF_EXIT)
     && negb (Z.land (code insn) 0xF0 =? BPF_CALL)
  then
    let target := idx + 1 + off insn in
    (0 <=? target) && (target <? len)
  else true.

Fixpoint jump_targets_valid_from (len idx : Z) (program : list BpfInsn) : bool :=
  match program with
  | [] => true
  | insn :: rest => jump_target_valid len idx insn && jump_targets_valid_from len (idx + 1) rest
  end.

Definition jump_offsets_are_valid (program : list BpfInsn) : bool :=
  jump_targets_valid_from (vec_len program) 0 program.

(** ** Lemmas on the structural checks *)

Lemma jump_targets_valid_app len idx l k :
  jump_targets_valid_from len idx (l ++ k)
  = jump_targets_valid_from len idx l && jump_targets_valid_from len (idx + vec_len l) k.
Proof.
  revert idx. induction l as [|i l IH]; intros idx; cbn [app jump_targets_valid_from].
  - change (vec_len (@nil BpfInsn)) with 0. by rewrite Z.add_0_r.
  - rewrite IH, vec_len_cons, andb_assoc. do 2 f_equal. lia.
Qed.

(** A jump emitted by the macros, with a target inside the program, is valid. *)
Lemma jump_target_in_range len idx insn :
  0 <= idx + 1 + off insn < len -> jump_target_valid len idx insn = true.
Proof. intros. unfold jump_target_valid. destruct (_ && _); lia. Qed.

Lemma jump_target_exit len idx : jump_target_valid len idx exit = true.
Proof. done. Qed.

Lemma jump_target_alu_imm len idx d k :
  jump_target_valid len idx (alu64_imm BPF_MOV d k) = true
  /\ jump_target_valid len idx (alu64_imm BPF_ADD d k) = true.
Proof. done. Qed.

(** What the test-suite and the fuzz target check of a compiled program: not
    empty, ends with [exit], jumps land inside. *)
Definition program_shape_ok (program : list BpfInsn) : bool :=
  negb (is_empty program)
  && (match last program with
      | Some i => Z.land (code i) 0xF0 =? BPF_EXIT
      | None => false
      end)
  && jump_offsets_are_valid program.

(** ** Lemmas on backpatching

    The compilers emit one pair of instructions per element (pattern byte or
    range) and record the index of the second one for the patching pass. *)

Fixpoint pair_indices {A} (base : Z) (l : list A) : list Z :=
  match l with
  | [] => []
  | _ :: rest => base + 1 :: pair_indices (base + 2) rest
  end.
