(* ===== verification/Compare.v ===== *)
(** * The unrolled comparison

    The literal search and the alternation share one piece of generated code: for
    each byte of a pattern, a load relative to [R5] and a conditional jump.  This
    file gives its form, its execution on any machine, and the reference it
    computes, [is_prefix].  It also has the failure and success blocks that end
    character-class and alternation programs. *)

From S2P Require Import Prelude Assembler Machine Codegen.

(** ** Reference *)

Fixpoint is_prefix (p l : list Z) : bool :=
  match p, l with
  | [], _ => true
  | a :: p, b :: l => (a =? b) && is_prefix p l
  | _ :: _, [] => false
  end.

Lemma is_prefix_spec p l : is_prefix p l = true <-> exists k, l = p ++ k.
Proof.
  revert l. induction p as [|a p IH]; intros l; cbn; [split; [eauto|done]|].
  destruct l as [|b l]; cbn; [split; [done|by intros []]|].
  rewrite andb_true_iff, Z.eqb_eq, IH. split.
  - intros [-> [k ->]]. eauto.
  - intros [k Hk]. injection Hk as -> ->. eauto.
Qed.

Lemma is_prefix_length p l : (length l < length p)%nat -> is_prefix p l = false.
Proof.
  revert l. induction p as [|a p IH]; intros [|b l]; cbn; intros; try lia.
  rewrite IH by lia. apply andb_false_r.
Qed.

(** ** The code *)

(** The loads and comparisons of the pattern from its byte [i] on.  A mismatch
    jumps to the instruction [skip + 2] places after the end of this code. *)
Fixpoint cmp_body (skip i : Z) (pat : list Z) : list BpfInsn :=
  match pat with
  | [] => []
  | b :: rest =>
      ldx_mem BPF_B R7 R5 i :: jmp_imm BPF_JNE R7 b (2 * vec_len pat + skip)
      :: cmp_body skip (i + 1) rest
  end.

Lemma cmp_body_len skip i pat : vec_len (cmp_body skip i pat) = 2 * vec_len pat.
Proof.
  revert i. induction pat as [|b pat IH]; intros i; cbn [cmp_body]; autorewrite with vec;
    [done|]. rewrite IH. lia.
Qed.

(** The pattern can be read off the code. *)
Lemma cmp_body_inj skip i p q : cmp_body skip i p = cmp_body skip i q -> p = q.
Proof.
  revert i q. induction p as [|a p IH]; intros i [|b q]; cbn [cmp_body]; try done.
  intros Heq. injection Heq as _ Hk Heq. f_equal; [done|by eapply IH].
Qed.

Lemma cmp_body_jumps len idx skip i pat :
  0 <= idx -> -2 <= skip -> idx + 2 * vec_len pat + 2 + skip < len ->
  jump_targets_valid_from len idx (cmp_body skip i pat) = true.
Proof.
  revert idx i. induction pat as [|b pat IH]; intros idx i Hi Hs Hl; [done|].
  pose proof (vec_len_nonneg pat). rewrite vec_len_cons in Hl.
  cbn [cmp_body jump_targets_valid_from]. rewrite IH by lia.
  rewrite (jump_target_in_range len (idx + 1)) by (cbn [off jmp_imm new]; rewrite vec_len_cons; lia).
  done.
Qed.

(** The blocks that end a class and an alternation: failure, then success. *)
Definition result_tail : list BpfInsn :=
  [alu64_imm BPF_MOV R0 0; exit; alu64_imm BPF_MOV R0 1; exit].

(** ** Execution *)

(** The readable memory holds the bytes [l] from address [a] on. *)
Definition bytes_at (mem : memory) (a : Z) (l : list Z) : Prop :=
  forall i b, l !! i = Some b -> mem 1 (a + Z.of_nat i) = Some b.

Lemma bytes_at_cons mem a b l :
  bytes_at mem a (b :: l) -> mem 1 a = Some b /\ bytes_at mem (a + 1) l.
Proof.
  intros Hm. split.
  - rewrite <- (Z.add_0_r a). by apply (Hm 0%nat).
  - intros i c Hi. rewrite <- (Hm (S i) c Hi). f_equal. lia.
Qed.

Section execution.
  Context {step : memory -> list BpfInsn -> cpu -> outcome} {Hisa : BpfIsa step}.
  Context (mem : memory).

(** The unrolled comparison of [pat] with the bytes at [R5 + i]: it falls through
    when they agree and jumps [skip + 2] instructions past its end when they differ. *)
Lemma cmp_body_run prog pre pat post skip i a hay rs :
  prog = pre ++ cmp_body skip i pat ++ post ->
  rs R5 = a -> 0 <= a + i -> a + i + vec_len pat <= 2 ^ 64 ->
  bytes_at mem (a + i) hay -> Forall is_byte hay -> Forall is_byte pat ->
  (length pat <= length hay)%nat ->
  exists n rs', (n <= 2 * length pat)%nat /\ same_except R7 rs rs' /\
    steps step n mem prog (mkCpu (vec_len pre) rs)
      (mkCpu (vec_len pre + 2 * vec_len pat + (if is_prefix pat hay then 0 else skip + 2)) rs').
Proof.
  revert pre i hay rs. induction pat as [|b pat IH];
    intros pre i hay rs Hprog Ha H0 Hb Hm Hhay Hpat Hlen.
  { exists 0%nat, rs. split_and!; [lia|apply same_except_refl|].
    unfold steps. cbn [run is_prefix]. change (vec_len (@nil Z)) with 0. feq. }
  destruct hay as [|c hay]; [cbn in Hlen; lia|].
  apply bytes_at_cons in Hm as [Hc Hm]. inversion_clear Hhay as [|? ? Hcb Hhay'].
  inversion_clear Hpat as [|? ? Hbb Hpat']. rewrite vec_len_cons in Hb.
  pose proof (vec_len_nonneg pat).
  cbn [cmp_body] in Hprog. set (rs1 := set_reg rs R7 c).
  assert (S1 : step mem prog (mkCpu (vec_len pre) rs) = Next (mkCpu (vec_len pre + 1) rs1)).
  { apply (step_ldx _ _ _ _ BPF_B R7 R5 i); try done.
    - rewrite Hprog. by apply fetch_middle.
    - by repeat constructor.
    - rewrite Ha, u64_small by lia. done. }
  assert (S2 : step mem prog (mkCpu (vec_len pre + 1) rs1) =
    Next (mkCpu (if c =? b then vec_len pre + 2 else vec_len pre + 4 + 2 * vec_len pat + skip) rs1)).
  { rewrite (step_jne_k _ _ _ _ R7 b (2 * vec_len (b :: pat) + skip)); [|..|done].
    - unfold rs1. reg. unfold is_byte in *. rewrite u64_small by lia. rewrite vec_len_cons.
      destruct (c =? b); feq.
    - rewrite Hprog. cbn [app]. rewrite app_cons_snoc. apply fetch_middle.
      by rewrite vec_len_snoc. }
  cbn [is_prefix]. rewrite Z.eqb_sym, vec_len_cons. destruct (c =? b) eqn:Hcb'; cbn [andb].
  - destruct (IH (pre ++ [ldx_mem BPF_B R7 R5 i; jmp_imm BPF_JNE R7 b (2 * vec_len (b :: pat) + skip)])
      (i + 1) hay rs1) as (n & rs' & Hn & Hs & Hr); try done; try lia.
    + rewrite Hprog. rewrite <- !app_assoc. done.
    + by replace (a + (i + 1)) with (a + i + 1) by lia.
    + cbn in Hlen. lia.
    + exists (S (S n)), rs'. split_and!; [cbn; lia|by apply (same_except_set R7 rs rs' c)|].
      eapply steps_S; [apply S1|]. eapply steps_S; [apply S2|].
      autorewrite with vec in Hr. revert Hr.
      replace (vec_len pre + (1 + (1 + 0))) with (vec_len pre + 2) by lia.
      unfold steps. intros ->. feq.
  - exists 2%nat, rs1. split_and!; [cbn; lia|apply (same_except_set R7 rs rs1 c), same_except_refl|].
    eapply steps_S; [apply S1|]. eapply steps_S; [apply S2|].
    unfold steps. cbn [run]. feq.
Qed.

(** The two final blocks: [R0 = 0] at the end of the body, [R0 = 1] after it. *)
Lemma result_tail_fetch l j i p :
  result_tail !! j = Some i -> p = vec_len l + Z.of_nat j -> fetch (l ++ result_tail) p = Some i.
Proof.
  intros Hj ->. rewrite fetch_app_r by lia. unfold fetch.
  rewrite (proj2 (Z.leb_le _ _)) by lia. rewrite <- Hj. f_equal. lia.
Qed.

Lemma result_fail_run l rs : returns step 2 mem (l ++ result_tail) (mkCpu (vec_len l) rs) 0.
Proof.
  eapply returns_step; [apply (step_mov_k _ _ _ _ R0 0); [|done]|].
  - apply (result_tail_fetch l 0); [done|lia].
  - apply returns_exit. rewrite step_exit; [by reg|]. by apply (result_tail_fetch l 1).
Qed.

Lemma result_match_run l rs : returns step 2 mem (l ++ result_tail) (mkCpu (vec_len l + 2) rs) 1.
Proof.
  eapply returns_step; [apply (step_mov_k _ _ _ _ R0 1); [|done]|].
  - by apply (result_tail_fetch l 2).
  - apply returns_exit. rewrite step_exit; [by reg|]. apply (result_tail_fetch l 3); [done|lia].
Qed.

End execution.
