(* ===== verification/LiteralSearch.v ===== *)
(** * Correctness of the literal search

    The closed form of the programs [compile_literal_search] emits, and the proof
    that they decide whether the pattern occurs in the packet, on any machine that
    satisfies [BpfIsa]. *)

From S2P Require Import Prelude Assembler Machine Emit Verify Codegen Compare.

(** ** Reference: substring search *)

Fixpoint contains (p l : list Z) : bool :=
  is_prefix p l || match l with [] => false | _ :: l => contains p l end.

Lemma contains_spec p l : contains p l = true <-> exists l1 l2, l = l1 ++ p ++ l2.
Proof.
  induction l as [|b l IH]; cbn; rewrite orb_true_iff, is_prefix_spec.
  - split; [intros [[k Hk]|]; [by exists [], k|done]|].
    intros ([|] & l2 & Hl); [left; eauto|done].
  - rewrite IH. split.
    + intros [[k ->]|(l1 & l2 & ->)]; [by exists [], k|by exists (b :: l1), l2].
    + intros ([|b' l1] & l2 & Hl); [left; eauto|]. injection Hl as -> ->. right; eauto.
Qed.

Lemma contains_length p l : (length l < length p)%nat -> contains p l = false.
Proof.
  induction l as [|b l IH]; intros; cbn [contains]; rewrite is_prefix_length by done.
  - done.
  - apply IH. cbn in *. lia.
Qed.

(** ** The emitted program *)

Definition lit_setup : list BpfInsn :=
  [ldx_mem BPF_W R2 R1 0; ldx_mem BPF_W R3 R1 4; alu64_imm BPF_MOV R4 0].

Definition lit_bounds (n : Z) : list BpfInsn :=
  [alu64_reg BPF_MOV R5 R2; alu64_reg BPF_ADD R5 R4; alu64_reg BPF_MOV R6 R5;
   alu64_imm BPF_ADD R6 n; jmp_reg BPF_JGT R6 R3 (2 * n + 4)].

Definition lit_tail (n : Z) : list BpfInsn :=
  [alu64_imm BPF_MOV R0 1; exit; alu64_imm BPF_ADD R4 1;
   jmp_imm BPF_JA R0 0 (- (2 * n + 9)); alu64_imm BPF_MOV R0 0; exit].

Definition literal_program (pat : list Z) : list BpfInsn :=
  match pat with
  | [] => [ldx_mem BPF_W R2 R1 0; ldx_mem BPF_W R3 R1 4; alu64_imm BPF_MOV R0 1; exit]
  | _ =>
      let n := vec_len pat in
      (lit_setup ++ lit_bounds n) ++ cmp_body 0 0 pat ++ lit_tail n
  end.

Lemma literal_program_segments pat : pat <> [] ->
  literal_program pat
  = (lit_setup ++ lit_bounds (vec_len pat)) ++ cmp_body 0 0 pat ++ lit_tail (vec_len pat).
Proof. by destruct pat. Qed.

(** ** The compiler emits it *)

(** The comparison code before backpatching. *)
Fixpoint lit_raw (i : Z) (pat : list Z) : list BpfInsn :=
  match pat with
  | [] => []
  | b :: rest => ldx_mem BPF_B R7 R5 i :: exit :: lit_raw (i + 1) rest
  end.

Lemma lit_raw_len i pat : vec_len (lit_raw i pat) = 2 * vec_len pat.
Proof.
  revert i. induction pat as [|b pat IH]; intros i; cbn [lit_raw]; autorewrite with vec;
    [done|]. rewrite IH. lia.
Qed.

Lemma literal_compare_loop_raw i pat prog jumps :
  0 <= i -> i + vec_len pat <= 2 ^ 15 ->
  literal_compare_loop i pat prog jumps
  = (prog ++ lit_raw i pat, jumps ++ pair_indices (vec_len prog) pat).
Proof.
  revert i prog jumps. induction pat as [|b pat IH]; intros i prog jumps Hi Hp; cbn.
  { by rewrite !app_nil_r. }
  rewrite vec_len_cons in Hp. pose proof (vec_len_nonneg pat).
  rewrite IH by lia. rewrite wrap_s_small by lia. autorewrite with vec.
  rewrite <- !app_assoc. cbn. feq.
Qed.

Section compile.
  Context `{Arch}.

Lemma literal_backpatch_body ppre pat pre i tail next :
  next = vec_len pre + 2 * vec_len pat + 2 -> next < 2 ^ 15 ->
  literal_backpatch (ppre ++ pat) next (vec_len ppre) (pair_indices (vec_len pre) pat)
    (pre ++ lit_raw i pat ++ tail)
  = Ok (pre ++ cmp_body 0 i pat ++ tail).
Proof.
  revert ppre pre i. induction pat as [|b pat IH]; intros ppre pre i Hn Hb; [done|].
  pose proof (vec_len_nonneg pat). pose proof (vec_len_nonneg pre).
  cbn [literal_backpatch pair_indices lit_raw cmp_body]. rewrite vec_len_cons in *.
  rewrite vec_get_middle by done. cbn [mbind res_bind]. mach.
  cbn [app]. rewrite (app_cons_snoc pre).
  rewrite vec_set_middle by (autorewrite with vec; lia). cbn [mbind res_bind].
  rewrite (app_cons_snoc (pre ++ _)). rewrite (app_cons_snoc ppre), <- vec_len_snoc with (a := b).
  replace (vec_len pre + 2)
    with (vec_len ((pre ++ [ldx_mem BPF_B R7 R5 i])
                   ++ [jmp_imm BPF_JNE R7 b (next - (vec_len pre + 1) - 1)]))
    by (autorewrite with vec; lia).
  rewrite IH by (autorewrite with vec; lia).
  rewrite <- !app_assoc. cbn. feq.
Qed.

Lemma compile_literal_search_program pat :
  vec_len pat <= MAX_BPF_PATTERN_LEN ->
  compile_literal_search pat = Ok (literal_program pat).
Proof.
  unfold MAX_BPF_PATTERN_LEN. intros Hp. pose proof (vec_len_nonneg pat).
  unfold compile_literal_search, literal_search_instruction_count.
  destruct pat as [|b pat]; [done|]. set (p := b :: pat) in *.
  rewrite (proj2 (Z.eqb_neq _ _)) by (unfold p; rewrite vec_len_cons;
    pose proof (vec_len_nonneg pat); lia).
  mach. unfold compile_with_limit, MAX_BPF_INSTRUCTION_LEN, MAX_BPF_PATTERN_LEN.
  rewrite (proj2 (Z.ltb_ge _ _)) by lia. cbn [mbind res_bind].
  rewrite (proj2 (Z.ltb_ge _ _)) by lia. mach. cbn [is_empty p]. fold p.
  rewrite literal_compare_loop_raw by (autorewrite with vec; lia).
  autorewrite with vec. rewrite lit_raw_len. mach.
  autorewrite with vec. rewrite lit_raw_len. mach.
  rewrite <- !app_assoc. cbn [app].
  replace (vec_set _ _ _) with (Ok (E := CompileError)
    ((lit_setup ++ lit_bounds (vec_len p)) ++ lit_raw 0 p ++ lit_tail (vec_len p))).
  2: { symmetry. etrans; [apply (vec_set_middle (lit_setup ++ take 4 (lit_bounds (vec_len p))))|].
       - reflexivity.
       - unfold lit_setup, lit_bounds, lit_tail. cbn [app take]. feq. }
  cbn [mbind res_bind].
  pose proof (literal_backpatch_body [] p (lit_setup ++ lit_bounds (vec_len p)) 0
    (lit_tail (vec_len p)) (2 * vec_len p + 10)) as Hb.
  change (vec_len (lit_setup ++ lit_bounds (vec_len p))) with 8 in Hb.
  change (literal_program p) with
    ((lit_setup ++ lit_bounds (vec_len p)) ++ cmp_body 0 0 p ++ lit_tail (vec_len p)).
  rewrite <- Hb by lia. cbn [app]. feq.
Qed.
End compile.

(** ** Execution *)

Section execution.
  Context {step : memory -> list BpfInsn -> cpu -> outcome} {Hisa : BpfIsa step}.
  Context (mem : memory).

Section loop.
  Context (pat : list Z) (Hne : pat <> []) (Hpat : Forall is_byte pat).
  Context (Hmax : vec_len pat <= MAX_BPF_PATTERN_LEN).

Abbreviation n := (vec_len pat).
Abbreviation prog := (literal_program pat).

Lemma lit_head_fetch p i :
  fetch (lit_setup ++ lit_bounds n) p = Some i -> fetch prog p = Some i.
Proof. rewrite literal_program_segments by done. apply fetch_app_l. Qed.

Lemma lit_tail_fetch j i p :
  lit_tail n !! j = Some i -> p = 8 + 2 * n + Z.of_nat j -> fetch prog p = Some i.
Proof.
  intros Hj ->. pose proof (vec_len_nonneg pat). rewrite literal_program_segments by done.
  change 8 with (vec_len (lit_setup ++ lit_bounds n)).
  rewrite fetch_app_r by lia. rewrite fetch_app_r by (rewrite cmp_body_len; lia).
  rewrite cmp_body_len. unfold fetch. rewrite (proj2 (Z.leb_le _ _)) by lia.
  rewrite <- Hj. f_equal. lia.
Qed.

(** The tail blocks: match, next iteration, failure. *)
Lemma lit_match_run rs : returns step 2 mem prog (mkCpu (8 + 2 * n) rs) 1.
Proof.
  eapply returns_step; [apply step_mov_k with (d := R0) (k := 1)|].
  { apply (lit_tail_fetch 0); [done|lia]. } { done. }
  apply returns_exit. rewrite step_exit by (apply (lit_tail_fetch 1); [done|lia]).
  by reg.
Qed.

Lemma lit_fail_run rs : returns step 2 mem prog (mkCpu (12 + 2 * n) rs) 0.
Proof.
  eapply returns_step; [apply step_mov_k with (d := R0) (k := 0)|].
  { apply (lit_tail_fetch 4); [done|lia]. } { done. }
  apply returns_exit. rewrite step_exit by (apply (lit_tail_fetch 5); [done|lia]).
  by reg.
Qed.

Lemma lit_next_run rs :
  steps step 2 mem prog (mkCpu (10 + 2 * n) rs)
    (mkCpu 3 (set_reg rs R4 (u64 (rs R4 + 1)))).
Proof.
  eapply steps_S; [apply step_add_k with (d := R4) (k := 1)|].
  { apply (lit_tail_fetch 2); [done|lia]. } { done. }
  apply steps_one. erewrite step_ja by (apply (lit_tail_fetch 3); [done|lia]). feq.
Qed.

Lemma start_in_window {A} a (l : list A) b : a + vec_len l < b -> a < b.
Proof. pose proof (vec_len_nonneg l). lia. Qed.

(** The bounds check at the head of an iteration. *)
Lemma lit_bounds_run rs data k m :
  rs R2 = data -> rs R4 = k -> rs R3 = data + k + m -> 0 <= data -> 0 <= k ->
  data + k < 2 ^ 32 ->
  exists rs', rs' R5 = data + k /\ (forall q, q <> R5 -> q <> R6 -> rs' q = rs q) /\
    steps step 5 mem prog (mkCpu 3 rs) (mkCpu (if m <? n then 12 + 2 * n else 8) rs').
Proof.
  intros H2 H4 H3 Hd Hk Hb. pose proof (vec_len_nonneg pat).
  unfold MAX_BPF_PATTERN_LEN in Hmax.
  set (rs1 := set_reg rs R5 (rs R2)).
  set (rs2 := set_reg rs1 R5 (u64 (rs1 R5 + rs1 R4))).
  set (rs3 := set_reg rs2 R6 (rs2 R5)).
  set (rs4 := set_reg rs3 R6 (u64 (rs3 R6 + n))).
  assert (H5 : rs2 R5 = data + k).
  { unfold rs2, rs1. reg. rewrite H2, H4. apply u64_small. lia. }
  assert (H6 : rs4 R6 = data + k + n).
  { unfold rs4, rs3. reg. rewrite H5. apply u64_small. lia. }
  exists rs4. split_and!.
  - unfold rs4, rs3. by reg.
  - intros q Hq5 Hq6. unfold rs4, rs3, rs2, rs1. by rewrite !set_reg_ne.
  - eapply steps_S; [apply step_mov_x with (d := R5) (s := R2); [by apply lit_head_fetch|done..]|].
    eapply steps_S; [apply step_add_x with (d := R5) (s := R4); [by apply lit_head_fetch|done..]|].
    eapply steps_S; [apply step_mov_x with (d := R6) (s := R5); [by apply lit_head_fetch|done..]|].
    eapply steps_S; [apply step_add_k with (d := R6) (k := n); [by apply lit_head_fetch|done..]|].
    apply steps_one. fold rs1 rs2 rs3 rs4.
    rewrite (step_jgt_x _ _ _ _ R6 R3 (2 * n + 4)); [|by apply lit_head_fetch|done..].
    rewrite H6. assert (H3' : rs4 R3 = data + k + m).
    { unfold rs4, rs3, rs2, rs1. by reg. }
    rewrite H3'. do 2 f_equal. destruct (Z.ltb_spec m n), (Z.ltb_spec (data + k + m) (data + k + n)); lia.
Qed.

(** The search from the [k]-th byte of the packet, [hay] being the bytes left. *)
Lemma lit_loop_run hay rs data k :
  rs R2 = data -> rs R4 = k -> rs R3 = data + k + vec_len hay ->
  0 <= data -> 0 <= k -> data + k + vec_len hay < 2 ^ 32 ->
  bytes_at mem (data + k) hay -> Forall is_byte hay ->
  returns step ((length hay + 1) * (2 * length pat + 7)) mem prog (mkCpu 3 rs)
    (Z.b2z (contains pat hay)).
Proof.
  revert rs k. induction hay as [|c hay IH]; intros rs k H2 H4 H3 Hd Hk Hb Hm Hhay;
    destruct (lit_bounds_run rs data k _ H2 H4 H3 Hd Hk (start_in_window _ _ _ Hb))
      as (rs1 & H5 & Hs1 & Hr1).
  - assert (Hpos : 0 < n) by (destruct pat; [done|rewrite vec_len_cons;
      pose proof (vec_len_nonneg l); lia]).
    change (vec_len (@nil Z)) with 0 in Hr1. rewrite (proj2 (Z.ltb_lt _ _)) in Hr1 by lia.
    rewrite contains_length by (unfold vec_len in Hpos; cbn; lia).
    eapply returns_mono; [eapply returns_steps; [apply Hr1|apply lit_fail_run]|cbn; lia].
  - destruct (Z.ltb_spec (vec_len (c :: hay)) n) as [Hlt|Hge].
    { rewrite contains_length by (unfold vec_len in Hlt; lia).
      eapply returns_mono; [eapply returns_steps; [apply Hr1|apply lit_fail_run]|cbn; lia]. }
    destruct (cmp_body_run mem prog (lit_setup ++ lit_bounds n) pat (lit_tail n) 0 0 (data + k)
      (c :: hay) rs1) as (j & rs2 & Hj & Hs2 & Hr2); try done.
    { by apply literal_program_segments. } { lia. } { lia. }
    { by rewrite Z.add_0_r. } { unfold vec_len in Hge. lia. }
    change (vec_len (lit_setup ++ lit_bounds n)) with 8 in Hr2.
    cbn [contains]. destruct (is_prefix pat (c :: hay)); cbn [orb].
    + rewrite Z.add_0_r in Hr2. eapply returns_mono;
        [eapply returns_steps; [apply Hr1|eapply returns_steps; [apply Hr2|apply lit_match_run]]|].
      cbn. lia.
    + replace (8 + 2 * n + (0 + 2)) with (10 + 2 * n) in Hr2 by lia.
      rewrite vec_len_cons in *.
      assert (Hrs : forall q, q <> R7 -> q <> R5 -> q <> R6 -> rs2 q = rs q).
      { intros q ???. rewrite Hs2 by done. by apply Hs1. }
      set (rs3 := set_reg rs2 R4 (u64 (rs2 R4 + 1))).
      assert (H34 : rs3 R4 = k + 1).
      { unfold rs3. reg. rewrite Hrs, H4 by done. apply u64_small.
        pose proof (vec_len_nonneg hay). lia. }
      inversion_clear Hhay. apply bytes_at_cons in Hm as [_ Hm].
      eapply returns_mono;
        [eapply returns_steps; [apply Hr1|eapply returns_steps; [apply Hr2|
           eapply returns_steps; [apply lit_next_run|
             apply (IH rs3 (k + 1)); try done]]]|].
      * unfold rs3. reg. by rewrite Hrs.
      * unfold rs3. reg. rewrite Hrs, H3 by done. lia.
      * lia.
      * lia.
      * by rewrite Z.add_assoc.
      * cbn [length]. lia.
Qed.
End loop.
End execution.

(** ** Packets *)

(** The context the compiler assumes (the comment at its head): [R1] points to a
    structure whose first two words are the start and the end of the packet, as in
    [struct xdp_md], and the packet can be read. *)
Record packet_ctx (mem : memory) (rs : regfile) (data : Z) (pkt : list Z) : Prop := {
  ctx_range : 0 <= rs R1 < 2 ^ 64 - 4;
  ctx_data : mem 4 (rs R1) = Some data;
  ctx_data_end : mem 4 (rs R1 + 4) = Some (data + vec_len pkt);
  pkt_range : 0 <= data /\ data + vec_len pkt < 2 ^ 32;
  pkt_bytes : Forall is_byte pkt;
  pkt_readable : bytes_at mem data pkt;
}.

(** The memory in which nothing but the two context words and the packet bytes
    can be read. *)
Definition packet_memory (ctx data : Z) (pkt : list Z) : memory := fun n a =>
  if (n =? 4) && (a =? ctx) then Some data
  else if (n =? 4) && (a =? ctx + 4) then Some (data + vec_len pkt)
  else if (n =? 1) && (data <=? a) then pkt !! Z.to_nat (a - data)
  else None.

Lemma packet_memory_ctx rs data pkt :
  0 <= rs R1 < 2 ^ 64 - 4 -> 0 <= data -> data + vec_len pkt < 2 ^ 32 ->
  Forall is_byte pkt -> packet_ctx (packet_memory (rs R1) data pkt) rs data pkt.
Proof.
  intros Hc Hd Hb Hp. split; try done; unfold packet_memory.
  - by rewrite !Z.eqb_refl.
  - rewrite (proj2 (Z.eqb_neq (rs R1 + 4) (rs R1))) by lia. by rewrite !Z.eqb_refl.
  - intros i b Hi. cbn [Z.eqb andb]. rewrite (proj2 (Z.leb_le _ _)) by lia.
    rewrite <- Hi. f_equal. lia.
Qed.

(** The number of instructions a search executes at most. *)
Definition literal_steps (pat pkt : list Z) : nat :=
  3 + (length pkt + 1) * (2 * length pat + 7).

(** The first two instructions load the two words of the context. *)
Lemma literal_loads {step} `{BpfIsa step} mem rs pat v w :
  0 <= rs R1 < 2 ^ 64 - 4 -> mem 4 (rs R1) = Some v -> mem 4 (rs R1 + 4) = Some w ->
  steps step 2 mem (literal_program pat) (mkCpu 0 rs) (mkCpu 2 (set_reg (set_reg rs R2 v) R3 w)).
Proof.
  intros Hc Hv Hw.
  assert (Hhd : forall p i, fetch (take 3 lit_setup) p = Some i -> p < 2 ->
    fetch (literal_program pat) p = Some i).
  { intros p i Hf Hp. destruct pat; [|by apply lit_head_fetch, (fetch_app_l lit_setup)].
    revert Hf. unfold fetch. destruct (0 <=? p) eqn:E0; [|done].
    assert (Z.to_nat p = 0 \/ Z.to_nat p = 1)%nat as [-> | ->] by lia; done. }
  eapply steps_S; [apply (step_ldx _ _ _ _ BPF_W R2 R1 0 v); [by apply Hhd|by repeat constructor|done..|]|].
  { rewrite Z.add_0_r, u64_small by lia. done. }
  apply steps_one. change (mkCpu 2 ?r) with (mkCpu (0 + 1 + 1) r).
  apply (step_ldx _ _ _ _ BPF_W R3 R1 4 w); [by apply Hhd|by repeat constructor|done..|].
  reg. rewrite u64_small by lia. done.
Qed.

Lemma literal_program_run {step} `{BpfIsa step} mem rs data pat pkt :
  vec_len pat <= MAX_BPF_PATTERN_LEN -> Forall is_byte pat ->
  packet_ctx mem rs data pkt ->
  returns step (literal_steps pat pkt) mem (literal_program pat) (mkCpu 0 rs)
    (Z.b2z (contains pat pkt)).
Proof.
  intros Hmax Hpat [Hc Hd He [Hr1 Hr2] Hb Hm].
  apply (returns_steps 2 (1 + (length pkt + 1) * (2 * length pat + 7)) _ _ _
    (literal_loads mem rs pat _ _ Hc Hd He)).
  set (rs2 := set_reg _ R3 _). destruct pat as [|b pat].
  { destruct pkt; cbn; eapply returns_step;
      [by apply (step_mov_k _ _ _ _ R0 1)|by apply returns_exit; rewrite step_exit|
       by apply (step_mov_k _ _ _ _ R0 1)|by apply returns_exit; rewrite step_exit]. }
  set (rs3 := set_reg rs2 R4 (u64 0)).
  eapply returns_step; [apply (step_mov_k _ _ _ _ R4 0); [by apply lit_head_fetch|done]|].
  fold rs3. apply (lit_loop_run mem (b :: pat)) with (data := data) (k := 0); try done.
  - unfold rs3, rs2. reg. lia.
  - lia.
  - by rewrite Z.add_0_r.
Qed.

(** ** Socket buffers *)

(** What a program of type socket filter finds on entry: [R1] points to a
    [struct __sk_buff] (linux/bpf.h), whose first two words are the length of the
    packet and its type, a value of three bits.  The packet itself is not mapped. *)
Record sk_buff_ctx (mem : memory) (rs : regfile) (len pkt_type : Z) : Prop := {
  skb_range : 0 <= rs R1 < 2 ^ 64 - 4;
  skb_len : mem 4 (rs R1) = Some len;
  skb_pkt_type : mem 4 (rs R1 + 4) = Some pkt_type;
  skb_len_u32 : 0 <= len < 2 ^ 32;
  skb_pkt_type_bits : 0 <= pkt_type < 8;
}.

(** The search then takes the length for the start and the type for the end: its
    first bounds check fails. *)
Lemma literal_program_sk_buff {step} `{BpfIsa step} mem rs len pkt_type pat :
  pat <> [] -> vec_len pat <= MAX_BPF_PATTERN_LEN -> sk_buff_ctx mem rs len pkt_type ->
  pkt_type < len + vec_len pat ->
  returns step 10 mem (literal_program pat) (mkCpu 0 rs) 0.
Proof.
  intros Hne Hmax [Hc Hl Ht Hlr Htr] Hlt.
  apply (returns_steps 2 8 _ _ _ (literal_loads mem rs pat _ _ Hc Hl Ht)).
  set (rs3 := set_reg (set_reg (set_reg rs R2 len) R3 pkt_type) R4 (u64 0)).
  apply (returns_step 7 _ (mkCpu (2 + 1) rs3)); [apply (step_mov_k _ _ _ _ R4 0); [by apply lit_head_fetch|done]|].
  destruct (lit_bounds_run mem pat Hne Hmax rs3 len 0 (pkt_type - len)) as (rs4 & _ & _ & Hb);
    [done|done|unfold rs3; reg; lia|lia..|].
  rewrite (proj2 (Z.ltb_lt _ _)) in Hb by lia.
  by apply (returns_steps 5 2 _ _ _ Hb), lit_fail_run.
Qed.

(** ** Shape of the emitted program *)

Lemma literal_program_len pat :
  vec_len (literal_program pat) = if vec_len pat =? 0 then 4 else 14 + 2 * vec_len pat.
Proof.
  destruct pat as [|b pat]; [done|]. rewrite (literal_program_segments (b :: pat)) by done.
  pose proof (vec_len_nonneg pat). rewrite (proj2 (Z.eqb_neq _ _)) by (rewrite vec_len_cons; lia).
  rewrite !vec_len_app, cmp_body_len. change (vec_len lit_setup) with 3.
  change (vec_len (lit_bounds _)) with 5. change (vec_len (lit_tail _)) with 6. lia.
Qed.

Lemma literal_program_jumps pat : jump_offsets_are_valid (literal_program pat) = true.
Proof.
  destruct pat as [|b pat]; [done|]. unfold jump_offsets_are_valid.
  rewrite literal_program_len. set (p := b :: pat).
  assert (1 <= vec_len p) by (unfold p; rewrite vec_len_cons; pose proof (vec_len_nonneg pat); lia).
  rewrite (proj2 (Z.eqb_neq _ _)) by lia.
  rewrite (literal_program_segments p) by done. rewrite !jump_targets_valid_app.
  rewrite cmp_body_len, !vec_len_app. change (vec_len lit_setup) with 3.
  change (vec_len (lit_bounds _)) with 5. rewrite cmp_body_jumps by lia.
  cbn [lit_setup lit_bounds lit_tail jump_targets_valid_from].
  rewrite (jump_target_in_range _ _ (jmp_reg _ _ _ _)) by (cbn [off jmp_reg new]; lia).
  rewrite (jump_target_in_range _ _ (jmp_imm _ _ _ _)) by (cbn [off jmp_imm new]; lia).
  done.
Qed.

Lemma literal_program_shape pat : program_shape_ok (literal_program pat) = true.
Proof.
  unfold program_shape_ok. rewrite literal_program_jumps. destruct pat as [|b pat]; [done|].
  rewrite (literal_program_segments (b :: pat)) by done.
  rewrite app_assoc. rewrite last_app. done.
Qed.

Lemma literal_program_inj p q : literal_program p = literal_program q -> p = q.
Proof.
  intros Heq. assert (Hlen : vec_len p = vec_len q).
  { apply (f_equal vec_len) in Heq. rewrite !literal_program_len in Heq.
    pose proof (vec_len_nonneg p). pose proof (vec_len_nonneg q).
    destruct (Z.eqb_spec (vec_len p) 0), (Z.eqb_spec (vec_len q) 0); lia. }
  destruct p as [|a p], q as [|b q]; [done|..];
    try (rewrite vec_len_cons in Hlen; first [pose proof (vec_len_nonneg q) | pose proof (vec_len_nonneg p)];
         change (vec_len (@nil Z)) with 0 in Hlen; lia).
  rewrite !literal_program_segments in Heq by done. rewrite Hlen in Heq.
  apply app_inv_head in Heq. apply app_inv_tail in Heq. by eapply cmp_body_inj.
Qed.

(** Only patterns within the limit compile, whatever the width of [usize]. *)
Lemma compile_literal_search_inv `{Arch} pat prog :
  compile_literal_search pat = Ok prog ->
  vec_len pat <= MAX_BPF_PATTERN_LEN /\ prog = literal_program pat.
Proof.
  intros Hc. assert (Hle : vec_len pat <= MAX_BPF_PATTERN_LEN).
  { unfold compile_literal_search in Hc. apply bind_Ok in Hc as (count & _ & Hc).
    apply bind_Ok in Hc as (_ & _ & Hc).
    destruct (Z.ltb_spec MAX_BPF_PATTERN_LEN (vec_len pat)); [done|lia]. }
  split; [done|]. rewrite compile_literal_search_program in Hc by done. by injection Hc.
Qed.

(** The error of a pattern above the limit, while its instruction count fits [usize]. *)
Lemma compile_literal_search_refused `{Arch} pat :
  MAX_BPF_PATTERN_LEN < vec_len pat -> 14 + 2 * vec_len pat <= usize_max ->
  compile_literal_search pat =
  Err (if vec_len pat <=? 2041 then PatternTooLong (vec_len pat) MAX_BPF_PATTERN_LEN
       else PatternTooLong (14 + 2 * vec_len pat) MAX_BPF_INSTRUCTION_LEN).
Proof.
  unfold usize_max. intros Hlen Hu. unfold MAX_BPF_PATTERN_LEN in *.
  unfold compile_literal_search, literal_search_instruction_count.
  rewrite (proj2 (Z.eqb_neq _ _)) by lia. unfold usize_mul, usize_add. mach.
  unfold compile_with_limit, MAX_BPF_INSTRUCTION_LEN, MAX_BPF_PATTERN_LEN.
  destruct (Z.leb_spec (vec_len pat) 2041).
  - rewrite (proj2 (Z.ltb_ge 4096 _)) by lia. cbn [mbind res_bind].
    by rewrite (proj2 (Z.ltb_lt 1024 _)) by lia.
  - rewrite (proj2 (Z.ltb_lt 4096 _)) by lia. cbn [mbind res_bind]. feq.
Qed.

(** Different patterns compile to different programs. *)
Lemma compile_literal_search_injective `{Arch} p q prog :
  compile_literal_search p = Ok prog -> compile_literal_search q = Ok prog -> p = q.
Proof.
  intros [_ Hp]%compile_literal_search_inv [_ Hq]%compile_literal_search_inv.
  apply literal_program_inj. congruence.
Qed.

(** A pattern whose instruction count does not fit [usize]. *)
Lemma compile_literal_search_overflow `{Arch} pat :
  usize_max < 14 + 2 * vec_len pat ->
  match compile_literal_search pat with
  | Ok _ | OutOfFuel => False
  | Err _ => True
  | Panic => overflow_checks = true /\ usize_max < 14 + 2 * vec_len pat
  end.
Proof.
  intros Hover. pose proof usize_pow_ge.
  assert (Hgt : MAX_BPF_PATTERN_LEN < vec_len pat)
    by (unfold MAX_BPF_PATTERN_LEN, usize_max in *; lia).
  assert (Hcount : (exists c, literal_search_instruction_count (E := CompileError) (vec_len pat) = Ok c)
    \/ literal_search_instruction_count (E := CompileError) (vec_len pat) = Panic
       /\ overflow_checks = true).
  { unfold literal_search_instruction_count. destruct (_ =? 0); [by eauto|].
    unfold usize_mul, usize_add, u_arith. destruct (in_u _ (vec_len pat * 2)), overflow_checks;
      cbn [mbind res_bind]; eauto; destruct (in_u _ _); eauto. }
  unfold compile_literal_search. destruct Hcount as [[c ->]|[-> ?]]; cbn [mbind res_bind]; [|done].
  unfold compile_with_limit. destruct (_ <? c); cbn [mbind res_bind]; [done|].
  by rewrite (proj2 (Z.ltb_lt _ _)) by done.
Qed.

(** ** Theorems *)

Section theorems.
  Context `{Arch}.

(** C1. The compiled search decides whether the pattern occurs in the packet: on any
    machine that follows the instruction set, and any packet below 4 GiB, the run
    exits within [literal_steps] instructions with [R0 = 1] when the pattern is a
    substring of the packet and [R0 = 0] when it is not. *)
Theorem compile_literal_search_correct {step} `{BpfIsa step} mem rs data pat pkt :
  vec_len pat <= MAX_BPF_PATTERN_LEN -> Forall is_byte pat ->
  packet_ctx mem rs data pkt ->
  exists prog v, compile_literal_search pat = Ok prog
    /\ returns step (literal_steps pat pkt) mem prog (mkCpu 0 rs) v
    /\ (v = 1 /\ (exists l1 l2, pkt = l1 ++ pat ++ l2)
        \/ v = 0 /\ ~ exists l1 l2, pkt = l1 ++ pat ++ l2).
Proof.
  intros Hmax Hpat Hctx. exists (literal_program pat), (Z.b2z (contains pat pkt)).
  split_and!; [by apply compile_literal_search_program|by eapply literal_program_run|].
  rewrite <- contains_spec. destruct (contains pat pkt); [left|right]; by split.
Qed.

(** C10. The compiled search reads nothing but the two context words and the bytes of
    the packet: it returns on a machine where every other load faults. *)
Theorem compile_literal_search_memory_safe {step} `{BpfIsa step} rs data pat pkt :
  vec_len pat <= MAX_BPF_PATTERN_LEN -> Forall is_byte pat -> Forall is_byte pkt ->
  0 <= rs R1 < 2 ^ 64 - 4 -> 0 <= data -> data + vec_len pkt < 2 ^ 32 ->
  exists prog v, compile_literal_search pat = Ok prog
    /\ returns step (literal_steps pat pkt) (packet_memory (rs R1) data pkt) prog (mkCpu 0 rs) v.
Proof.
  intros Hmax Hpat Hpkt Hc Hd Hb. exists (literal_program pat), (Z.b2z (contains pat pkt)).
  split; [by apply compile_literal_search_program|].
  apply (literal_program_run (H := H0)) with (data := data); [done..|].
  by apply packet_memory_ctx.
Qed.

(** C22. Every outcome of compiling a literal.  A program: the pattern has at most 1024
    bytes, and the program has the instruction count the limit check used, below the
    verifier's 4096, ends with [exit], and jumps only inside itself.  An error: the
    pattern is longer; while the instruction count fits [usize] the error carries the
    pattern length and 1024 up to 2041 bytes, and the instruction count and 4096 above
    that.  A panic: only with overflow checks, when the count does not fit [usize]. *)
Theorem compile_literal_search_outcome pat :
  match compile_literal_search pat with
  | Ok prog =>
      vec_len pat <= MAX_BPF_PATTERN_LEN
      /\ literal_search_instruction_count (E := CompileError) (vec_len pat) = Ok (vec_len prog)
      /\ vec_len prog < MAX_BPF_INSTRUCTION_LEN /\ program_shape_ok prog = true
  | Err e =>
      MAX_BPF_PATTERN_LEN < vec_len pat
      /\ (14 + 2 * vec_len pat <= usize_max ->
          e = if vec_len pat <=? 2041 then PatternTooLong (vec_len pat) MAX_BPF_PATTERN_LEN
              else PatternTooLong (14 + 2 * vec_len pat) MAX_BPF_INSTRUCTION_LEN)
  | Panic => overflow_checks = true /\ usize_max < 14 + 2 * vec_len pat
  | OutOfFuel => False
  end.
Proof.
  destruct (Z.leb_spec (vec_len pat) MAX_BPF_PATTERN_LEN) as [Hle|Hgt].
  - rewrite compile_literal_search_program by done. pose proof (vec_len_nonneg pat).
    unfold MAX_BPF_PATTERN_LEN, MAX_BPF_INSTRUCTION_LEN in *.
    rewrite literal_program_len, literal_program_shape. unfold literal_search_instruction_count.
    destruct (vec_len pat =? 0); [done|]. mach. split_and!; [lia|feq|lia|done].
  - destruct (Z.leb_spec (14 + 2 * vec_len pat) usize_max) as [Hfit|Hover].
    + rewrite compile_literal_search_refused by done. done.
    + pose proof (compile_literal_search_overflow pat Hover) as Ho.
      destruct (compile_literal_search pat) as [prog|e| |]; [|split; [done|lia]|done|done].
      by destruct Ho.
Qed.
End theorems.

(** ** Witnesses *)

(** A packet at address 4096, described by a context at address 64. *)
Definition demo_regs : regfile := fun r => if r =? R1 then 64 else 0.
Definition demo_packet : list Z := bytes "user=x&password=y".

Lemma demo_packet_ctx :
  packet_ctx (packet_memory 64 4096 demo_packet) demo_regs 4096 demo_packet.
Proof. apply (packet_memory_ctx demo_regs); [done|done|done|apply bytes_is_byte]. Qed.

Lemma compile_literal_search_correct_witness :
  exists prog v, compile_literal_search (H := arch64_debug) (bytes "password") = Ok prog
    /\ returns Reference.step (literal_steps (bytes "password") demo_packet)
         (packet_memory 64 4096 demo_packet) prog (mkCpu 0 demo_regs) v
    /\ (v = 1 /\ (exists l1 l2, demo_packet = l1 ++ bytes "password" ++ l2)
        \/ v = 0 /\ ~ exists l1 l2, demo_packet = l1 ++ bytes "password" ++ l2).
Proof.
  apply (compile_literal_search_correct (H0 := Reference.isa) _ _ 4096); [vm_compute; discriminate|
    apply bytes_is_byte|apply demo_packet_ctx].
Defined.

(** The same run, evaluated. *)
Example literal_search_run :
  (prog ← compile_literal_search (H := arch64_debug) (bytes "password");
   mret (run Reference.step 400 (packet_memory 64 4096 demo_packet) prog (mkCpu 0 demo_regs)))
  = Ok (Returned 1).
Proof. vm_compute. reflexivity. Qed.

Lemma compile_literal_search_memory_safe_witness :
  exists prog v, compile_literal_search (H := arch32_debug) (bytes "absent") = Ok prog
    /\ returns Reference.step (literal_steps (bytes "absent") demo_packet)
         (packet_memory 64 4096 demo_packet) prog (mkCpu 0 demo_regs) v.
Proof.
  apply (compile_literal_search_memory_safe (H0 := Reference.isa) demo_regs);
    [vm_compute; discriminate|apply bytes_is_byte|apply bytes_is_byte|done..].
Defined.

(** The outcomes on a compiled, a long and a very long pattern. *)
Example literal_search_outcomes :
  map (fun n => match compile_literal_search (H := arch64_debug) (replicate n 65) with
                | Ok prog => inl (vec_len prog) | Err e => inr (Some e) | _ => inr None end)
    [0; 2; 1024; 1025; 2041; 2042]%nat
  = [inl 4; inl 18; inl 2062; inr (Some (PatternTooLong 1025 1024));
     inr (Some (PatternTooLong 2041 1024)); inr (Some (PatternTooLong 4098 4096))].
Proof. vm_compute. reflexivity. Qed.
