(* ===== verification/CharClass.v ===== *)
(** * Correctness of character classes

    The closed form of the programs [compile_char_class] emits and the proof that
    they decide membership of the byte in [R7], for range lists and for bracket
    expressions.  [Interp] is the interpreter the crate's unit tests run such
    programs with (src/tests/unit/compiler.rs); it agrees with any machine that
    satisfies [BpfIsa]. *)

From S2P Require Import Prelude Assembler Machine Utf8 Emit Verify Codegen Compare.

(** ** Reference: membership *)

Definition in_range (b : Z) (r : CharRange) : bool := (lo r <=? b) && (b <=? hi r).

(** ** The emitted program *)

Fixpoint cc_body (ranges : list CharRange) : list BpfInsn :=
  match ranges with
  | [] => []
  | r :: rest =>
      jmp_imm BPF_JLT R7 (lo r) 1 :: jmp_imm BPF_JLE R7 (hi r) (2 * vec_len ranges)
      :: cc_body rest
  end.

Definition char_class_program (ranges : list CharRange) : list BpfInsn :=
  cc_body ranges ++ result_tail.

Fixpoint cc_raw (ranges : list CharRange) : list BpfInsn :=
  match ranges with
  | [] => []
  | r :: rest =>
      jmp_imm BPF_JLT R7 (lo r) 1 :: jmp_imm BPF_JLE R7 (hi r) 0 :: cc_raw rest
  end.

Lemma cc_body_len ranges : vec_len (cc_body ranges) = 2 * vec_len ranges.
Proof. induction ranges; cbn [cc_body]; autorewrite with vec; lia. Qed.

Lemma cc_raw_len ranges : vec_len (cc_raw ranges) = 2 * vec_len ranges.
Proof. induction ranges; cbn [cc_raw]; autorewrite with vec; lia. Qed.

(** ** The compiler emits it *)

Lemma char_class_loop_raw ranges prog jumps :
  char_class_loop ranges prog jumps
  = (prog ++ cc_raw ranges, jumps ++ pair_indices (vec_len prog) ranges).
Proof.
  revert prog jumps. induction ranges as [|r ranges IH]; intros prog jumps; cbn.
  { by rewrite !app_nil_r. }
  rewrite IH. autorewrite with vec. rewrite <- !app_assoc. cbn. feq.
Qed.

Section compile.
  Context `{Arch}.

Lemma char_class_patch_body ranges pre tail target :
  target = vec_len pre + 2 * vec_len ranges + 2 -> target < 2 ^ 15 ->
  char_class_patch target (pair_indices (vec_len pre) ranges) (pre ++ cc_raw ranges ++ tail)
  = Ok (pre ++ cc_body ranges ++ tail).
Proof.
  revert pre. induction ranges as [|r ranges IH]; intros pre Ht Hb; [done|].
  pose proof (vec_len_nonneg ranges). pose proof (vec_len_nonneg pre).
  cbn [char_class_patch pair_indices cc_raw cc_body]. rewrite vec_len_cons in *. mach.
  cbn [app]. rewrite (app_cons_snoc pre).
  rewrite vec_get_middle by (autorewrite with vec; lia). cbn [mbind res_bind].
  rewrite vec_set_middle by (autorewrite with vec; lia). cbn [mbind res_bind].
  rewrite (app_cons_snoc (pre ++ _)).
  match goal with |- char_class_patch _ _ (?p ++ _) = _ =>
    replace (vec_len pre + 2) with (vec_len p) by (autorewrite with vec; lia) end.
  rewrite IH by (autorewrite with vec; lia).
  rewrite <- !app_assoc. cbn. unfold set_off, jmp_imm, new. cbn [code regs imm]. feq.
Qed.

(** The count [4 + 2 * ranges.len()] is exact: a [CharRange] takes two bytes, and
    no slice exceeds [isize::MAX] bytes. *)
Lemma compile_char_class_result ranges :
  2 * vec_len ranges < 2 ^ (usize_bits - 1) ->
  compile_char_class ranges =
    if is_empty ranges then invalid "character class must have at least one range"
    else if existsb (fun r => hi r <? lo r) ranges then invalid reversed_reason
    else if 2046 <? vec_len ranges then
      Err (PatternTooLong (4 + 2 * vec_len ranges) MAX_BPF_INSTRUCTION_LEN)
    else Ok (char_class_program ranges).
Proof.
  intros Hs. unfold compile_char_class. destruct (is_empty ranges); [done|].
  destruct (existsb _ ranges); [done|]. pose proof (vec_len_nonneg ranges).
  assert (Hp : 2 ^ usize_bits = 2 * 2 ^ (usize_bits - 1)).
  { rewrite <- Z.pow_succ_r by (pose proof usize_bits_ge_32; lia). f_equal. lia. }
  pose proof isize_pow_ge.
  unfold usize_mul, usize_add. mach.
  unfold compile_with_limit, MAX_BPF_INSTRUCTION_LEN.
  destruct (Z.ltb_spec 2046 (vec_len ranges)).
  { rewrite (proj2 (Z.ltb_lt _ _)) by lia. cbn. feq. }
  rewrite (proj2 (Z.ltb_ge _ _)) by lia. cbn [mbind res_bind].
  rewrite char_class_loop_raw. cbn [app].
  change (vec_len (@nil BpfInsn)) with 0.
  rewrite <- !app_assoc. cbn [app].
  pose proof (char_class_patch_body ranges [] result_tail (2 * vec_len ranges + 2)) as Hb.
  change (vec_len (@nil BpfInsn)) with 0 in Hb. cbn [app] in Hb.
  unfold char_class_program. rewrite <- Hb by lia. autorewrite with vec. rewrite cc_raw_len.
  unfold result_tail. feq.
Qed.
End compile.

(** ** Execution *)

Section execution.
  Context {step : memory -> list BpfInsn -> cpu -> outcome} {Hisa : BpfIsa step}.
  Context (mem : memory).

(** The pair of tests of one range. *)
Lemma cc_range_steps prog pre r ranges b rs :
  prog = pre ++ cc_body (r :: ranges) ++ result_tail -> rs R7 = b ->
  is_byte (lo r) -> is_byte (hi r) ->
  step mem prog (mkCpu (vec_len pre) rs) =
    Next (mkCpu (if b <? lo r then vec_len pre + 1 + 1 else vec_len pre + 1) rs)
  /\ step mem prog (mkCpu (vec_len pre + 1) rs) =
    Next (mkCpu (if b <=? hi r then vec_len (pre ++ cc_body (r :: ranges)) + 2
                 else vec_len pre + 1 + 1) rs).
Proof.
  unfold is_byte. intros Hprog H7 Hlo Hhi. split.
  - rewrite (step_jlt_k _ _ _ _ R7 (lo r) 1); [|rewrite Hprog; by apply fetch_middle|done].
    rewrite H7, u64_small by lia. done.
  - rewrite (step_jle_k _ _ _ _ R7 (hi r) (2 * vec_len (r :: ranges))); [|..|done].
    + rewrite H7, u64_small, vec_len_app, cc_body_len by lia. destruct (b <=? hi r); feq.
    + rewrite Hprog. cbn [cc_body app]. rewrite app_cons_snoc. apply fetch_middle.
      by rewrite vec_len_snoc.
Qed.

(** The tests of [ranges] on the byte [b] in [R7], at the end of a program:
    the first range that holds [b] jumps to the match block. *)
Lemma cc_body_run prog pre ranges b rs :
  prog = pre ++ cc_body ranges ++ result_tail -> rs R7 = b ->
  Forall (fun r => is_byte (lo r) /\ is_byte (hi r)) ranges ->
  returns step (2 * length ranges + 2) mem prog (mkCpu (vec_len pre) rs)
    (Z.b2z (existsb (in_range b) ranges)).
Proof.
  revert pre. induction ranges as [|r ranges IH]; intros pre Hprog H7 Hb.
  { rewrite Hprog. apply (result_fail_run mem). }
  inversion_clear Hb as [|? ? [Hlo Hhi] Hb'].
  destruct (cc_range_steps prog pre r ranges b rs) as [S1 S2]; [done..|].
  assert (Hnext : returns step (2 * length ranges + 2) mem prog (mkCpu (vec_len pre + 1 + 1) rs)
    (Z.b2z (existsb (in_range b) ranges))).
  { replace (vec_len pre + 1 + 1) with (vec_len (pre ++ [jmp_imm BPF_JLT R7 (lo r) 1;
      jmp_imm BPF_JLE R7 (hi r) (2 * vec_len (r :: ranges))])) by (autorewrite with vec; lia).
    apply IH; [|done..]. rewrite Hprog. by rewrite <- app_assoc. }
  pose proof (result_match_run mem (pre ++ cc_body (r :: ranges)) rs) as Hmatch.
  rewrite <- app_assoc, <- Hprog in Hmatch.
  cbn [existsb]. unfold in_range at 1. destruct (Z.ltb_spec b (lo r)).
  - rewrite (proj2 (Z.leb_gt _ _)) by lia. cbn [andb orb].
    eapply returns_mono; [eapply returns_step; [apply S1|apply Hnext]|cbn; lia].
  - rewrite (proj2 (Z.leb_le (lo r) b)) by lia. cbn [andb].
    destruct (b <=? hi r); cbn [orb];
      (eapply returns_mono; [eapply returns_step; [apply S1|
        eapply returns_step; [apply S2|first [apply Hmatch|apply Hnext]]]|cbn; lia]).
Qed.
End execution.

(** ** The test interpreter *)

Module Interp.

(** [insn.imm as u32], zero extended. *)
Definition imm_u32 (i : BpfInsn) : Z := wrap_u 32 (imm i).

(** The loop of [run_char_class]: running out of its 10000 iterations panics. *)
Fixpoint run_char_class_loop (iterations : nat) (prog : list BpfInsn) (rs : regfile) (pc : Z)
  : res Empty_set Z :=
  match iterations with
  | O => Panic
  | S iterations =>
      if (0 <=? pc) && (pc <? vec_len prog) then
        insn ← vec_get prog pc;
        let dst := Z.land (regs insn) 0x0F in
        if code insn =? Z.lor (Z.lor BPF_ALU64 BPF_MOV) BPF_K then
          run_char_class_loop iterations prog (set_reg rs dst (imm_u32 insn)) (pc + 1)
        else if code insn =? Z.lor (Z.lor BPF_JMP BPF_JLT) BPF_K then
          run_char_class_loop iterations prog rs
            (pc + (if rs dst <? imm_u32 insn then 1 + off insn else 1))
        else if code insn =? Z.lor (Z.lor BPF_JMP BPF_JLE) BPF_K then
          run_char_class_loop iterations prog rs
            (pc + (if rs dst <=? imm_u32 insn then 1 + off insn else 1))
        else if code insn =? Z.lor BPF_JMP BPF_EXIT then mret (rs 0)
        else Panic
      else Panic
  end.

Definition run_char_class (prog : list BpfInsn) (input : Z) : res Empty_set Z :=
  run_char_class_loop (Z.to_nat 10000) prog (set_reg (fun _ => 0) 7 input) 0.

(** The instructions on which the interpreter and the instruction set agree: an
    immediate below [2^31] has the same zero and sign extension. *)
Definition supported (i : BpfInsn) : bool :=
  (existsb (Z.eqb (code i))
     [Z.lor (Z.lor BPF_ALU64 BPF_MOV) BPF_K; Z.lor (Z.lor BPF_JMP BPF_JLT) BPF_K;
      Z.lor (Z.lor BPF_JMP BPF_JLE) BPF_K; Z.lor BPF_JMP BPF_EXIT])
  && (0 <=? imm i) && (imm i <? 2 ^ 31).

Lemma supported_imm i : supported i = true -> imm_u32 i = u64 (imm i).
Proof.
  unfold supported, imm_u32, u64. rewrite !andb_true_iff. intros [[_ H0] H1].
  rewrite wrap_u_small, Z.mod_small by lia. done.
Qed.

(** A supported instruction has one of four opcodes. *)
Lemma supported_code i : supported i = true ->
  code i = Z.lor (Z.lor BPF_ALU64 BPF_MOV) BPF_K \/ code i = Z.lor (Z.lor BPF_JMP BPF_JLT) BPF_K
  \/ code i = Z.lor (Z.lor BPF_JMP BPF_JLE) BPF_K \/ code i = Z.lor BPF_JMP BPF_EXIT.
Proof.
  unfold supported. rewrite !andb_true_iff. intros [[Hc _] _].
  cbn [existsb] in Hc. rewrite !orb_true_iff, !Z.eqb_eq in Hc.
  by destruct Hc as [?|[?|[?|[?|?]]]]; auto.
Qed.

Lemma fetch_vec_get {E} prog p i :
  fetch prog p = Some i ->
  (0 <=? p) && (p <? vec_len prog) = true /\ vec_get (E := E) prog p = Ok i.
Proof.
  unfold fetch, vec_get. destruct (Z.leb_spec 0 p) as [Hp|]; [|done]. intros Hf.
  rewrite Hf. split; [|done]. apply lookup_lt_Some in Hf. unfold vec_len. lia.
Qed.

Lemma vec_get_fetch prog p :
  (0 <=? p) && (p <? vec_len prog) = true -> exists i, fetch prog p = Some i.
Proof.
  intros Hp. unfold fetch, vec_len in *. rewrite (proj2 (Z.leb_le _ _)) by lia.
  apply lookup_lt_is_Some. lia.
Qed.

(** One iteration of the interpreter is one step of the machine. *)
Lemma loop_step {step} `{BpfIsa step} mem n prog rs p i :
  Forall (fun i => supported i = true) prog -> fetch prog p = Some i ->
  run_char_class_loop (S n) prog rs p =
  match step mem prog (mkCpu p rs) with
  | Next c => run_char_class_loop n prog (rf c) (pc c)
  | Done v => Ok v
  | Fault => Panic
  end.
Proof.
  intros Hs Hf. destruct (fetch_vec_get (E := Empty_set) prog p i Hf) as [Hb Hg].
  assert (Hi : supported i = true).
  { unfold fetch in Hf. destruct (0 <=? p); [|done]. 
    by apply (Forall_lookup_1 (fun i => supported i = true) prog (Z.to_nat p)). }
  cbn [run_char_class_loop]. rewrite Hb, Hg. cbn [mbind res_bind].
  change (Z.land (regs i) 15) with (dst_reg i). rewrite (supported_imm i Hi).
  destruct (supported_code i Hi) as [Hc|[Hc|[Hc|Hc]]]; rewrite Hc.
  - rewrite (isa_mov_k mem prog (mkCpu p rs) i Hf Hc). done.
  - rewrite (isa_jlt_k mem prog (mkCpu p rs) i Hf Hc). unfold jump_to. cbn [rf pc].
    destruct (rs (dst_reg i) <? u64 (imm i)); feq.
  - rewrite (isa_jle_k mem prog (mkCpu p rs) i Hf Hc). unfold jump_to. cbn [rf pc].
    destruct (rs (dst_reg i) <=? u64 (imm i)); feq.
  - rewrite (isa_exit mem prog (mkCpu p rs) i Hf Hc). done.
Qed.

(** What the interpreter returns, every machine returns. *)
Lemma loop_sound {step} `{BpfIsa step} mem n prog rs p v :
  Forall (fun i => supported i = true) prog ->
  run_char_class_loop n prog rs p = Ok v -> returns step n mem prog (mkCpu p rs) v.
Proof.
  intros Hs. revert rs p. induction n as [|n IH]; intros rs p Hr; [done|].
  destruct ((0 <=? p) && (p <? vec_len prog)) eqn:Hb; [|by cbn in Hr; rewrite Hb in Hr].
  destruct (vec_get_fetch prog p Hb) as [i Hf].
  rewrite (loop_step mem n prog rs p i Hs Hf) in Hr. unfold returns. cbn [run].
  destruct (step mem prog (mkCpu p rs)) as [[p' rs']| |]; try done; [by apply IH|].
  by injection Hr as ->.
Qed.

(** The interpreter returns what the reference machine returns. *)
Lemma loop_complete mem n prog rs p v :
  Forall (fun i => supported i = true) prog ->
  returns Reference.step n mem prog (mkCpu p rs) v -> run_char_class_loop n prog rs p = Ok v.
Proof.
  intros Hs. revert rs p. induction n as [|n IH]; intros rs p; [done|].
  unfold returns. cbn [run]. intros Hr. destruct (fetch prog p) as [i|] eqn:Hf.
  - rewrite (loop_step (H := Reference.isa) mem n prog rs p i Hs Hf).
    destruct (Reference.step mem prog (mkCpu p rs)) as [[p' rs']| |]; try done; [by apply IH|].
    by injection Hr as ->.
  - unfold Reference.step in Hr. cbn [pc] in Hr. by rewrite Hf in Hr.
Qed.

End Interp.

(** ** Theorems *)

Definition range_ok (r : CharRange) : Prop := is_byte (lo r) /\ is_byte (hi r) /\ lo r <= hi r.

Lemma range_ok_not_reversed ranges :
  Forall range_ok ranges -> existsb (fun r => hi r <? lo r) ranges = false.
Proof.
  induction 1 as [|r ranges (_ & _ & Hr) _ IH]; [done|]. cbn [existsb].
  rewrite IH, (proj2 (Z.ltb_ge _ _)) by lia. done.
Qed.

Lemma range_ok_bytes ranges :
  Forall range_ok ranges -> Forall (fun r => is_byte (lo r) /\ is_byte (hi r)) ranges.
Proof. intros Hr. eapply Forall_impl; [exact Hr|]. by intros r (? & ? & _). Qed.

Lemma char_class_program_run {step} `{BpfIsa step} mem rs b ranges :
  Forall range_ok ranges -> rs R7 = b ->
  returns step (2 * length ranges + 2) mem (char_class_program ranges) (mkCpu 0 rs)
    (Z.b2z (existsb (in_range b) ranges)).
Proof.
  intros Hr H7. apply (cc_body_run mem _ []); [done..|]. by apply range_ok_bytes.
Qed.

Lemma char_class_program_len ranges :
  vec_len (char_class_program ranges) = 4 + 2 * vec_len ranges.
Proof.
  unfold char_class_program. rewrite vec_len_app, cc_body_len.
  change (vec_len result_tail) with 4. lia.
Qed.

Lemma cc_body_jumps len idx ranges :
  0 <= idx -> idx + 2 * vec_len ranges + 2 < len ->
  jump_targets_valid_from len idx (cc_body ranges) = true.
Proof.
  revert idx. induction ranges as [|r ranges IH]; intros idx Hi Hl; [done|].
  pose proof (vec_len_nonneg ranges). rewrite vec_len_cons in Hl.
  cbn [cc_body jump_targets_valid_from]. rewrite IH by lia.
  rewrite !jump_target_in_range; [done|..]; cbn [off jmp_imm new]; rewrite ?vec_len_cons; lia.
Qed.

Lemma char_class_program_shape ranges : program_shape_ok (char_class_program ranges) = true.
Proof.
  unfold program_shape_ok, jump_offsets_are_valid. rewrite char_class_program_len.
  unfold char_class_program. rewrite jump_targets_valid_app, last_app.
  pose proof (vec_len_nonneg ranges). rewrite cc_body_jumps by lia.
  by destruct ranges.
Qed.

Lemma cc_body_supported ranges : Forall range_ok ranges ->
  Forall (fun i => Interp.supported i = true) (cc_body ranges).
Proof.
  induction 1 as [|r ranges (Hlo & Hhi & _) _ IH]; [done|]. unfold is_byte in *.
  cbn [cc_body]. repeat constructor; try done; unfold Interp.supported; cbn -[Z.leb Z.ltb]; lia.
Qed.

Lemma char_class_program_supported ranges : Forall range_ok ranges ->
  Forall (fun i => Interp.supported i = true) (char_class_program ranges).
Proof.
  intros. apply Forall_app. split; [by apply cc_body_supported|]. by repeat constructor.
Qed.

(** The text-level classes denote the same sets. *)
Lemma in_range_matches b rs :
  existsb (in_range b) (to_char_range <$> rs) = class_matches rs b.
Proof.
  unfold class_matches. induction rs as [|r rs IH]; [done|]. cbn [fmap list_fmap existsb].
  rewrite <- IH. f_equal. destruct r as [v|l h]; [|done].
  unfold in_range. cbn [to_char_range lo hi range_matches].
  destruct (Z.eqb_spec b v); lia.
Qed.

Lemma to_char_range_ok rs : Forall range_wf rs -> Forall range_ok (to_char_range <$> rs).
Proof.
  induction 1 as [|r rs Hr _ IH]; [done|]. cbn [fmap list_fmap]. constructor; [|done].
  destruct r as [v|l h]; cbn [range_wf] in Hr; unfold range_ok, is_byte in *;
    cbn [to_char_range lo hi]; lia.
Qed.

(** The result of compiling a bracket expression, by its parse. *)
Lemma compile_character_class_result `{Arch} class :
  Forall is_byte class -> 4 * vec_len class < 2 ^ (usize_bits - 1) ->
  compile_character_class class =
  match parse_character_class class with
  | Ok rs =>
      if 2046 <? vec_len rs
      then Err (PatternTooLong (4 + 2 * vec_len rs) MAX_BPF_INSTRUCTION_LEN)
      else Ok (match rs with
               | [] => [alu64_imm BPF_MOV R0 0; exit]
               | _ => char_class_program (to_char_range <$> rs)
               end)
  | r => r ≫= fun _ => Panic
  end.
Proof.
  intros Hb Hlen. unfold compile_character_class. destruct class as [|c class]; [done|].
  cbn [is_empty]. destruct (parse_character_class (c :: class)) as [rs| | |] eqn:Hp; try done.
  cbn [mbind res_bind]. destruct (parse_ok_wf _ _ Hb Hp) as [Hw Hne].
  apply parse_size in Hp.
  assert (Hl : vec_len (to_char_range <$> rs) = vec_len rs)
    by (unfold vec_len; by rewrite length_fmap).
  rewrite compile_char_class_result by (rewrite Hl; lia). rewrite Hl.
  rewrite range_ok_not_reversed by by apply to_char_range_ok.
  destruct rs as [|r rs]; [by specialize (Hne ltac:(done))|]. done.
Qed.

Section theorems.
  Context `{Arch}.

(** C11. A list of one to 2046 byte ranges compiles to a program that decides whether
    the byte in [R7] lies in one of them: on any machine, whatever the memory and
    the other registers, it exits with [R0 = 1] or [R0 = 0] accordingly, after at
    most two instructions per range and two more. *)
Theorem compile_char_class_correct ranges :
  ranges <> [] -> vec_len ranges <= 2046 -> Forall range_ok ranges ->
  exists prog, compile_char_class ranges = Ok prog
    /\ forall step (HI : BpfIsa step) mem rs,
        returns step (2 * length ranges + 2) mem prog (mkCpu 0 rs)
          (Z.b2z (existsb (in_range (rs R7)) ranges)).
Proof.
  intros Hne Hlen Hok. exists (char_class_program ranges). split.
  - rewrite compile_char_class_result by (pose proof isize_pow_ge; lia).
    rewrite range_ok_not_reversed by done. rewrite (proj2 (Z.ltb_ge _ _)) by lia.
    by destruct ranges.
  - intros step HI mem rs. by apply char_class_program_run.
Qed.

(** The test interpreter, with its 10000 iterations and its zero-extended
    immediates, computes membership on every compiled class and every byte. *)
Theorem run_char_class_correct ranges prog b :
  ranges <> [] -> vec_len ranges <= 2046 -> Forall range_ok ranges ->
  compile_char_class ranges = Ok prog ->
  Interp.run_char_class prog b = Ok (Z.b2z (existsb (in_range b) ranges)).
Proof.
  intros Hne Hlen Hok. rewrite compile_char_class_result by (pose proof isize_pow_ge; lia).
  rewrite range_ok_not_reversed by done. rewrite (proj2 (Z.ltb_ge _ _)) by lia.
  replace (is_empty ranges) with false by by destruct ranges. intros [= <-].
  assert (Hn : (2 * length ranges + 2 <= Z.to_nat 10000)%nat) by (unfold vec_len in Hlen; lia).
  unfold Interp.run_char_class. revert Hn. generalize (Z.to_nat 10000). intros n Hn.
  apply (Interp.loop_complete (fun _ _ => None)); [by apply char_class_program_supported|].
  eapply returns_mono; [apply (char_class_program_run (H := Reference.isa)); [done|reflexivity]|done].
Qed.

(** On programs made of the four opcodes it knows, the test interpreter is sound
    for every machine: a value it returns is the value the machine returns. *)
Theorem run_char_class_sound step (HI : BpfIsa step) mem prog b v :
  Forall (fun i => Interp.supported i = true) prog ->
  Interp.run_char_class prog b = Ok v ->
  exists n, returns step n mem prog (mkCpu 0 (set_reg (fun _ => 0) 7 b)) v.
Proof.
  unfold Interp.run_char_class. intros Hs. generalize (Z.to_nat 10000). intros n Hr.
  exists n. by apply Interp.loop_sound.
Qed.

(** C3. A bracket expression either fails to compile with the parser's error, or with
    [PatternTooLong] when it has more than 2046 ranges, or compiles to a program
    that decides whether the byte in [R7] is in the class it parses to. *)
Theorem compile_character_class_correct class :
  Forall is_byte class -> 4 * vec_len class < 2 ^ (usize_bits - 1) ->
  (exists e, parse_character_class class = Err e /\ compile_character_class class = Err e)
  \/ exists ranges, parse_character_class class = Ok ranges /\
     ((2046 < vec_len ranges /\ compile_character_class class =
         Err (PatternTooLong (4 + 2 * vec_len ranges) MAX_BPF_INSTRUCTION_LEN))
      \/ exists prog, compile_character_class class = Ok prog /\
         forall step (HI : BpfIsa step) mem rs,
           returns step (2 * length ranges + 2) mem prog (mkCpu 0 rs)
             (Z.b2z (class_matches ranges (rs R7)))).
Proof.
  intros Hb Hlen. rewrite compile_character_class_result by done.
  destruct (parse_outcome class) as [[ranges Hp]|(reason & _ & Hp)]; rewrite Hp; [right|by eauto].
  exists ranges. split; [done|]. destruct (Z.ltb_spec 2046 (vec_len ranges)); [by left|right].
  eexists. split; [reflexivity|]. intros step HI mem rs.
  destruct (parse_ok_wf _ _ Hb Hp) as [Hw _]. rewrite <- in_range_matches.
  destruct ranges as [|r ranges]; [by apply (const_program_run mem rs 0)|].
  set (ranges' := r :: ranges) in *.
  replace (length ranges') with (length (to_char_range <$> ranges')) by by rewrite length_fmap.
  apply char_class_program_run; [by apply to_char_range_ok|done].
Qed.

(** C24. Every outcome of compiling ranges, of which a Rust slice holds fewer than
    [isize::MAX / 2].  A program: there are 1 to 2046 ranges, none reversed, and the
    program has two instructions per range and four more, ends with [exit], and jumps
    only inside itself.  An error: the list is empty, or some range is reversed, or the
    estimate is above the limit, checked in this order.  There is no panic. *)
Theorem compile_char_class_outcome ranges :
  2 * vec_len ranges < 2 ^ (usize_bits - 1) ->
  match compile_char_class ranges with
  | Ok prog =>
      ranges <> [] /\ (forall r, r ∈ ranges -> lo r <= hi r)
      /\ vec_len prog = 4 + 2 * vec_len ranges /\ vec_len prog <= MAX_BPF_INSTRUCTION_LEN
      /\ program_shape_ok prog = true
  | Err e =>
      (ranges = [] /\ e = InvalidPattern "character class must have at least one range")
      \/ ((exists r, r ∈ ranges /\ hi r < lo r) /\ e = InvalidPattern reversed_reason)
      \/ (ranges <> [] /\ (forall r, r ∈ ranges -> lo r <= hi r) /\ 2046 < vec_len ranges
          /\ e = PatternTooLong (4 + 2 * vec_len ranges) MAX_BPF_INSTRUCTION_LEN)
  | Panic | OutOfFuel => False
  end.
Proof.
  intros Hlen. rewrite compile_char_class_result by done.
  destruct ranges as [|r0 ranges']; [by left|]. set (ranges := r0 :: ranges') in *.
  change (is_empty ranges) with false. cbv iota.
  destruct (existsb (fun r => hi r <? lo r) ranges) eqn:Hrev.
  - right. left. split; [|done]. apply existsb_exists in Hrev as (r & Hin & Hr).
    exists r. split; [by apply list_elem_of_In|lia].
  - assert (Hord : forall r, r ∈ ranges -> lo r <= hi r).
    { intros r Hr. rewrite <- not_true_iff_false, existsb_exists in Hrev.
      destruct (Z.leb_spec (lo r) (hi r)); [done|]. destruct Hrev. exists r.
      split; [by apply list_elem_of_In|lia]. }
    destruct (Z.ltb_spec 2046 (vec_len ranges)); [do 2 right; by split_and!|].
    unfold MAX_BPF_INSTRUCTION_LEN. rewrite char_class_program_len.
    split_and!; [done|done|lia|lia|apply char_class_program_shape].
Qed.

(** C34. The estimate of the tests is exact: a bracket expression that compiles has as
    many instructions as [estimate_character_class_instructions] says of the ranges
    it parses to. *)
Theorem character_class_estimate_exact class ranges prog :
  Forall is_byte class -> 4 * vec_len class < 2 ^ (usize_bits - 1) ->
  parse_character_class class = Ok ranges -> compile_character_class class = Ok prog ->
  estimate_character_class_instructions (E := CompileError) ranges = Ok (vec_len prog).
Proof.
  intros Hb Hlen Hp. rewrite compile_character_class_result, Hp by done.
  destruct (Z.ltb_spec 2046 (vec_len ranges)); [done|]. intros [= <-].
  destruct ranges as [|r ranges]; [done|]. set (ranges' := r :: ranges) in *.
  rewrite char_class_program_len. unfold estimate_character_class_instructions.
  change ranges' with (r :: ranges). cbv iota. fold ranges'. pose proof (vec_len_nonneg ranges').
  mach. unfold vec_len. rewrite length_fmap. feq.
Qed.
End theorems.

(** ** Witnesses *)

Definition demo_ranges : list CharRange := [mkCharRange 10 20; mkCharRange 30 40].

Lemma demo_ranges_ok : Forall range_ok demo_ranges.
Proof. repeat constructor; cbn; lia. Qed.

Lemma compile_char_class_correct_witness :
  exists prog, compile_char_class (H := arch64_debug) demo_ranges = Ok prog
    /\ forall step (HI : BpfIsa step) mem rs,
        returns step 6 mem prog (mkCpu 0 rs) (Z.b2z (existsb (in_range (rs R7)) demo_ranges)).
Proof.
  apply (compile_char_class_correct (H := arch64_debug) demo_ranges);
    [done|vm_compute; discriminate|apply demo_ranges_ok].
Defined.

Lemma run_char_class_correct_witness :
  Interp.run_char_class (char_class_program demo_ranges) 5 = Ok 0.
Proof.
  apply (run_char_class_correct (H := arch64_debug) demo_ranges _ 5);
    [done|vm_compute; discriminate|apply demo_ranges_ok|vm_compute; reflexivity].
Defined.

Lemma run_char_class_sound_witness :
  exists n, returns Reference.step n (fun _ _ => None) (char_class_program demo_ranges)
    (mkCpu 0 (set_reg (fun _ => 0) 7 35)) 1.
Proof.
  apply (run_char_class_sound Reference.step Reference.isa).
  - apply char_class_program_supported, demo_ranges_ok.
  - vm_compute. reflexivity.
Defined.

Lemma compile_character_class_correct_witness :
  (exists e, parse_character_class (bytes "a-z\d_") = Err e
     /\ compile_character_class (H := arch64_debug) (bytes "a-z\d_") = Err e)
  \/ exists ranges, parse_character_class (bytes "a-z\d_") = Ok ranges /\
     ((2046 < vec_len ranges /\ compile_character_class (H := arch64_debug) (bytes "a-z\d_") =
         Err (PatternTooLong (4 + 2 * vec_len ranges) MAX_BPF_INSTRUCTION_LEN))
      \/ exists prog, compile_character_class (H := arch64_debug) (bytes "a-z\d_") = Ok prog /\
         forall step (HI : BpfIsa step) mem rs,
           returns step (2 * length ranges + 2) mem prog (mkCpu 0 rs)
             (Z.b2z (class_matches ranges (rs R7)))).
Proof.
  apply (compile_character_class_correct (H := arch64_debug)); [apply bytes_is_byte|done].
Defined.

Lemma compile_char_class_outcome_witness :
  let prog := char_class_program demo_ranges in
  demo_ranges <> [] /\ (forall r, r ∈ demo_ranges -> lo r <= hi r)
  /\ vec_len prog = 8 /\ vec_len prog <= MAX_BPF_INSTRUCTION_LEN /\ program_shape_ok prog = true.
Proof.
  exact (compile_char_class_outcome (H := arch64_debug) demo_ranges ltac:(reflexivity)).
Defined.

Lemma character_class_estimate_exact_witness :
  let ranges := [Span 97 122; Span 48 57; Single 95] in
  estimate_character_class_instructions (H := arch64_debug) (E := CompileError) ranges
  = Ok (vec_len (char_class_program (to_char_range <$> ranges))).
Proof.
  apply (character_class_estimate_exact (H := arch64_debug) (bytes "a-z0-9_"));
    [apply bytes_is_byte|reflexivity|vm_compute; reflexivity|vm_compute; reflexivity].
Defined.
