(* ===== verification/Alternation.v ===== *)
(** * Correctness of alternations

    The closed form of the programs [compile_alternation] emits, and the proof that
    they decide whether one of the alternatives is a prefix of the bytes at [R5]. *)

From S2P Require Import Prelude Assembler Machine Emit Verify Codegen Compare.

(** ** The emitted program *)

(** Instructions of one alternative, and of a list of them. *)
Definition alt_size (alt : list Z) : Z := 4 + 2 * vec_len alt.

Fixpoint alts_size (alts : list (list Z)) : Z :=
  match alts with
  | [] => 0
  | alt :: rest => alt_size alt + alts_size rest
  end.

(** The comparison code before patching. *)
Fixpoint alt_raw (i : Z) (alt : list Z) : list BpfInsn :=
  match alt with
  | [] => []
  | b :: rest => ldx_mem BPF_B R7 R5 i :: jmp_imm BPF_JNE R7 b 0 :: alt_raw (i + 1) rest
  end.

Definition alt_body (patched : bool) (i : Z) (alt : list Z) : list BpfInsn :=
  if patched then cmp_body (-1) i alt else alt_raw i alt.

(** One alternative followed by [rest] instructions before the result blocks; the
    flags tell which of the three patching passes have run. *)
Definition alt_block (mism bound mat : bool) (alt : list Z) (rest : Z) : list BpfInsn :=
  [alu64_reg BPF_MOV R6 R5; alu64_imm BPF_ADD R6 (vec_len alt);
   jmp_reg BPF_JGT R6 R3 (if bound then 2 * vec_len alt + 1 else 0)]
  ++ alt_body mism 0 alt ++ [jmp_imm BPF_JA R0 0 (if mat then rest + 2 else 0)].

Fixpoint alt_blocks (mism bound mat : bool) (alts : list (list Z)) : list BpfInsn :=
  match alts with
  | [] => []
  | alt :: rest =>
      alt_block mism bound mat alt (alts_size rest) ++ alt_blocks mism bound mat rest
  end.

Definition alternation_program (alts : list (list Z)) : list BpfInsn :=
  alt_blocks true true true alts ++ result_tail.

(** The recorded indices, for the first alternative at [base]. *)
Fixpoint alt_starts (base : Z) (alts : list (list Z)) : list Z :=
  match alts with
  | [] => []
  | alt :: rest => base :: alt_starts (base + alt_size alt) rest
  end.

Fixpoint alt_mismatch_indices (base : Z) (alts : list (list Z)) : list (list Z) :=
  match alts with
  | [] => []
  | alt :: rest => pair_indices (base + 3) alt :: alt_mismatch_indices (base + alt_size alt) rest
  end.

Definition alt_bound_indices (base : Z) (alts : list (list Z)) : list Z :=
  (fun s => s + 2) <$> alt_starts base alts.

Fixpoint alt_match_indices (base : Z) (alts : list (list Z)) : list Z :=
  match alts with
  | [] => []
  | alt :: rest =>
      base + 3 + 2 * vec_len alt :: alt_match_indices (base + alt_size alt) rest
  end.

Lemma alt_raw_len i alt : vec_len (alt_raw i alt) = 2 * vec_len alt.
Proof.
  revert i. induction alt as [|b alt IH]; intros i; cbn [alt_raw]; autorewrite with vec;
    [done|]. rewrite IH. lia.
Qed.

Lemma alt_body_len p i alt : vec_len (alt_body p i alt) = 2 * vec_len alt.
Proof. destruct p; [apply cmp_body_len|apply alt_raw_len]. Qed.

Lemma alt_block_len m b j alt rest : vec_len (alt_block m b j alt rest) = alt_size alt.
Proof.
  unfold alt_block, alt_size. autorewrite with vec. rewrite alt_body_len. lia.
Qed.

Lemma alt_blocks_len m b j alts : vec_len (alt_blocks m b j alts) = alts_size alts.
Proof.
  induction alts as [|alt alts IH]; [done|]. cbn [alt_blocks alts_size].
  rewrite vec_len_app, alt_block_len. lia.
Qed.

Lemma alt_size_pos alt : 4 <= alt_size alt.
Proof. unfold alt_size. pose proof (vec_len_nonneg alt). lia. Qed.

Lemma alts_size_nonneg alts : 0 <= alts_size alts.
Proof.
  induction alts as [|alt alts IH]; [done|]. cbn [alts_size]. pose proof (alt_size_pos alt). lia.
Qed.

(** ** Emission *)

Lemma alt_bytes_loop_raw i alt prog mism :
  0 <= i -> i + vec_len alt <= 2 ^ 15 ->
  alt_bytes_loop i alt prog mism
  = (prog ++ alt_raw i alt, mism ++ pair_indices (vec_len prog) alt).
Proof.
  revert i prog mism. induction alt as [|b alt IH]; intros i prog mism Hi Hp; cbn.
  { by rewrite !app_nil_r. }
  rewrite vec_len_cons in Hp. pose proof (vec_len_nonneg alt).
  rewrite IH by lia. rewrite wrap_s_small by lia. autorewrite with vec.
  rewrite <- !app_assoc. cbn. feq.
Qed.

Lemma alt_emit_block p m b j s alt rest :
  vec_len alt < 2 ^ 15 ->
  alt_emit (mkAltState p m b j s) alt =
  mkAltState (p ++ alt_block false false false alt rest)
    (m ++ [pair_indices (vec_len p + 3) alt]) (b ++ [vec_len p + 2])
    (j ++ [vec_len p + 3 + 2 * vec_len alt]) (s ++ [vec_len p]).
Proof.
  intros Hl. pose proof (vec_len_nonneg alt). unfold alt_emit, alt_block, alt_body.
  cbn [alt_prog mismatch_jump_indices bound_jump_indices match_jump_indices
       alternative_start_indices].
  rewrite alt_bytes_loop_raw by lia. rewrite wrap_s_small by lia.
  autorewrite with vec. rewrite alt_raw_len. rewrite <- !app_assoc. cbn [app]. feq.
Qed.

Lemma foldl_alt_emit alts p m b j s :
  alts_size alts < 2 ^ 15 ->
  foldl alt_emit (mkAltState p m b j s) alts =
  mkAltState (p ++ alt_blocks false false false alts)
    (m ++ alt_mismatch_indices (vec_len p) alts) (b ++ alt_bound_indices (vec_len p) alts)
    (j ++ alt_match_indices (vec_len p) alts) (s ++ alt_starts (vec_len p) alts).
Proof.
  revert p m b j s. induction alts as [|alt alts IH]; intros p m b j s Hl.
  { cbn. by rewrite !app_nil_r. }
  cbn [alts_size] in Hl. pose proof (alts_size_nonneg alts). pose proof (vec_len_nonneg alt).
  cbn [foldl]. rewrite (alt_emit_block _ _ _ _ _ _ (alts_size alts)) by (unfold alt_size in Hl; lia).
  rewrite IH by (pose proof (alt_size_pos alt); lia).
  rewrite vec_len_app, alt_block_len, <- !app_assoc. done.
Qed.

(** ** Patching *)

Section patching.
  Context `{Arch}.

(** The next alternative, or the failure block, starts right after this one. *)
Lemma start_or_next spre base alt alts fail_idx :
  fail_idx = base + alts_size (alt :: alts) ->
  start_or (spre ++ alt_starts base (alt :: alts)) (vec_len spre + 1) fail_idx
  = base + alt_size alt.
Proof.
  intros ->. unfold start_or, vec_len. rewrite lookup_app_r by lia.
  replace (Z.to_nat _ - _)%nat with 1%nat by lia. destruct alts; cbn; lia.
Qed.

Lemma patch_alt_mismatches_body alt pre i tail next :
  next = vec_len pre + 2 * vec_len alt + 1 -> next < 2 ^ 15 ->
  patch_alt_mismatches next (pair_indices (vec_len pre) alt) (pre ++ alt_raw i alt ++ tail)
  = Ok (pre ++ cmp_body (-1) i alt ++ tail).
Proof.
  revert pre i. induction alt as [|b alt IH]; intros pre i Hn Hb; [done|].
  pose proof (vec_len_nonneg alt). pose proof (vec_len_nonneg pre).
  cbn [patch_alt_mismatches pair_indices alt_raw cmp_body]. rewrite vec_len_cons in *.
  cbn [app]. rewrite (app_cons_snoc pre), <- vec_len_snoc with (a := ldx_mem BPF_B R7 R5 i).
  rewrite vec_get_middle by done. cbn [mbind res_bind].
  rewrite patch_imm_jump_at by (rewrite ?vec_len_snoc; lia). cbn [mbind res_bind].
  rewrite (app_cons_snoc (pre ++ _)).
  match goal with |- patch_alt_mismatches _ _ (?p ++ _) = _ =>
    replace (vec_len pre + 2) with (vec_len p) by (autorewrite with vec; lia) end.
  rewrite IH by (autorewrite with vec; lia).
  rewrite <- !app_assoc, vec_len_snoc. cbn [app imm jmp_imm new]. feq.
Qed.

Lemma patch_mismatches_blocks alts spre pre tail fail_idx :
  fail_idx = vec_len pre + alts_size alts -> fail_idx < 2 ^ 15 ->
  patch_mismatches (spre ++ alt_starts (vec_len pre) alts) fail_idx (vec_len spre)
    (alt_mismatch_indices (vec_len pre) alts) (pre ++ alt_blocks false false false alts ++ tail)
  = Ok (pre ++ alt_blocks true false false alts ++ tail).
Proof.
  revert spre pre. induction alts as [|alt alts IH]; intros spre pre Hf Hb; [done|].
  pose proof (alts_size_nonneg alts). pose proof (vec_len_nonneg alt).
  pose proof (vec_len_nonneg pre).
  cbn [patch_mismatches alt_mismatch_indices alt_blocks].
  rewrite (start_or_next spre (vec_len pre) alt alts) by done. cbn [alts_size] in Hf.
  unfold alt_block, alt_body. rewrite <- !app_assoc, app_assoc.
  replace (vec_len pre + 3) with (vec_len (pre ++ [alu64_reg BPF_MOV R6 R5;
    alu64_imm BPF_ADD R6 (vec_len alt); jmp_reg BPF_JGT R6 R3 0])) by (autorewrite with vec; lia).
  cbn [alt_starts]. unfold alt_size in *.
  rewrite patch_alt_mismatches_body by (autorewrite with vec; lia). cbn [mbind res_bind].
  rewrite (app_cons_snoc spre), <- vec_len_snoc with (a := vec_len pre).
  set (blk := alt_block true false false alt (alts_size alts)).
  replace (vec_len pre + (4 + 2 * vec_len alt)) with (vec_len (pre ++ blk))
    by (unfold blk; rewrite vec_len_app, alt_block_len; unfold alt_size; lia).
  etrans; [|etrans; [apply (IH (spre ++ [vec_len pre]) (pre ++ blk))|]].
  - unfold blk, alt_block, alt_body. rewrite <- !app_assoc. done.
  - unfold blk. rewrite vec_len_app, alt_block_len. unfold alt_size. lia.
  - done.
  - unfold blk, alt_block, alt_body. by rewrite <- !app_assoc.
Qed.

Lemma patch_bounds_blocks alts spre pre tail fail_idx :
  fail_idx = vec_len pre + alts_size alts -> fail_idx < 2 ^ 15 ->
  patch_bounds (spre ++ alt_starts (vec_len pre) alts) fail_idx (vec_len spre)
    (alt_bound_indices (vec_len pre) alts) (pre ++ alt_blocks true false false alts ++ tail)
  = Ok (pre ++ alt_blocks true true false alts ++ tail).
Proof.
  revert spre pre. induction alts as [|alt alts IH]; intros spre pre Hf Hb; [done|].
  pose proof (alts_size_nonneg alts). pose proof (vec_len_nonneg alt).
  pose proof (vec_len_nonneg pre). unfold alt_bound_indices.
  cbn [alt_starts fmap list_fmap patch_bounds alt_blocks].
  change (vec_len pre :: alt_starts (vec_len pre + alt_size alt) alts)
    with (alt_starts (vec_len pre) (alt :: alts)).
  rewrite (start_or_next spre (vec_len pre) alt alts) by done. cbn [alts_size] in Hf.
  set (hd := [alu64_reg BPF_MOV R6 R5; alu64_imm BPF_ADD R6 (vec_len alt)]).
  replace (vec_len pre + 2) with (vec_len (pre ++ hd)) by (unfold hd; autorewrite with vec; lia).
  cbn [alt_starts]. unfold alt_size in *.
  etrans; [apply (f_equal (fun m => m ≫= _)); etrans;
    [|apply (patch_reg_jump_at (pre ++ hd))]|].
  - unfold hd, alt_block. rewrite <- !app_assoc. done.
  - unfold hd. autorewrite with vec. lia.
  - lia.
  - cbn [mbind res_bind]. rewrite (app_cons_snoc spre), <- vec_len_snoc with (a := vec_len pre).
    set (blk := alt_block true true false alt (alts_size alts)).
    replace (vec_len pre + (4 + 2 * vec_len alt)) with (vec_len (pre ++ blk))
      by (unfold blk; rewrite vec_len_app, alt_block_len; unfold alt_size; lia).
    etrans; [|etrans; [apply (IH (spre ++ [vec_len pre]) (pre ++ blk))|]].
    + unfold blk, hd, alt_block. rewrite <- !app_assoc. cbn [app]. autorewrite with vec.
      rewrite ?alt_body_len. feq.
    + unfold blk. rewrite vec_len_app, alt_block_len. unfold alt_size. lia.
    + done.
    + unfold blk. by rewrite <- !app_assoc.
Qed.

Lemma patch_matches_blocks alts pre tail success_idx :
  success_idx = vec_len pre + alts_size alts + 2 -> success_idx < 2 ^ 15 ->
  patch_matches success_idx (alt_match_indices (vec_len pre) alts)
    (pre ++ alt_blocks true true false alts ++ tail)
  = Ok (pre ++ alt_blocks true true true alts ++ tail).
Proof.
  revert pre. induction alts as [|alt alts IH]; intros pre Hf Hb; [done|].
  pose proof (alts_size_nonneg alts). pose proof (vec_len_nonneg alt).
  pose proof (vec_len_nonneg pre). cbn [alt_match_indices patch_matches alt_blocks].
  cbn [alts_size] in Hf. unfold alt_size in *.
  set (hd := [alu64_reg BPF_MOV R6 R5; alu64_imm BPF_ADD R6 (vec_len alt);
              jmp_reg BPF_JGT R6 R3 (2 * vec_len alt + 1)] ++ alt_body true 0 alt).
  assert (Hhd : vec_len (pre ++ hd) = vec_len pre + 3 + 2 * vec_len alt).
  { unfold hd. autorewrite with vec. rewrite alt_body_len. lia. }
  rewrite <- Hhd.
  etrans; [apply (f_equal (fun m => m ≫= _)); etrans; [|apply (patch_match_jump_at (pre ++ hd))]|].
  - unfold hd, alt_block. rewrite <- !app_assoc. done.
  - lia.
  - lia.
  - cbn [mbind res_bind]. set (blk := alt_block true true true alt (alts_size alts)).
    replace (vec_len pre + (4 + 2 * vec_len alt)) with (vec_len (pre ++ blk))
      by (unfold blk; rewrite vec_len_app, alt_block_len; unfold alt_size; lia).
    etrans; [|etrans; [apply (IH (pre ++ blk))|]].
    + rewrite Hhd. unfold blk, hd, alt_block. rewrite <- !app_assoc. cbn [app]. feq.
    + unfold blk. rewrite vec_len_app, alt_block_len. unfold alt_size. lia.
    + done.
    + unfold blk. by rewrite <- !app_assoc.
Qed.

(** ** The compiler emits it *)

Lemma alternative_count_sum_size {E} acc alts :
  existsb is_empty alts = false -> 0 <= acc -> acc + alts_size alts <= usize_max ->
  alternative_count_sum (E := E) acc alts = Ok (acc + alts_size alts).
Proof.
  unfold usize_max. revert acc. induction alts as [|alt alts IH]; intros acc He Ha Hu.
  { cbn. by rewrite Z.add_0_r. }
  cbn [existsb] in He. apply orb_false_iff in He as [He1 He].
  pose proof (alts_size_nonneg alts). pose proof (vec_len_nonneg alt).
  cbn [alternative_count_sum alts_size] in *. unfold alt_size in *.
  destruct alt as [|b alt]; [done|]. unfold usize_mul, usize_add. mach.
  rewrite IH by (done || lia). feq.
Qed.

Lemma estimate_alternation_size {E} alts :
  alts <> [] -> existsb is_empty alts = false -> 4 + alts_size alts <= usize_max ->
  estimate_alternation_instructions (E := E) alts = Ok (4 + alts_size alts).
Proof.
  intros Hne He Hu. pose proof (alts_size_nonneg alts).
  unfold estimate_alternation_instructions. rewrite He.
  replace (is_empty alts) with false by by destruct alts. cbn [orb].
  rewrite alternative_count_sum_size by (done || lia). cbn [mbind res_bind].
  unfold usize_add, usize_max in *. by mach.
Qed.

Lemma compile_alternation_result alts :
  4 + alts_size alts <= usize_max ->
  compile_alternation alts =
    if is_empty alts then Ok [alu64_imm BPF_MOV R0 0; exit]
    else if existsb is_empty alts then Ok [alu64_imm BPF_MOV R0 1; exit]
    else if MAX_BPF_INSTRUCTION_LEN <? 4 + alts_size alts then
      Err (PatternTooLong (4 + alts_size alts) MAX_BPF_INSTRUCTION_LEN)
    else Ok (alternation_program alts).
Proof.
  intros Hu. unfold compile_alternation. destruct alts as [|alt alts']; [done|].
  set (alts := alt :: alts') in *. change (is_empty alts) with false. cbv iota.
  destruct (existsb is_empty alts) eqn:He; [done|].
  rewrite !estimate_alternation_size by done. cbn [mbind res_bind].
  unfold compile_with_limit. destruct (Z.ltb_spec MAX_BPF_INSTRUCTION_LEN (4 + alts_size alts));
    [done|]. unfold MAX_BPF_INSTRUCTION_LEN in *. cbn [mbind res_bind].
  rewrite foldl_alt_emit by lia. cbn [alt_prog mismatch_jump_indices bound_jump_indices
    match_jump_indices alternative_start_indices].
  rewrite !vec_len_app, alt_blocks_len, <- !app_assoc. cbn [app].
  pose proof (alts_size_nonneg alts).
  change (vec_len (@nil BpfInsn)) with 0.
  etrans; [apply (f_equal (fun m => m ≫= _)), (patch_mismatches_blocks alts [] []); [done|lia]|].
  cbn [mbind res_bind].
  etrans; [apply (f_equal (fun m => m ≫= _)), (patch_bounds_blocks alts [] []); [done|lia]|].
  cbn [mbind res_bind].
  etrans; [apply (patch_matches_blocks alts [])|done].
  - autorewrite with vec. lia.
  - autorewrite with vec. lia.
Qed.
End patching.

(** ** Execution *)

Section execution.
  Context {step : memory -> list BpfInsn -> cpu -> outcome} {Hisa : BpfIsa step}.
  Context (mem : memory).

(** Two register files that agree on what an alternative reads. *)
Definition same_scan (rs rs' : regfile) : Prop := rs' R5 = rs R5 /\ rs' R3 = rs R3.

(** The bounds check of an alternative. *)
Lemma alt_bound_run prog pre alt rest post a m rs :
  prog = pre ++ alt_block true true true alt rest ++ post ->
  rs R5 = a -> rs R3 = a + m -> 0 <= a -> 0 <= m -> a + vec_len alt < 2 ^ 64 -> vec_len alt < 2 ^ 15 ->
  exists rs', same_scan rs rs' /\
    steps step 3 mem prog (mkCpu (vec_len pre) rs)
      (mkCpu (if m <? vec_len alt then vec_len pre + alt_size alt else vec_len pre + 3) rs').
Proof.
  intros Hprog H5 H3 Ha Hm Hb Hl. pose proof (vec_len_nonneg alt).
  set (rs1 := set_reg rs R6 (rs R5)). set (rs2 := set_reg rs1 R6 (u64 (rs1 R6 + vec_len alt))).
  unfold alt_block in Hprog. rewrite <- !app_assoc in Hprog. cbn [app] in Hprog.
  exists rs2. split; [unfold same_scan, rs2, rs1; by reg|].
  eapply steps_S; [apply (step_mov_x _ _ _ _ R6 R5); [|done..]|].
  { rewrite Hprog. by apply fetch_middle. }
  fold rs1. eapply steps_S; [apply (step_add_k _ _ _ _ R6 (vec_len alt)); [|done]|].
  { rewrite Hprog, app_cons_snoc. apply fetch_middle. by rewrite vec_len_snoc. }
  fold rs2. apply steps_one.
  rewrite (step_jgt_x _ _ _ _ R6 R3 (2 * vec_len alt + 1)); [|..|done|done].
  - replace (rs2 R6) with (a + vec_len alt)
      by (unfold rs2, rs1; reg; rewrite H5, u64_small by lia; done).
    replace (rs2 R3) with (a + m) by (unfold rs2, rs1; reg; done). unfold alt_size.
    do 2 f_equal.
    destruct (Z.ltb_spec m (vec_len alt)), (Z.ltb_spec (a + m) (a + vec_len alt)); lia.
  - rewrite Hprog, app_cons_snoc, app_cons_snoc. apply fetch_middle.
    rewrite !vec_len_snoc. done.
Qed.

(** One alternative: it continues at the success block when it is a prefix of the
    bytes at [R5], and right after its own code when it is not. *)
Lemma alt_block_run prog pre alt rest post a hay rs :
  prog = pre ++ alt_block true true true alt rest ++ post ->
  rs R5 = a -> rs R3 = a + vec_len hay -> 0 <= a -> a + vec_len alt < 2 ^ 64 ->
  vec_len alt < 2 ^ 15 -> bytes_at mem a hay -> Forall is_byte hay -> Forall is_byte alt ->
  exists n rs', (n <= Z.to_nat (alt_size alt))%nat /\ same_scan rs rs' /\
    steps step n mem prog (mkCpu (vec_len pre) rs)
      (mkCpu (vec_len pre + alt_size alt + (if is_prefix alt hay then rest + 2 else 0)) rs').
Proof.
  intros Hprog H5 H3 Ha Hb Hl Hm Hhay Halt. pose proof (vec_len_nonneg alt).
  destruct (alt_bound_run prog pre alt rest post a (vec_len hay) rs)
    as (rs1 & [Hs5 Hs3] & Hr1); try done; [auto with mach|].
  destruct (Z.ltb_spec (vec_len hay) (vec_len alt)) as [Hlt|Hge].
  { exists 3%nat, rs1. rewrite is_prefix_length by (unfold vec_len in Hlt; lia).
    rewrite Z.add_0_r. split_and!; [unfold alt_size; lia|done|done]. }
  set (hd := [alu64_reg BPF_MOV R6 R5; alu64_imm BPF_ADD R6 (vec_len alt);
              jmp_reg BPF_JGT R6 R3 (2 * vec_len alt + 1)]).
  assert (Hhd : vec_len (pre ++ hd) = vec_len pre + 3) by (unfold hd; autorewrite with vec; lia).
  assert (Hprog' : prog = (pre ++ hd) ++ cmp_body (-1) 0 alt
                     ++ jmp_imm BPF_JA R0 0 (rest + 2) :: post).
  { rewrite Hprog. unfold hd, alt_block, alt_body. by rewrite <- !app_assoc. }
  destruct (cmp_body_run mem prog (pre ++ hd) alt (jmp_imm BPF_JA R0 0 (rest + 2) :: post)
    (-1) 0 a hay rs1)
    as (n & rs2 & Hn & Hs2 & Hr2); try done; try lia.
  { by rewrite Z.add_0_r. } { unfold vec_len in Hge. lia. }
  rewrite Hhd in Hr2. pose proof (steps_trans _ _ _ _ _ _ _ _ Hr1 Hr2) as Hr.
  assert (Hss : same_scan rs rs2) by (split; rewrite Hs2 by done; done).
  destruct (is_prefix alt hay).
  - exists (3 + n + 1)%nat, rs2. split_and!; [unfold alt_size, vec_len; lia|done|].
    eapply steps_trans; [apply Hr|]. apply steps_one.
    rewrite (step_ja _ _ _ _ R0 0 (rest + 2)); [unfold alt_size; feq|].
    rewrite Hprog', app_assoc. apply fetch_middle. rewrite vec_len_app, cmp_body_len. lia.
  - exists (3 + n)%nat, rs2. split_and!; [unfold alt_size, vec_len; lia|done|].
    revert Hr. unfold steps. intros ->. unfold alt_size. feq.
Qed.
(** The alternatives in sequence, at the end of a program. *)
Lemma alt_blocks_run alts prog pre a hay rs :
  prog = pre ++ alt_blocks true true true alts ++ result_tail ->
  rs R5 = a -> rs R3 = a + vec_len hay -> 0 <= a -> Forall (fun alt => a + vec_len alt < 2 ^ 64) alts ->
  alts_size alts < 2 ^ 15 -> bytes_at mem a hay -> Forall is_byte hay ->
  Forall (Forall is_byte) alts ->
  returns step (Z.to_nat (alts_size alts) + 2) mem prog (mkCpu (vec_len pre) rs)
    (Z.b2z (existsb (fun alt => is_prefix alt hay) alts)).
Proof.
  intros Hprog H5 H3 Ha Hb Hsz Hm Hhay Halts. revert pre rs Hprog H5 H3 Hsz Hb.
  induction Halts as [|alt alts Halt Halts IH]; intros pre rs Hprog H5 H3 Hsz Hb.
  { rewrite Hprog. apply (result_fail_run mem). }
  cbn [alt_blocks alts_size existsb] in *. pose proof (alts_size_nonneg alts).
  pose proof (vec_len_nonneg alt). pose proof (alt_size_pos alt).
  apply Forall_cons in Hb as [Hfit Hb]. rewrite <- app_assoc in Hprog.
  destruct (alt_block_run prog pre alt (alts_size alts)
    (alt_blocks true true true alts ++ result_tail) a hay rs)
    as (n & rs' & Hn & [Hs5 Hs3] & Hr); try done; [unfold alt_size in Hsz; lia|].
  destruct (is_prefix alt hay); cbn [orb].
  - pose proof (result_match_run mem
      (pre ++ alt_block true true true alt (alts_size alts) ++ alt_blocks true true true alts) rs')
      as Hmatch.
    rewrite !vec_len_app, alt_block_len, alt_blocks_len, <- !app_assoc, <- Hprog in Hmatch.
    eapply returns_mono; [eapply returns_steps; [apply Hr|]|].
    + replace (_ + (_ + 2)) with (vec_len pre + (alt_size alt + alts_size alts) + 2) by lia.
      apply Hmatch.
    + lia.
  - rewrite Z.add_0_r in Hr.
    eapply returns_mono; [eapply returns_steps; [apply Hr|]|].
    + rewrite <- (alt_block_len true true true alt (alts_size alts)), <- vec_len_app.
      apply IH; [|congruence|congruence|lia|done]. by rewrite Hprog, <- app_assoc.
    + lia.
Qed.
End execution.

Lemma alternation_program_run {step} `{BpfIsa step} mem rs hay alts :
  rs R3 = rs R5 + vec_len hay -> 0 <= rs R5 ->
  Forall (fun alt => rs R5 + vec_len alt < 2 ^ 64) alts ->
  alts_size alts < 2 ^ 15 -> bytes_at mem (rs R5) hay -> Forall is_byte hay ->
  Forall (Forall is_byte) alts ->
  returns step (Z.to_nat (alts_size alts) + 2) mem (alternation_program alts) (mkCpu 0 rs)
    (Z.b2z (existsb (fun alt => is_prefix alt hay) alts)).
Proof. intros. by apply (alt_blocks_run mem alts _ [] (rs R5)). Qed.

(** ** Shape *)

Lemma alt_blocks_jumps len idx alts :
  0 <= idx -> idx + alts_size alts + 2 < len ->
  jump_targets_valid_from len idx (alt_blocks true true true alts) = true.
Proof.
  revert idx. induction alts as [|alt alts IH]; intros idx Hi Hl; [done|].
  cbn [alt_blocks alts_size] in *. pose proof (alts_size_nonneg alts).
  pose proof (vec_len_nonneg alt). unfold alt_size in Hl.
  rewrite jump_targets_valid_app, alt_block_len, IH by (unfold alt_size; lia).
  unfold alt_block, alt_body. rewrite !jump_targets_valid_app, cmp_body_len.
  cbn [jump_targets_valid_from]. change (vec_len [_; _; _]) with 3.
  rewrite cmp_body_jumps by lia.
  rewrite !(jump_target_in_range _ _ (jmp_reg _ _ _ _)) by (cbn [off jmp_reg new]; lia).
  rewrite !(jump_target_in_range _ _ (jmp_imm _ _ _ _)) by (cbn [off jmp_imm new]; lia).
  done.
Qed.

Lemma alternation_program_shape alts : program_shape_ok (alternation_program alts) = true.
Proof.
  unfold program_shape_ok, jump_offsets_are_valid, alternation_program.
  rewrite vec_len_app, alt_blocks_len, jump_targets_valid_app, last_app.
  change (vec_len result_tail) with 4. rewrite alt_blocks_jumps by lia.
  by destruct alts.
Qed.

(** ** Theorems *)

Section theorems.
  Context `{Arch}.

(** C2. An alternation within the instruction limit compiles to a program that decides
    whether one of the alternatives is a prefix of the bytes from [R5] up to [R3]:
    on any machine it exits with [R0 = 1] or [R0 = 0], and it reads no byte outside
    that window.  The window is anywhere in the 64-bit address space from which no
    alternative would run past the end of the address space; there [R5] plus the length
    of an alternative wraps, and the bounds check lets it pass ([alternation_wraps]). *)
Theorem compile_alternation_correct {step} `{BpfIsa step} mem rs hay alts :
  4 + alts_size alts <= MAX_BPF_INSTRUCTION_LEN -> Forall (Forall is_byte) alts ->
  rs R3 = rs R5 + vec_len hay -> 0 <= rs R5 ->
  (forall alt, alt ∈ alts -> rs R5 + vec_len alt < 2 ^ 64) ->
  Forall is_byte hay -> bytes_at mem (rs R5) hay ->
  exists prog v, compile_alternation alts = Ok prog
    /\ returns step (Z.to_nat (alts_size alts) + 2) mem prog (mkCpu 0 rs) v
    /\ (v = 1 /\ (exists alt rest, alt ∈ alts /\ hay = alt ++ rest)
        \/ v = 0 /\ ~ exists alt rest, alt ∈ alts /\ hay = alt ++ rest).
Proof.
  unfold MAX_BPF_INSTRUCTION_LEN. intros Hsz Halts H3 H5 Hb Hhay Hm.
  rewrite <- Forall_forall in Hb.
  pose proof usize_pow_ge.
  assert (Hspec : existsb (fun alt => is_prefix alt hay) alts = true
    <-> exists alt rest, alt ∈ alts /\ hay = alt ++ rest).
  { rewrite existsb_exists. setoid_rewrite is_prefix_spec. setoid_rewrite <- list_elem_of_In.
    split; [intros (alt & ? & rest & ->)|intros (alt & rest & ? & ->)]; eauto. }
  assert (Hgoal : exists prog, compile_alternation alts = Ok prog /\
    returns step (Z.to_nat (alts_size alts) + 2) mem prog (mkCpu 0 rs)
      (Z.b2z (existsb (fun alt => is_prefix alt hay) alts))).
  { rewrite compile_alternation_result by (unfold usize_max; lia).
    destruct alts as [|alt alts']; [eexists; split; [done|by apply (const_program_run mem rs 0)]|].
    set (alts := alt :: alts') in *. change (is_empty alts) with false. cbv iota.
    destruct (existsb is_empty alts) eqn:He.
    - eexists. split; [done|]. replace (existsb _ alts) with true.
      + eapply returns_mono; [apply (const_program_run mem rs 1)|].
        pose proof (alts_size_nonneg alts). lia.
      + apply existsb_exists in He as (alt' & Hin & Hemp). symmetry.
        apply existsb_exists. exists alt'. split; [done|]. by destruct alt'.
    - unfold MAX_BPF_INSTRUCTION_LEN. rewrite (proj2 (Z.ltb_ge _ _)) by lia.
      eexists. split; [done|]. apply alternation_program_run; try done; lia. }
  destruct Hgoal as (prog & Hc & Hr). exists prog. eexists. split_and!; [done|done|].
  rewrite <- Hspec. destruct (existsb _ alts); [left|right]; by split.
Qed.

(** C23. While the instruction count of the alternatives fits [usize], a compiled
    alternation is well formed and within the limit, and its length is the estimate;
    too long an alternation is refused with the estimate.  There is no panic. *)
Theorem compile_alternation_shape alts :
  4 + alts_size alts <= usize_max ->
  match compile_alternation alts with
  | Ok prog =>
      program_shape_ok prog = true /\ vec_len prog <= MAX_BPF_INSTRUCTION_LEN
      /\ estimate_alternation_instructions (E := CompileError) alts = Ok (vec_len prog)
  | Err e =>
      MAX_BPF_INSTRUCTION_LEN < 4 + alts_size alts
      /\ e = PatternTooLong (4 + alts_size alts) MAX_BPF_INSTRUCTION_LEN
  | Panic | OutOfFuel => False
  end.
Proof.
  intros Hu. rewrite compile_alternation_result by done.
  destruct alts as [|alt alts']; [done|]. set (alts := alt :: alts') in *.
  change (is_empty alts) with false. cbv iota.
  destruct (existsb is_empty alts) eqn:He.
  { unfold estimate_alternation_instructions. by rewrite He, orb_true_r. }
  rewrite estimate_alternation_size by done. unfold MAX_BPF_INSTRUCTION_LEN.
  destruct (Z.ltb_spec 4096 (4 + alts_size alts)); [done|].
  rewrite alternation_program_shape. unfold alternation_program.
  rewrite vec_len_app, alt_blocks_len. change (vec_len result_tail) with 4.
  split_and!; [done|lia|feq].
Qed.
End theorems.

(** ** Witnesses *)

(** Four bytes in the direct mapping of a 64-bit kernel. *)
Definition demo_base : Z := 0xffff888000001000.

Definition demo_scan : regfile := fun r =>
  if r =? R5 then demo_base else if r =? R3 then demo_base + 4 else 0.

Definition demo_window : memory := fun n a =>
  if (n =? 1) && (demo_base <=? a) then bytes "post" !! Z.to_nat (a - demo_base) else None.

Lemma compile_alternation_correct_witness :
  exists prog v, compile_alternation (H := arch64_debug) [bytes "get"; bytes "po"] = Ok prog
    /\ returns Reference.step (Z.to_nat (alts_size [bytes "get"; bytes "po"]) + 2)
         demo_window prog (mkCpu 0 demo_scan) v
    /\ (v = 1 /\ (exists alt rest, alt ∈ [bytes "get"; bytes "po"] /\ bytes "post" = alt ++ rest)
        \/ v = 0 /\ ~ exists alt rest, alt ∈ [bytes "get"; bytes "po"]
                                      /\ bytes "post" = alt ++ rest).
Proof.
  apply (compile_alternation_correct (H := arch64_debug) (H0 := Reference.isa));
    [vm_compute; discriminate| |done|done| |apply bytes_is_byte|].
  - repeat (apply Forall_cons; split; [apply bytes_is_byte|]). apply Forall_nil_2.
  - apply Forall_forall. repeat (apply Forall_cons; split; [done|]). apply Forall_nil_2.
  - intros i b Hi. unfold demo_window. change (demo_scan R5) with demo_base.
    cbn [Z.eqb andb]. rewrite (proj2 (Z.leb_le _ _)) by lia. rewrite <- Hi. f_equal. lia.
Defined.

Example alternation_run :
  (prog ← compile_alternation (H := arch64_debug) [bytes "get"; bytes "po"];
   mret (run Reference.step 24 demo_window prog (mkCpu 0 demo_scan))) = Ok (Returned 1).
Proof. vm_compute. reflexivity. Qed.

(** An empty window at the last address: the end of the candidate wraps to 0, which is
    not beyond [R3], and the program reads outside the window. *)
Example alternation_wraps :
  (prog ← compile_alternation (H := arch64_debug) [bytes "a"];
   mret (run Reference.step 8 (fun _ _ => None) prog (mkCpu 0 (fun _ => 2 ^ 64 - 1)))) = Ok Faulted.
Proof. vm_compute. reflexivity. Qed.

Lemma compile_alternation_shape_witness :
  match compile_alternation (H := arch64_debug) [bytes "aa"; bytes "b"] with
  | Ok prog =>
      program_shape_ok prog = true /\ vec_len prog <= MAX_BPF_INSTRUCTION_LEN
      /\ estimate_alternation_instructions (H := arch64_debug) (E := CompileError)
           [bytes "aa"; bytes "b"] = Ok (vec_len prog)
  | Err e =>
      MAX_BPF_INSTRUCTION_LEN < 4 + alts_size [bytes "aa"; bytes "b"]
      /\ e = PatternTooLong (4 + alts_size [bytes "aa"; bytes "b"]) MAX_BPF_INSTRUCTION_LEN
  | Panic | OutOfFuel => False
  end.
Proof.
  apply (compile_alternation_shape (H := arch64_debug) [bytes "aa"; bytes "b"]).
  vm_compute. discriminate.
Defined.
