(* ===== verification/Compiled.v ===== *)
(** * Compiled programs

    What the four compilers have in common, for the clients of their output: the
    listing printer (src/src/assembler.rs, [format_program]) and the loader
    (src/src/loader/prog.rs, [load_filter]).  Every program a compiler returns is
    not empty, ends with [exit], fits the verifier limit and jumps only inside
    itself; so it can always be listed.  Its instructions also satisfy the encoding
    rules of the instruction set, [insn_typed]. *)

From S2P Require Import Prelude Assembler Machine Verify Codegen Compare.
From S2P Require Import LiteralSearch CharClass Alternation.

(** ** Typing of instructions

    The encoding rules of the instruction set for the instructions the crate emits:
    fields in the range of their types, registers below the frame pointer, and the
    fields an opcode does not use cleared to zero, without which the kernel refuses
    the program. *)

(** The opcodes that [fmt] renders in symbolic form, except [JEQ]. *)
Definition emitted_opcodes : list Z :=
  [Z.lor BPF_JMP BPF_EXIT; Z.lor (Z.lor BPF_LDX BPF_MEM) BPF_B;
   Z.lor (Z.lor BPF_LDX BPF_MEM) BPF_W; Z.lor (Z.lor BPF_ALU64 BPF_MOV) BPF_K;
   Z.lor (Z.lor BPF_ALU64 BPF_MOV) BPF_X; Z.lor (Z.lor BPF_ALU64 BPF_ADD) BPF_K;
   Z.lor (Z.lor BPF_ALU64 BPF_ADD) BPF_X; Z.lor BPF_JMP BPF_JA;
   Z.lor (Z.lor BPF_JMP BPF_JNE) BPF_K; Z.lor (Z.lor BPF_JMP BPF_JGT) BPF_X;
   Z.lor (Z.lor BPF_JMP BPF_JLT) BPF_K; Z.lor (Z.lor BPF_JMP BPF_JLE) BPF_K].

(** The operand selected by the source bit: the other one is not used. *)
Definition operand_zero (i : BpfInsn) : bool :=
  if Z.land (code i) BPF_X =? 0 then src_reg i =? 0 else imm i =? 0.

Definition reserved_zero (i : BpfInsn) : bool :=
  let class := Z.land (code i) 0x07 in
  let op := Z.land (code i) 0xF0 in
  if class =? BPF_LDX then imm i =? 0
  else if class =? BPF_ALU64 then (off i =? 0) && operand_zero i
  else if op =? BPF_EXIT then (regs i =? 0) && (off i =? 0) && (imm i =? 0)
  else if op =? BPF_JA then (regs i =? 0) && (imm i =? 0)
  else operand_zero i.

Definition insn_typed (i : BpfInsn) : bool :=
  insn_wf i && existsb (Z.eqb (code i)) emitted_opcodes && (dst_reg i <=? R7)
  && (src_reg i <=? R7) && reserved_zero i.

Definition program_typed (prog : list BpfInsn) : bool := forallb insn_typed prog.

Lemma program_typed_app p q : program_typed (p ++ q) = program_typed p && program_typed q.
Proof. apply forallb_app. Qed.

Lemma program_typed_Forall prog :
  program_typed prog = true -> Forall (fun i => insn_typed i = true) prog.
Proof.
  intros Ht. apply Forall_forall. intros i Hi. apply list_elem_of_In in Hi.
  unfold program_typed in Ht. rewrite forallb_forall in Ht. auto.
Qed.

(** Instructions with fixed opcode and registers: what is left are the bounds of the
    offset and of the immediate. *)
Ltac typed_fields :=
  unfold program_typed, insn_typed, insn_wf, reserved_zero, operand_zero, dst_reg, src_reg,
    in_u, in_s;
  cbn -[Z.add Z.sub Z.mul Z.opp Z.leb Z.ltb vec_len];
  repeat match goal with
    |- context [0 <=? Z.lor ?a ?b] => change (0 <=? Z.lor a b) with true
  end;
  rewrite ?andb_true_r; lia.

Lemma cmp_body_typed skip i pat :
  -1 <= skip <= 0 -> 0 <= i -> i + vec_len pat < 2 ^ 12 -> Forall is_byte pat ->
  program_typed (cmp_body skip i pat) = true.
Proof.
  intros Hs Hi Hl Hb. revert i Hi Hl. induction Hb as [|b pat Hb _ IH]; intros i Hi Hl; [done|].
  rewrite vec_len_cons in Hl. pose proof (vec_len_nonneg pat). cbn [cmp_body].
  rewrite vec_len_cons.
  change (program_typed (?a :: ?c :: ?l)) with (insn_typed a && (insn_typed c && program_typed l)).
  rewrite IH by lia. unfold is_byte in Hb. typed_fields.
Qed.

Lemma literal_program_typed pat :
  Forall is_byte pat -> vec_len pat <= MAX_BPF_PATTERN_LEN ->
  program_typed (literal_program pat) = true.
Proof.
  unfold MAX_BPF_PATTERN_LEN. intros Hb Hl. destruct pat as [|b pat]; [done|].
  rewrite literal_program_segments by done. rewrite !program_typed_app.
  rewrite cmp_body_typed by (done || lia). pose proof (vec_len_nonneg (b :: pat)).
  set (n := vec_len _) in *. clearbody n. typed_fields.
Qed.

Lemma cc_body_typed ranges :
  Forall (fun r => is_byte (lo r) /\ is_byte (hi r)) ranges -> vec_len ranges <= 2046 ->
  program_typed (cc_body ranges) = true.
Proof.
  unfold is_byte. induction 1 as [|r ranges [Hlo Hhi] _ IH]; [done|]. intros Hl.
  rewrite vec_len_cons in Hl. pose proof (vec_len_nonneg ranges). cbn [cc_body].
  change (program_typed (?a :: ?c :: ?l)) with (insn_typed a && (insn_typed c && program_typed l)).
  rewrite IH, vec_len_cons by lia. typed_fields.
Qed.

Lemma alt_block_typed alt rest :
  Forall is_byte alt -> vec_len alt < 2 ^ 12 -> 0 <= rest < 2 ^ 12 ->
  program_typed (alt_block true true true alt rest) = true.
Proof.
  intros Hb Hl Hr. unfold alt_block, alt_body. rewrite !program_typed_app.
  rewrite cmp_body_typed by (done || lia). pose proof (vec_len_nonneg alt).
  set (n := vec_len _) in *. clearbody n. typed_fields.
Qed.

Lemma alt_blocks_typed alts :
  Forall (Forall is_byte) alts -> alts_size alts < 2 ^ 12 ->
  program_typed (alt_blocks true true true alts) = true.
Proof.
  induction 1 as [|alt alts Hb _ IH]; [done|]. cbn [alt_blocks alts_size]. unfold alt_size.
  pose proof (vec_len_nonneg alt). pose proof (alts_size_nonneg alts). intros Hs.
  rewrite program_typed_app, alt_block_typed, IH by (done || lia). done.
Qed.

Section compiled.
  Context `{Arch}.

(** [prog] is the output of a compiler.  The side conditions say that the bytes of
    the input are [u8] values and bound it by what a Rust vector can hold. *)
Inductive compiled (prog : list BpfInsn) : Prop :=
| compiled_literal pat :
    Forall is_byte pat -> compile_literal_search pat = Ok prog -> compiled prog
| compiled_ranges ranges :
    Forall (fun r => is_byte (lo r) /\ is_byte (hi r)) ranges ->
    2 * vec_len ranges < 2 ^ (usize_bits - 1) -> compile_char_class ranges = Ok prog ->
    compiled prog
| compiled_class class :
    Forall is_byte class -> 4 * vec_len class < 2 ^ (usize_bits - 1) ->
    compile_character_class class = Ok prog -> compiled prog
| compiled_alternation alts :
    Forall (Forall is_byte) alts ->
    4 + alts_size alts <= usize_max -> compile_alternation alts = Ok prog -> compiled prog.

(** The closed forms, for the proofs about all compiled programs. *)
Inductive closed_form (prog : list BpfInsn) : Prop :=
| closed_literal pat :
    Forall is_byte pat -> vec_len pat <= MAX_BPF_PATTERN_LEN -> prog = literal_program pat ->
    closed_form prog
| closed_class ranges :
    Forall (fun r => is_byte (lo r) /\ is_byte (hi r)) ranges -> vec_len ranges <= 2046 ->
    prog = char_class_program ranges -> closed_form prog
| closed_alternation alts :
    Forall (Forall is_byte) alts -> 4 + alts_size alts <= MAX_BPF_INSTRUCTION_LEN ->
    prog = alternation_program alts -> closed_form prog
| closed_constant b : prog = [alu64_imm BPF_MOV R0 (Z.b2z b); exit] -> closed_form prog.

Lemma compiled_closed_form prog : compiled prog -> closed_form prog.
Proof.
  intros [pat Hb Hc|ranges Hb Hl Hc|class Hb Hl Hc|alts Hb Hl Hc].
  - apply compile_literal_search_inv in Hc as [Hmax ->]. by apply (closed_literal _ pat).
  - rewrite compile_char_class_result in Hc by done.
    destruct (is_empty ranges); [done|]. destruct (existsb _ ranges); [done|].
    destruct (Z.ltb_spec 2046 (vec_len ranges)); [done|]. injection Hc as <-.
    by apply (closed_class _ ranges).
  - rewrite compile_character_class_result in Hc by done.
    destruct (parse_character_class class) as [rs| | |] eqn:Hp; [|done..].
    destruct (Z.ltb_spec 2046 (vec_len rs)); [done|]. injection Hc as <-.
    destruct rs as [|r rs]; [by apply (closed_constant _ false)|]. set (rs' := r :: rs) in *.
    apply (closed_class _ (to_char_range <$> rs')); [|unfold vec_len in *; by rewrite length_fmap|done].
    apply range_ok_bytes, to_char_range_ok. by eapply parse_ok_wf.
  - rewrite compile_alternation_result in Hc by done.
    destruct (is_empty alts); [injection Hc as <-; by apply (closed_constant _ false)|].
    destruct (existsb is_empty alts); [injection Hc as <-; by apply (closed_constant _ true)|].
    destruct (Z.ltb_spec MAX_BPF_INSTRUCTION_LEN (4 + alts_size alts)); [done|]. injection Hc as <-.
    by apply (closed_alternation _ alts).
Qed.

Lemma compiled_shape prog :
  compiled prog -> program_shape_ok prog = true /\ vec_len prog <= MAX_BPF_INSTRUCTION_LEN.
Proof.
  intros [pat Hb Hmax ->|ranges Hb Hl ->|alts Hb Hl ->|[] ->]%compiled_closed_form;
    unfold MAX_BPF_INSTRUCTION_LEN, MAX_BPF_PATTERN_LEN in *; [| | |by vm_compute..].
  - rewrite literal_program_len, literal_program_shape. destruct (_ =? 0); split; (done || lia).
  - rewrite char_class_program_shape, char_class_program_len. split; [done|lia].
  - rewrite alternation_program_shape. unfold alternation_program.
    rewrite vec_len_app, alt_blocks_len. change (vec_len result_tail) with 4. split; [done|lia].
Qed.

Lemma compiled_typed prog : compiled prog -> program_typed prog = true.
Proof.
  intros [pat Hb Hmax ->|ranges Hb Hl ->|alts Hb Hl ->|[] ->]%compiled_closed_form; [| | |done..].
  - by apply literal_program_typed.
  - unfold char_class_program. by rewrite program_typed_app, cc_body_typed.
  - unfold alternation_program, MAX_BPF_INSTRUCTION_LEN in *.
    rewrite program_typed_app, alt_blocks_typed by (done || lia). done.
Qed.

(** C19. Every instruction of a compiled program is well typed: the fields are values of
    their Rust types (no offset or immediate was truncated into another one), the
    opcode is one of the twelve the compilers use, the registers are among [R0] to
    [R7], so the frame pointer is never touched, and the fields an opcode does not
    use are zero, as the kernel requires. *)
Theorem compiled_program_typed prog :
  compiled prog -> program_typed prog = true.
Proof. apply compiled_typed. Qed.

(** The rendered jumps are among the checked ones. *)
Lemma renders_target_checked c : renders_target c = true ->
  (Z.land c 0x07 =? BPF_JMP) && negb (Z.land c 0xF0 =? BPF_EXIT)
  && negb (Z.land c 0xF0 =? BPF_CALL) = true.
Proof.
  unfold renders_target. cbn [existsb]. rewrite !orb_true_iff, !Z.eqb_eq.
  by intros [->|[->|[->|[->|[->|[->|?]]]]]].
Qed.

(** In a program within the limit whose jumps are valid, the rendered offsets are
    small. *)
Definition small_offset (i : BpfInsn) : Prop :=
  renders_target (code i) = true -> -5000 < off i < 5000.

Lemma valid_jump_offsets len idx program :
  0 <= idx -> len <= MAX_BPF_INSTRUCTION_LEN -> idx + vec_len program <= len ->
  jump_targets_valid_from len idx program = true -> Forall small_offset program.
Proof.
  unfold MAX_BPF_INSTRUCTION_LEN. intros Hi Hl Hp. revert idx Hi Hp.
  induction program as [|i program IH]; intros idx Hi Hp; [constructor|].
  cbn [jump_targets_valid_from]. intros [Hj Hrest]%andb_true_iff.
  rewrite vec_len_cons in Hp. constructor; [|apply (IH (idx + 1)); (done || lia)].
  intros Hr. unfold jump_target_valid in Hj. rewrite renders_target_checked in Hj by done.
  pose proof (vec_len_nonneg program). lia.
Qed.

Lemma compiled_offsets prog : compiled prog -> Forall small_offset prog.
Proof.
  intros [Hs Hl]%compiled_shape. unfold program_shape_ok, jump_offsets_are_valid in Hs.
  rewrite !andb_true_iff in Hs. destruct Hs as [_ Hj].
  apply valid_jump_offsets in Hj; [done|lia|done|lia].
Qed.

Lemma small_offset_fmt {E} i : small_offset i -> exists s, fmt (E := E) i = Ok s.
Proof.
  unfold small_offset. intros Ho. destruct (renders_target (code i)) eqn:Hr.
  - specialize (Ho eq_refl).
    destruct (fmt_cases (E := E) i) as [[? _]|[_ Hbad]]; [unfold in_s; lia|done|].
    rewrite !andb_true_iff in Hbad. lia.
  - unfold renders_target in Hr. cbn [existsb] in Hr. rewrite !orb_false_iff in Hr.
    unfold fmt. destruct Hr as (-> & -> & -> & -> & -> & -> & _).
    repeat match goal with |- context [if ?b then _ else _] => destruct b end; by eexists.
Qed.

(** Every program the compilers return can be listed, with and without overflow
    checks: [format_program] gives one numbered line per instruction, in order. *)
Theorem compiled_program_listing prog :
  compiled prog ->
  exists lines, format_program (E := Empty_set) prog = Ok (join newline lines)
    /\ length lines = length prog
    /\ forall k i, prog !! k = Some i -> exists s, fmt (E := Empty_set) i = Ok s
         /\ lines !! k = Some (fmt_04 (Z.of_nat k) +:+ ": " +:+ s)%string.
Proof.
  intros Hc. destruct (compiled_shape _ Hc) as [Hs _].
  destruct (format_lines_ok (E := Empty_set) 0 prog) as (lines & Hlines & Hlen & Hat).
  { eapply Forall_impl; [by apply compiled_offsets|]. apply small_offset_fmt. }
  exists lines. split; [|done]. destruct prog; [done|]. unfold format_program. by rewrite Hlines.
Qed.
End compiled.

Lemma compiled_program_listing_witness :
  exists lines,
    format_program (H := arch64_debug) (E := Empty_set)
      (alternation_program [bytes "a"; bytes "bc"]) = Ok (join newline lines)
    /\ length lines = 18%nat
    /\ forall k i, alternation_program [bytes "a"; bytes "bc"] !! k = Some i ->
         exists s, fmt (H := arch64_debug) (E := Empty_set) i = Ok s
           /\ lines !! k = Some (fmt_04 (Z.of_nat k) +:+ ": " +:+ s)%string.
Proof.
  apply (compiled_program_listing (H := arch64_debug)).
  apply (compiled_alternation (H := arch64_debug) _ [bytes "a"; bytes "bc"]); [|done..].
  repeat constructor; vm_compute; done.
Defined.

Lemma compiled_program_typed_witness :
  exists prog, compile_char_class (H := arch64_release) [mkCharRange 48 57] = Ok prog
    /\ program_typed prog = true.
Proof.
  eexists. split; [reflexivity|]. apply (compiled_program_typed (H := arch64_release)).
  apply (compiled_ranges (H := arch64_release) _ [mkCharRange 48 57]); [|done..].
  repeat constructor; done.
Defined.

(** What the type excludes: a mangled offset, a source register left in an
    instruction that takes an immediate, the frame pointer as a destination. *)
Example ill_typed :
  program_typed [jmp_imm BPF_JNE R7 97 40000] = false
  /\ program_typed [new (Z.lor (Z.lor BPF_ALU64 BPF_MOV) BPF_K) R0 R3 0 1] = false
  /\ program_typed [alu64_imm BPF_MOV R10 0] = false.
Proof. vm_compute. done. Qed.
