(* ===== verification/Flow.v ===== *)
(** * Control flow and register initialisation of the compiled programs

    Before the kernel accepts a filter (src/src/loader/prog.rs, [load_filter]) its
    verifier walks every path of it: control must stay inside the program, no
    instruction may read a register that was not written on the way to it, and no
    instruction may be unreachable.  This file states the three conditions for the
    programs of src/src/compiler/codegen.rs and proves them from the closed forms.

    The conditions are over [reaches], the paths of the control-flow graph with the
    registers defined along them.  They are established by an executable checker,
    [flow_ok], sound for any program: it compares the registers defined after an
    instruction with the annotation [need] of each of its successors.  The
    semantic consequence, on any [BpfIsa] machine, is that what a program computes
    does not depend on the registers its caller did not set. *)

From S2P Require Import Prelude Assembler Machine Emit Verify Codegen Compare.
From S2P Require Import LiteralSearch CharClass Alternation Compiled.

(** ** The control-flow graph *)

Definition insn_class (i : BpfInsn) : Z := Z.land (code i) 0x07.
Definition insn_op (i : BpfInsn) : Z := Z.land (code i) 0xF0.

(** The second operand, when it is a register. *)
Definition source_operand (i : BpfInsn) : list Z :=
  if Z.land (code i) BPF_X =? 0 then [] else [src_reg i].

(** The registers an instruction reads; [exit] returns [R0]. *)
Definition reads (i : BpfInsn) : list Z :=
  if insn_class i =? BPF_LDX then [src_reg i]
  else if insn_class i =? BPF_ALU64 then
    if insn_op i =? BPF_MOV then source_operand i else dst_reg i :: source_operand i
  else if insn_op i =? BPF_EXIT then [R0]
  else if insn_op i =? BPF_JA then []
  else dst_reg i :: source_operand i.

Definition writes (i : BpfInsn) : list Z :=
  if (insn_class i =? BPF_LDX) || (insn_class i =? BPF_ALU64) then [dst_reg i] else [].

(** Where control can go after the instruction [i] at [p]. *)
Definition successors (p : Z) (i : BpfInsn) : list Z :=
  if insn_class i =? BPF_JMP then
    if insn_op i =? BPF_EXIT then []
    else if insn_op i =? BPF_JA then [p + 1 + off i]
    else [p + 1; p + 1 + off i]
  else [p + 1].

(** [reaches prog entry p defs]: a path from the first instruction leads to [p],
    and [defs] are the registers defined at the start or written along it. *)
Inductive reaches (prog : list BpfInsn) (entry : list Z) : Z -> list Z -> Prop :=
| reaches_entry : reaches prog entry 0 entry
| reaches_step p defs i q :
    reaches prog entry p defs -> fetch prog p = Some i -> q ∈ successors p i ->
    reaches prog entry q (writes i ++ defs).

(** ** The checker *)

Definition covers (need have : list Z) : bool :=
  forallb (fun r => existsb (Z.eqb r) have) need.

Lemma covers_spec need have : covers need have = true <-> need ⊆ have.
Proof.
  unfold covers. rewrite forallb_forall. split; intros Hc r Hr.
  - apply list_elem_of_In in Hr. specialize (Hc r Hr). apply existsb_exists in Hc as (q & Hq & He).
    apply Z.eqb_eq in He as <-. by apply list_elem_of_In.
  - apply existsb_exists. exists r. split; [|apply Z.eqb_refl].
    by apply list_elem_of_In, Hc, list_elem_of_In.
Qed.

Section checker.
  Context (need : BpfInsn -> list Z) (prog : list BpfInsn).

(** The instruction at [q] exists and needs only registers of [have]. *)
Definition ready (q : Z) (have : list Z) : bool :=
  match fetch prog q with Some j => covers (need j) have | None => false end.

Definition flow_at (p : Z) (i : BpfInsn) : bool :=
  covers (reads i) (need i)
  && forallb (fun q => ready q (writes i ++ need i)) (successors p i).

Fixpoint flow_from (p : Z) (l : list BpfInsn) : bool :=
  match l with [] => true | i :: l => flow_at p i && flow_from (p + 1) l end.

Definition flow_ok (entry : list Z) : bool := ready 0 entry && flow_from 0 prog.

Lemma flow_from_app p l k :
  flow_from p (l ++ k) = flow_from p l && flow_from (p + vec_len l) k.
Proof.
  revert p. induction l as [|i l IH]; intros p; cbn [app flow_from].
  - change (vec_len (@nil BpfInsn)) with 0. by rewrite Z.add_0_r.
  - rewrite IH, vec_len_cons, andb_assoc. do 2 f_equal. lia.
Qed.

Lemma flow_from_lookup p l k i :
  flow_from p l = true -> l !! k = Some i -> flow_at (p + Z.of_nat k) i = true.
Proof.
  revert p k. induction l as [|j l IH]; intros p k; [done|]. cbn [flow_from].
  intros [Hj Hl]%andb_true_iff. destruct k as [|k]; cbn.
  - intros [= ->]. by rewrite Z.add_0_r.
  - intros Hk. specialize (IH _ _ Hl Hk). by replace (p + Z.of_nat (S k)) with (p + 1 + Z.of_nat k) by lia.
Qed.

Lemma ready_mono q have have' :
  have ⊆ have' -> ready q have = true -> ready q have' = true.
Proof.
  intros Hs. unfold ready. destruct (fetch prog q); [|done]. rewrite !covers_spec. by intros ->.
Qed.

Lemma ready_at q have i : fetch prog q = Some i -> covers (need i) have = true ->
  ready q have = true.
Proof. unfold ready. by intros ->. Qed.

(** The invariant of the paths of an accepted program. *)
Lemma flow_ok_ready entry p defs :
  flow_ok entry = true -> reaches prog entry p defs -> ready p defs = true.
Proof.
  unfold flow_ok. intros [H0 Hf]%andb_true_iff. induction 1 as [|p defs i q _ IH Hi Hq]; [done|].
  unfold ready in IH. rewrite Hi in IH. apply covers_spec in IH.
  unfold fetch in Hi. destruct (Z.leb_spec 0 p); [|done].
  pose proof (flow_from_lookup _ _ _ _ Hf Hi) as Hat. rewrite Z2Nat.id in Hat by done.
  unfold flow_at in Hat. apply andb_true_iff in Hat as [_ Hs].
  rewrite forallb_forall in Hs. apply list_elem_of_In in Hq. apply Hs in Hq.
  eapply ready_mono; [|exact Hq]. clear -IH. set_solver.
Qed.

Lemma flow_ok_sound entry p defs :
  flow_ok entry = true -> reaches prog entry p defs ->
  exists i, fetch prog p = Some i /\ reads i ⊆ defs.
Proof.
  intros Hok Hr. pose proof (flow_ok_ready _ _ _ Hok Hr) as Hd. unfold ready in Hd.
  destruct (fetch prog p) as [i|] eqn:Hi; [|done]. exists i. split; [done|].
  apply covers_spec in Hd. unfold flow_ok in Hok. apply andb_true_iff in Hok as [_ Hf].
  unfold fetch in Hi. destruct (Z.leb_spec 0 p); [|done].
  pose proof (flow_from_lookup _ _ _ _ Hf Hi) as Hat.
  apply andb_true_iff in Hat as [Hc%covers_spec _]. by etrans.
Qed.
End checker.

(** ** The annotation of the compiled programs

    The registers that are defined whenever control reaches an instruction.  In a
    literal search ([search]) the start of the packet and the position stay
    defined throughout the loop. *)

Definition kept (search : bool) : list Z := if search then [R2; R4] else [].

Definition scan_regs (search : bool) : list Z := R5 :: R3 :: kept search.

Definition need (search : bool) (i : BpfInsn) : list Z :=
  if insn_class i =? BPF_LDX then
    if Z.land (code i) BPF_DW =? BPF_B then scan_regs search
    else if dst_reg i =? R2 then [R1] else [R1; R2]
  else if insn_class i =? BPF_ALU64 then
    if insn_op i =? BPF_MOV then
      if dst_reg i =? R0 then [] else if dst_reg i =? R4 then [R2; R3]
      else if dst_reg i =? R5 then R3 :: kept search else scan_regs search
    else if dst_reg i =? R4 then R3 :: kept search
    else if dst_reg i =? R5 then scan_regs search else R6 :: scan_regs search
  else if insn_op i =? BPF_EXIT then [R0]
  else if insn_op i =? BPF_JA then R3 :: kept search
  else if insn_op i =? BPF_JNE then R7 :: scan_regs search
  else if insn_op i =? BPF_JGT then R6 :: scan_regs search
  else [R7].

(** Instructions that fall through, that branch, and that jump. *)
Lemma flow_next search prog p i :
  covers (reads i) (need search i) = true -> successors p i = [p + 1] ->
  flow_at (need search) prog p i = ready (need search) prog (p + 1) (writes i ++ need search i).
Proof. intros Hr Hs. unfold flow_at. rewrite Hr, Hs. cbn. apply andb_true_r. Qed.

Lemma flow_branch search prog p i :
  covers (reads i) (need search i) = true -> successors p i = [p + 1; p + 1 + off i] ->
  ready (need search) prog (p + 1) (writes i ++ need search i) = true ->
  ready (need search) prog (p + 1 + off i) (writes i ++ need search i) = true ->
  flow_at (need search) prog p i = true.
Proof. intros Hr Hs H1 H2. unfold flow_at. rewrite Hr, Hs. cbn [forallb]. by rewrite H1, H2. Qed.

Lemma flow_goto search prog p i :
  covers (reads i) (need search i) = true -> successors p i = [p + 1 + off i] ->
  ready (need search) prog (p + 1 + off i) (writes i ++ need search i) = true ->
  flow_at (need search) prog p i = true.
Proof. intros Hr Hs H1. unfold flow_at. rewrite Hr, Hs. cbn [forallb]. by rewrite H1. Qed.

(** The unrolled comparison: both ways out of it must be ready for the registers it
    keeps. *)
Lemma cmp_body_flow search prog pre skip i pat post :
  prog = pre ++ cmp_body skip i pat ++ post ->
  ready (need search) prog (vec_len pre + 2 * vec_len pat) (scan_regs search) = true ->
  ready (need search) prog (vec_len pre + 2 * vec_len pat + skip + 2) (scan_regs search) = true ->
  ready (need search) prog (vec_len pre) (scan_regs search) = true
  /\ flow_from (need search) prog (vec_len pre) (cmp_body skip i pat) = true.
Proof.
  revert pre i. induction pat as [|b pat IH]; intros pre i Hprog Hend Hmis.
  { change (vec_len (@nil Z)) with 0 in Hend. by rewrite Z.add_0_r in Hend. }
  cbn [cmp_body] in Hprog. rewrite vec_len_cons in *.
  set (l := ldx_mem BPF_B R7 R5 i) in *. set (o := 2 * (1 + vec_len pat) + skip) in *.
  set (j := jmp_imm BPF_JNE R7 b o) in *.
  destruct (IH (pre ++ [l; j]) (i + 1)) as [Hr Hf].
  { rewrite Hprog, <- !app_assoc. done. }
  { autorewrite with vec. rewrite <- Hend. f_equal. lia. }
  { autorewrite with vec. rewrite <- Hmis. f_equal. lia. }
  autorewrite with vec in Hr, Hf.
  replace (vec_len pre + (1 + (1 + 0))) with (vec_len pre + 1 + 1) in Hr, Hf by lia.
  assert (Hl : fetch prog (vec_len pre) = Some l) by (rewrite Hprog; by apply fetch_middle).
  assert (Hj : fetch prog (vec_len pre + 1) = Some j).
  { rewrite Hprog. cbn [app]. rewrite app_cons_snoc. apply fetch_middle. by rewrite vec_len_snoc. }
  assert (Hsub : scan_regs search ⊆ writes j ++ need search j)
    by (apply covers_spec; by destruct search).
  split; [by apply (ready_at _ _ _ _ l Hl); destruct search|].
  cbn [cmp_body flow_from]. rewrite vec_len_cons. fold o l j. rewrite Hf, andb_true_r.
  apply andb_true_iff. split.
  - rewrite flow_next by (by destruct search). apply (ready_at _ _ _ _ j Hj). by destruct search.
  - apply flow_branch; [by destruct search|done|by apply (ready_mono _ _ _ _ _ Hsub)|].
    apply (ready_mono _ _ _ _ _ Hsub). rewrite <- Hmis. f_equal. cbn [off j jmp_imm new]. lia.
Qed.

(** ** The compiled programs pass the checker *)

(** The position of an instruction of a known segment, and its readiness. *)
Lemma ready_tail search prog pre tail j i have q :
  prog = pre ++ tail -> tail !! j = Some i -> q = vec_len pre + Z.of_nat j ->
  covers (need search i) have = true -> ready (need search) prog q have = true.
Proof.
  intros -> Hj -> Hc. apply (ready_at _ _ _ _ i); [|done].
  rewrite fetch_app_r by lia. unfold fetch. rewrite (proj2 (Z.leb_le _ _)) by lia.
  rewrite <- Hj. f_equal. lia.
Qed.

Lemma ready_head search head post j i have q :
  head !! j = Some i -> q = Z.of_nat j -> covers (need search i) have = true ->
  ready (need search) (head ++ post) q have = true.
Proof.
  intros Hj -> Hc. apply (ready_at _ _ _ _ i); [|done]. apply fetch_app_l.
  unfold fetch. by rewrite (proj2 (Z.leb_le _ _)), Nat2Z.id by lia.
Qed.

Lemma literal_program_flow pat :
  flow_ok (need true) (literal_program pat) [R1] = true.
Proof.
  destruct pat as [|b pat]; [done|]. rewrite literal_program_segments by done.
  set (n := vec_len (b :: pat)). set (head := lit_setup ++ lit_bounds n).
  set (body := cmp_body 0 0 (b :: pat)). set (prog := head ++ body ++ lit_tail n).
  assert (Hpre : prog = (head ++ body) ++ lit_tail n) by (unfold prog; by rewrite app_assoc).
  assert (Hlen : vec_len (head ++ body) = 8 + 2 * n).
  { rewrite vec_len_app. unfold body. by rewrite cmp_body_len. }
  assert (Hend : forall j i have q, lit_tail n !! j = Some i -> q = 8 + 2 * n + Z.of_nat j ->
    covers (need true i) have = true -> ready (need true) prog q have = true).
  { intros j i have q Hj -> Hc. apply (ready_tail _ _ _ _ j i _ _ Hpre Hj); [|done].
    by rewrite Hlen. }
  assert (Hstart : forall j i have q, head !! j = Some i -> q = Z.of_nat j ->
    covers (need true i) have = true -> ready (need true) prog q have = true).
  { intros j i have q. apply ready_head. }
  destruct (cmp_body_flow true prog head 0 0 (b :: pat) (lit_tail n)) as [Hr Hf]; [done|..].
  { by apply (Hend 0%nat (alu64_imm BPF_MOV R0 1)). }
  { apply (Hend 2%nat (alu64_imm BPF_ADD R4 1)); [done| |done]. change (vec_len head) with 8. lia. }
  unfold flow_ok. rewrite (Hstart 0%nat (ldx_mem BPF_W R2 R1 0)) by done. unfold prog at 2.
  rewrite !flow_from_app. change (0 + vec_len head) with (vec_len head).
  fold body in Hf. rewrite Hf, <- (vec_len_app head body), Hlen.
  assert (Hhead : flow_from (need true) prog 0 head = true).
  { cbn [flow_from head lit_setup lit_bounds app]. rewrite !andb_true_iff. split_and!; try done.
    apply flow_branch; [done..| |].
    - eapply ready_mono; [|apply Hr]. by apply covers_spec.
    - eapply (Hend 4%nat); [done| |done]. cbn [off jmp_reg new]. lia. }
  rewrite Hhead. cbn [flow_from lit_tail andb]. rewrite !andb_true_iff. split_and!; try done.
  - rewrite flow_next by done. eapply (Hend 1%nat); [done|lia|done].
  - rewrite flow_next by done. eapply (Hend 3%nat); [done|lia|done].
  - apply flow_goto; [done..|]. eapply (Hstart 3%nat); [done| |done].
    cbn [off jmp_imm new]. lia.
  - rewrite flow_next by done. eapply (Hend 5%nat); [done|lia|done].
Qed.

(** The result blocks, wherever they stand. *)
Lemma result_tail_flow search l :
  ready (need search) (l ++ result_tail) (vec_len l) [] = true
  /\ ready (need search) (l ++ result_tail) (vec_len l + 2) [] = true
  /\ flow_from (need search) (l ++ result_tail) (vec_len l) result_tail = true.
Proof.
  assert (Hat : forall j i have q, result_tail !! j = Some i -> q = vec_len l + Z.of_nat j ->
    covers (need search i) have = true -> ready (need search) (l ++ result_tail) q have = true).
  { intros j i have q Hj. by apply (ready_tail _ _ l result_tail). }
  split; [eapply (Hat 0%nat); [done|lia|done]|].
  split; [by eapply (Hat 2%nat)|].
  cbn [flow_from result_tail]. rewrite !andb_true_iff. split_and!; try done.
  - rewrite flow_next by done. by eapply (Hat 1%nat).
  - rewrite flow_next by done. eapply (Hat 3%nat); [done|lia|done].
Qed.

Lemma cc_body_flow pre ranges :
  let prog := pre ++ cc_body ranges ++ result_tail in
  ready (need false) prog (vec_len pre) [R7] = true
  /\ flow_from (need false) prog (vec_len pre) (cc_body ranges) = true.
Proof.
  revert pre. induction ranges as [|r ranges IH]; intros pre prog.
  { split; [|done]. eapply ready_mono; [|apply (result_tail_flow false pre)]. apply list_subseteq_nil. }
  set (l := [jmp_imm BPF_JLT R7 (lo r) 1; jmp_imm BPF_JLE R7 (hi r) (2 * vec_len (r :: ranges))]).
  assert (Hp : (pre ++ l) ++ cc_body ranges ++ result_tail = prog) by (by rewrite <- app_assoc).
  destruct (IH (pre ++ l)) as [Hr Hf]. rewrite Hp in Hr, Hf. unfold l in Hr, Hf.
  autorewrite with vec in Hr, Hf.
  replace (vec_len pre + (1 + (1 + 0))) with (vec_len pre + 1 + 1) in Hr, Hf by lia.
  assert (H0 : fetch prog (vec_len pre) = Some (jmp_imm BPF_JLT R7 (lo r) 1)) by (by apply fetch_middle).
  assert (H1 : fetch prog (vec_len pre + 1)
    = Some (jmp_imm BPF_JLE R7 (hi r) (2 * vec_len (r :: ranges)))).
  { unfold prog. cbn [cc_body app]. rewrite app_cons_snoc. apply fetch_middle. by rewrite vec_len_snoc. }
  split; [by apply (ready_at _ _ _ _ _ H0)|].
  cbn [cc_body flow_from]. rewrite Hf, andb_true_r. apply andb_true_iff. split.
  - apply flow_branch; [done..|by apply (ready_at _ _ _ _ _ H1)|done].
  - apply flow_branch; [done..|done|]. cbn [off jmp_imm new].
    destruct (result_tail_flow false (pre ++ cc_body (r :: ranges))) as (_ & Hm & _).
    rewrite <- app_assoc in Hm. fold prog in Hm.
    eapply ready_mono; [apply list_subseteq_nil|].
    rewrite <- Hm. f_equal. autorewrite with vec. rewrite cc_body_len, vec_len_cons. lia.
Qed.

Lemma char_class_program_flow ranges :
  flow_ok (need false) (char_class_program ranges) [R7] = true.
Proof.
  destruct (cc_body_flow [] ranges) as [Hr Hf].
  change (vec_len (@nil BpfInsn)) with 0 in Hr, Hf. cbn [app] in Hr, Hf.
  unfold flow_ok, char_class_program. rewrite Hr, flow_from_app, Hf.
  apply (result_tail_flow false (cc_body ranges)).
Qed.

(** One alternative: it is ready at its start, and leaves to the next one, at the
    end of its block, and to the success block. *)
Lemma alt_block_flow prog pre alt rest post :
  prog = pre ++ alt_block true true true alt rest ++ post ->
  ready (need false) prog (vec_len pre + alt_size alt) [R5; R3] = true ->
  ready (need false) prog (vec_len pre + alt_size alt + rest + 2) [] = true ->
  ready (need false) prog (vec_len pre) [R5; R3] = true
  /\ flow_from (need false) prog (vec_len pre) (alt_block true true true alt rest) = true.
Proof.
  unfold alt_size, alt_block, alt_body. intros Hprog Hnext Hmatch.
  set (a := alu64_reg BPF_MOV R6 R5) in *. set (b := alu64_imm BPF_ADD R6 (vec_len alt)) in *.
  set (c := jmp_reg BPF_JGT R6 R3 (2 * vec_len alt + 1)) in *.
  set (d := jmp_imm BPF_JA R0 0 (rest + 2)) in *. set (body := cmp_body (-1) 0 alt) in *.
  assert (Hlen : forall l, vec_len (pre ++ [a; b; c] ++ l) = vec_len pre + 3 + vec_len l).
  { intros l. autorewrite with vec. lia. }
  assert (Hd : fetch prog (vec_len pre + 3 + 2 * vec_len alt) = Some d).
  { rewrite Hprog, <- !app_assoc, !(app_assoc pre), (app_assoc _ body). apply fetch_middle.
    rewrite <- (app_assoc pre), Hlen. unfold body. by rewrite cmp_body_len. }
  assert (Hat : forall j i, [a; b; c] !! j = Some i -> fetch prog (vec_len pre + Z.of_nat j) = Some i).
  { intros j i Hj. rewrite Hprog, fetch_app_r, <- app_assoc by lia. apply fetch_app_l. unfold fetch.
    rewrite (proj2 (Z.leb_le _ _)) by lia. rewrite <- Hj. f_equal. lia. }
  pose proof (Hlen []) as Hl0. rewrite app_nil_r in Hl0.
  change (vec_len (@nil BpfInsn)) with 0 in Hl0. rewrite Z.add_0_r in Hl0.
  destruct (cmp_body_flow false prog (pre ++ [a; b; c]) (-1) 0 alt ([d] ++ post)) as [Hr Hf].
  { by rewrite Hprog, <- !app_assoc. }
  { rewrite Hl0. by apply (ready_at _ _ _ _ _ Hd). }
  { rewrite Hl0, <- Hnext. f_equal. lia. }
  rewrite Hl0 in Hr, Hf. fold body in Hf.
  split; [rewrite <- (Z.add_0_r (vec_len pre)); by apply (ready_at _ _ _ _ _ (Hat 0%nat _ eq_refl))|].
  rewrite !flow_from_app. change (vec_len [a; b; c]) with 3. rewrite Hf. cbn [andb].
  unfold body. rewrite cmp_body_len. cbn [flow_from]. rewrite !andb_true_r, !andb_true_iff.
  split; [split_and!|].
  - rewrite flow_next by done. by apply (ready_at _ _ _ _ _ (Hat 1%nat _ eq_refl)).
  - rewrite flow_next, <- Z.add_assoc by done.
    by apply (ready_at _ _ _ _ _ (Hat 2%nat _ eq_refl)).
  - apply flow_branch; [done..| |]; (eapply (ready_mono _ _ _ [R5; R3]); [by apply covers_spec|]).
    + rewrite <- Hr. f_equal. lia.
    + rewrite <- Hnext. f_equal. cbn [off c jmp_reg new]. lia.
  - apply flow_goto; [done..|]. eapply ready_mono; [apply list_subseteq_nil|].
    rewrite <- Hmatch. f_equal. cbn [off d jmp_imm new]. lia.
Qed.

(** The alternatives from one of them on; [pre] holds the earlier ones. *)
Lemma alt_blocks_flow pre alts :
  let prog := pre ++ alt_blocks true true true alts ++ result_tail in
  ready (need false) prog (vec_len pre) [R5; R3] = true
  /\ flow_from (need false) prog (vec_len pre) (alt_blocks true true true alts) = true.
Proof.
  revert pre. induction alts as [|alt alts IH]; intros pre prog.
  { split; [|done]. eapply ready_mono; [|apply (result_tail_flow false pre)]. apply list_subseteq_nil. }
  set (block := alt_block true true true alt (alts_size alts)).
  assert (Hlen : vec_len block = alt_size alt).
  { unfold block, alt_block, alt_body, alt_size. autorewrite with vec. rewrite cmp_body_len. lia. }
  assert (Hp : (pre ++ block) ++ alt_blocks true true true alts ++ result_tail = prog).
  { unfold prog. cbn [alt_blocks]. by rewrite <- !app_assoc. }
  destruct (IH (pre ++ block)) as [Hnext Hf]. rewrite Hp, vec_len_app, Hlen in Hnext, Hf.
  destruct (result_tail_flow false (pre ++ alt_blocks true true true (alt :: alts)))
    as (_ & Hm & _). rewrite <- app_assoc in Hm. fold prog in Hm.
  destruct (alt_block_flow prog pre alt (alts_size alts)
    (alt_blocks true true true alts ++ result_tail)) as [Hr Hb]; [by rewrite <- Hp, <- app_assoc|done|..].
  { rewrite <- Hm. f_equal. rewrite vec_len_app, alt_blocks_len. cbn [alts_size]. lia. }
  split; [done|]. cbn [alt_blocks]. rewrite flow_from_app. fold block. by rewrite Hlen, Hf, andb_true_r.
Qed.

Lemma alternation_program_flow alts :
  flow_ok (need false) (alternation_program alts) [R5; R3] = true.
Proof.
  destruct (alt_blocks_flow [] alts) as [Hr Hf].
  change (vec_len (@nil BpfInsn)) with 0 in Hr, Hf. cbn [app] in Hr, Hf.
  unfold flow_ok, alternation_program. rewrite Hr, flow_from_app, Hf.
  apply (result_tail_flow false (alt_blocks true true true alts)).
Qed.

(** ** No dead code *)

(** Control can go on to the next instruction. *)
Definition falls_through (i : BpfInsn) : bool :=
  negb ((insn_class i =? BPF_JMP) && ((insn_op i =? BPF_EXIT) || (insn_op i =? BPF_JA))).

Lemma falls_through_next p i : falls_through i = true -> p + 1 ∈ successors p i.
Proof.
  unfold falls_through, successors. destruct (_ =? BPF_JMP); [|set_solver].
  destruct (_ =? BPF_EXIT), (_ =? BPF_JA); try done. set_solver.
Qed.

Lemma cmp_body_falls skip i pat : forallb falls_through (cmp_body skip i pat) = true.
Proof. revert i. induction pat as [|b pat IH]; intros i; [done|]. apply (IH (i + 1)). Qed.

Lemma cc_body_falls ranges : forallb falls_through (cc_body ranges) = true.
Proof. by induction ranges. Qed.

Section reachable.
  Context (prog : list BpfInsn) (entry : list Z).

Definition reachable (p : Z) : Prop := exists defs, reaches prog entry p defs.

Lemma reachable_step p i q :
  reachable p -> fetch prog p = Some i -> q ∈ successors p i -> reachable q.
Proof. intros [defs Hp] Hi Hq. eexists. by eapply reaches_step. Qed.

(** Code without jumps away is reachable from its start, with what follows it. *)
Lemma reachable_segment pre seg post :
  prog = pre ++ seg ++ post -> forallb falls_through seg = true -> reachable (vec_len pre) ->
  forall k, 0 <= k <= vec_len seg -> reachable (vec_len pre + k).
Proof.
  revert pre. induction seg as [|i seg IH]; intros pre Hprog Hseg Hp k Hk.
  { change (vec_len (@nil BpfInsn)) with 0 in Hk. by replace (vec_len pre + k) with (vec_len pre) by lia. }
  cbn [forallb] in Hseg. apply andb_true_iff in Hseg as [Hi Hseg]. rewrite vec_len_cons in Hk.
  destruct (Z.eq_dec k 0) as [->|]; [by rewrite Z.add_0_r|].
  replace (vec_len pre + k) with (vec_len (pre ++ [i]) + (k - 1)) by (rewrite vec_len_snoc; lia).
  apply IH; [by rewrite Hprog, <- app_assoc|done| |lia].
  rewrite vec_len_snoc. eapply reachable_step; [done| |by apply falls_through_next].
  rewrite Hprog. by apply fetch_middle.
Qed.

Lemma reachable_next p i q :
  reachable p -> fetch prog p = Some i -> falls_through i = true -> q = p + 1 -> reachable q.
Proof. intros Hp Hi Hf ->. eapply reachable_step; [done..|]. by apply falls_through_next. Qed.

Lemma reachable_jump p i q :
  reachable p -> fetch prog p = Some i -> successors p i = [p + 1; p + 1 + off i] ->
  q = p + 1 + off i -> reachable q.
Proof.
  intros Hp Hi Hs ->. eapply reachable_step; [done..|]. rewrite Hs. set_solver.
Qed.
End reachable.

Section literal_reachable.
  Context (entry : list Z) (b : Z) (pat : list Z).

Abbreviation n := (vec_len (b :: pat)).
Abbreviation prog := (literal_program (b :: pat)).

Lemma literal_front_reachable k : 0 <= k <= 9 + 2 * n -> reachable prog entry k.
Proof.
  set (front := (lit_setup ++ lit_bounds n) ++ cmp_body 0 0 (b :: pat)).
  intros Hk. apply (reachable_segment _ _ [] (front ++ [alu64_imm BPF_MOV R0 1])
    (drop 1 (lit_tail n))).
  - unfold front. by rewrite literal_program_segments, <- !app_assoc.
  - unfold front. by rewrite !forallb_app, cmp_body_falls.
  - eexists. constructor.
  - unfold front. rewrite !vec_len_app, cmp_body_len.
    change (vec_len lit_setup + vec_len (lit_bounds n)) with 8. change (vec_len [_]) with 1. lia.
Qed.

(** The next iteration is reached from a mismatch, the failure block from the
    bounds check. *)
Lemma literal_tail_reachable k : 10 + 2 * n <= k < 14 + 2 * n -> reachable prog entry k.
Proof.
  pose proof (vec_len_nonneg pat) as Hn. rewrite vec_len_cons. intros Hk.
  assert (Hnext : reachable prog entry (12 + 2 * vec_len pat)).
  { eapply (reachable_jump _ _ 9 (jmp_imm BPF_JNE R7 b (2 * n + 0)));
      [apply literal_front_reachable; rewrite vec_len_cons; lia| |done|].
    - by apply (fetch_middle (lit_setup ++ lit_bounds n ++ [ldx_mem BPF_B R7 R5 0])
        (cmp_body 0 1 pat ++ lit_tail n)).
    - cbn [off jmp_imm new]. rewrite vec_len_cons. lia. }
  assert (Hfail : reachable prog entry (14 + 2 * vec_len pat)).
  { eapply (reachable_jump _ _ 7 (jmp_reg BPF_JGT R6 R3 (2 * n + 4)));
      [apply literal_front_reachable; rewrite vec_len_cons; lia|done|done|].
    cbn [off jmp_reg new]. rewrite vec_len_cons. lia. }
  assert (Hat : forall j i q, lit_tail n !! j = Some i -> q = 10 + 2 * vec_len pat + Z.of_nat j ->
    fetch prog q = Some i).
  { intros j i q Hj ->. apply (lit_tail_fetch (b :: pat) ltac:(done) _ _ _ Hj). rewrite vec_len_cons. lia. }
  assert (k = 12 + 2 * vec_len pat \/ k = 13 + 2 * vec_len pat \/ k = 14 + 2 * vec_len pat
    \/ k = 15 + 2 * vec_len pat) as [-> | [-> | [-> | ->]]] by lia; [done| |done|].
  - eapply (reachable_next _ _ _ _ _ Hnext); [eapply (Hat 2%nat); [done|lia]|done|lia].
  - eapply (reachable_next _ _ _ _ _ Hfail); [eapply (Hat 4%nat); [done|lia]|done|lia].
Qed.
End literal_reachable.

Lemma literal_program_reachable entry pat p :
  0 <= p < vec_len (literal_program pat) -> reachable (literal_program pat) entry p.
Proof.
  destruct pat as [|b pat]; intros Hp.
  - apply (reachable_segment _ _ [] (take 3 (literal_program [])) [exit]);
      [done..|eexists; constructor|].
    change (vec_len (literal_program [])) with 4 in Hp. change (vec_len (take _ _)) with 3. lia.
  - rewrite literal_program_len in Hp. rewrite vec_len_cons in Hp.
    pose proof (vec_len_nonneg pat). destruct (_ =? 0) eqn:E in Hp; [lia|].
    destruct (Z.lt_ge_cases p (10 + 2 * vec_len (b :: pat)));
      [apply literal_front_reachable|apply literal_tail_reachable]; rewrite vec_len_cons in *; lia.
Qed.

(** The result blocks, when both are entered. *)
Lemma result_tail_reachable entry l p :
  reachable (l ++ result_tail) entry (vec_len l) ->
  reachable (l ++ result_tail) entry (vec_len l + 2) ->
  vec_len l <= p < vec_len l + 4 -> reachable (l ++ result_tail) entry p.
Proof.
  intros Hf Hm Hp.
  assert (p = vec_len l \/ p = vec_len l + 1 \/ p = vec_len l + 2 \/ p = vec_len l + 3)
    as [-> | [-> | [-> | ->]]] by lia; [done| |done|].
  - eapply (reachable_next _ _ _ _ _ Hf); [eapply (result_tail_fetch _ 0); [done|lia]|done|lia].
  - eapply (reachable_next _ _ _ _ _ Hm); [eapply (result_tail_fetch _ 2); [done|lia]|done|lia].
Qed.

Lemma char_class_program_reachable entry ranges p :
  ranges <> [] -> 0 <= p < vec_len (char_class_program ranges) ->
  reachable (char_class_program ranges) entry p.
Proof.
  intros Hne Hp. rewrite char_class_program_len in Hp. unfold char_class_program in *.
  assert (Hbody : forall k, 0 <= k <= vec_len (cc_body ranges) ->
    reachable (cc_body ranges ++ result_tail) entry k).
  { intros k Hk. apply (reachable_segment _ _ [] (cc_body ranges) result_tail);
      [done|apply cc_body_falls|eexists; constructor|done]. }
  pose proof (vec_len_nonneg (cc_body ranges)).
  destruct (Z.lt_ge_cases p (vec_len (cc_body ranges))); [apply Hbody; lia|].
  apply result_tail_reachable; [apply Hbody; lia| |rewrite cc_body_len in *; lia].
  destruct ranges as [|r ranges]; [done|].
  eapply (reachable_jump _ _ 1 (jmp_imm BPF_JLE R7 (hi r) (2 * vec_len (r :: ranges))));
    [apply Hbody; rewrite cc_body_len, vec_len_cons;
    pose proof (vec_len_nonneg ranges); lia|done|done|].
  rewrite cc_body_len. cbn [off jmp_imm new]. lia.
Qed.

(** An alternative is reachable from its start, and its bounds check leads to the
    next one. *)
Lemma alt_block_reachable prog entry pre alt rest post p :
  prog = pre ++ alt_block true true true alt rest ++ post -> reachable prog entry (vec_len pre) ->
  vec_len pre <= p <= vec_len pre + alt_size alt -> reachable prog entry p.
Proof.
  unfold alt_block, alt_body, alt_size. intros Hprog Hpre Hp. pose proof (vec_len_nonneg alt).
  set (check := [_; _; _]) in Hprog.
  assert (Hseg : forall k, 0 <= k <= 3 + 2 * vec_len alt -> reachable prog entry (vec_len pre + k)).
  { intros k Hk. eapply (reachable_segment _ _ pre (check ++ cmp_body (-1) 0 alt)).
    - rewrite Hprog, <- !app_assoc. done.
    - by rewrite forallb_app, cmp_body_falls.
    - done.
    - rewrite vec_len_app, cmp_body_len. change (vec_len check) with 3. lia. }
  destruct (Z.eq_dec p (vec_len pre + (4 + 2 * vec_len alt))) as [->|].
  - eapply (reachable_jump _ _ (vec_len pre + 2) (jmp_reg BPF_JGT R6 R3 (2 * vec_len alt + 1)));
      [apply Hseg; lia| |done|cbn [off jmp_reg new]; lia].
    rewrite Hprog. unfold check. cbn [app]. do 2 rewrite app_cons_snoc. apply fetch_middle.
    rewrite !vec_len_snoc. lia.
  - replace p with (vec_len pre + (p - vec_len pre)) by lia. apply Hseg. lia.
Qed.

Lemma alt_blocks_reachable entry pre alts p :
  let prog := pre ++ alt_blocks true true true alts ++ result_tail in
  reachable prog entry (vec_len pre) -> vec_len pre <= p <= vec_len pre + alts_size alts ->
  reachable prog entry p.
Proof.
  revert pre. induction alts as [|alt alts IH]; intros pre prog Hpre Hp; cbn [alts_size] in Hp.
  { by replace p with (vec_len pre) by lia. }
  assert (Hblock : forall q, vec_len pre <= q <= vec_len pre + alt_size alt -> reachable prog entry q).
  { intros q. eapply (alt_block_reachable _ _ _ alt); [|done].
    unfold prog. cbn [alt_blocks]. by rewrite <- app_assoc. }
  destruct (Z.le_gt_cases p (vec_len pre + alt_size alt)); [apply Hblock; lia|].
  set (block := alt_block true true true alt (alts_size alts)).
  assert (Hlen : vec_len (pre ++ block) = vec_len pre + alt_size alt).
  { unfold block, alt_block, alt_body, alt_size. autorewrite with vec. rewrite cmp_body_len. lia. }
  assert (Hp' : prog = (pre ++ block) ++ alt_blocks true true true alts ++ result_tail).
  { unfold prog. cbn [alt_blocks]. by rewrite <- !app_assoc. }
  rewrite Hp' in *. apply IH; rewrite Hlen; [|lia]. apply Hblock.
  unfold alt_size. pose proof (vec_len_nonneg alt). lia.
Qed.

Lemma alternation_program_reachable entry alts p :
  alts <> [] -> 0 <= p < vec_len (alternation_program alts) ->
  reachable (alternation_program alts) entry p.
Proof.
  intros Hne Hp. unfold alternation_program in *. rewrite vec_len_app, alt_blocks_len in Hp.
  change (vec_len result_tail) with 4 in Hp. pose proof (alts_size_nonneg alts).
  assert (Hblocks : forall q, 0 <= q <= alts_size alts ->
    reachable (alt_blocks true true true alts ++ result_tail) entry q).
  { intros q Hq. apply (alt_blocks_reachable entry [] alts); [eexists; constructor|done]. }
  destruct (Z.lt_ge_cases p (alts_size alts)); [apply Hblocks; lia|].
  apply result_tail_reachable; rewrite alt_blocks_len; [apply Hblocks; lia| |lia].
  destruct alts as [|alt alts]; [done|]. cbn [alts_size] in *. unfold alt_size in *.
  pose proof (vec_len_nonneg alt). pose proof (alts_size_nonneg alts).
  eapply (reachable_step _ _ (3 + 2 * vec_len alt) (jmp_imm BPF_JA R0 0 (alts_size alts + 2)));
    [apply Hblocks; lia| |].
  - cbn [alt_blocks]. unfold alt_block, alt_body. rewrite <- !app_assoc, app_assoc.
    apply fetch_middle. rewrite vec_len_app, cmp_body_len. done.
  - apply list_elem_of_singleton. cbn [off jmp_imm new]. lia.
Qed.

(** ** Machines *)

(** Register files that agree on the registers of a list. *)
Definition agree (regs : list Z) (rs rs' : regfile) : Prop := forall r, r ∈ regs -> rs r = rs' r.

Lemma agree_write regs rs rs' r v :
  agree regs rs rs' -> agree ([r] ++ regs) (set_reg rs r v) (set_reg rs' r v).
Proof.
  intros Ha q Hq. unfold set_reg. destruct (Z.eqb_spec q r); [done|]. apply Ha. set_solver.
Qed.

(** Outcomes that differ only in registers outside a list. *)
Definition same_outcome (p : Z) (i : BpfInsn) (defs : list Z) (o o' : outcome) : Prop :=
  match o, o' with
  | Next c, Next c' =>
      pc c = pc c' /\ pc c ∈ successors p i /\ agree (writes i ++ defs) (rf c) (rf c')
  | Done v, Done v' => v = v'
  | Fault, Fault => True
  | _, _ => False
  end.

Lemma ldx_sizes size :
  existsb (Z.eqb size) [BPF_B; BPF_H; BPF_W; BPF_DW] = true -> size ∈ [BPF_B; BPF_H; BPF_W; BPF_DW].
Proof.
  intros (q & Hq & ->%Z.eqb_eq)%existsb_exists. by apply list_elem_of_In.
Qed.

Section machine.
  Context {step : memory -> list BpfInsn -> cpu -> outcome} {Hisa : BpfIsa step}.
  Context (mem : memory) (prog : list BpfInsn).

(** On the instructions the compilers use, the laws determine the machine. *)
Lemma step_reference p i rs :
  fetch prog p = Some i -> insn_typed i = true ->
  step mem prog (mkCpu p rs) = Reference.step mem prog (mkCpu p rs).
Proof.
  intros Hi Ht. unfold insn_typed in Ht. rewrite !andb_true_iff in Ht.
  destruct Ht as ((((_ & Hop) & _) & _) & _). apply existsb_exists in Hop as (k & Hk & Heq).
  apply Z.eqb_eq in Heq as <-. apply list_elem_of_In in Hk. unfold emitted_opcodes in Hk.
  set (c := mkCpu p rs). change p with (pc c) in Hi.
  repeat (apply elem_of_cons in Hk as [Hc|Hk]); [..|by apply elem_of_nil in Hk].
  all: let same law := (by rewrite (law step Hisa _ _ c _ Hi Hc),
    (law _ Reference.isa _ _ c _ Hi Hc)) in
    first [same (@isa_exit) | same (@isa_ja) | same (@isa_mov_k) | same (@isa_mov_x)
      | same (@isa_add_k) | same (@isa_add_x) | same (@isa_jne_k) | same (@isa_jgt_x)
      | same (@isa_jlt_k) | same (@isa_jle_k) | idtac].
  - pose proof (ldx_sizes BPF_B eq_refl) as Hs.
    by rewrite (@isa_ldx step Hisa _ _ c _ _ Hi Hs Hc), (@isa_ldx _ Reference.isa _ _ c _ _ Hi Hs Hc).
  - pose proof (ldx_sizes BPF_W eq_refl) as Hs.
    by rewrite (@isa_ldx step Hisa _ _ c _ _ Hi Hs Hc), (@isa_ldx _ Reference.isa _ _ c _ _ Hi Hs Hc).
Qed.
End machine.

(** [reads], [writes] and [successors] describe the instructions the compilers use. *)
Lemma step_agree mem prog p i defs rs rs' :
  fetch prog p = Some i -> insn_typed i = true -> reads i ⊆ defs -> agree defs rs rs' ->
  same_outcome p i defs (Reference.step mem prog (mkCpu p rs)) (Reference.step mem prog (mkCpu p rs')).
Proof.
  intros Hi Ht Hr Ha. unfold insn_typed in Ht. rewrite !andb_true_iff in Ht.
  destruct Ht as ((((_ & Hop) & _) & _) & _). apply existsb_exists in Hop as (k & Hk & Heq).
  apply Z.eqb_eq in Heq as <-. apply list_elem_of_In in Hk.
  assert (Hin : forall r, r ∈ reads i -> rs r = rs' r) by (intros r ?; by apply Ha, Hr).
  revert Hin. unfold Reference.step. cbn [pc]. rewrite Hi.
  unfold same_outcome, reads, writes, successors, insn_class, insn_op, source_operand.
  repeat (apply elem_of_cons in Hk as [Hc|Hk]);
    [..|by apply elem_of_nil in Hk]; rewrite Hc; closed_ifs; intros Hin;
    unfold write_reg, jump_to; cbn [rf pc].
  all: rewrite ?Hin by set_solver.
  all: try done.
  all: repeat case_match; simplify_eq; try done; cbn [rf pc].
  all: split; [done|split; [set_solver|]]; first [by apply agree_write|done].
Qed.

(** ** Theorems *)

Section entered.
  Context `{Arch}.

(** [entered prog entry]: a compiler returns [prog], and [entry] are the registers
    its callers set: the context pointer for a literal search, the byte under test
    for a class, the position and the end of the window for an alternation. *)
Inductive entered (prog : list BpfInsn) : list Z -> Prop :=
| entered_literal pat :
    Forall is_byte pat -> compile_literal_search pat = Ok prog -> entered prog [R1]
| entered_ranges ranges :
    Forall (fun r => is_byte (lo r) /\ is_byte (hi r)) ranges ->
    2 * vec_len ranges < 2 ^ (usize_bits - 1) -> compile_char_class ranges = Ok prog ->
    entered prog [R7]
| entered_class class :
    Forall is_byte class -> 4 * vec_len class < 2 ^ (usize_bits - 1) ->
    compile_character_class class = Ok prog -> entered prog [R7]
| entered_alternation alts :
    Forall (Forall is_byte) alts -> 4 + alts_size alts <= usize_max ->
    compile_alternation alts = Ok prog -> entered prog [R5; R3].

Lemma entered_compiled prog entry : entered prog entry -> compiled prog.
Proof.
  intros [pat ? ?|ranges ? ? ?|class ? ? ?|alts ? ? ?];
    [by eapply compiled_literal|by eapply compiled_ranges|by eapply compiled_class
    |by eapply compiled_alternation].
Qed.

(** The programs of the three compilers, with the blocks that are not entered when
    there is nothing to match left out. *)
Inductive flow_form (prog : list BpfInsn) : list Z -> Prop :=
| form_literal pat : prog = literal_program pat -> flow_form prog [R1]
| form_class ranges : ranges <> [] -> prog = char_class_program ranges -> flow_form prog [R7]
| form_alternation alts : alts <> [] -> prog = alternation_program alts -> flow_form prog [R5; R3]
| form_constant k entry : prog = [alu64_imm BPF_MOV R0 k; exit] -> flow_form prog entry.

Lemma entered_form prog entry : entered prog entry -> flow_form prog entry.
Proof.
  intros [pat Hb Hc|ranges Hb Hl Hc|class Hb Hl Hc|alts Hb Hl Hc].
  - apply compile_literal_search_inv in Hc as [_ ->]. by eapply form_literal.
  - rewrite compile_char_class_result in Hc by done.
    destruct ranges as [|r ranges]; [done|]. cbn [is_empty] in Hc.
    destruct (existsb _ _); [done|]. destruct (_ <? _); [done|]. injection Hc as <-.
    by apply (form_class _ (r :: ranges)).
  - rewrite compile_character_class_result in Hc by done.
    destruct (parse_character_class class) as [rs| | |]; [|done..].
    destruct (_ <? _); [done|]. injection Hc as <-.
    destruct rs as [|r rs]; [by eapply form_constant|].
    by apply (form_class _ (to_char_range <$> (r :: rs))).
  - rewrite compile_alternation_result in Hc by done. destruct alts as [|alt alts].
    { injection Hc as <-. by eapply form_constant. }
    cbn [is_empty] in Hc. destruct (existsb _ _); [injection Hc as <-; by eapply form_constant|].
    destruct (_ <? _); [done|]. injection Hc as <-.
    by apply (form_alternation _ (alt :: alts)).
Qed.

Lemma entered_flow prog entry :
  entered prog entry -> exists search, flow_ok (need search) prog entry = true.
Proof.
  intros [pat ->|ranges _ ->|alts _ ->|k en ->]%entered_form;
    [exists true; apply literal_program_flow|exists false; apply char_class_program_flow
    |exists false; apply alternation_program_flow|by exists false].
Qed.

Lemma entered_reachable prog entry p :
  entered prog entry -> 0 <= p < vec_len prog -> reachable prog entry p.
Proof.
  intros [pat ->|ranges ? ->|alts ? ->|k en ->]%entered_form;
    [apply literal_program_reachable|by apply char_class_program_reachable
    |by apply alternation_program_reachable|].
  intros Hp. apply (reachable_segment _ _ [] [alu64_imm BPF_MOV R0 k] [exit]);
    [done..|eexists; constructor|]. revert Hp.
  change (vec_len [alu64_imm BPF_MOV R0 k; exit]) with 2. change (vec_len [_]) with 1. lia.
Qed.

(** C20. The control flow of every compiled program is what the kernel requires
    before it accepts it.  On every path from the first instruction, whatever the
    outcomes of the comparisons, control stays inside the program, and the
    instruction it arrives at reads only registers that the caller set or that were
    written on that path; [exit] is never reached without a result in [R0].
    Conversely no instruction is dead: a path leads to each. *)
Theorem compiled_flow_safe prog entry :
  entered prog entry ->
  (forall p defs, reaches prog entry p defs ->
     exists i, fetch prog p = Some i /\ reads i ⊆ defs)
  /\ (forall p, 0 <= p < vec_len prog -> exists defs, reaches prog entry p defs).
Proof.
  intros He. split; [|intros p; by apply entered_reachable].
  destruct (entered_flow _ _ He) as [search Hf]. intros p defs. by eapply flow_ok_sound.
Qed.

Section lockstep.
  Context {step : memory -> list BpfInsn -> cpu -> outcome} {Hisa : BpfIsa step}.

(** Results of runs that may differ only in registers the program has not set. *)
Definition same_run (prog : list BpfInsn) (r r' : run_result) : Prop :=
  match r, r' with
  | Returned v, Returned v' => v = v'
  | Faulted, Faulted => True
  | Running c, Running c' => pc c = pc c' /\ 0 <= pc c < vec_len prog
  | _, _ => False
  end.

Lemma lockstep_run mem prog entry search n p defs rs rs' :
  flow_ok (need search) prog entry = true -> program_typed prog = true ->
  reaches prog entry p defs -> agree defs rs rs' ->
  same_run prog (run step n mem prog (mkCpu p rs)) (run step n mem prog (mkCpu p rs')).
Proof.
  intros Hf Ht. revert p defs rs rs'. induction n as [|n IH]; intros p defs rs rs' Hp Ha;
    destruct (flow_ok_sound _ _ _ _ _ Hf Hp) as (i & Hi & Hr).
  { split; [done|]. cbn [pc]. unfold fetch in Hi. destruct (Z.leb_spec 0 p); [|done].
    apply lookup_lt_Some in Hi. unfold vec_len. lia. }
  assert (Hti : insn_typed i = true).
  { apply program_typed_Forall in Ht. unfold fetch in Hi. destruct (0 <=? p); [|done].
    by eapply Forall_lookup_1 in Ht. }
  pose proof (step_agree mem _ _ _ _ _ _ Hi Hti Hr Ha) as Hs. cbn [run].
  rewrite (step_reference mem prog p i rs), (step_reference mem prog p i rs') by done.
  destruct (Reference.step mem prog (mkCpu p rs)) as [[q rq]| |],
    (Reference.step mem prog (mkCpu p rs')) as [[q' rq']| |]; try done.
  destruct Hs as (Hq & Hq' & Ha'). cbn [pc rf] in *. subst q'.
  eapply IH; [|done]. by eapply reaches_step.
Qed.

(** C21. What a compiled program does depends only on the registers its caller sets.
    Run on any machine with two register files that agree on those, in the same
    memory, a program returns the same result after the same number of
    instructions, or faults in both, and until then executes the same
    instructions, all of them its own: the other registers, whatever they hold when
    the program starts, cannot influence the verdict. *)
Theorem compiled_run_independent prog entry n mem rs rs' :
  entered prog entry -> agree entry rs rs' ->
  same_run prog (run step n mem prog (mkCpu 0 rs)) (run step n mem prog (mkCpu 0 rs')).
Proof.
  intros He Ha. destruct (entered_flow _ _ He) as [search Hf].
  eapply lockstep_run; [done|by eapply compiled_typed, entered_compiled|constructor|done].
Qed.
End lockstep.
End entered.

Lemma compiled_flow_safe_witness :
  exists prog, compile_literal_search (H := arch64_release) (bytes "GET") = Ok prog
    /\ (forall p defs, reaches prog [R1] p defs -> exists i, fetch prog p = Some i /\ reads i ⊆ defs)
    /\ (forall p, 0 <= p < vec_len prog -> exists defs, reaches prog [R1] p defs).
Proof.
  eexists. split; [reflexivity|]. apply (compiled_flow_safe (H := arch64_release)).
  apply (entered_literal (H := arch64_release) _ (bytes "GET")); [apply bytes_is_byte|done].
Defined.

Lemma compiled_run_independent_witness :
  same_run (alternation_program [bytes "get"; bytes "po"])
    (run Reference.step 12 demo_window (alternation_program [bytes "get"; bytes "po"])
       (mkCpu 0 demo_scan))
    (run Reference.step 12 demo_window (alternation_program [bytes "get"; bytes "po"])
       (mkCpu 0 (set_reg demo_scan R0 77))).
Proof.
  apply (compiled_run_independent (H := arch64_debug) (Hisa := Reference.isa) _ [R5; R3]).
  - apply (entered_alternation (H := arch64_debug) _ [bytes "get"; bytes "po"]); [|done..].
    repeat constructor; vm_compute; done.
  - intros r Hr. repeat (apply elem_of_cons in Hr as [->|Hr]; [done|]). by apply elem_of_nil in Hr.
Defined.

(** What the checker refuses: a result that is not set on one path, a jump out of
    the program, a register that no path sets. *)
Example flow_refused :
  flow_ok (need false) [jmp_imm BPF_JLE R7 57 1; alu64_imm BPF_MOV R0 0; exit] [R7] = false
  /\ flow_ok (need false) [jmp_imm BPF_JLE R7 57 5; alu64_imm BPF_MOV R0 0; exit] [R7] = false
  /\ flow_ok (need false) (char_class_program [mkCharRange 48 57]) [] = false.
Proof. vm_compute. done. Qed.
