(* ===== verification/Listing.v ===== *)
(** * Listings can be read back

    [format_program] (src/src/assembler.rs) is the only view of a compiled program the
    crate offers for debugging.  Here is a reader of its output, and the proof that it
    recovers every compiled program from its listing: a listing has lost nothing, and
    two different programs never have the same listing. *)

From S2P Require Import Prelude Str Assembler Machine Verify Codegen Compare LiteralSearch.
From S2P Require Import CharClass Alternation Compiled.

(** ** The reader *)

(** The decimal digits at the head of a text. *)
Fixpoint read_digits (acc : Z) (s : str) : Z * str :=
  match s with
  | c :: rest => if is_ascii_digit c then read_digits (acc * 10 + (c - 48)) rest else (acc, s)
  | [] => (acc, [])
  end.

(** An integer, with an optional sign. *)
Definition read_int (s : str) : Z * str :=
  match s with
  | c :: rest =>
      if c =? chr "-" then let '(n, s) := read_digits 0 rest in (- n, s)
      else if c =? chr "+" then read_digits 0 rest
      else read_digits 0 s
  | [] => (0, [])
  end.

(** The text after a prefix. *)
Fixpoint expect (prefix s : str) : option str :=
  match prefix, s with
  | [], _ => Some s
  | c :: prefix, d :: s => if c =? d then expect prefix s else None
  | _ :: _, [] => None
  end.

(** The first alternative whose prefix is there reads the rest. *)
Fixpoint choose {A} (alternatives : list (string * (str -> option A))) (s : str) : option A :=
  match alternatives with
  | [] => None
  | (prefix, read) :: rest =>
      match expect (bytes prefix) s with
      | Some s => read s
      | None => choose rest s
      end
  end.

(** [goto target], the target one more than the offset. *)
Definition read_goto (build : Z -> BpfInsn) (s : str) : option BpfInsn :=
  s ← expect (bytes " goto ") s;
  let '(t, _) := read_int s in Some (build (t - 1)).

Definition read_jump (op : Z) (d : Z) (s : str) : option BpfInsn :=
  let '(k, s) := read_int s in read_goto (jmp_imm op d k) s.

Definition read_load (size d : Z) (s : str) : option BpfInsn :=
  let '(r, s) := read_int s in
  s ← expect (bytes " + ") s;
  let '(o, _) := read_int s in Some (ldx_mem size d r o).

(** One instruction. *)
Definition read_insn : str -> option BpfInsn :=
  choose
    [("exit", fun _ => Some exit);
     ("goto ", fun s => let '(t, _) := read_int s in Some (jmp_imm BPF_JA R0 0 (t - 1)));
     ("if r", fun s => let '(d, s) := read_int s in
        choose
          [(" != ", read_jump BPF_JNE d); (" <= ", read_jump BPF_JLE d);
           (" < ", read_jump BPF_JLT d);
           (" > r", fun s => let '(r, s) := read_int s in read_goto (jmp_reg BPF_JGT d r) s)] s);
     ("r", fun s => let '(d, s) := read_int s in
        choose
          [(" += r", fun s => let '(r, _) := read_int s in Some (alu64_reg BPF_ADD d r));
           (" += ", fun s => let '(k, _) := read_int s in Some (alu64_imm BPF_ADD d k));
           (" = r", fun s => let '(r, _) := read_int s in Some (alu64_reg BPF_MOV d r));
           (" = *(u8 *)(r", read_load BPF_B d); (" = *(u32 *)(r", read_load BPF_W d);
           (" = ", fun s => let '(k, _) := read_int s in Some (alu64_imm BPF_MOV d k))] s)]%string.

(** A numbered line. *)
Definition read_line (s : str) : option BpfInsn :=
  let '(_, s) := read_digits 0 s in
  s ← expect (bytes ": ") s; read_insn s.

Fixpoint split_lines (s : str) : list str :=
  match s with
  | [] => [[]]
  | c :: rest =>
      if c =? 10 then [] :: split_lines rest
      else match split_lines rest with
           | line :: lines => (c :: line) :: lines
           | [] => [[c]]
           end
  end.

Definition read_listing (s : str) : option (list BpfInsn) := mapM read_line (split_lines s).

(** ** Reading numbers *)

(** A text that does not go on with a digit. *)
Definition ends_number (s : str) : bool :=
  match s with c :: _ => negb (is_ascii_digit c) | [] => true end.

Lemma read_digits_app acc ds s :
  digits ds -> ends_number s = true -> read_digits acc (ds ++ s) = (digits_value acc ds, s).
Proof.
  intros Hd Hs. revert acc. induction Hd as [|c ds Hc _ IH]; intros acc; cbn.
  - destruct s as [|c s]; [done|]. cbn in *. by destruct (is_ascii_digit c).
  - by rewrite Hc, IH.
Qed.

(** What a printed number starts with. *)
Lemma print_head z : exists c rest, print z = c :: rest
  /\ (0 <= z -> is_ascii_digit c = true) /\ (z < 0 -> c = chr "-" /\ rest = print (- z)).
Proof.
  destruct (Z.ltb_spec z 0) as [Hz|Hz].
  - destruct z as [|p|p]; [lia|lia|]. exists (chr "-"), (print (Z.pos p)). by split_and!; [|lia|].
  - destruct (print_digits z Hz) as (Hne & Hd & _). destruct (print z) as [|c rest]; [done|].
    exists c, rest. inversion_clear Hd. split_and!; [done|done|lia].
Qed.

Lemma read_int_print z s : ends_number s = true -> read_int (print z ++ s) = (z, s).
Proof.
  intros Hs. destruct (print_head z) as (c & rest & Hp & Hpos & Hneg).
  destruct (Z.ltb_spec z 0) as [Hz|Hz].
  - destruct (Hneg Hz) as [-> ->]. rewrite Hp. cbn.
    destruct (print_digits (- z)) as (_ & Hd & Hv); [lia|].
    rewrite read_digits_app, Hv by done. f_equal. lia.
  - specialize (Hpos Hz). unfold is_ascii_digit in Hpos. destruct (print_digits z Hz) as (_ & Hd & Hv).
    unfold read_int. rewrite Hp. cbn [app]. change (chr "-") with 45. change (chr "+") with 43.
    rewrite (proj2 (Z.eqb_neq c 45)), (proj2 (Z.eqb_neq c 43)) by lia.
    change (c :: rest ++ s) with ((c :: rest) ++ s). rewrite <- Hp, read_digits_app by done.
    by rewrite Hv.
Qed.

(** The text of a jump target. *)
Definition print_plus (z : Z) : str := bytes (fmt_plus z).

Lemma read_int_plus z s : ends_number s = true -> read_int (print_plus z ++ s) = (z, s).
Proof.
  intros Hs. unfold print_plus, fmt_plus. destruct (Z.leb_spec 0 z) as [Hz|Hz]; [|by apply read_int_print].
  rewrite bytes_app. destruct (print_digits z Hz) as (_ & Hd & Hv).
  change (read_int _) with (read_digits 0 (print z ++ s)). by rewrite read_digits_app, Hv.
Qed.

Lemma read_int_print_end z : read_int (print z) = (z, []).
Proof. rewrite <- (app_nil_r (print z)). by apply read_int_print. Qed.

Lemma read_int_plus_end z : read_int (print_plus z) = (z, []).
Proof. rewrite <- (app_nil_r (print_plus z)). by apply read_int_plus. Qed.

(** Printed numbers contain no line break. *)
Lemma print_line z : Forall (fun c => c <> 10) (print z).
Proof.
  assert (Hd : forall z, 0 <= z -> Forall (fun c => c <> 10) (print z)).
  { intros y Hy. destruct (print_digits y Hy) as (_ & Hd & _). eapply Forall_impl; [exact Hd|].
    intros c Hc ->. done. }
  destruct (Z.ltb_spec z 0) as [Hz|Hz]; [|by apply Hd].
  destruct (print_head z) as (c & rest & Hp & _ & Hneg). destruct (Hneg Hz) as [-> ->].
  rewrite Hp. constructor; [done|]. apply Hd. lia.
Qed.

Lemma plus_line z : Forall (fun c => c <> 10) (print_plus z).
Proof.
  unfold print_plus, fmt_plus. destruct (0 <=? z); [|apply print_line].
  rewrite bytes_app. constructor; [done|apply print_line].
Qed.

(** ** Prefixes *)

Lemma expect_nil s : expect [] s = Some s.
Proof. by destruct s. Qed.

Lemma expect_step c p d s : expect (c :: p) (d :: s) = if c =? d then expect p s else None.
Proof. done. Qed.

(** A number is neither a register nor a memory operand. *)
Lemma expect_number c p z : c = chr "r" \/ c = chr "*" -> expect (c :: p) (print z) = None.
Proof.
  intros Hc. destruct (print_head z) as (d & rest & -> & Hpos & Hneg). rewrite expect_step.
  change (chr "r") with 114 in Hc. change (chr "*") with 42 in Hc.
  rewrite (proj2 (Z.eqb_neq c d)); [done|]. destruct (Z.ltb_spec z 0) as [Hz|Hz].
  - destruct (Hneg Hz) as [-> _]. change (chr "-") with 45. lia.
  - specialize (Hpos Hz). unfold is_ascii_digit in Hpos. lia.
Qed.

(** ** Instructions *)

(** The shapes of well-typed instructions. *)
Definition is_reg (r : Z) : Prop := 0 <= r < 16.

Inductive shape : BpfInsn -> Prop :=
| shape_exit : shape exit
| shape_load_b d r o : is_reg d -> is_reg r -> shape (ldx_mem BPF_B d r o)
| shape_load_w d r o : is_reg d -> is_reg r -> shape (ldx_mem BPF_W d r o)
| shape_mov_imm d k : is_reg d -> shape (alu64_imm BPF_MOV d k)
| shape_mov_reg d r : is_reg d -> is_reg r -> shape (alu64_reg BPF_MOV d r)
| shape_add_imm d k : is_reg d -> shape (alu64_imm BPF_ADD d k)
| shape_add_reg d r : is_reg d -> is_reg r -> shape (alu64_reg BPF_ADD d r)
| shape_ja o : shape (jmp_imm BPF_JA R0 0 o)
| shape_jne d k o : is_reg d -> shape (jmp_imm BPF_JNE d k o)
| shape_jgt d r o : is_reg d -> is_reg r -> shape (jmp_reg BPF_JGT d r o)
| shape_jlt d k o : is_reg d -> shape (jmp_imm BPF_JLT d k o)
| shape_jle d k o : is_reg d -> shape (jmp_imm BPF_JLE d k o).

Lemma dst_reg_range i : is_reg (dst_reg i).
Proof.
  unfold is_reg, dst_reg. change 0x0F with (Z.ones 4). rewrite Z.land_ones by lia. dlia.
Qed.

Lemma src_reg_range i : insn_wf i = true -> is_reg (src_reg i).
Proof.
  unfold is_reg, src_reg, insn_wf, in_u. rewrite Z.shiftr_div_pow2 by lia. intros. dlia.
Qed.

Lemma insn_fields i : insn_wf i = true -> i = new (code i) (dst_reg i) (src_reg i) (off i) (imm i).
Proof.
  destruct i as [c r o k]. unfold insn_wf, in_u. cbn [code regs off imm]. intros Hwf.
  unfold new, dst_reg, src_reg. cbn [code regs off imm]. f_equal. symmetry. apply nibbles. lia.
Qed.

Lemma zero_regs i : regs i = 0 -> dst_reg i = 0 /\ src_reg i = 0.
Proof. unfold dst_reg, src_reg. by intros ->. Qed.

Lemma typed_shape i : insn_typed i = true -> shape i.
Proof.
  unfold insn_typed. rewrite !andb_true_iff. intros [[[[Hwf Hop] _] _] Hres].
  pose proof (dst_reg_range i). pose proof (src_reg_range i Hwf).
  rewrite (insn_fields i Hwf). unfold reserved_zero, operand_zero in Hres.
  unfold emitted_opcodes in Hop. cbn [existsb] in Hop. rewrite !orb_true_iff, !Z.eqb_eq in Hop.
  repeat destruct Hop as [Hop|Hop]; try done; rewrite Hop in Hres |- *; cbv zeta in Hres;
    repeat match type of Hres with context [if ?b then _ else _] =>
      let v := eval vm_compute in b in change b with v in Hres; cbv iota in Hres
    end;
    rewrite ?andb_true_iff, ?Z.eqb_eq in Hres;
    repeat match goal with
    | Hz : _ /\ _ |- _ => destruct Hz
    | Hz : regs i = 0 |- _ => apply zero_regs in Hz as [-> ->]
    | Hz : off i = 0 |- _ => rewrite Hz; clear Hz
    | Hz : imm i = 0 |- _ => rewrite Hz; clear Hz
    | Hz : src_reg i = 0 |- _ => rewrite Hz; clear Hz
    end; by constructor.
Qed.

(** The offset of a rendered jump can be shown. *)
Definition shown_offset (i : BpfInsn) : Prop :=
  renders_target (code i) = true -> -32768 <= off i < 32767.

(** Evaluates the literal parts of a text. *)
Ltac literals :=
  rewrite ?bytes_app; unfold fmt_dec;
  repeat match goal with
  | |- context [bytes (pretty ?z)] => change (bytes (pretty z)) with (print z)
  | |- context [bytes (fmt_plus ?z)] => change (bytes (fmt_plus z)) with (print_plus z)
  end;
  repeat match goal with |- context [bytes ?s] =>
    let v := eval vm_compute in (bytes s) in change (bytes s) with v
  end.

Ltac lines :=
  repeat first [apply print_line | apply plus_line | apply Forall_nil_2 | apply Forall_cons_2; [done|]
               | apply Forall_app_2].
Ltac reading :=
  unfold read_jump, read_goto, read_load; cbn [choose app]; literals; cbn [app];
  repeat first
    [ reflexivity
    | rewrite expect_nil | rewrite expect_step; closed_ifs | rewrite expect_number by auto
    | rewrite read_int_print by reflexivity | rewrite read_int_print_end
    | rewrite read_int_plus by reflexivity | rewrite read_int_plus_end
    | rewrite Z.add_simpl_r | progress cbn [choose mbind option_bind] ].

Section instructions.
  Context `{Arch} {E : Type}.

Lemma off_plus_1_shown i :
  shown_offset i -> renders_target (code i) = true -> off_plus_1 (E := E) i = Ok (off i + 1).
Proof. intros Hs Hr. specialize (Hs Hr). apply s_arith_ok. lia. Qed.

(** A rendered instruction is one line, and is read back. *)
Lemma read_fmt i : shape i -> shown_offset i ->
  exists s, fmt (E := E) i = Ok s /\ read_insn (bytes s) = Some i
    /\ Forall (fun c => c <> 10) (bytes s).
Proof.
  intros Hi Ho. pose proof (off_plus_1_shown i Ho) as Ht.
  destruct Hi; unfold is_reg in *; unfold fmt; cbv zeta; closed_ifs;
    try (rewrite Ht by reflexivity; rewrite Ok_bind); clear Ht Ho;
    unfold ldx_mem, alu64_imm, alu64_reg, jmp_imm, jmp_reg;
    rewrite ?dst_reg_new_small, ?src_reg_new_small by lia; cbn [off imm new];
    (eexists; split; [reflexivity|]; split; literals; [|lines]); unfold read_insn;
    reading.
Qed.
End instructions.

(** ** Lines *)

Lemma zeros_digits n : digits (bytes (zeros n)).
Proof. induction n; [constructor|]. by constructor. Qed.

Lemma index_digits k : 0 <= k -> digits (bytes (fmt_04 k)).
Proof.
  intros Hk. unfold fmt_04. rewrite bytes_app. apply Forall_app_2; [apply zeros_digits|].
  by apply print_digits.
Qed.

Lemma digits_line ds : digits ds -> Forall (fun c => c <> 10) ds.
Proof. intros Hd. eapply Forall_impl; [exact Hd|]. by intros c Hc ->. Qed.

Lemma read_line_text k s :
  0 <= k -> read_line (bytes (fmt_04 k +:+ ": " +:+ s)) = read_insn (bytes s).
Proof.
  intros Hk. unfold read_line. rewrite !bytes_app. rewrite read_digits_app by by try apply index_digits.
  done.
Qed.

Lemma split_line l rest :
  Forall (fun c => c <> 10) l -> split_lines (l ++ 10 :: rest) = l :: split_lines rest.
Proof.
  induction 1 as [|c l Hc _ IH]; [done|]. cbn [app split_lines].
  rewrite (proj2 (Z.eqb_neq c 10)) by done. by rewrite IH.
Qed.

Lemma split_last l : Forall (fun c => c <> 10) l -> split_lines l = [l].
Proof.
  induction 1 as [|c l Hc _ IH]; [done|]. cbn [split_lines].
  rewrite (proj2 (Z.eqb_neq c 10)) by done. by rewrite IH.
Qed.

Lemma split_lines_join lines :
  lines <> [] -> Forall (fun l => Forall (fun c => c <> 10) (bytes l)) lines ->
  split_lines (bytes (join newline lines)) = bytes <$> lines.
Proof.
  intros Hne Hl. induction Hl as [|l lines Hl Hls IH]; [done|].
  destruct lines as [|l' lines]; [by apply split_last|].
  change (join newline (l :: l' :: lines)) with (l +:+ newline +:+ join newline (l' :: lines)).
  rewrite !bytes_app. change (bytes newline) with [10]. cbn [app].
  rewrite split_line, IH by done. done.
Qed.

(** ** Programs *)

Section programs.
  Context `{Arch} {E : Type}.

Lemma read_lines program index :
  0 <= index -> Forall (fun i => shape i /\ shown_offset i) program ->
  exists lines, format_lines (E := E) index program = Ok lines
    /\ length lines = length program
    /\ Forall (fun l => Forall (fun c => c <> 10) (bytes l)) lines
    /\ mapM read_line (bytes <$> lines) = Some program.
Proof.
  intros Hi Hp. revert index Hi. induction Hp as [|i program [Hs Ho] _ IH]; intros index Hi.
  { exists []. by split_and!. }
  destruct (read_fmt (E := E) i Hs Ho) as (s & Hfmt & Hread & Hline).
  destruct (IH (index + 1)) as (lines & Hls & Hlen & Hlines & Hm); [lia|].
  exists ((fmt_04 index +:+ ": " +:+ s)%string :: lines). cbn [format_lines].
  rewrite Hfmt, Ok_bind, Hls. split_and!; [done|by cbn; f_equal| |].
  - constructor; [|done]. rewrite !bytes_app. apply Forall_app_2; [by apply digits_line, index_digits|].
    apply Forall_app_2; [by repeat constructor|done].
  - rewrite fmap_cons. cbn [mapM]. rewrite read_line_text by done. rewrite Hread. cbn. by rewrite Hm.
Qed.

(** C18. The listing of a compiled program exists and can be read back: [read_listing]
    returns the program, instruction for instruction.  So the listing of a program
    determines it, and different compiled programs have different listings. *)
Theorem listing_roundtrip program :
  compiled program ->
  exists text, format_program (E := E) program = Ok text
    /\ read_listing (bytes text) = Some program.
Proof.
  intros Hc. destruct (compiled_shape _ Hc) as [Hs Hl].
  assert (Hp : Forall (fun i => shape i /\ shown_offset i) program).
  { apply Forall_and. split.
    - apply compiled_typed, program_typed_Forall in Hc. eapply Forall_impl; [exact Hc|].
      apply typed_shape.
    - eapply Forall_impl; [by apply compiled_offsets|]. unfold shown_offset. intros i Hi Hr.
      specialize (Hi Hr). lia. }
  destruct (read_lines program 0 ltac:(lia) Hp) as (lines & Hls & Hlen & Hlines & Hm).
  destruct program as [|i program]; [done|]. exists (join newline lines).
  unfold format_program. rewrite Hls. split; [done|]. unfold read_listing.
  rewrite split_lines_join; [done| |done]. by destruct lines.
Qed.
End programs.

(** ** Witnesses *)

Lemma listing_roundtrip_witness :
  exists text, format_program (H := arch64_debug) (E := Empty_set) (literal_program (bytes "AZ"))
    = Ok text /\ read_listing (bytes text) = Some (literal_program (bytes "AZ")).
Proof.
  apply (listing_roundtrip (H := arch64_debug)).
  apply (compiled_literal (H := arch64_debug) _ (bytes "AZ")); [apply bytes_is_byte|reflexivity].
Defined.

(** Why only compiled programs: the offset of [goto -32768] in a release build is
    not the one that was rendered. *)
Example far_jump_is_lost :
  exists text, format_program (H := arch64_release) (E := Empty_set) [jmp_imm BPF_JA R0 0 32767]
    = Ok text /\ read_listing (bytes text) = Some [jmp_imm BPF_JA R0 0 (-32769)].
Proof. eexists. split; [vm_compute; reflexivity|vm_compute; reflexivity]. Qed.
