(* ===== verification/Testing.v ===== *)
(** * The test harness

    The macros and methods of the standard library that the tests and fuzz targets
    of the crate are written with: a failed assertion and an [unwrap] of an error are
    panics, and a test passes when it returns [Ok].  The structural check that the
    unit tests and the fuzz target repeat is here too. *)

From S2P Require Import Prelude Assembler Verify Codegen.

(** [assert!]. *)
Definition assert {E} (b : bool) : res E unit := if b then Ok () else Panic.

(** [assert_eq!]. *)
Definition assert_eq {E A} `{EqDecision A} (a b : A) : res E unit := assert (bool_decide (a = b)).

(** [Result::unwrap] and [Option::unwrap]. *)
Definition unwrap {E F A} (r : res E A) : res F A :=
  match r with
  | Ok a => Ok a
  | Err _ | Panic => Panic
  | OutOfFuel => OutOfFuel
  end.

Definition unwrap_some {E A} (o : option A) : res E A :=
  match o with Some a => Ok a | None => Panic end.

(** [Result::unwrap_err]. *)
Definition unwrap_err {E F A} (r : res E A) : res F E :=
  match r with
  | Err e => Ok e
  | Ok _ | Panic => Panic
  | OutOfFuel => OutOfFuel
  end.

(** [matches!(r, Err(p))] for a pattern [p] without variables. *)
Definition is_err {E A} `{EqDecision E} (e : E) (r : res E A) : res E bool :=
  match r with
  | Ok _ => Ok false
  | Err e' => Ok (bool_decide (e' = e))
  | Panic => Panic
  | OutOfFuel => OutOfFuel
  end.

(** [for x in l { body }]. *)
Fixpoint for_each {E A} (l : list A) (body : A -> res E unit) : res E unit :=
  match l with
  | [] => Ok ()
  | x :: rest => _ ← body x; for_each rest body
  end.

(** [for (idx, x) in l.iter().enumerate()], from [idx] on. *)
Fixpoint for_enumerate {E A} (idx : Z) (l : list A) (body : Z -> A -> res E unit) : res E unit :=
  match l with
  | [] => Ok ()
  | x :: rest => _ ← body idx x; for_enumerate (idx + 1) rest body
  end.

(** [l.iter().filter(p).count()]. *)
Definition filter_count {A} (p : A -> bool) (l : list A) : Z := vec_len (List.filter p l).

(** [vec![x; n]]. *)
Definition vec_repeat {A} (x : A) (n : Z) : list A := replicate (Z.to_nat n) x.

Lemma assert_true {E} b : b = true -> assert (E := E) b = Ok ().
Proof. by intros ->. Qed.

Lemma vec_len_repeat {A} (x : A) n : 0 <= n -> vec_len (vec_repeat x n) = n.
Proof. intros. unfold vec_len, vec_repeat. rewrite length_replicate. lia. Qed.

(** A loop whose rounds all pass. *)
Lemma for_each_passes {E A} (l : list A) (body : A -> res E unit) :
  Forall (fun x => body x = Ok ()) l -> for_each l body = Ok ().
Proof. induction 1 as [|x l Hx _ IH]; [done|]. cbn [for_each]. by rewrite Hx. Qed.

(** ** The structural check

    [assert_jump_offsets_are_valid] of src/src/compiler/mod.rs, in [isize] arithmetic. *)

Section jumps.
  Context `{Arch} {E : Type}.

Definition isize_add (a b : Z) : res E Z := s_arith usize_bits (a + b).

(** The body of the loop over the instructions. *)
Definition assert_jump (program_len idx : Z) (insn : BpfInsn) : res E unit :=
  let is_jump := Z.land (code insn) 0x07 =? BPF_JMP in
  if is_jump && negb (Z.land (code insn) 0xF0 =? BPF_EXIT)
     && negb (Z.land (code insn) 0xF0 =? BPF_CALL)
  then
    next ← isize_add (as_isize idx) 1;
    target ← isize_add next (off insn);
    assert ((0 <=? target) && (as_usize target <? program_len))
  else Ok ().

Definition assert_jump_offsets_are_valid (program : list BpfInsn) : res E unit :=
  for_enumerate 0 program (assert_jump (vec_len program)).

(** On programs of a size the compilers produce the arithmetic is exact: the check is
    the predicate [jump_offsets_are_valid] of the theorems. *)
Lemma assert_jumps_from len idx program :
  0 <= idx -> idx + vec_len program <= len -> len < 2 ^ 30 ->
  Forall (fun i => in_s 16 (off i) = true) program ->
  for_enumerate idx program (assert_jump len) = assert (jump_targets_valid_from len idx program).
Proof.
  intros Hi Hl Hb Hw. revert idx Hi Hl.
  induction Hw as [|i program Hw _ IH]; intros idx Hi Hl; [done|].
  rewrite vec_len_cons in Hl. pose proof (vec_len_nonneg program). unfold in_s in Hw.
  pose proof isize_pow_ge. pose proof usize_pow_ge.
  cbn [for_enumerate jump_targets_valid_from]. rewrite IH by lia. clear IH.
  unfold assert_jump at 1, jump_target_valid. destruct (_ && _ && _); [|done].
  rewrite as_isize_small by lia. unfold isize_add. rewrite !s_arith_ok by lia.
  rewrite Ok_bind, s_arith_ok, Ok_bind by lia. unfold assert.
  destruct (Z.leb_spec 0 (idx + 1 + off i)); [|done]. rewrite as_usize_small by lia. cbn [andb].
  by destruct (_ <? len).
Qed.

Lemma assert_jump_offsets_eq program :
  vec_len program < 2 ^ 30 -> Forall (fun i => in_s 16 (off i) = true) program ->
  assert_jump_offsets_are_valid program = assert (jump_offsets_are_valid program).
Proof. intros. apply assert_jumps_from; (done || lia). Qed.
End jumps.
