(* ===== verification/Fuzz.v ===== *)
(** * Fuzz targets and benchmarks

    The two fuzz targets (src/fuzz/fuzz_targets/fuzz_compiler.rs and
    fuzz_literal_compile.rs) as functions of the fuzzer's input, and the two
    benchmarks of src/benches/compile_bench.rs for any number of iterations.  A crash of a target is a panic
    of its model; the theorem excludes it for every input. *)

From S2P Require Import Prelude Assembler Machine Verify Codegen Compare LiteralSearch.
From S2P Require Import CharClass Alternation Compiled Testing.

Section targets.
  Context `{Arch} {E : Type}.

(** The loop of the target has the literal opcodes where the unit tests have names. *)
Definition fuzz_jump (prog_len idx : Z) (insn : BpfInsn) : res E unit :=
  let is_jump := Z.land (code insn) 0x07 =? 0x05 in
  let is_exit := Z.land (code insn) 0xF0 =? 0x90 in
  let is_call := Z.land (code insn) 0xF0 =? 0x80 in
  if is_jump && negb is_exit && negb is_call then
    next ← isize_add (as_isize idx) 1;
    target ← isize_add next (off insn);
    assert ((0 <=? target) && (as_usize target <? prog_len))
  else Ok ().

(** The assertions on a compiled program. *)
Definition fuzz_oracle (prog : list BpfInsn) : res E unit :=
  _ ← assert (negb (is_empty prog));
  last ← unwrap_some (last prog);
  _ ← assert (Z.land (code last) 0xF0 =? 0x90);
  for_enumerate 0 prog (fuzz_jump (vec_len prog)).

Definition fuzz_compiler (data : list Z) : res E unit :=
  if (MAX_BPF_PATTERN_LEN <? vec_len data) || is_empty data then Ok ()
  else
    match compile_literal_search data with
    | Ok prog => fuzz_oracle prog
    | Err _ => Ok ()
    | Panic => Panic
    | OutOfFuel => OutOfFuel
    end.

Definition fuzz_literal_compile (data : list Z) : res E unit :=
  match compile_literal_search data with
  | Ok _ | Err _ => Ok ()
  | Panic => Panic
  | OutOfFuel => OutOfFuel
  end.

(** The oracle accepts exactly the programs of good shape. *)
Lemma fuzz_oracle_eq prog :
  vec_len prog < 2 ^ 30 -> Forall (fun i => in_s 16 (off i) = true) prog ->
  fuzz_oracle prog = assert (program_shape_ok prog).
Proof.
  intros Hl Hw. unfold fuzz_oracle, program_shape_ok.
  destruct (is_empty prog); [done|]. destruct (last prog) as [i|]; [|done].
  cbn [negb assert mbind res_bind unwrap_some andb].
  change 0x90 with BPF_EXIT. destruct (Z.land _ _ =? _); [|done]. cbn [assert andb mbind res_bind].
  by apply assert_jump_offsets_eq.
Qed.

Lemma program_typed_offsets prog :
  program_typed prog = true -> Forall (fun i => in_s 16 (off i) = true) prog.
Proof.
  intros Ht. eapply Forall_impl; [by apply program_typed_Forall|]. intros i Hi. cbn beta in Hi.
  unfold insn_typed, insn_wf in Hi. rewrite !andb_true_iff in Hi. tauto.
Qed.

(** C38. No input crashes a fuzz target.  Whatever bytes the fuzzer supplies, the assertions
    of [fuzz_compiler] hold of the compiled program; and [fuzz_literal_compile], which
    calls the compiler on inputs of any length, returns while the instruction count of
    the input fits [usize]. *)
Theorem fuzz_targets_never_panic data :
  Forall is_byte data ->
  fuzz_compiler data = Ok ()
  /\ (14 + 2 * vec_len data <= usize_max -> fuzz_literal_compile data = Ok ()).
Proof.
  intros Hb. unfold fuzz_compiler, fuzz_literal_compile.
  destruct (Z.ltb_spec MAX_BPF_PATTERN_LEN (vec_len data)) as [Hl|Hl].
  - split; [done|]. intros Hfit. by rewrite compile_literal_search_refused.
  - cbn [orb]. rewrite compile_literal_search_program by done. split; [|done].
    destruct (is_empty data); [done|].
    rewrite fuzz_oracle_eq; [by rewrite literal_program_shape| |].
    + rewrite literal_program_len. unfold MAX_BPF_PATTERN_LEN in Hl. destruct (_ =? 0); lia.
    + by apply program_typed_offsets, literal_program_typed.
Qed.

(** ** Benchmark inputs *)

Definition usize_to_u8 (value : Z) : Z := if value <=? 255 then value else 0.

(** [(0..len).map(f).collect()]. *)
Fixpoint map_range (f : Z -> res E Z) (start : Z) (n : nat) : res E (list Z) :=
  match n with
  | O => Ok []
  | S n => b ← f start; rest ← map_range f (start + 1) n; Ok (b :: rest)
  end.

Definition ascii_pattern (len : Z) : res E (list Z) :=
  map_range (fun index => u_arith 8 (chr "a" + usize_to_u8 (index mod 26))) 0 (Z.to_nat len).

Definition binary_pattern (len : Z) : res E (list Z) :=
  map_range (fun index =>
    product ← usize_mul index 37;
    sum ← usize_add product 11;
    Ok (usize_to_u8 (sum mod 251))) 0 (Z.to_nat len).

Lemma map_range_ok f g start n :
  (forall i, start <= i < start + Z.of_nat n -> f i = Ok (g i)) ->
  map_range f start n = Ok (g <$> seqZ start (Z.of_nat n)).
Proof.
  revert start. induction n as [|n IH]; intros start Hf; [done|].
  cbn [map_range]. rewrite Hf, Ok_bind by lia. rewrite IH by (intros; apply Hf; lia).
  rewrite Ok_bind, Nat2Z.inj_succ, (seqZ_cons start) by lia. cbn. rewrite Z.pred_succ. feq.
Qed.

(** The bytes of the benchmark patterns, without the width of the arithmetic. *)
Definition ascii_bytes (len : Z) : list Z := (fun i => 97 + i mod 26) <$> seqZ 0 len.
Definition binary_bytes (len : Z) : list Z := (fun i => (i * 37 + 11) mod 251) <$> seqZ 0 len.

(** The benchmark patterns exist and are as long as asked, without overflow; so every
    size the benchmark uses is compiled, and not refused. *)
Lemma bench_patterns len :
  0 <= len <= MAX_BPF_PATTERN_LEN ->
  (ascii_pattern len = Ok (ascii_bytes len) /\ binary_pattern len = Ok (binary_bytes len))
  /\ compile_literal_search (ascii_bytes len) = Ok (literal_program (ascii_bytes len))
  /\ compile_literal_search (binary_bytes len) = Ok (literal_program (binary_bytes len)).
Proof.
  unfold MAX_BPF_PATTERN_LEN. intros Hl. split.
  - unfold ascii_pattern, binary_pattern, ascii_bytes, binary_bytes.
    replace (seqZ 0 len) with (seqZ 0 (Z.of_nat (Z.to_nat len))) by (f_equal; lia).
    split; apply map_range_ok; intros i Hi; unfold usize_to_u8.
    + rewrite (proj2 (Z.leb_le _ _)) by dlia. change (chr "a") with 97.
      apply u_arith_ok. dlia.
    + rewrite usize_mul_small, Ok_bind, usize_add_small, Ok_bind by lia.
      by rewrite (proj2 (Z.leb_le _ _)) by dlia.
  - split; apply compile_literal_search_program; unfold vec_len, ascii_bytes, binary_bytes;
      rewrite length_fmap, length_seqZ; unfold MAX_BPF_PATTERN_LEN; lia.
Qed.

(** The two benchmarks.  [bench_with_input] calls its closure with the input, and
    [Bencher::iter] runs the closure in it as often as the measurement takes. *)
Definition bench_compile (pattern_of : Z -> res E (list Z)) (iterations : nat) : res E unit :=
  for_each [4; 16; 64] (fun size =>
    pattern ← pattern_of size;
    for_each (seq 0 iterations) (fun _ => fuzz_literal_compile pattern)).

Definition bench_compile_ascii : nat -> res E unit := bench_compile ascii_pattern.
Definition bench_compile_binary : nat -> res E unit := bench_compile binary_pattern.

(** However long they are measured, the benchmarks run to their end. *)
Lemma benchmarks_run iterations :
  bench_compile_ascii iterations = Ok () /\ bench_compile_binary iterations = Ok ().
Proof.
  assert (Hsize : Forall (fun size => 0 <= size <= MAX_BPF_PATTERN_LEN) [4; 16; 64])
    by by repeat apply Forall_cons_2; [..|apply Forall_nil].
  split; apply for_each_passes; (eapply Forall_impl; [exact Hsize|]); intros size Hs;
    destruct (bench_patterns size Hs) as [[Ha Hb] [Hca Hcb]];
    rewrite ?Ha, ?Hb, Ok_bind; apply for_each_passes, Forall_true; intros _;
    unfold fuzz_literal_compile; by rewrite ?Hca, ?Hcb.
Qed.
End targets.

(** ** Witnesses *)

Lemma fuzz_targets_never_panic_witness :
  fuzz_compiler (H := arch64_debug) (E := Empty_set) (bytes "password") = Ok ()
  /\ fuzz_literal_compile (H := arch64_debug) (E := Empty_set) (bytes "password") = Ok ().
Proof.
  destruct (fuzz_targets_never_panic (H := arch64_debug) (E := Empty_set) (bytes "password"))
    as [Ho Hl]; [apply bytes_is_byte|]. split; [exact Ho|]. apply Hl. vm_compute. discriminate.
Defined.

(** The oracle is not vacuous: it crashes on an empty program, on one that does not end
    with [exit] and on a jump out of the program. *)
Example fuzz_oracle_rejects :
  map (fuzz_oracle (H := arch64_debug) (E := Empty_set))
    [[]; [alu64_imm BPF_MOV R0 1]; [jmp_imm BPF_JA R0 0 1; exit]; [jmp_imm BPF_JA R0 0 (-2); exit];
     [jmp_imm BPF_JA R0 0 (-1); exit]]
  = [Panic; Panic; Panic; Panic; Ok ()].
Proof. vm_compute. reflexivity. Qed.
