(* ===== verification/Os.v ===== *)
(** * Calls to the operating system

    What the loader shares: [std::io::Error] with its kinds, the monad of code that
    calls the operating system and can fail, and the state every system call
    reports its failure through.  The operating system is a parameter: a type [os]
    of states (of the kernel and of the process's resources) with the error number
    left by the last call ([Os]).  Each component declares the calls it makes in a
    class of its own. *)

From S2P Require Import Prelude Str.

(** ** Errors *)

(** The kinds of [std::io::ErrorKind] that Linux error numbers have, and the ones
    the crate constructs. *)
Inductive ErrorKind :=
| NotFound | PermissionDenied | ConnectionRefused | ConnectionReset | HostUnreachable
| NetworkUnreachable | ConnectionAborted | NotConnected | AddrInUse | AddrNotAvailable
| NetworkDown | BrokenPipe | AlreadyExists | WouldBlock | NotADirectory | IsADirectory
| DirectoryNotEmpty | ReadOnlyFilesystem | FilesystemLoop | StaleNetworkFileHandle
| InvalidInput | InvalidData | TimedOut | StorageFull | NotSeekable | QuotaExceeded
| FileTooLarge | ResourceBusy | ExecutableFileBusy | Deadlock | CrossesDevices | TooManyLinks
| InvalidFilename | ArgumentListTooLong | Interrupted | Unsupported | OutOfMemory | InProgress
| Uncategorized | Other.

#[export] Instance ErrorKind_eq_dec : EqDecision ErrorKind.
Proof. solve_decision. Defined.

Definition EINTR : Z := 4.

(** [decode_error_kind] of the standard library, with the generic Linux numbers. *)
Definition decode_error_kind (errno : Z) : ErrorKind :=
  match errno with
  | 1 | 13 => PermissionDenied
  | 2 => NotFound
  | 4 => Interrupted
  | 7 => ArgumentListTooLong
  | 11 => WouldBlock
  | 12 => OutOfMemory
  | 16 => ResourceBusy
  | 17 => AlreadyExists
  | 18 => CrossesDevices
  | 20 => NotADirectory
  | 21 => IsADirectory
  | 22 => InvalidInput
  | 26 => ExecutableFileBusy
  | 27 => FileTooLarge
  | 28 => StorageFull
  | 29 => NotSeekable
  | 30 => ReadOnlyFilesystem
  | 31 => TooManyLinks
  | 32 => BrokenPipe
  | 35 => Deadlock
  | 36 => InvalidFilename
  | 38 | 95 => Unsupported
  | 39 => DirectoryNotEmpty
  | 40 => FilesystemLoop
  | 98 => AddrInUse
  | 99 => AddrNotAvailable
  | 100 => NetworkDown
  | 101 => NetworkUnreachable
  | 103 => ConnectionAborted
  | 104 => ConnectionReset
  | 107 => NotConnected
  | 110 => TimedOut
  | 111 => ConnectionRefused
  | 113 => HostUnreachable
  | 115 => InProgress
  | 116 => StaleNetworkFileHandle
  | 122 => QuotaExceeded
  | _ => Uncategorized
  end.

(** [std::io::Error]: [last_os_error] and [Error::new]. *)
Inductive IoError :=
| OsError (errno : Z)
| CustomError (kind : ErrorKind) (message : str).

Definition kind (e : IoError) : ErrorKind :=
  match e with OsError n => decode_error_kind n | CustomError k _ => k end.

(** [err.kind() == ErrorKind::Interrupted] singles out one error number. *)
Lemma interrupted_iff n :
  decode_error_kind n = Interrupted <-> n = EINTR.
Proof.
  split; [|by intros ->]. unfold decode_error_kind.
  repeat match goal with |- context [match ?p with _ => _ end] => destruct p; try done end.
Qed.

(** ** Code that calls the operating system *)

Definition io (E os A : Type) : Type := os -> res E A * os.

#[export] Instance io_ret E os : MRet (io E os) := fun A a k => (Ok a, k).

#[export] Instance io_bind E os : MBind (io E os) := fun A B f m k =>
  match m k with
  | (Ok a, k) => f a k
  | (Err e, k) => (Err e, k)
  | (Panic, k) => (Panic, k)
  | (OutOfFuel, k) => (OutOfFuel, k)
  end.

(** [return Err(e)]. *)
Definition throw {E os A} (e : E) : io E os A := fun k => (Err e, k).

(** A pure computation that can fail or panic. *)
Definition lift {E os A} (r : res E A) : io E os A := fun k => (r, k).

(** A call to the operating system. *)
Definition syscall {E os A} (call : os -> A * os) : io E os A := fun k =>
  let '(a, k) := call k in (Ok a, k).

(** The conversion of errors by [?]. *)
Definition io_map_err {E F os A} (f : E -> F) (m : io E os A) : io F os A := fun k =>
  let '(r, k) := m k in (map_err f r, k).

(** A value that goes out of scope: [body] uses it, and its destructor runs
    afterwards, on every way out of [body]. *)
Definition with_drop {E os A} (drop : os -> os) (body : io E os A) : io E os A := fun k =>
  let '(r, k) := body k in (r, drop k).

(** ** The [bpf] call *)

(** The target of the build: the number libc has for the call, and the alignment of
    [u64], which is 8 or, on 32-bit x86, 4. *)
Class BpfTarget := {
  target_os_linux : bool;
  libc_SYS_bpf : Z;
  align_of_u64 : Z;
}.

(** [SYS_BPF] of src/src/loader/mod.rs. *)
Definition SYS_BPF `{BpfTarget} : Z := if target_os_linux then libc_SYS_bpf else 321.

(** Linux on x86-64. *)
Definition x86_64 : BpfTarget :=
  {| target_os_linux := true; libc_SYS_bpf := 321; align_of_u64 := 8 |}.

Definition i686 : BpfTarget :=
  {| target_os_linux := true; libc_SYS_bpf := 357; align_of_u64 := 4 |}.

(** The layout of a [repr(C)] structure: a field is a size and an alignment; each is put
    at the next multiple of its alignment, and the size of the whole is rounded up to the
    largest one. *)
Definition field : Type := Z * Z.

Definition u32_field : field := (4, 4).
Definition u64_field `{BpfTarget} : field := (8, align_of_u64).
Definition bytes_field (n : Z) : field := (n, 1).

Definition align_up (n align : Z) : Z := (n + align - 1) / align * align.

Definition size_of (fields : list field) : Z :=
  align_up (foldl (fun pos '(size, align) => align_up pos align + size) 0 fields)
    (foldl (fun m '(_, align) => Z.max m align) 1 fields).

(** The error number of the calling thread, and the text [strerror_r] has for it. *)
Class Os (os : Type) := {
  errno : os -> Z;
  strerror : Z -> str;
}.

Section errors.
  Context {os} `{Os os}.

(** [std::io::Error::last_os_error()]. *)
Definition last_os_error {E} : io E os IoError := fun k => (Ok (OsError (errno k)), k).

(** [Display] of an error. *)
Definition display (e : IoError) : str :=
  match e with
  | OsError n => strerror n ++ bytes " (os error " ++ print n ++ bytes ")"
  | CustomError _ message => message
  end.
End errors.

Lemma io_bind_Ok {E os A B} (m : io E os A) (f : A -> io E os B) k b k2 :
  (m ≫= f) k = (Ok b, k2) <-> exists a k1, m k = (Ok a, k1) /\ f a k1 = (Ok b, k2).
Proof.
  unfold mbind, io_bind. destruct (m k) as [[a| | |] k1]; split;
    try (intros (? & ? & [= <- <-] & ?)); try done; eauto; by intros (? & ? & ? & _).
Qed.

(** Running a bind whose first part is known. *)
Lemma io_bind_run {E os A B} (m : io E os A) (f : A -> io E os B) k a k1 :
  m k = (Ok a, k1) -> (m ≫= f) k = f a k1.
Proof. unfold mbind, io_bind. by intros ->. Qed.

Lemma io_bind_Err {E os A B} (m : io E os A) (f : A -> io E os B) k e k1 :
  m k = (Err e, k1) -> (m ≫= f) k = (Err e, k1).
Proof. unfold mbind, io_bind. by intros ->. Qed.

Lemma io_map_err_run {E F os A} (f : E -> F) (m : io E os A) k r k1 :
  m k = (r, k1) -> io_map_err f m k = (map_err f r, k1).
Proof. unfold io_map_err. by intros ->. Qed.
