(* ===== verification/CoreDetect.v ===== *)
(** * Capability detection (src/src/loader/core_detect.rs)

    Reading the kernel version out of [/proc/sys/kernel/osrelease], the feature
    gates built on it, the diagnostic summary, and the warning that is printed at
    most once per process.

    The host is a parameter ([host]): the content of the file or the error of
    reading it, whether the BTF file exists, and the effective user id; whether the
    crate is built for Linux is the [BpfTarget].  The state
    of the process ([process]) is the [WARNED] flag and what was printed.  The
    theorems give the versions that are read from each release string, the
    behaviour of the gates on every host, and the count of warnings over any
    sequence of calls. *)

From S2P Require Import Prelude Str Os.

(** ** Splitting and parsing *)

(** [str::split] with a predicate: the pieces between the matching characters,
    empty pieces included; there is always at least one. *)
Fixpoint split (sep : Z -> bool) (s : str) : str * list str :=
  match s with
  | [] => ([], [])
  | c :: rest =>
      let '(piece, pieces) := split sep rest in
      if sep c then ([], piece :: pieces) else (c :: piece, pieces)
  end.

(** [<u32 as FromStr>::from_str], [.ok()]. *)
Fixpoint parse_u32_digits (acc : Z) (s : str) : option Z :=
  match s with
  | [] => Some acc
  | c :: rest =>
      if is_ascii_digit c then
        let acc := acc * 10 in
        if in_u 32 acc then
          let acc := acc + (c - 48) in
          if in_u 32 acc then parse_u32_digits acc rest else None
        else None
      else None
  end.

Definition parse_u32 (s : str) : option Z :=
  match s with
  | [] => None
  | c :: rest =>
      if (c =? 43) && negb (bool_decide (rest = [])) then parse_u32_digits 0 rest
      else parse_u32_digits 0 s
  end.

(** ** The version *)

Definition version : Type := Z * Z * Z.

(** [Iterator::next] on what is left of the pieces. *)
Definition next (parts : list str) : option str * list str :=
  match parts with [] => (None, []) | p :: parts => (Some p, parts) end.

(** [.map_or(Some(0), |s| s.parse().ok())]. *)
Definition parse_or_zero (part : option str) : option Z :=
  match part with None => Some 0 | Some s => parse_u32 s end.

Definition parse_kernel_release (trimmed : str) : option version :=
  let '(first, rest) := split (fun c => negb (is_ascii_digit c)) trimmed in
  let parts := first :: rest in
  let '(p, parts) := next parts in
  major ← p ≫= parse_u32;
  let '(p, parts) := next parts in
  minor ← parse_or_zero p;
  let '(p, _) := next parts in
  patch ← parse_or_zero p;
  Some (major, minor, patch).

(** [>=] on tuples is lexicographic. *)
Definition version_ge (v w : version) : bool :=
  let '(a, b, c) := v in
  let '(x, y, z) := w in
  (x <? a) || ((a =? x) && ((y <? b) || ((b =? y) && (z <=? c)))).

(** ** The host and the process *)

Record host := mkHost {
  osrelease : str + str;   (* the content of the file, or the text of the error *)
  vmlinux_exists : bool;   (* [Path::new("/sys/kernel/btf/vmlinux").exists()] *)
  geteuid : Z;
}.

(** [stderr] has the lines printed. *)
Record process := mkProcess {
  WARNED : bool;
  stderr : list str;
}.

Definition fresh_process : process := mkProcess false [].

(** The text of the warning. *)
Definition warning (reason : str) : str :=
  bytes "ebpfkit: could not determine kernel version (" ++ reason
  ++ bytes "); treating all version-gated eBPF features (ring buffer, fentry, ...) as UNAVAILABLE".

(** [WARNED.call_once] runs its closure on the first call only. *)
Definition warn_kernel_undetected (reason : str) (p : process) : process :=
  if WARNED p then p else mkProcess true (stderr p ++ [warning reason]).

(** The two reasons of a warning. *)
Definition unparseable `{Unicode} (trimmed : str) : str :=
  bytes "unparseable major version in osrelease " ++ debug_str trimmed.

Definition cannot_read (error : str) : str :=
  bytes "cannot read /proc/sys/kernel/osrelease: " ++ error.

Section host.
  Context `{Unicode} `{BpfTarget} (h : host).

Definition kernel_version (p : process) : version * process :=
  if target_os_linux then
    match osrelease h with
    | inl release =>
        match parse_kernel_release (trim release) with
        | Some version => (version, p)
        | None => ((0, 0, 0), warn_kernel_undetected (unparseable (trim release)) p)
        end
    | inr error => ((0, 0, 0), warn_kernel_undetected (cannot_read error) p)
    end
  else ((0, 0, 0), p).

Definition has_btf : bool := vmlinux_exists h.

Definition has_ringbuf (p : process) : bool * process :=
  let '(v, p) := kernel_version p in (version_ge v (5, 8, 0), p).

Definition has_fentry (p : process) : bool * process :=
  let '(v, p) := kernel_version p in (version_ge v (5, 5, 0), p).

Definition fmt_bool (b : bool) : string := if b then "true" else "false".

Definition diagnostics (p : process) : list string * process :=
  let diags := [] in
  let '(version, p) := kernel_version p in
  let '(a, b, c) := version in
  let diags := diags ++ [("kernel: " +:+ pretty a +:+ "." +:+ pretty b +:+ "." +:+ pretty c)%string] in
  let diags := diags ++ [("BTF available: " +:+ fmt_bool has_btf)%string] in
  let '(fentry, p) := has_fentry p in
  let diags := diags ++ [("fentry support: " +:+ fmt_bool fentry)%string] in
  let '(ringbuf, p) := has_ringbuf p in
  let diags := diags ++ [("ring buffer support: " +:+ fmt_bool ringbuf)%string] in
  let diags :=
    if target_os_linux then
      let euid := geteuid h in
      diags ++ [("running as root: " +:+ fmt_bool (euid =? 0)%Z)%string]
    else diags in
  (diags, p).
End host.

(** The calls a program can make, and a run of a sequence of them, each on the
    host as it is at that time. *)
Inductive call := HasRingbuf | HasFentry | Diagnostics.

Definition run_call `{Unicode} `{BpfTarget} (c : call) (h : host) (p : process) : process :=
  match c with
  | HasRingbuf => (has_ringbuf h p).2
  | HasFentry => (has_fentry h p).2
  | Diagnostics => (diagnostics h p).2
  end.

Definition run_calls `{Unicode} `{BpfTarget} (cs : list (call * host)) (p : process) : process :=
  foldl (fun p '(c, h) => run_call c h p) p cs.

(** ** Numbers *)

(** [ds] is a decimal numeral of the [u32] value [n]. *)
Definition numeral (ds : str) (n : Z) : Prop :=
  ds <> [] /\ digits ds /\ digits_value 0 ds = n /\ n < 2 ^ 32.

Lemma parse_u32_digits_value acc ds : 0 <= acc < 2 ^ 32 -> digits ds ->
  parse_u32_digits acc ds =
  if digits_value acc ds <? 2 ^ 32 then Some (digits_value acc ds) else None.
Proof.
  intros Ha Hds. revert acc Ha. induction Hds as [|c ds Hc Hds IH]; intros acc Ha.
  { cbn. by rewrite (proj2 (Z.ltb_lt _ _)) by lia. }
  cbn [parse_u32_digits]. rewrite Hc. unfold is_ascii_digit in Hc.
  change (digits_value acc (c :: ds)) with (digits_value (acc * 10 + (c - 48)) ds).
  pose proof (digits_value_ge (acc * 10 + (c - 48)) ds ltac:(lia) Hds).
  cbv zeta. unfold in_u.
  destruct (Z.ltb_spec (acc * 10) (2 ^ 32)), (Z.ltb_spec (acc * 10 + (c - 48)) (2 ^ 32)); try lia.
  - rewrite !(proj2 (Z.leb_le _ _)) by lia. cbn [andb]. apply IH. lia.
  - rewrite !(proj2 (Z.leb_le _ _)) by lia. cbn [andb]. by rewrite (proj2 (Z.ltb_ge _ _)) by lia.
  - rewrite andb_false_r. by rewrite (proj2 (Z.ltb_ge _ _)) by lia.
Qed.

Lemma parse_u32_numeral ds n : digits ds -> parse_u32 ds = Some n <-> numeral ds n.
Proof.
  intros Hds. unfold numeral. destruct ds as [|c ds]; [split; [done|by intros []]|].
  unfold parse_u32. inversion_clear Hds as [|? ? Hc Hds'].
  replace (c =? 43) with false by (unfold is_ascii_digit in Hc; lia). cbn [andb].
  rewrite parse_u32_digits_value by (done || by constructor).
  destruct (Z.ltb_spec (digits_value 0 (c :: ds)) (2 ^ 32)); split.
  - intros [= <-]. split_and!; [done|by constructor|done|done].
  - by intros (_ & _ & -> & _).
  - done.
  - intros (_ & _ & <- & ?). lia.
Qed.

(** ** Splitting *)

Abbreviation split_release := (split (fun c => negb (is_ascii_digit c))).

Lemma split_digits ds : digits ds -> split_release ds = (ds, []).
Proof. induction 1 as [|c ds Hc _ IH]; [done|]. cbn [split]. by rewrite IH, Hc. Qed.

Lemma split_digits_sep ds x rest : digits ds -> is_ascii_digit x = false ->
  split_release (ds ++ x :: rest)
  = (ds, (split_release rest).1 :: (split_release rest).2).
Proof.
  intros Hds Hx. induction Hds as [|c ds Hc _ IH]; cbn [app split].
  - destruct (split _ rest). by rewrite Hx.
  - by rewrite IH, Hc.
Qed.

(** Every string is a run of digits, followed by nothing or by a separator. *)
Lemma digits_span s : exists ds, digits ds /\
  (s = ds \/ exists x rest, s = ds ++ x :: rest /\ is_ascii_digit x = false).
Proof.
  induction s as [|c s (ds & Hds & IH)]; [exists []; split; [constructor|by left]|].
  destruct (is_ascii_digit c) eqn:Hc.
  - exists (c :: ds). split; [by constructor|]. destruct IH as [->|(x & rest & -> & Hx)]; eauto.
  - exists []. split; [constructor|]. right. by exists c, s.
Qed.

(** ** The grammar of release strings *)

(** [major], then optionally [minor] and [patch], each after one separator, then
    anything after another separator. *)
Inductive release : str -> version -> Prop :=
| release_1 da a : numeral da a -> release da (a, 0, 0)
| release_2 da a x db b :
    numeral da a -> is_ascii_digit x = false -> numeral db b ->
    release (da ++ x :: db) (a, b, 0)
| release_3 da a x db b y dc c :
    numeral da a -> is_ascii_digit x = false -> numeral db b ->
    is_ascii_digit y = false -> numeral dc c ->
    release (da ++ x :: db ++ y :: dc) (a, b, c)
| release_rest da a x db b y dc c z rest :
    numeral da a -> is_ascii_digit x = false -> numeral db b ->
    is_ascii_digit y = false -> numeral dc c -> is_ascii_digit z = false ->
    release (da ++ x :: db ++ y :: dc ++ z :: rest) (a, b, c).

Lemma numeral_digits ds n : numeral ds n -> digits ds.
Proof. by intros (_ & ? & _). Qed.
#[local] Hint Resolve numeral_digits : core.

Lemma numeral_parse ds n : numeral ds n -> parse_u32 ds = Some n.
Proof. intros Hn. apply parse_u32_numeral; [by eapply numeral_digits|done]. Qed.

Lemma parse_release s v : release s v -> parse_kernel_release s = Some v.
Proof.
  unfold parse_kernel_release.
  intros [da a Ha|da a x db b Ha Hx Hb|da a x db b y dc c Ha Hx Hb Hy Hc
         |da a x db b y dc c z rest Ha Hx Hb Hy Hc Hz];
    repeat (first [rewrite split_digits by eauto | rewrite split_digits_sep by eauto];
            cbn [fst snd]);
    cbn [next mbind option_bind parse_or_zero];
    rewrite ?(numeral_parse da a), ?(numeral_parse db b), ?(numeral_parse dc c) by done; done.
Qed.

Lemma release_parse s v : parse_kernel_release s = Some v -> release s v.
Proof.
  unfold parse_kernel_release. destruct (digits_span s) as (da & Hda & [->|(x & s' & -> & Hx)]).
  { rewrite split_digits by done. cbn [next mbind option_bind parse_or_zero].
    destruct (parse_u32 da) eqn:Ha; [|done]. cbn [mbind option_bind]. intros [= <-].
    constructor. by apply parse_u32_numeral. }
  rewrite split_digits_sep by done.
  destruct (digits_span s') as (db & Hdb & [->|(y & s'' & -> & Hy)]).
  { rewrite split_digits by done. cbn [next mbind option_bind parse_or_zero fst snd].
    destruct (parse_u32 da) eqn:Ha; [|done]. cbn [mbind option_bind].
    destruct (parse_u32 db) eqn:Hb; [|done]. cbn [mbind option_bind]. intros [= <-].
    constructor; [by apply parse_u32_numeral|done|by apply parse_u32_numeral]. }
  rewrite split_digits_sep by done.
  destruct (digits_span s'') as (dc & Hdc & Hrest).
  assert (Hs : (split_release s'').1 = dc).
  { destruct Hrest as [->|(z & r & -> & Hz)];
      [by rewrite split_digits|by rewrite split_digits_sep]. }
  cbn [next mbind option_bind parse_or_zero fst snd]. rewrite Hs.
  destruct (parse_u32 da) eqn:Ha; [|done]. cbn [mbind option_bind].
  destruct (parse_u32 db) eqn:Hb; [|done]. cbn [mbind option_bind].
  destruct (parse_u32 dc) eqn:Hc; [|done]. cbn [mbind option_bind]. intros [= <-].
  destruct Hrest as [->|(w & r & -> & Hw)]; constructor; try done; by apply parse_u32_numeral.
Qed.

(** ** Printed numbers *)

Lemma print_numeral n : 0 <= n < 2 ^ 32 -> numeral (print n) n.
Proof. intros Hn. destruct (print_digits n) as (? & ? & ?); [lia|]. split_and!; (done || lia). Qed.

(** ** Theorems *)

Section theorems.
  Context `{Unicode} `{BpfTarget}.

(** C28. Parsing a release string accepts exactly the grammar [release]: up to three
    non-empty decimal numerals below 2^32, one separator apart, then anything; a
    missing minor or patch number is 0, an empty or too large one is refused. *)
Theorem parse_kernel_release_spec s v : parse_kernel_release s = Some v <-> release s v.
Proof. split; [apply release_parse|apply parse_release]. Qed.

(** C29. The version the kernel prints is the version that is read: for the line
    [a.b.c<suffix>] followed by white space, in a build for Linux, where the suffix starts with a
    separator and does not end in white space, [kernel_version] is [(a, b, c)] and
    no warning is printed. *)
Theorem kernel_version_roundtrip h p a b c sep suffix ws :
  0 <= a < 2 ^ 32 -> 0 <= b < 2 ^ 32 -> 0 <= c < 2 ^ 32 ->
  is_ascii_digit sep = false -> (exists e, last (sep :: suffix) = Some e /\ is_whitespace e = false) ->
  Forall (fun c => is_whitespace c = true) ws ->
  target_os_linux = true ->
  osrelease h
  = inl ((print a ++ chr "." :: print b ++ chr "." :: print c ++ sep :: suffix) ++ ws) ->
  kernel_version h p = ((a, b, c), p).
Proof.
  intros Ha Hb Hc Hsep (e & He & Hew) Hws Hl Hos. unfold kernel_version. rewrite Hl, Hos.
  destruct (print_numeral a Ha) as (Hne & Hd & _).
  set (body := print a ++ _). assert (Ht : trim (body ++ ws) = body).
  { destruct (print a) as [|d da]; [done|]. inversion_clear Hd as [|? ? Hd0 _].
    apply (trim_matches_line is_whitespace [] body ws d e);
      [constructor|done|done|by apply digit_not_whitespace| |done].
    unfold body. by rewrite last_app_cons, app_comm_cons, last_app_cons, app_comm_cons, last_app_cons. }
  rewrite Ht. erewrite parse_release; [done|]. by apply release_rest; try apply print_numeral.
Qed.

(** The reason to warn about a host: other systems than Linux have no version either,
    but nobody is told. *)
Definition undetected (h : host) : option str :=
  if target_os_linux then
    match osrelease h with
    | inl release =>
        match parse_kernel_release (trim release) with
        | Some _ => None
        | None => Some (unparseable (trim release))
        end
    | inr error => Some (cannot_read error)
    end
  else None.

Lemma kernel_version_cases h p :
  match undetected h with
  | None =>
      if target_os_linux
      then exists r v, osrelease h = inl r /\ release (trim r) v /\ kernel_version h p = (v, p)
      else kernel_version h p = ((0, 0, 0), p)
  | Some reason => kernel_version h p = ((0, 0, 0), warn_kernel_undetected reason p)
  end.
Proof.
  unfold undetected, kernel_version. destruct target_os_linux; [|done].
  destruct (osrelease h) as [r|e]; [|done].
  destruct (parse_kernel_release (trim r)) as [v|] eqn:Hv; [|done].
  exists r, v. split_and!; [done|by apply release_parse|done].
Qed.

(** C30. The feature gates fail closed and are exact: ring buffers are reported exactly
    in a build for Linux on a host with a readable release of version 5.8 or later,
    fentry exactly for 5.5 or later, so a host with ring buffers always has fentry.  A
    host whose version is unknown has neither, and the gates never warn about the
    others. *)
Theorem feature_gates h p :
  ((has_ringbuf h p).1 = true <->
     target_os_linux = true /\ exists r a b c, osrelease h = inl r /\ release (trim r) (a, b, c)
       /\ (5 < a \/ a = 5 /\ 8 <= b))
  /\ ((has_fentry h p).1 = true <->
     target_os_linux = true /\ exists r a b c, osrelease h = inl r /\ release (trim r) (a, b, c)
       /\ (5 < a \/ a = 5 /\ 5 <= b))
  /\ ((has_ringbuf h p).1 = true -> (has_fentry h p).1 = true /\ (has_ringbuf h p).2 = p).
Proof.
  pose proof (kernel_version_cases h p) as Hk. unfold has_ringbuf, has_fentry, undetected in *.
  assert (Hpos : forall s a b c, release s (a, b, c) -> 0 <= c).
  { intros s a b c Hr. inversion Hr; subst; try lia;
      match goal with Hn : numeral ?d c |- _ => destruct Hn as (_ & ? & <- & _) end;
      by apply digits_value_ge. }
  destruct target_os_linux.
  2: { rewrite Hk. cbn. split_and!; [split; [done|by intros []]..|done]. }
  assert (Hand : forall P : Prop, true = true /\ P <-> P) by (intros P; tauto). rewrite !Hand.
  destruct (osrelease h) as [r|e].
  - destruct (parse_kernel_release (trim r)) as [v|] eqn:Hp.
    + destruct Hk as (r' & [[a b] c] & [= <-] & Hrel & ->). cbn [fst snd version_ge].
      pose proof (Hpos _ _ _ _ Hrel).
      assert (Huniq : forall a' b' c', release (trim r) (a', b', c') -> a' = a /\ b' = b).
      { intros a' b' c' H'. apply parse_release in H'. apply parse_release in Hrel.
        rewrite Hrel in H'. by injection H' as -> -> ->. }
      split_and!; [split|split|].
      * intros Hge. exists r, a, b, c. split_and!; [done|done|lia].
      * intros (r' & a' & b' & c' & [= <-] & [-> ->]%Huniq & Hge). lia.
      * intros Hge. exists r, a, b, c. split_and!; [done|done|lia].
      * intros (r' & a' & b' & c' & [= <-] & [-> ->]%Huniq & Hge). lia.
      * intros Hge. split; [lia|done].
    + rewrite Hk. cbn. split_and!; [split; [done|]|split; [done|]|done];
        intros (r' & a' & b' & c' & [= <-] & Hr%parse_release & _); congruence.
  - rewrite Hk. cbn. split_and!; [split; [done|]|split; [done|]|done];
      by intros (r' & a' & b' & c' & ? & _).
Qed.

Lemma warn_idem r p :
  WARNED p = true -> warn_kernel_undetected r p = p.
Proof. intros Hw. unfold warn_kernel_undetected. by rewrite Hw. Qed.

(** A call prints the first reason when none was printed yet, and nothing else. *)
Lemma run_call_warns c h p :
  run_call c h p =
  match undetected h with Some r => warn_kernel_undetected r p | None => p end.
Proof.
  assert (Hv : forall p, (kernel_version h p).2
    = match undetected h with Some r => warn_kernel_undetected r p | None => p end).
  { intros q. pose proof (kernel_version_cases h q) as Hk.
    destruct (undetected h); [by rewrite Hk|]. destruct target_os_linux; [|by rewrite Hk].
    by destruct Hk as (? & ? & _ & _ & ->). }
  assert (Htwice : forall r, warn_kernel_undetected r (warn_kernel_undetected r p)
    = warn_kernel_undetected r p).
  { intros r. apply warn_idem. unfold warn_kernel_undetected. by destruct (WARNED p) eqn:?. }
  destruct c; cbn [run_call]; unfold diagnostics, has_ringbuf, has_fentry;
    repeat match goal with
    | |- context [kernel_version h ?q] =>
        let Hq := fresh in pose proof (Hv q) as Hq;
        destruct (kernel_version h q) as [[[? ?] ?] ?]; cbn [snd] in Hq; subst
    end; cbn [snd]; [done|done|].
  destruct (undetected h); [by rewrite !Htwice|done].
Qed.

(** The reason of the first undetectable host of a run. *)
Fixpoint first_undetected (cs : list (call * host)) : option str :=
  match cs with
  | [] => None
  | (_, h) :: cs =>
      match undetected h with Some r => Some r | None => first_undetected cs end
  end.

Lemma run_calls_warned cs p : WARNED p = true -> run_calls cs p = p.
Proof.
  intros Hw. revert p Hw. induction cs as [|[c h] cs IH]; intros p Hw; [done|].
  cbn [run_calls foldl]. fold (run_calls cs (run_call c h p)). rewrite run_call_warns.
  destruct (undetected h); [rewrite warn_idem by done|]; by apply IH.
Qed.

(** C31. The warning is printed exactly once per process: over any sequence of feature
    queries and diagnostics, on hosts that may change between the calls, the
    process prints nothing while the version is known, one warning for the first
    host where it is not, and nothing afterwards.  Whatever the release string of
    that host is, the text is a single line without control characters: the escaped
    release cannot forge output. *)
Theorem warns_exactly_once cs :
  stderr (run_calls cs fresh_process)
  = match first_undetected cs with Some r => [warning r] | None => [] end
  /\ forall h s r, osrelease h = inl s -> Forall (fun c => 0 <= c) s -> undetected h = Some r ->
       Forall (fun c => printable_ascii c \/ 128 <= c) (warning r).
Proof.
  split.
  - induction cs as [|[c h] cs IH]; [done|]. cbn [run_calls foldl first_undetected].
    fold (run_calls cs (run_call c h fresh_process)). rewrite run_call_warns.
    destruct (undetected h) as [r|]; [|done]. by rewrite run_calls_warned.
  - intros h s r Hs Hc. unfold undetected. destruct target_os_linux; [|done]. rewrite Hs.
    destruct (parse_kernel_release (trim s)); [done|]. intros [= <-].
    assert (Hlit : forall l, Forall printable_ascii l ->
      Forall (fun c => printable_ascii c \/ 128 <= c) l).
    { intros l Hl. eapply Forall_impl; [exact Hl|]. by left. }
    unfold warning, unparseable.
    repeat apply Forall_app_2; try (apply Hlit; repeat constructor; by vm_compute).
    apply debug_str_line. by apply Forall_trim.
Qed.
End theorems.

(** ** Witnesses *)

(** Nothing beyond ASCII is shown as it is. *)
#[local] Instance ascii_only : Unicode := {| shown_as_is _ := false |}.
#[local] Existing Instance x86_64.

Definition demo_host : host :=
  mkHost (inl (bytes "5.15.137-generic" ++ [10])) true 1000.

Lemma kernel_version_roundtrip_witness :
  kernel_version demo_host fresh_process = ((5, 15, 137), fresh_process).
Proof.
  apply (kernel_version_roundtrip demo_host fresh_process 5 15 137 (chr "-") (bytes "generic") [10]);
    [lia|lia|lia|done|by exists (chr "c")|by repeat constructor|done|vm_compute; reflexivity].
Defined.

Example diagnostics_example :
  (diagnostics demo_host fresh_process).1
  = ["kernel: 5.15.137"; "BTF available: true"; "fentry support: true";
     "ring buffer support: true"; "running as root: false"]%string.
Proof. vm_compute. reflexivity. Qed.

(** The unit tests of the source, and a release whose patch number is missing
    before a suffix: it has no version. *)
Example parse_examples :
  map (fun s => parse_kernel_release (bytes s))
    ["6.1.0"; "5.15.137-generic"; "6"; "6.1"; "6.8.0-31-generic"; ""; "unknown"; "-generic";
     "99999999999.1.0"; "6.99999999999.0"; "6.abc"; "6.1.xyz"]%string
  = [Some (6, 1, 0); Some (5, 15, 137); Some (6, 0, 0); Some (6, 1, 0); Some (6, 8, 0);
     None; None; None; None; None; None; None].
Proof. vm_compute. reflexivity. Qed.

(** A release whose minor number is followed directly by a suffix has no version,
    although its major number is well formed; the host is then treated as one
    without any of the gated features, and the warning blames the major number. *)
Theorem short_release_with_suffix_rejected `{Unicode} `{BpfTarget} h p :
  target_os_linux = true ->
  osrelease h = inl (bytes "6.1-generic" ++ [10]) ->
  (has_ringbuf h p).1 = false /\ (has_fentry h p).1 = false
  /\ undetected h
     = Some (bytes "unparseable major version in osrelease " ++ [34] ++ bytes "6.1-generic" ++ [34]).
Proof.
  intros Hl Hos. unfold has_ringbuf, has_fentry, kernel_version, undetected. rewrite Hl, Hos.
  assert (Ht : trim (bytes "6.1-generic" ++ [10]) = bytes "6.1-generic") by by vm_compute.
  assert (Hp : parse_kernel_release (bytes "6.1-generic") = None) by by vm_compute.
  rewrite Ht, Hp. done.
Qed.

Lemma short_release_with_suffix_rejected_witness :
  (has_ringbuf (mkHost (inl (bytes "6.1-generic" ++ [10])) true 0) fresh_process).1 = false.
Proof. by apply short_release_with_suffix_rejected. Defined.

(** The whole text, for a release with a quote and a line break inside. *)
Example warning_text :
  stderr (has_fentry (mkHost (inl (bytes "linux" ++ [10; 34; 127] ++ bytes "6" ++ [10])) true 0)
            fresh_process).2
  = [bytes "ebpfkit: could not determine kernel version (unparseable major version in osrelease "
     ++ [34] ++ bytes "linux\n\" ++ [34] ++ bytes "\u{7f}6" ++ [34]
     ++ bytes "); treating all version-gated eBPF features (ring buffer, fentry, ...) as UNAVAILABLE"].
Proof. vm_compute. reflexivity. Qed.

Lemma warns_exactly_once_witness :
  Forall (fun c => printable_ascii c \/ 128 <= c) (warning (unparseable (bytes "linux"))).
Proof.
  apply (proj2 (warns_exactly_once []) (mkHost (inl (bytes "linux" ++ [10])) true 0)
    (bytes "linux" ++ [10])); [reflexivity|repeat constructor; by vm_compute|by vm_compute].
Defined.
