(* ===== verification/Prog.v ===== *)
(** * Loading and attaching programs (src/src/loader/prog.rs)

    [load_filter] and [attach_to_socket].  The two system calls they make are a
    parameter ([ProgSyscalls]); what bpf(2) and socket(7) document of them, and the
    theorems rely on, is the class [ProgKernel]. *)

From S2P Require Import Prelude Assembler Verify Utf8 Str Os.

Definition BPF_PROG_LOAD : Z := 5.
Definition BPF_PROG_TYPE_SOCKET_FILTER : Z := 1.
Definition MAX_BPF_INSNS : Z := 4096.
Definition SO_ATTACH_BPF : Z := 50.

(** [BpfAttrProgLoad].  The fields that are addresses ([insns], [license]) hold
    what they point to, and [log_buf] the initial content of the buffer. *)
Record BpfAttrProgLoad := mkBpfAttrProgLoad {
  prog_type : Z;
  insn_cnt : Z;
  insns : list BpfInsn;
  license : list Z;
  log_level : Z;
  log_size : Z;
  log_buf : list Z;
  kern_version : Z;
  prog_flags : Z;
  prog_name : list Z;
  prog_ifindex : Z;
  expected_attach_type : Z;
  prog_btf_fd : Z;
  func_info_rec_size : Z;
  func_info : Z;
  func_info_cnt : Z;
  line_info_rec_size : Z;
  line_info : Z;
  line_info_cnt : Z;
  attach_btf_id : Z;
}.

(** [std::mem::size_of::<BpfAttrProgLoad>()]. *)
Definition sizeof_BpfAttrProgLoad `{BpfTarget} : Z :=
  size_of (replicate 2 u32_field ++ replicate 2 u64_field ++ replicate 2 u32_field ++ [u64_field]
           ++ replicate 2 u32_field ++ [bytes_field 16] ++ replicate 4 u32_field ++ [u64_field]
           ++ replicate 2 u32_field ++ [u64_field] ++ replicate 2 u32_field).

(** There is no padding in it. *)
Example sizeof_prog_load :
  @sizeof_BpfAttrProgLoad x86_64 = 14 * 4 + 5 * 8 + 16
  /\ @sizeof_BpfAttrProgLoad i686 = 14 * 4 + 5 * 8 + 16.
Proof. by vm_compute. Qed.

(** The system calls: [syscall(SYS_BPF, cmd, &attr, size)] with the content of the
    log buffer afterwards, and [setsockopt] with the descriptor it points to. *)
Class ProgSyscalls (os : Type) := {
  prog_target :: BpfTarget;
  bpf_prog_load : Z -> Z -> BpfAttrProgLoad -> Z -> os -> (Z * list Z) * os;
  setsockopt : Z -> Z -> Z -> Z -> Z -> os -> Z * os;
  SOL_SOCKET : Z;
}.

Section prog.
  Context {os} `{Os os} `{ProgSyscalls os}.

Definition invalid_input {A} (message : str) : io IoError os A :=
  throw (CustomError InvalidInput message).

Definition load_filter (insns : list BpfInsn) : io IoError os Z :=
  if is_empty insns then
    invalid_input (bytes "BPF program is empty. Fix: provide at least one instruction.")
  else if MAX_BPF_INSNS <? vec_len insns then
    invalid_input (bytes "BPF program has " ++ print (vec_len insns)
      ++ bytes " instructions, exceeding the " ++ print MAX_BPF_INSNS
      ++ bytes "-instruction verifier limit. Fix: simplify the pattern or split into multiple programs.")
  else
    insn_cnt ← (if vec_len insns <? 2 ^ 32 then mret (vec_len insns)
                else invalid_input
                       (bytes "BPF instruction count exceeds u32. Fix: reduce program size."));
    let license := bytes "GPL" ++ [0] in
    let log_buf := replicate (Z.to_nat (16 * 1024)) 0 in
    let log_size := Z.min (vec_len log_buf) (2 ^ 32 - 1) in
    let attr := mkBpfAttrProgLoad BPF_PROG_TYPE_SOCKET_FILTER insn_cnt insns license 1 log_size
                  log_buf 0 0 (replicate 16 0) 0 0 0 0 0 0 0 0 0 0 in
    '(fd, log_buf) ← syscall (bpf_prog_load SYS_BPF BPF_PROG_LOAD attr sizeof_BpfAttrProgLoad);
    if fd <? 0 then
      raw_err ← last_os_error;
      let log := from_utf8_lossy log_buf in
      let log := trim (trim_matches (Z.eqb 0) log) in
      let log := if is_empty log then bytes "(empty)" else log in
      throw (CustomError (kind raw_err) (display raw_err ++ bytes " -- BPF verifier log: " ++ log))
    else mret (wrap_s 32 fd).

Definition attach_to_socket (prog_fd socket_fd : Z) : io IoError os () :=
  res ← syscall (setsockopt socket_fd SOL_SOCKET SO_ATTACH_BPF prog_fd 4);
  if res <? 0 then last_os_error ≫= throw else mret ().
End prog.

(** ** What the kernel documents *)

(** The view of a state the documentation speaks of: the open descriptors of the
    process, the program behind a descriptor, the filter of a socket.  A call that
    fails changes none of them.  [BPF_PROG_LOAD] reads [insn_cnt] instructions and
    returns a new descriptor; [SO_ATTACH_BPF] makes the program behind the
    descriptor the filter of the socket, which keeps its own reference to it. *)
Class ProgKernel (os : Type) `{ProgSyscalls os} := {
  open_fds : os -> gset Z;
  fd_program : os -> Z -> option (list BpfInsn);
  socket_filter : os -> Z -> option (list BpfInsn);
  load_ok k attr fd log k' :
    bpf_prog_load SYS_BPF BPF_PROG_LOAD attr sizeof_BpfAttrProgLoad k = (fd, log, k') -> 0 <= fd ->
    fd < 2 ^ 31 /\ (fd ∉ open_fds k) /\ (open_fds k' = {[fd]} ∪ open_fds k)
    /\ fd_program k' fd = Some (take (Z.to_nat (insn_cnt attr)) (insns attr))
    /\ (forall s, socket_filter k' s = socket_filter k s);
  load_err k attr fd log k' :
    bpf_prog_load SYS_BPF BPF_PROG_LOAD attr sizeof_BpfAttrProgLoad k = (fd, log, k') -> fd < 0 ->
    open_fds k' = open_fds k /\ (forall s, socket_filter k' s = socket_filter k s);
  attach_ok k s fd rc k' :
    setsockopt s SOL_SOCKET SO_ATTACH_BPF fd 4 k = (rc, k') -> 0 <= rc ->
    open_fds k' = open_fds k /\ socket_filter k' s = fd_program k fd
    /\ (forall s', s' <> s -> socket_filter k' s' = socket_filter k s');
  attach_err k s fd rc k' :
    setsockopt s SOL_SOCKET SO_ATTACH_BPF fd 4 k = (rc, k') -> rc < 0 ->
    open_fds k' = open_fds k /\ (forall s', socket_filter k' s' = socket_filter k s');
}.

(** ** Theorems *)

(** The attributes [load_filter] passes for a program. *)
Definition load_attr (program : list BpfInsn) : BpfAttrProgLoad :=
  mkBpfAttrProgLoad BPF_PROG_TYPE_SOCKET_FILTER (vec_len program) program (bytes "GPL" ++ [0]) 1
    16384 (replicate (Z.to_nat (16 * 1024)) 0) 0 0 (replicate 16 0) 0 0 0 0 0 0 0 0 0 0.

(** The text of the log in the error. *)
Definition shown_log (log_buf : list Z) : str :=
  let log := trim (trim_matches (Z.eqb 0) (from_utf8_lossy log_buf)) in
  if is_empty log then bytes "(empty)" else log.

Section theorems.
  Context {os} `{Os os} `{ProgSyscalls os}.

Lemma load_filter_run program k fd log k' :
  0 < vec_len program <= MAX_BPF_INSNS ->
  bpf_prog_load SYS_BPF BPF_PROG_LOAD (load_attr program) sizeof_BpfAttrProgLoad k = ((fd, log), k') ->
  load_filter program k =
  if fd <? 0 then
    (Err (CustomError (decode_error_kind (errno k'))
            (display (OsError (errno k')) ++ bytes " -- BPF verifier log: " ++ shown_log log)), k')
  else (Ok (wrap_s 32 fd), k').
Proof.
  unfold MAX_BPF_INSNS. intros Hlen Hk. unfold load_filter, MAX_BPF_INSNS.
  replace (is_empty program) with false
    by (destruct program; [unfold vec_len in Hlen; cbn in Hlen; lia|done]).
  rewrite (proj2 (Z.ltb_ge _ _)), (proj2 (Z.ltb_lt _ _)) by lia.
  rewrite (io_bind_run _ _ k (vec_len program) k) by done. cbv zeta.
  change (Z.min _ _) with 16384. fold (load_attr program).
  rewrite (io_bind_run _ _ k (fd, log) k') by (unfold syscall; by rewrite Hk).
  by destruct (fd <? 0).
Qed.

Lemma load_filter_refused program k :
  ~ 0 < vec_len program <= MAX_BPF_INSNS ->
  exists message, load_filter program k = (Err (CustomError InvalidInput message), k).
Proof.
  intros Hlen. unfold load_filter. pose proof (vec_len_nonneg program).
  destruct program as [|i program]; [by eexists|]. rewrite vec_len_cons in *.
  pose proof (vec_len_nonneg program). cbn [is_empty].
  rewrite (proj2 (Z.ltb_lt _ _)) by lia. by eexists.
Qed.

Context `{!ProgKernel os}.

(** A program of admissible length: the kernel has the whole of it, or nothing
    changed. *)
Lemma load_filter_loaded program k :
  0 < vec_len program <= MAX_BPF_INSNS ->
  match load_filter program k with
  | (Ok fd, k') =>
      0 <= fd < 2 ^ 31
      /\ (fd ∉ open_fds k) /\ (open_fds k' = {[fd]} ∪ open_fds k)
      /\ fd_program k' fd = Some program
      /\ (forall s, socket_filter k' s = socket_filter k s)
  | (Err e, k') =>
      open_fds k' = open_fds k /\ (forall s, socket_filter k' s = socket_filter k s)
      /\ kind e = decode_error_kind (errno k')
  | (Panic, _) | (OutOfFuel, _) => False
  end.
Proof.
  intros Hlen.
  destruct (bpf_prog_load SYS_BPF BPF_PROG_LOAD (load_attr program) sizeof_BpfAttrProgLoad k)
    as [[fd log] k'] eqn:Hk.
  rewrite (load_filter_run program k fd log k') by done.
  destruct (Z.ltb_spec fd 0).
  - destruct (load_err _ _ _ _ _ Hk) as [Hfds Hs]; [done|]. by split_and!.
  - destruct (load_ok _ _ _ _ _ Hk) as (Hfd & Hnew & Hfds & Hprog & Hs); [done|].
    rewrite wrap_s_small by lia. split_and!; try (done || lia). rewrite Hprog.
    cbn [load_attr insn_cnt insns]. f_equal. apply take_ge. unfold vec_len. lia.
Qed.

(** C25. Loading installs exactly the given program.  A result [Ok fd] means that the
    program has 1 to 4096 instructions and that [fd] is a new descriptor of the
    whole program; an error leaves descriptors and sockets as they were, and is
    [InvalidInput] without any system call when the length is out of range.  There
    is no panic. *)
Theorem load_filter_spec program k :
  match load_filter program k with
  | (Ok fd, k') =>
      0 < vec_len program <= MAX_BPF_INSNS /\ 0 <= fd < 2 ^ 31
      /\ (fd ∉ open_fds k) /\ (open_fds k' = {[fd]} ∪ open_fds k)
      /\ fd_program k' fd = Some program
      /\ (forall s, socket_filter k' s = socket_filter k s)
  | (Err e, k') =>
      open_fds k' = open_fds k /\ (forall s, socket_filter k' s = socket_filter k s)
      /\ (~ 0 < vec_len program <= MAX_BPF_INSNS -> kind e = InvalidInput /\ k' = k)
      /\ (0 < vec_len program <= MAX_BPF_INSNS -> kind e = decode_error_kind (errno k'))
  | (Panic, _) | (OutOfFuel, _) => False
  end.
Proof.
  destruct (decide (0 < vec_len program <= MAX_BPF_INSNS)) as [Hlen|Hlen].
  - pose proof (load_filter_loaded program k Hlen) as Hl.
    destruct (load_filter program k) as [[fd|e| |] k']; [done| |done|done].
    destruct Hl as (? & ? & ?). by split_and!; intros.
  - destruct (load_filter_refused program k Hlen) as [message ->]. split_and!; by intros.
Qed.
End theorems.


(** ** A kernel

    A small kernel with the documented behaviour: it accepts every program that
    ends with [exit] and refuses the others with a log. *)
Module DemoKernel.

Record state := mkState {
  st_errno : Z;
  st_programs : gmap Z (list BpfInsn);
  st_filters : gmap Z (list BpfInsn);
}.

Definition accepts (program : list BpfInsn) : bool :=
  match last program with Some i => code i =? code exit | None => false end.

Definition prog_load (nr cmd : Z) (attr : BpfAttrProgLoad) (size : Z) (k : state)
    : (Z * list Z) * state :=
  let program := take (Z.to_nat (insn_cnt attr)) (insns attr) in
  let fd := Z.of_nat (fresh (set_map (C := gset Z) (D := gset nat) Z.to_nat (dom (st_programs k)))) in
  if (nr =? 321) && accepts program && (fd <? 2 ^ 31) then
    ((fd, log_buf attr), mkState (st_errno k) (<[fd := program]> (st_programs k)) (st_filters k))
  else
    ((-1, bytes "last insn is not an exit or jmp" ++ replicate 3 0),
     mkState 22 (st_programs k) (st_filters k)).

Definition sockopt (socket level name fd len : Z) (k : state) : Z * state :=
  match st_programs k !! fd with
  | Some program => (0, mkState (st_errno k) (st_programs k) (<[socket := program]> (st_filters k)))
  | None => (-1, mkState 9 (st_programs k) (st_filters k))
  end.

#[export] Instance demo_os : Os state := {
  errno := st_errno;
  strerror := fun _ => bytes "Invalid argument";
}.

#[export] Instance demo_syscalls : ProgSyscalls state := {
  prog_target := x86_64;
  bpf_prog_load := prog_load;
  setsockopt := sockopt;
  SOL_SOCKET := 1;
}.

#[export] Program Instance demo_kernel : ProgKernel state := {
  open_fds k := dom (st_programs k);
  fd_program k fd := st_programs k !! fd;
  socket_filter k s := st_filters k !! s;
}.
Next Obligation.
  intros k attr fd log k'. cbn. unfold prog_load.
  set (n := fresh _).
  assert (Hn : Z.of_nat n ∉ dom (st_programs k)).
  { intros Hin. apply (is_fresh (set_map (C := gset Z) (D := gset nat) Z.to_nat
      (dom (st_programs k)))). apply elem_of_map. exists (Z.of_nat n). by rewrite Nat2Z.id. }
  destruct (_ && _) eqn:Hacc; [|intros [= <- <- <-]; lia].
  intros [= <- <- <-] _. cbn [st_programs st_filters]. apply andb_true_iff in Hacc as [_ Hlt].
  split_and!; [lia|done|by rewrite dom_insert_L|by rewrite lookup_insert_eq|done].
Qed.
Next Obligation.
  intros k attr fd log k'. cbn. unfold prog_load.
  destruct (_ && _); intros [= <- <- <-]; [lia|done].
Qed.
Next Obligation.
  intros k s fd rc k'. cbn. unfold sockopt.
  destruct (st_programs k !! fd) as [program|]; intros [= <- <-]; [intros _|lia].
  cbn [st_programs st_filters]. split_and!; [done|by rewrite lookup_insert_eq|]. intros s' Hs. by rewrite lookup_insert_ne.
Qed.
Next Obligation.
  intros k s fd rc k'. cbn. unfold sockopt.
  destruct (st_programs k !! fd) as [program|]; intros [= <- <-]; [lia|done].
Qed.

Definition boot : state := mkState 0 ∅ ∅.
End DemoKernel.
Import DemoKernel.

(** ** Witnesses *)

Example load_filter_example :
  (load_filter [alu64_imm BPF_MOV R0 0; exit] DemoKernel.boot).1 = Ok 0.
Proof. vm_compute. reflexivity. Qed.

Lemma load_filter_spec_witness :
  fd_program (load_filter [alu64_imm BPF_MOV R0 0; exit] DemoKernel.boot).2 0
  = Some [alu64_imm BPF_MOV R0 0; exit].
Proof.
  pose proof (load_filter_spec [alu64_imm BPF_MOV R0 0; exit] DemoKernel.boot) as Hs.
  pose proof load_filter_example as He.
  destruct (load_filter _ _) as [r k']. cbn [fst] in He. subst r. apply Hs.
Defined.

