(* ===== verification/Attach.v ===== *)
(** * The entry point (src/src/lib.rs)

    [attach_kernel_page_discard] compiles a literal, loads the program and attaches
    it to a socket.  The theorems follow its effect on the kernel in every outcome,
    and connect it with the behaviour of the compiled program on the context the kernel
    gives a socket filter, which is not the one the program is written for. *)

From S2P Require Import Prelude Assembler Machine Str Verify Codegen Compare LiteralSearch.
From S2P Require Import Os Prog.

Inductive AttachError :=
| Compile (e : CompileError)
| Io (e : IoError).

Section attach.
  Context `{Arch} {os} `{Os os} `{ProgSyscalls os}.

(** [<AttachError as Display>::fmt], derived from the [#[error]] attributes. *)
Definition AttachError_fmt (e : AttachError) : str :=
  match e with
  | Compile e => CompileError_fmt e
  | Io e => bytes "kernel operation failed: " ++ display e
  end.

(** The function of the same name on systems other than Unix. *)
Definition attach_kernel_page_discard_stub (pattern : list Z) (_target_socket : Z)
    : io AttachError os () :=
  throw (Io (CustomError Unsupported (bytes "eBPF is only available on Linux"))).

Definition attach_kernel_page_discard (pattern : list Z) (target_socket : Z)
    : io AttachError os () :=
  insns ← lift (map_err Compile (compile_literal_search pattern));
  filter_fd ← io_map_err Io (load_filter insns);
  _ ← io_map_err Io (attach_to_socket filter_fd target_socket);
  mret ().

(** The message tells the two kinds of failure apart: no compile error reads like a
    kernel error. *)
Lemma AttachError_fmt_kind e e' :
  AttachError_fmt (Compile e) <> AttachError_fmt (Io e').
Proof. by destruct e. Qed.
End attach.

Section theorems.
  Context `{Arch} {os} `{Os os} `{!ProgSyscalls os} `{!ProgKernel os}.

(** [attach_to_socket] sets the filter of one socket, or changes nothing. *)
Lemma attach_to_socket_spec fd s k :
  match attach_to_socket fd s k with
  | (Ok _, k') =>
      open_fds k' = open_fds k /\ socket_filter k' s = fd_program k fd
      /\ (forall s', s' <> s -> socket_filter k' s' = socket_filter k s')
  | (Err e, k') =>
      open_fds k' = open_fds k /\ (forall s', socket_filter k' s' = socket_filter k s')
      /\ e = OsError (errno k')
  | (Panic, _) | (OutOfFuel, _) => False
  end.
Proof.
  unfold attach_to_socket. destruct (setsockopt s SOL_SOCKET SO_ATTACH_BPF fd 4 k) as [rc k'] eqn:Hk.
  rewrite (io_bind_run _ _ k rc k') by (unfold syscall; by rewrite Hk).
  destruct (Z.ltb_spec rc 0).
  - destruct (attach_err _ _ _ _ _ Hk) as [? ?]; [done|]. by split_and!.
  - by apply (attach_ok _ _ _ _ _ Hk).
Qed.

(** The literal program is one the loader accepts. *)
Lemma literal_program_loadable pat :
  vec_len pat <= MAX_BPF_PATTERN_LEN -> 0 < vec_len (literal_program pat) <= MAX_BPF_INSNS.
Proof.
  unfold MAX_BPF_PATTERN_LEN, MAX_BPF_INSNS. intros Hmax. rewrite literal_program_len.
  pose proof (vec_len_nonneg pat). destruct (_ =? 0); lia.
Qed.

(** C16. The three outcomes of attaching a filter.  [Ok]: the pattern has at most 1024
    bytes, the filter of the socket is its compiled search, and no other socket
    changed; the process holds one more descriptor, which nothing closes.  A
    compile error: the pattern is longer and nothing was called.  A kernel error:
    no socket changed, and a descriptor is left open exactly when the program had
    been loaded.  There is no panic. *)
Theorem attach_kernel_page_discard_spec pattern s k :
  14 + 2 * vec_len pattern <= usize_max ->
  match attach_kernel_page_discard pattern s k with
  | (Ok _, k') =>
      vec_len pattern <= MAX_BPF_PATTERN_LEN
      /\ socket_filter k' s = Some (literal_program pattern)
      /\ (forall s', s' <> s -> socket_filter k' s' = socket_filter k s')
      /\ exists fd, (fd ∉ open_fds k) /\ (open_fds k' = {[fd]} ∪ open_fds k)
  | (Err (Compile e), k') => MAX_BPF_PATTERN_LEN < vec_len pattern /\ k' = k
      /\ compile_literal_search pattern = Err e
  | (Err (Io e), k') =>
      vec_len pattern <= MAX_BPF_PATTERN_LEN
      /\ (forall s', socket_filter k' s' = socket_filter k s')
      /\ (load_filter (literal_program pattern) k = (Err e, k') /\ open_fds k' = open_fds k
          \/ exists fd k1, load_filter (literal_program pattern) k = (Ok fd, k1)
               /\ attach_to_socket fd s k1 = (Err e, k') /\ e = OsError (errno k')
               /\ (fd ∉ open_fds k) /\ (open_fds k' = {[fd]} ∪ open_fds k))
  | (Panic, _) | (OutOfFuel, _) => False
  end.
Proof.
  intros Hu. unfold attach_kernel_page_discard.
  destruct (Z.leb_spec (vec_len pattern) MAX_BPF_PATTERN_LEN) as [Hmax|Hmax].
  - rewrite compile_literal_search_program by done.
    rewrite (io_bind_run _ _ k (literal_program pattern) k) by done.
    pose proof (load_filter_loaded _ k (literal_program_loadable pattern Hmax)) as Hl.
    destruct (load_filter (literal_program pattern) k) as [[fd|e| |] k1] eqn:Hload; try done.
    2: { erewrite io_bind_Err by by apply (io_map_err_run Io _ _ _ _ Hload).
         destruct Hl as (? & ? & _). split_and!; [done|done|by left; split]. }
    erewrite io_bind_run by by apply (io_map_err_run Io _ _ _ _ Hload).
    destruct Hl as (Hfd & Hnew & Hfds & Hprog & Hs).
    pose proof (attach_to_socket_spec fd s k1) as Ha.
    destruct (attach_to_socket fd s k1) as [[[]|e| |] k2] eqn:Hattach; try done.
    1: erewrite io_bind_run by by apply (io_map_err_run Io _ _ _ _ Hattach).
    2: erewrite io_bind_Err by by apply (io_map_err_run Io _ _ _ _ Hattach).
    + destruct Ha as (Hf & Hset & Hother). split_and!; [done|by rewrite Hset| |].
      * intros s' Hne. by rewrite Hother, Hs.
      * exists fd. by rewrite Hf.
    + destruct Ha as (Hf & Hsame & ->). split_and!; [done| |right; exists fd, k1].
      * intros s'. by rewrite Hsame, Hs.
      * split_and!; [done|done|done|done|by rewrite Hf].
  - rewrite (compile_literal_search_refused pattern) by done. done.
Qed.

(** What a successful attachment leaves on the socket. *)
Lemma attached_filter pattern s k k' :
  attach_kernel_page_discard pattern s k = (Ok (), k') ->
  vec_len pattern <= MAX_BPF_PATTERN_LEN /\ socket_filter k' s = Some (literal_program pattern).
Proof.
  unfold attach_kernel_page_discard. intros Hrun.
  apply io_bind_Ok in Hrun as (insns & k0 & Hc & Hrun).
  assert (Hprog : compile_literal_search pattern = Ok insns /\ k0 = k).
  { revert Hc. unfold lift. destruct (compile_literal_search pattern); cbn; by intros [= -> ->]. }
  destruct Hprog as [[Hmax ->]%compile_literal_search_inv ->]. split; [done|].
  apply io_bind_Ok in Hrun as (fd & k1 & Hload & Hrun).
  pose proof (load_filter_loaded _ k (literal_program_loadable pattern Hmax)) as Hl.
  unfold io_map_err in Hload. destruct (load_filter _ k) as [[fd'| | |] k1']; try done.
  injection Hload as -> ->. destruct Hl as (_ & _ & _ & Hfd & _).
  apply io_bind_Ok in Hrun as (u & k2 & Hattach & [= <-]).
  pose proof (attach_to_socket_spec fd s k1) as Ha. unfold io_map_err in Hattach.
  destruct (attach_to_socket fd s k1) as [[u'| | |] k2']; try done. injection Hattach as ? ->.
  by destruct Ha as (_ & -> & _).
Qed.

(** C8. The attached filter never decides the pattern.  The program reads the start and the end of the packet from
    the first two words of its context, the layout of [struct xdp_md], but
    [load_filter] loads it as a socket filter, whose context starts with the length
    and the type of the packet.  For a pattern that is not empty and a packet whose
    length and pattern length together exceed the type, so for every packet of 8
    bytes or more, the attached filter returns 0 after ten instructions, before it
    reads a byte of the packet: it drops packets that contain the pattern too. *)
Theorem attached_filter_on_sk_buff pattern s k k' :
  pattern <> [] ->
  attach_kernel_page_discard pattern s k = (Ok (), k') ->
  exists filter, socket_filter k' s = Some filter
    /\ forall step (HI : BpfIsa step) mem rs len pkt_type,
       sk_buff_ctx mem rs len pkt_type -> pkt_type < len + vec_len pattern ->
       returns step 10 mem filter (mkCpu 0 rs) 0.
Proof.
  intros Hne [Hmax Hf]%attached_filter. exists (literal_program pattern). split; [done|].
  intros step HI mem rs len pkt_type Hctx Hlt. by eapply literal_program_sk_buff.
Qed.
End theorems.

(** ** Witnesses *)

Import DemoKernel.

Example attach_example :
  (attach_kernel_page_discard (H := arch64_debug) (bytes "password") 7 boot).1 = Ok ().
Proof. vm_compute. reflexivity. Qed.

Lemma attach_kernel_page_discard_spec_witness :
  let k' := (attach_kernel_page_discard (H := arch64_debug) (bytes "password") 7 boot).2 in
  socket_filter k' 7 = Some (literal_program (bytes "password"))
  /\ exists fd, (fd ∉ open_fds boot) /\ (open_fds k' = {[fd]} ∪ open_fds boot).
Proof.
  pose proof (attach_kernel_page_discard_spec (H := arch64_debug) (bytes "password") 7 boot
    ltac:(vm_compute; discriminate)) as Hs.
  pose proof attach_example as He. cbv zeta.
  destruct (attach_kernel_page_discard _ _ _) as [r k']. cbn [fst snd] in *. subst r.
  destruct Hs as (_ & ? & _ & ?). by split.
Defined.

(** A socket buffer of 60 bytes for this host: nothing but the two words can be read. *)
Definition demo_sk_buff : memory := fun n a =>
  if (n =? 4) && (a =? 4096) then Some 60 else if (n =? 4) && (a =? 4100) then Some 0 else None.

Lemma attached_filter_on_sk_buff_witness :
  exists filter,
    socket_filter (attach_kernel_page_discard (H := arch64_debug) (bytes "password") 7 boot).2 7
      = Some filter
    /\ returns Reference.step 10 demo_sk_buff filter (mkCpu 0 (fun _ => 4096)) 0.
Proof.
  destruct (attached_filter_on_sk_buff (H := arch64_debug) (bytes "password") 7 boot
    (attach_kernel_page_discard (H := arch64_debug) (bytes "password") 7 boot).2)
    as (filter & Hf & Hrun); [done| |].
  { pose proof attach_example as He. destruct (attach_kernel_page_discard _ _ _). cbn in *.
    by subst. }
  exists filter. split; [done|].
  apply (Hrun Reference.step Reference.isa demo_sk_buff (fun _ => 4096) 60 0); [|done].
  by split.
Defined.

(** The text of the three kinds of failure. *)
Example attach_messages :
  map (AttachError_fmt (os := state))
    [Compile (PatternTooLong 1025 1024); Compile (InvalidPattern reversed_reason); Io (OsError 22)]
  = map bytes
    ["pattern length 1025 exceeds BPF verifier limit of 1024 bytes. Fix: use userspace matching for patterns longer than 1024 bytes.";
     "invalid pattern: character class range endpoints are reversed. Fix: use a supported subset (literal bytes, alternation, and ranges with start <= end).";
     "kernel operation failed: Invalid argument (os error 22)"]%string.
Proof. vm_compute. reflexivity. Qed.
