(* ===== verification/Ringbuf.v ===== *)
(** * Ring buffers (src/src/loader/ringbuf.rs)

    Creating a ring buffer map, mapping it, waiting for records and consuming them.
    The system calls and the accesses to the memory shared with the kernel are a
    parameter ([RingSyscalls]): each of them takes the state of the system to a new
    one, in which the kernel may have done any work of its own in between, so the
    interleaving of the consumer with the kernel is explicit in the sequence of
    states.  The static [CACHE] of the process is part of the state ([proc]).

    Loops that depend on the kernel take fuel.  [RingSafety], [RingProtocol] and
    [RingResources] have the theorems about them; this file has those of the
    arithmetic helpers and of [create_ringbuf]. *)

From S2P Require Import Prelude Verify Str Os.

Definition BPF_MAP_CREATE : Z := 0.
Definition BPF_OBJ_GET_INFO_BY_FD : Z := 15.
Definition BPF_MAP_TYPE_RINGBUF : Z := 27.
Definition BPF_RINGBUF_BUSY_BIT : Z := Z.shiftl 1 31.
Definition BPF_RINGBUF_DISCARD_BIT : Z := Z.shiftl 1 30.
Definition BPF_RINGBUF_HDR_SZ : Z := 8.

Record BpfAttrMapCreate := mkBpfAttrMapCreate {
  mc_map_type : Z;
  mc_key_size : Z;
  mc_value_size : Z;
  mc_max_entries : Z;
  mc_map_flags : Z;
  mc_inner_map_fd : Z;
  mc_numa_node : Z;
  mc_map_name : list Z;
  mc_map_ifindex : Z;
  mc_btf_fd : Z;
  mc_btf_key_type_id : Z;
  mc_btf_value_type_id : Z;
  mc_btf_vmlinux_value_type_id : Z;
  mc_map_extra : Z;
}.

Record BpfMapInfo := mkBpfMapInfo {
  map_type : Z;
  id : Z;
  key_size : Z;
  value_size : Z;
  max_entries : Z;
  map_flags : Z;
  name : list Z;
  ifindex : Z;
  btf_vmlinux_value_type_id : Z;
  netns_dev : Z;
  netns_ino : Z;
  btf_id : Z;
  btf_key_type_id : Z;
  btf_value_type_id : Z;
  map_extra : Z;
}.

Definition zeroed_info : BpfMapInfo :=
  mkBpfMapInfo 0 0 0 0 0 0 (replicate 16 0) 0 0 0 0 0 0 0 0.

(** [info] is an address; the field holds the buffer it points to. *)
Record BpfAttrObjInfoByFd := mkBpfAttrObjInfoByFd {
  bpf_fd : Z;
  info_len : Z;
  info : BpfMapInfo;
}.

(** [std::mem::size_of] of the three structures. *)
Section sizes.
  Context `{BpfTarget}.

Definition sizeof_BpfAttrMapCreate : Z :=
  size_of (replicate 7 u32_field ++ [bytes_field 16] ++ replicate 5 u32_field ++ [u64_field]).

Definition sizeof_BpfAttrObjInfoByFd : Z := size_of (replicate 2 u32_field ++ [u64_field]).

Definition sizeof_BpfMapInfo : Z :=
  size_of (replicate 6 u32_field ++ [bytes_field 16] ++ replicate 2 u32_field
           ++ replicate 2 u64_field ++ replicate 3 u32_field ++ [u64_field]).
End sizes.

(** [BpfMapInfo] has padding before its last field where [u64] is aligned to 8. *)
Example sizeof_structures :
  @sizeof_BpfAttrMapCreate x86_64 = 72 /\ @sizeof_BpfAttrMapCreate i686 = 72
  /\ @sizeof_BpfAttrObjInfoByFd x86_64 = 16 /\ @sizeof_BpfAttrObjInfoByFd i686 = 16
  /\ @sizeof_BpfMapInfo x86_64 = 88 /\ @sizeof_BpfMapInfo i686 = 84.
Proof. by vm_compute. Qed.

(** [RingbufHeader] as the addresses of its fields, which [repr(C)] puts next to each
    other; the padding is never read. *)
Record RingbufHeader := mkRingbufHeader {
  len_addr : Z;
  pad_addr : Z;
}.

Record RingbufConsumer := mkRingbufConsumer {
  consumer_mapping : Z;
  producer_mapping : Z;
  data_ptr : Z;
  mapping_len : Z;
  mask : Z;
  page_size : Z;
}.

(** [std::sync::atomic::Ordering]. *)
Inductive Ordering := Relaxed | Release | Acquire | AcqRel | SeqCst.

(** The calls of libc, the constants of libc they are given, the accesses to the
    shared memory (addresses are integers), and [eprintln!]. *)
Class RingSyscalls (os : Type) := {
  ring_target :: BpfTarget;
  bpf_map_create : Z -> Z -> BpfAttrMapCreate -> Z -> os -> Z * os;
  bpf_obj_get_info : Z -> Z -> BpfAttrObjInfoByFd -> Z -> os -> (Z * BpfMapInfo) * os;
  sysconf_pagesize : os -> Z * os;
  mmap : Z -> Z -> Z -> Z -> Z -> Z -> os -> Z * os;   (* addr len prot flags fd offset *)
  munmap : Z -> Z -> os -> Z * os;
  close : Z -> os -> Z * os;
  epoll_create1 : Z -> os -> Z * os;
  epoll_ctl : Z -> Z -> Z -> Z * Z -> os -> Z * os;    (* epfd op fd event *)
  epoll_wait : Z -> Z -> Z -> os -> Z * os;            (* epfd maxevents timeout *)
  load_u64 : Z -> Ordering -> os -> Z * os;
  store_u64 : Z -> Z -> Ordering -> os -> () * os;
  load_u32 : Z -> Ordering -> os -> Z * os;
  read_bytes : Z -> Z -> os -> list Z * os;
  eprintln : str -> os -> () * os;
  MAP_FAILED : Z;
  PROT_READ : Z;
  PROT_WRITE : Z;
  MAP_SHARED : Z;
  EPOLL_CLOEXEC : Z;
  EPOLLIN : Z;
  EPOLL_CTL_ADD : Z;
}.

(** The system and the static [CACHE] of [page_size()]. *)
Record proc (os : Type) := mkProc {
  sys : os;
  CACHE : option Z;
}.
Arguments mkProc {os} sys CACHE.
Arguments sys {os} p.
Arguments CACHE {os} p.

#[export] Instance proc_os {os} `{Os os} : Os (proc os) := {
  errno p := errno (sys p);
  strerror := strerror;
}.

(** A call that changes the system only. *)
Definition on_sys {os A} (f : os -> A * os) (p : proc os) : A * proc os :=
  let '(a, k) := f (sys p) in (a, mkProc k (CACHE p)).

(** ** Arithmetic *)

(** [!x] on [u32] and on [usize]. *)
Definition not_u32 (x : Z) : Z := 2 ^ 32 - 1 - x.
Definition not_usize `{Arch} (x : Z) : Z := usize_max - x.

Fixpoint count_ones_pos (p : positive) : Z :=
  match p with
  | xH => 1
  | xO p => count_ones_pos p
  | xI p => 1 + count_ones_pos p
  end.

(** [u32::is_power_of_two]. *)
Definition is_power_of_two (x : Z) : bool :=
  match x with Z.pos p => count_ones_pos p =? 1 | _ => false end.

Section arithmetic.
  Context `{Arch}.

Definition record_within_mapping (data_offset data_len ring_size : Z) : bool :=
  match usize_checked_add data_offset data_len, usize_checked_mul ring_size 2 with
  | Some end_, Some bound => end_ <=? bound
  | _, _ => false
  end.

Definition round_record_len (data_len : Z) : Z :=
  let total := usize_saturating_add data_len BPF_RINGBUF_HDR_SZ in
  Z.land (usize_saturating_add total 7) (not_usize 7).
End arithmetic.

Section ringbuf.
  Context `{Arch} {os} `{Os os} `{RingSyscalls os}.

Abbreviation M := (io IoError (proc os)).

Definition call {A} (f : os -> A * os) : M A := syscall (on_sys f).

(** A call of a function without a result. *)
Definition effect (f : proc os -> proc os) : M () := fun p => (Ok (), f p).

(** [return Err(std::io::Error::last_os_error())]. *)
Definition fail_os {A} : M A := last_os_error ≫= throw.

Definition create_ringbuf (size_bytes : Z) : M Z :=
  if (size_bytes =? 0) || negb (is_power_of_two size_bytes) then
    throw (CustomError InvalidInput
      (bytes "ring buffer size must be a non-zero power of two. Fix: pass 4096, 8192, 16384, or another power of two."))
  else
    let attr := mkBpfAttrMapCreate BPF_MAP_TYPE_RINGBUF 0 0 size_bytes 0 0 0 (replicate 16 0)
                  0 0 0 0 0 0 in
    fd ← call (bpf_map_create SYS_BPF BPF_MAP_CREATE attr sizeof_BpfAttrMapCreate);
    if fd <? 0 then fail_os else mret (wrap_s 32 fd).

(** [page_size()]: the cached value, or the value of [sysconf], which is cached. *)
Definition get_cache : M (option Z) := fun p => (Ok (CACHE p), p).
Definition set_cache (value : Z) : M () := fun p =>
  (Ok (), match CACHE p with Some _ => p | None => mkProc (sys p) (Some value) end).

Definition get_page_size : M Z :=
  cached ← get_cache;
  match cached with
  | Some value => mret value
  | None =>
      value ← call sysconf_pagesize;
      if value <=? 0 then fail_os
      else
        value ← (if value <=? usize_max then mret value
                 else throw (CustomError InvalidData
                        (bytes "system page size does not fit in usize. Fix: run on a supported userspace architecture.")));
        _ ← set_cache value;
        mret value
  end.

Definition map_info (map_fd : Z) : M BpfMapInfo :=
  let attr := mkBpfAttrObjInfoByFd (wrap_u 32 map_fd) sizeof_BpfMapInfo zeroed_info in
  '(rc, info) ← call (bpf_obj_get_info SYS_BPF BPF_OBJ_GET_INFO_BY_FD attr sizeof_BpfAttrObjInfoByFd);
  if rc <? 0 then fail_os else mret info.

(** ** Consuming records *)

(** How the inner loop ends: with [return], or when its condition is false. *)
Inductive flow (C : Type) :=
| Return (callback : C)
| Done (consumer_pos : Z) (consumed_any : bool) (callback : C).
Arguments Return {C} callback.
Arguments Done {C} consumer_pos consumed_any callback.

Section consume.
  Context (consumer : RingbufConsumer).
  Context {C : Type} (callback : C -> list Z -> C).

Definition load_consumer_pos : M Z := call (load_u64 (consumer_mapping consumer) Acquire).
Definition load_producer_pos : M Z := call (load_u64 (producer_mapping consumer) Acquire).
Definition store_consumer_pos (pos : Z) : M () :=
  call (store_u64 (consumer_mapping consumer) pos Release).

(** The reference to the header at an offset. *)
Definition header (offset : Z) : RingbufHeader :=
  let base := data_ptr consumer + offset in mkRingbufHeader base (base + 4).

(** [header.len.load(Acquire)]. *)
Definition load_header_len (offset : Z) : M Z :=
  call (load_u32 (len_addr (header offset)) Acquire).

(** [consumer.data_slice(offset, len)], read by the callback. *)
Definition data_slice (offset len : Z) : M (list Z) :=
  call (read_bytes (data_ptr consumer + offset) len).

Definition out_of_bounds_message (data_offset data_len : Z) : str :=
  bytes "ebpfkit: ringbuf record out of bounds (data_offset=" ++ print data_offset
  ++ bytes ", data_len=" ++ print data_len ++ bytes ", mask=" ++ print (mask consumer)
  ++ bytes "); stopping consumption to avoid an out-of-bounds read".

(** The record of a header without the busy bit is given to the callback, unless
    it is discarded; [None] when its bounds are refused. *)
Definition deliver (offset raw_len data_len : Z) (c : C) : M (option C) :=
  if Z.land raw_len BPF_RINGBUF_DISCARD_BIT =? 0 then
    data_offset ← lift (usize_add offset BPF_RINGBUF_HDR_SZ);
    let ring_size := usize_checked_add (mask consumer) 1 in
    if match ring_size with
       | None => true
       | Some rs => negb (record_within_mapping data_offset data_len rs)
       end
    then
      _ ← call (eprintln (out_of_bounds_message data_offset data_len));
      mret None
    else
      data ← data_slice data_offset data_len;
      mret (Some (callback c data))
  else mret (Some c).

(** [while consumer_pos < producer_pos { ... }]. *)
Fixpoint consume_inner (fuel : nat) (consumer_pos producer_pos : Z) (consumed_any : bool) (c : C)
    : M (flow C) :=
  match fuel with
  | O => lift OutOfFuel
  | S fuel =>
      if consumer_pos <? producer_pos then
        let offset := Z.land (as_usize consumer_pos) (mask consumer) in
        raw_len ← load_header_len offset;
        if negb (Z.land raw_len BPF_RINGBUF_BUSY_BIT =? 0) then
          _ ← store_consumer_pos consumer_pos;
          mret (Return c)
        else
          let data_len := as_usize (Z.land raw_len
            (not_u32 (Z.lor BPF_RINGBUF_BUSY_BIT BPF_RINGBUF_DISCARD_BIT))) in
          let record_len := round_record_len data_len in
          delivered ← deliver offset raw_len data_len c;
          match delivered with
          | None =>
              _ ← store_consumer_pos consumer_pos;
              mret (Return c)
          | Some c =>
              consumer_pos ← lift (u_arith 64 (consumer_pos + wrap_u 64 record_len));
              _ ← store_consumer_pos consumer_pos;
              consume_inner fuel consumer_pos producer_pos true c
          end
      else mret (Done consumer_pos consumed_any c)
  end.

(** [loop { ... }]. *)
Fixpoint consume_outer (fuel : nat) (consumer_pos : Z) (c : C) : M C :=
  match fuel with
  | O => lift OutOfFuel
  | S fuel' =>
      producer_pos ← load_producer_pos;
      f ← consume_inner fuel consumer_pos producer_pos false c;
      match f with
      | Return c => mret c
      | Done consumer_pos consumed_any c =>
          if negb consumed_any then mret c else consume_outer fuel' consumer_pos c
      end
  end.

Definition consume_ring_records (fuel : nat) (c : C) : M C :=
  consumer_pos ← load_consumer_pos;
  consume_outer fuel consumer_pos c.
End consume.

(** ** Mappings and descriptors *)

Definition munmap_or_warn (addr len : Z) (context : str) (p : proc os) : proc os :=
  let '(rc, p) := on_sys (munmap addr len) p in
  if negb (rc =? 0) then
    (on_sys (eprintln (bytes "ebpfkit: munmap failed while " ++ context ++ bytes ": "
       ++ display (OsError (errno p)) ++ bytes " (mapping may be leaked)")) p).2
  else p.

Definition close_or_warn (fd : Z) (context : str) (p : proc os) : proc os :=
  let '(rc, p) := on_sys (close fd) p in
  if negb (rc =? 0) then
    (on_sys (eprintln (bytes "ebpfkit: close failed while " ++ context ++ bytes ": "
       ++ display (OsError (errno p)))) p).2
  else p.

Definition EpollFd_new : M Z :=
  fd ← call (epoll_create1 EPOLL_CLOEXEC);
  if fd <? 0 then fail_os else mret fd.

Definition EpollFd_add (epoll_fd map_fd : Z) : M () :=
  rc ← call (epoll_ctl epoll_fd EPOLL_CTL_ADD map_fd (wrap_u 32 EPOLLIN, wrap_u 64 map_fd));
  if rc <? 0 then fail_os else mret ().

Fixpoint EpollFd_wait (fuel : nat) (epoll_fd : Z) : M () :=
  match fuel with
  | O => lift OutOfFuel
  | S fuel =>
      rc ← call (epoll_wait epoll_fd 1 (-1));
      if rc <? 0 then
        err ← last_os_error;
        if bool_decide (kind err = Interrupted) then EpollFd_wait fuel epoll_fd
        else throw err
      else mret ()
  end.

Definition EpollFd_drop (epoll_fd : Z) : proc os -> proc os :=
  close_or_warn epoll_fd (bytes "closing epoll fd").

Definition overflow_error : IoError :=
  CustomError InvalidInput
    (bytes "ring buffer mapping length overflowed. Fix: use a smaller ring size.").

Definition ok_or {A} (o : option A) (e : IoError) : M A :=
  match o with Some a => mret a | None => throw e end.

Definition RingbufConsumer_new (map_fd ring_size page_size : Z) : M RingbufConsumer :=
  consumer_mapping ← call (mmap 0 page_size (Z.lor PROT_READ PROT_WRITE) MAP_SHARED map_fd 0);
  if consumer_mapping =? MAP_FAILED then fail_os
  else
    double ← ok_or (usize_checked_mul ring_size 2) overflow_error;
    mapping_len ← ok_or (usize_checked_add page_size double) overflow_error;
    producer_mapping ←
      call (mmap 0 mapping_len PROT_READ MAP_SHARED map_fd (as_isize page_size));
    if producer_mapping =? MAP_FAILED then
      error ← last_os_error;
      _ ← effect (munmap_or_warn consumer_mapping page_size
                    (bytes "unmapping consumer page after producer mmap failed"));
      throw error
    else
      let data_ptr := producer_mapping + page_size in
      mask ← lift (usize_sub ring_size 1);
      mret (mkRingbufConsumer consumer_mapping producer_mapping data_ptr mapping_len mask page_size).

Definition RingbufConsumer_drop (c : RingbufConsumer) (p : proc os) : proc os :=
  let p := munmap_or_warn (consumer_mapping c) (page_size c)
             (bytes "unmapping ring consumer page") p in
  munmap_or_warn (producer_mapping c) (mapping_len c)
    (bytes "unmapping ring producer/data pages") p.

Definition poll_ringbuf (fuel : nat) (map_fd : Z) {C} (callback : C -> list Z -> C) (c : C) : M C :=
  info ← map_info map_fd;
  if negb (map_type info =? BPF_MAP_TYPE_RINGBUF) then
    throw (CustomError InvalidInput
      (bytes "fd does not reference a BPF ring buffer map. Fix: pass the fd returned by create_ringbuf or a BPF_MAP_TYPE_RINGBUF map."))
  else
    page_size ← get_page_size;
    ring_size ← (if max_entries info <=? usize_max then mret (max_entries info)
                 else throw (CustomError InvalidData
                        (bytes "ring buffer max_entries does not fit in usize. Fix: use a smaller ring size.")));
    consumer ← RingbufConsumer_new map_fd ring_size page_size;
    with_drop (RingbufConsumer_drop consumer) (
      epoll_fd ← EpollFd_new;
      with_drop (EpollFd_drop epoll_fd) (
        _ ← EpollFd_add epoll_fd map_fd;
        _ ← EpollFd_wait fuel epoll_fd;
        consume_ring_records consumer callback fuel c)).
End ringbuf.
Arguments Return {C} callback.
Arguments Done {C} consumer_pos consumed_any callback.

(** ** Lemmas on the arithmetic *)

Lemma count_ones_pos_ge p : 1 <= count_ones_pos p.
Proof. induction p as [p IH|p IH|]; cbn [count_ones_pos]; lia. Qed.

Lemma is_power_of_two_spec x : is_power_of_two x = true <-> exists n, 0 <= n /\ x = 2 ^ n.
Proof.
  split.
  - destruct x as [|p|p]; [done| |done]. cbn. rewrite Z.eqb_eq.
    induction p as [p IH|p IH|]; cbn [count_ones_pos]; intros Hc.
    + pose proof (count_ones_pos_ge p). lia.
    + destruct (IH Hc) as (n & Hn & Hp). exists (n + 1). split; [lia|].
      rewrite Z.pow_add_r by lia. lia.
    + by exists 0.
  - intros (n & Hn & ->). revert Hn. apply (natlike_ind (fun n => is_power_of_two (2 ^ n) = true)).
    + done.
    + intros m Hm IH. rewrite Z.pow_succ_r by done.
      pose proof (Z.pow_pos_nonneg 2 m ltac:(lia) Hm). by destruct (2 ^ m).
Qed.

Section arithmetic_lemmas.
  Context `{Arch}.

(** The mask [!7] of [usize] rounds down to a multiple of 8. *)
Lemma land_not_7 x : 0 <= x <= usize_max -> Z.land x (not_usize 7) = 8 * (x / 8).
Proof.
  unfold usize_max, not_usize. intros Hx. pose proof usize_bits_ge_32.
  replace (8 * (x / 8)) with (Z.ldiff x (Z.ones 3)).
  2: { rewrite Z.ldiff_ones_r by lia. rewrite Z.shiftl_mul_pow2, Z.shiftr_div_pow2 by lia.
       apply Z.mul_comm. }
  replace (usize_max - 7) with (Z.ldiff (Z.ones usize_bits) (Z.ones 3)).
  2: { rewrite <- Z.sub_nocarry_ldiff.
       - unfold usize_max. rewrite !Z.ones_equiv. lia.
       - apply Z.bits_inj'. intros n Hn. rewrite Z.ldiff_spec, Z.bits_0.
         destruct (Z.ltb_spec n 3); [|by rewrite Z.ones_spec_high by lia].
         by rewrite !Z.ones_spec_low by lia. }
  apply Z.bits_inj'. intros n Hn. rewrite Z.land_spec, !Z.ldiff_spec.
  destruct (Z.ltb_spec n usize_bits).
  - by rewrite (Z.ones_spec_low usize_bits) by lia.
  - rewrite (Z.bits_above_log2 x n); [done|lia|]. destruct (Z.eq_dec x 0) as [->|]; [cbn; lia|].
    apply Z.log2_lt_pow2; [lia|]. pose proof (Z.pow_le_mono_r 2 usize_bits n). lia.
Qed.

Lemma round_record_len_small len :
  0 <= len -> len + 15 <= usize_max -> round_record_len len = 8 * ((len + 15) / 8).
Proof.
  intros H0 Hmax. unfold round_record_len, usize_saturating_add, BPF_RINGBUF_HDR_SZ.
  rewrite !Z.min_l by lia. rewrite land_not_7 by lia. f_equal. f_equal. lia.
Qed.

Lemma record_within_mapping_iff off len rs : 0 <= off -> 0 <= len -> 0 <= rs ->
  record_within_mapping off len rs = true <-> off + len <= 2 * rs /\ 2 * rs <= usize_max.
Proof.
  intros H1 H2 H3. unfold record_within_mapping, usize_checked_add, usize_checked_mul.
  destruct (Z.leb_spec (off + len) usize_max), (Z.leb_spec (rs * 2) usize_max); lia.
Qed.

(** ** Theorems *)

(** C36. The rounded length of a record is the least multiple of 8 that holds the
    header and the data; near the end of [usize], where that does not exist, it is
    the largest multiple of 8. *)
Theorem round_record_len_spec len :
  0 <= len <= usize_max ->
  let r := round_record_len len in
  r mod 8 = 0 /\ 0 <= r <= usize_max
  /\ (len + 15 <= usize_max ->
        len + 8 <= r /\ forall m, m mod 8 = 0 -> len + 8 <= m -> r <= m)
  /\ (usize_max < len + 15 -> r = usize_max - 7).
Proof.
  intros Hlen. cbv zeta.
  assert (Hmod : (usize_max + 1) mod 8 = 0).
  { unfold usize_max. by destruct usize_bits_ok as [-> | ->]. }
  assert (usize_max >= 15) by (unfold usize_max; pose proof usize_pow_ge; lia).
  destruct (Z.leb_spec (len + 15) usize_max).
  - rewrite round_record_len_small by lia. split_and!; [dlia|dlia|dlia| |lia].
    intros _. split; [dlia|]. intros m ? ?. dlia.
  - assert (Hr : round_record_len len = usize_max - 7).
    { unfold round_record_len, usize_saturating_add, BPF_RINGBUF_HDR_SZ.
      rewrite (Z.min_r _ usize_max) by lia. rewrite land_not_7 by lia. dlia. }
    rewrite Hr. split_and!; [dlia|lia|lia|lia|done].
Qed.
End arithmetic_lemmas.

Section call_lemmas.
  Context `{Arch} {os} `{Os os} `{RingSyscalls os}.

Lemma on_sys_run {A} (f : os -> A * os) p a k :
  f (sys p) = (a, k) -> on_sys f p = (a, mkProc k (CACHE p)).
Proof. unfold on_sys. by intros ->. Qed.

Lemma call_run {A} (f : os -> A * os) p a k :
  f (sys p) = (a, k) -> call f p = (Ok a, mkProc k (CACHE p)).
Proof. unfold call, syscall, on_sys. by intros ->. Qed.

(** The answer of the kernel to a power of two. *)
Lemma create_ringbuf_run size p fd k :
  is_power_of_two size = true ->
  bpf_map_create SYS_BPF BPF_MAP_CREATE
    (mkBpfAttrMapCreate BPF_MAP_TYPE_RINGBUF 0 0 size 0 0 0 (replicate 16 0) 0 0 0 0 0 0)
    sizeof_BpfAttrMapCreate (sys p) = (fd, k) ->
  create_ringbuf size p
  = (if fd <? 0 then Err (OsError (errno k)) else Ok (wrap_s 32 fd), mkProc k (CACHE p)).
Proof.
  intros Hs Hk. unfold create_ringbuf. replace (size =? 0) with false by by destruct size.
  rewrite Hs. cbn [orb negb].
  rewrite (io_bind_run _ _ p fd (mkProc k (CACHE p))) by by apply call_run.
  by destruct (fd <? 0).
Qed.

(** Only powers of two reach the kernel: any other [u32] size is refused as
    invalid input without a call, and a power of two is passed as the size of the
    new ring, whose descriptor or error is returned. *)
Theorem create_ringbuf_spec size p :
  0 <= size < 2 ^ 32 ->
  ((exists n, 0 <= n < 32 /\ size = 2 ^ n) ->
     forall fd k, bpf_map_create SYS_BPF BPF_MAP_CREATE
        (mkBpfAttrMapCreate BPF_MAP_TYPE_RINGBUF 0 0 size 0 0 0 (replicate 16 0) 0 0 0 0 0 0)
        sizeof_BpfAttrMapCreate (sys p) = (fd, k) ->
     - 2 ^ 31 <= fd < 2 ^ 31 ->
     create_ringbuf size p
     = (if fd <? 0 then Err (OsError (errno k)) else Ok fd, mkProc k (CACHE p)))
  /\ (~ (exists n, 0 <= n < 32 /\ size = 2 ^ n) ->
     exists message, create_ringbuf size p = (Err (CustomError InvalidInput message), p)).
Proof.
  intros Hsize. split.
  - intros (n & Hn & ->) fd k Hk Hfd. rewrite (create_ringbuf_run _ p fd k);
      [|apply is_power_of_two_spec; exists n; by split; [lia|]|done].
    by rewrite wrap_s_small by lia.
  - intros Hno. unfold create_ringbuf. destruct (is_power_of_two size) eqn:Hp.
    + destruct Hno. apply is_power_of_two_spec in Hp as (n & Hn & ->). exists n.
      split; [|done]. split; [done|]. apply (Z.pow_lt_mono_r_iff 2); lia.
    + rewrite orb_true_r. by eexists.
Qed.

(** [n] calls of [epoll_wait] in a row that are interrupted. *)
Inductive interrupted (epoll_fd : Z) : nat -> os -> os -> Prop :=
| interrupted_0 k : interrupted epoll_fd 0 k k
| interrupted_S n k rc k1 k2 :
    epoll_wait epoll_fd 1 (-1) k = (rc, k1) -> rc < 0 -> errno k1 = EINTR ->
    interrupted epoll_fd n k1 k2 -> interrupted epoll_fd (S n) k k2.

(** C37. Waiting retries interrupted calls and only those: after [n] interrupted calls
    the answer of the next one decides, success or its error; [n + 1] iterations
    are enough. *)
Theorem epoll_wait_retries epoll_fd n k k1 rc k2 cache :
  interrupted epoll_fd n k k1 -> epoll_wait epoll_fd 1 (-1) k1 = (rc, k2) ->
  (rc < 0 -> errno k2 <> EINTR) ->
  forall fuel, (n < fuel)%nat ->
  EpollFd_wait fuel epoll_fd (mkProc k cache)
  = (if rc <? 0 then Err (OsError (errno k2)) else Ok (), mkProc k2 cache).
Proof.
  intros Hint Hlast Herr. induction Hint as [k|n k rc' k1' k2' Hrun Hneg Hintr Hint IH];
    intros [|fuel] Hf; try lia; cbn [EpollFd_wait].
  - rewrite (io_bind_run _ _ _ rc (mkProc k2 cache)) by by apply call_run.
    destruct (Z.ltb_spec rc 0); [|done].
    rewrite (io_bind_run _ _ _ (OsError (errno k2)) (mkProc k2 cache)) by done.
    rewrite bool_decide_false; [done|]. cbn [kind]. rewrite interrupted_iff. auto.
  - rewrite (io_bind_run _ _ _ rc' (mkProc k1' cache)) by by apply call_run.
    rewrite (proj2 (Z.ltb_lt _ _)) by done.
    rewrite (io_bind_run _ _ _ (OsError (errno k1')) (mkProc k1' cache)) by done.
    rewrite bool_decide_true by (cbn [kind]; by rewrite interrupted_iff).
    apply IH; [done|lia].
Qed.
End call_lemmas.

(** ** Witnesses *)

Lemma round_record_len_spec_witness :
  let r := round_record_len (H := arch64_debug) 9 in
  r mod 8 = 0 /\ 9 + 8 <= r /\ forall m, m mod 8 = 0 -> 9 + 8 <= m -> r <= m.
Proof.
  destruct (round_record_len_spec (H := arch64_debug) 9) as (? & _ & Hs & _);
    [split; vm_compute; discriminate|].
  split; [done|]. apply Hs. vm_compute. discriminate.
Defined.

(** The lengths of the unit tests. *)
Example round_record_len_examples :
  map (round_record_len (H := arch64_debug)) [0; 1; 8; 9; 2 ^ 64 - 1; 2 ^ 64 - 9]
  = [8; 16; 16; 24; 2 ^ 64 - 8; 2 ^ 64 - 8].
Proof. vm_compute. reflexivity. Qed.

(** The bounds checks of the unit tests. *)
Example record_within_mapping_examples :
  map (fun '(off, len, rs) => record_within_mapping (H := arch64_debug) off len rs)
    [(8, 100, 4096); (0, 8192, 4096); (4096, 4096, 4096); (0, 8193, 4096); (4097, 4096, 4096);
     (8, 2 ^ 64 - 1, 4096); (2 ^ 64 - 1, 2 ^ 64 - 1, 4096); (0, 1, 2 ^ 64 - 1)]
  = [true; true; true; false; false; false; false; false].
Proof. vm_compute. reflexivity. Qed.
