(* ===== verification/UnitTests.v ===== *)
(** * Unit tests of the crate

    The test modules of src/src/assembler.rs, src/src/compiler/mod.rs,
    src/src/compiler/verify.rs, src/src/loader/core_detect.rs and (without the tests that
    make system calls) src/src/loader/ringbuf.rs, each test a computation that panics where an assertion fails.  [unit_tests_pass] runs them on
    the model, for every build: the model gives the values the authors of the crate
    expect of the code.  The tests that make system calls are in [LoaderTests]. *)

From S2P Require Import Prelude Assembler Str Verify Codegen LiteralSearch CoreDetect Ringbuf Testing.

(** The result of a test. *)
Abbreviation test := (res CompileError unit).

(** [assert!(matches!(r, Err(e)))]. *)
Definition assert_err {A} (e : CompileError) (r : res CompileError A) : test :=
  b ← is_err e r; assert b.

(** [text.contains(piece)]. *)
Definition str_contains (piece : string) (text : list Z) : bool := contains (bytes piece) text.

(** ** src/src/assembler.rs *)

Module AssemblerTests.
Section tests.
  Context `{Arch}.

Definition new_instruction_packs_registers : test :=
  let instruction := new (Z.lor (Z.lor BPF_ALU64 BPF_ADD) BPF_X) R3 R7 2 0 in
  _ ← assert_eq (regs instruction) 0x73;
  _ ← assert_eq (dst_reg instruction) R3;
  assert_eq (src_reg instruction) R7.

(** [assert_eq!(instruction.to_string(), text)]. *)
Definition assert_renders (instruction : BpfInsn) (text : string) : test :=
  s ← fmt instruction; assert_eq s text.

Definition display_renders_exit : test :=
  let instruction := new (Z.lor BPF_JMP BPF_EXIT) 0 0 0 0 in
  assert_renders instruction "exit".

Definition display_renders_word_load : test :=
  let instruction := new (Z.lor (Z.lor BPF_LDX BPF_MEM) BPF_W) R2 R1 4 0 in
  assert_renders instruction "r2 = *(u32 *)(r1 + 4)".

Definition display_renders_move_immediate : test :=
  let instruction := new (Z.lor (Z.lor BPF_ALU64 BPF_MOV) BPF_K) R0 0 0 1 in
  assert_renders instruction "r0 = 1".

Definition display_renders_add_register : test :=
  let instruction := new (Z.lor (Z.lor BPF_ALU64 BPF_ADD) BPF_X) R5 R4 0 0 in
  assert_renders instruction "r5 += r4".

Definition display_renders_conditional_jump_with_immediate : test :=
  let instruction := new (Z.lor (Z.lor BPF_JMP BPF_JNE) BPF_K) R7 0 3 255 in
  assert_renders instruction "if r7 != 255 goto +4".

Definition display_renders_conditional_jump_with_register : test :=
  let instruction := new (Z.lor (Z.lor BPF_JMP BPF_JGT) BPF_X) R6 R3 8 0 in
  assert_renders instruction "if r6 > r3 goto +9".

Definition display_falls_back_for_unknown_opcode : test :=
  let instruction := new 0xff R1 R2 (-1) 42 in
  assert_renders instruction "code=0xff dst=r1 src=r2 off=-1 imm=42".

Definition format_program_lists_each_instruction : test :=
  let program := [new (Z.lor (Z.lor BPF_ALU64 BPF_MOV) BPF_K) R0 0 0 1;
                  new (Z.lor BPF_JMP BPF_EXIT) 0 0 0 0] in
  text ← format_program program;
  assert_eq text ("0000: r0 = 1" +:+ newline +:+ "0001: exit")%string.

Definition assembler_tests : list test :=
  [new_instruction_packs_registers; display_renders_exit; display_renders_word_load;
   display_renders_move_immediate; display_renders_add_register;
   display_renders_conditional_jump_with_immediate;
   display_renders_conditional_jump_with_register; display_falls_back_for_unknown_opcode;
   format_program_lists_each_instruction].
End tests.
End AssemblerTests.

(** ** src/src/compiler/mod.rs *)

Module CompilerTests.
Section tests.
  Context `{Arch}.

(** [prog[prog.len() - n]]. *)
Definition from_end (prog : list BpfInsn) (n : Z) : res CompileError BpfInsn :=
  i ← usize_sub (vec_len prog) n; vec_get prog i.

Definition is_byte_load (i : BpfInsn) : bool :=
  code i =? Z.lor (Z.lor BPF_LDX BPF_MEM) BPF_B.

Definition empty_pattern_returns_immediate_true : test :=
  prog ← compile_literal_search (bytes "");
  _ ← assert_eq (vec_len prog) 4;
  insn ← vec_get prog 2;
  assert_eq (imm insn) 1.

Definition single_byte_pattern_generates_valid_program : test :=
  prog ← compile_literal_search (bytes "A");
  _ ← assert (8 <=? vec_len prog);
  insn ← from_end prog 1;
  assert_eq (Z.land (code insn) 0xF0) BPF_EXIT.

Definition multi_byte_pattern_unrolls_correctly : test :=
  prog ← compile_literal_search (bytes "abc");
  let byte_loads := filter_count is_byte_load prog in
  assert_eq byte_loads 3.

(** [jump_offsets_are_valid] of the test module. *)
Definition jump_offsets_are_valid_test : test :=
  prog ← compile_literal_search (bytes "XY");
  assert_jump_offsets_are_valid prog.

Definition program_terminates_with_exit : test :=
  for_each [bytes "a"; bytes "ab"; bytes "hello world"; bytes ""] (fun pattern =>
    prog ← compile_literal_search pattern;
    last ← from_end prog 1;
    assert_eq (Z.land (code last) 0xF0) BPF_EXIT).

(** [iter().enumerate().find(p)]. *)
Fixpoint find_enumerate (p : BpfInsn -> bool) (idx : Z) (l : list BpfInsn) : option (Z * BpfInsn) :=
  match l with
  | [] => None
  | i :: rest => if p i then Some (idx, i) else find_enumerate p (idx + 1) rest
  end.

Definition backpatch_bounds_check_points_to_fail : test :=
  prog ← compile_literal_search (bytes "test");
  let bounds_check :=
    find_enumerate (fun i => code i =? Z.lor (Z.lor BPF_JMP BPF_JGT) BPF_X) 0 prog in
  _ ← assert (bool_decide (bounds_check <> None));
  match bounds_check with
  | Some (idx, insn) =>
      next ← usize_add idx 1;
      target ← usize_add next (as_usize (off insn));
      t ← vec_get prog target;
      assert_eq (imm t) 0
  | None => Ok ()
  end.

Definition long_pattern_compiles : test :=
  let pattern := bytes "this is a longer pattern for testing unroll depth" in
  prog ← compile_literal_search pattern;
  let byte_loads := filter_count is_byte_load prog in
  assert_eq byte_loads (vec_len pattern).

Definition max_length_pattern_compiles : test :=
  let pattern := vec_repeat (chr "A") MAX_BPF_PATTERN_LEN in
  prog ← compile_literal_search pattern;
  assert (vec_len pattern <? vec_len prog).

Definition oversized_pattern_returns_error : test :=
  let pattern := vec_repeat (chr "A") (MAX_BPF_PATTERN_LEN + 1) in
  message ← (match compile_literal_search pattern with
             | Ok _ => Ok []
             | Err error => Ok (CompileError_fmt error)
             | Panic => Panic
             | OutOfFuel => OutOfFuel
             end);
  assert (str_contains "exceeds BPF verifier limit" message).

Definition character_class_with_ranges_generates_match_and_fail_paths : test :=
  prog ← compile_character_class (bytes "a-z0-9");
  _ ← assert (4 <? vec_len prog);
  fail ← from_end prog 4;
  _ ← assert_eq (imm fail) 0;
  success ← from_end prog 2;
  _ ← assert_eq (imm success) 1;
  last ← from_end prog 1;
  _ ← assert_eq (Z.land (code last) 0xF0) BPF_EXIT;
  assert_jump_offsets_are_valid prog.

Definition empty_character_class_is_impossible_match : test :=
  prog ← compile_character_class (bytes "");
  _ ← assert_eq (vec_len prog) 2;
  first ← vec_get prog 0;
  _ ← assert_eq (imm first) 0;
  second ← vec_get prog 1;
  assert_eq (Z.land (code second) 0xF0) BPF_EXIT.

Definition alternation_compiles_sequence_with_match_and_fail_paths : test :=
  prog ← compile_alternation [bytes "ab"; bytes "xy"; bytes "z"];
  _ ← assert (4 <? vec_len prog);
  fail ← from_end prog 4;
  _ ← assert_eq (imm fail) 0;
  success ← from_end prog 2;
  _ ← assert_eq (imm success) 1;
  assert_jump_offsets_are_valid prog.

Definition alternation_with_empty_alternative_matches_immediately : test :=
  prog ← compile_alternation [bytes "ab"; bytes ""; bytes "cd"];
  _ ← assert_eq (vec_len prog) 2;
  first ← vec_get prog 0;
  _ ← assert_eq (imm first) 1;
  second ← vec_get prog 1;
  assert_eq (Z.land (code second) 0xF0) BPF_EXIT.

Definition all_nul_pattern_compiles_and_compares_zero_bytes : test :=
  let pattern := [0; 0; 0; 0] in
  prog ← compile_literal_search pattern;
  let zero_comparisons := filter_count (fun insn =>
    (code insn =? Z.lor (Z.lor BPF_JMP BPF_JNE) BPF_K) && (imm insn =? 0)) prog in
  _ ← assert_eq zero_comparisons (vec_len pattern);
  assert_jump_offsets_are_valid prog.

Definition pattern_with_1025_bytes_is_rejected : test :=
  let pattern := vec_repeat 0 (MAX_BPF_PATTERN_LEN + 1) in
  assert_err (PatternTooLong 1025 MAX_BPF_PATTERN_LEN) (compile_literal_search pattern).

Definition two_hundred_fifty_six_byte_identity_pattern_compiles : test :=
  let pattern := seqZ 0 256 in
  prog ← compile_literal_search pattern;
  assert (vec_len pattern <? vec_len prog).

Definition character_class_rejects_reversed_ranges : test :=
  assert_err (InvalidPattern "character class range endpoints are reversed")
    (compile_character_class (bytes "z-a")).

Definition pretty_printer_formats_compiled_program : test :=
  prog ← compile_literal_search (bytes "AZ");
  rendered ← format_program prog;
  _ ← assert (str_contains "0000: r2 = *(u32 *)(r1 + 0)" (bytes rendered));
  _ ← assert (str_contains "if r7 != 65 goto" (bytes rendered));
  assert (str_contains "exit" (bytes rendered)).

Definition compiler_tests : list test :=
  [empty_pattern_returns_immediate_true; single_byte_pattern_generates_valid_program;
   multi_byte_pattern_unrolls_correctly; jump_offsets_are_valid_test;
   program_terminates_with_exit; backpatch_bounds_check_points_to_fail; long_pattern_compiles;
   max_length_pattern_compiles; oversized_pattern_returns_error;
   character_class_with_ranges_generates_match_and_fail_paths;
   empty_character_class_is_impossible_match;
   alternation_compiles_sequence_with_match_and_fail_paths;
   alternation_with_empty_alternative_matches_immediately;
   all_nul_pattern_compiles_and_compares_zero_bytes; pattern_with_1025_bytes_is_rejected;
   two_hundred_fifty_six_byte_identity_pattern_compiles;
   character_class_rejects_reversed_ranges; pretty_printer_formats_compiled_program].
End tests.
End CompilerTests.

(** ** src/src/compiler/verify.rs *)

Module VerifyTests.
Section tests.
  Context `{Arch}.

Definition parse_rejects_empty_class_escapes : test :=
  _ ← assert_err (InvalidPattern "unterminated character-class escape")
        (parse_character_class (bytes "\"));
  assert_err (InvalidPattern "unterminated character-class escape")
    (parse_character_class (bytes "a-\")).

Definition parse_range_requires_ordered_endpoints : test :=
  assert_err (InvalidPattern "character class range endpoints are reversed")
    (parse_character_class (bytes "z-a")).

Definition compile_limit_safeguards_instruction_cap : test :=
  assert_err (PatternTooLong 4097 4096) (compile_with_limit 4097).

Definition literal_count_for_empty_pattern_is_fixed : test :=
  count ← literal_search_instruction_count 0;
  assert_eq count 4.

Definition literal_count_matches_compiled_program_length : test :=
  for_each [1; 3; 10; 100; 1024] (fun len =>
    let pattern := vec_repeat (chr "a") len in
    prog ← unwrap (compile_literal_search pattern);
    count ← literal_search_instruction_count len;
    assert_eq count (vec_len prog)).

(** The UTF-8 bytes of U+00E9. *)
Definition character_class_rejects_non_ascii_codepoints : test :=
  assert_err (InvalidPattern "character class contains non-ASCII codepoints; use raw bytes or an escape sequence")
    (parse_character_class [0xC3; 0xA9]).

Definition character_class_accepts_raw_invalid_utf8_bytes : test :=
  ranges ← unwrap (parse_character_class [0x00; chr "-"; 0xFF]);
  assert_eq ranges [Span 0x00 0xFF].

Definition character_class_decodes_standard_escapes : test :=
  ranges ← unwrap (parse_character_class (bytes "\n\r\t\\.\-\]\["));
  assert_eq ranges
    [Single 10; Single 13; Single 9; Single (chr "\"); Single (chr "."); Single (chr "-");
     Single (chr "]"); Single (chr "[")].

Definition character_class_expands_class_escapes : test :=
  digits ← unwrap (parse_character_class (bytes "\d"));
  _ ← assert_eq digits [Span (chr "0") (chr "9")];
  spaces ← unwrap (parse_character_class (bytes "\s"));
  _ ← assert_eq spaces [Span 9 13; Single (chr " ")];
  words ← unwrap (parse_character_class (bytes "\w"));
  assert_eq words
    [Span (chr "a") (chr "z"); Span (chr "A") (chr "Z"); Span (chr "0") (chr "9");
     Single (chr "_")].

Definition character_class_rejects_negated_class_escapes : test :=
  for_each [bytes "\D"; bytes "\S"; bytes "\W"] (fun class =>
    assert_err (InvalidPattern "negated character-class escapes are not supported")
      (parse_character_class class)).

Definition character_class_range_with_escape_endpoint_works : test :=
  ranges ← unwrap (parse_character_class (bytes "\d-\w"));
  let expected := [Span (chr "0") (chr "9")] in
  let expected := expected ++ [Single (chr "-")] in
  let expected := expected ++ [Span (chr "a") (chr "z"); Span (chr "A") (chr "Z");
                               Span (chr "0") (chr "9"); Single (chr "_")] in
  assert_eq ranges expected.

Definition character_class_rejects_consecutive_dashes : test :=
  for_each [bytes "a--z"; bytes "-----"; bytes "a---b"] (fun class =>
    assert_err (InvalidPattern "character class contains consecutive unescaped dashes")
      (parse_character_class class)).

Definition char_class_estimate_equals_actual_compiled_length : test :=
  _ ← for_each [bytes "a"; bytes "az"; bytes "a-z"; bytes "a-z0-9"; bytes "a-z0-9_"] (fun class =>
        ranges ← unwrap (parse_character_class class);
        estimate ← estimate_character_class_instructions ranges;
        actual ← unwrap (compile_character_class class);
        assert_eq estimate (vec_len actual));
  anchor ← estimate_character_class_instructions [Single 0x41];
  assert_eq anchor 6.

Definition alternation_estimate_equals_actual_compiled_length : test :=
  _ ← for_each [[bytes "aa"; bytes "b"]; [bytes "foo"]; [bytes "ab"; bytes "cd"; bytes "ef"]]
        (fun alts =>
          estimate ← estimate_alternation_instructions alts;
          actual ← unwrap (compile_alternation alts);
          assert_eq estimate (vec_len actual));
  let alternates := [bytes "aa"; bytes "b"] in
  anchor ← estimate_alternation_instructions alternates;
  assert_eq anchor 18.

Definition verify_tests : list test :=
  [parse_rejects_empty_class_escapes; parse_range_requires_ordered_endpoints;
   compile_limit_safeguards_instruction_cap; literal_count_for_empty_pattern_is_fixed;
   literal_count_matches_compiled_program_length; character_class_rejects_non_ascii_codepoints;
   character_class_accepts_raw_invalid_utf8_bytes; character_class_decodes_standard_escapes;
   character_class_expands_class_escapes; character_class_rejects_negated_class_escapes;
   character_class_range_with_escape_endpoint_works; character_class_rejects_consecutive_dashes;
   char_class_estimate_equals_actual_compiled_length;
   alternation_estimate_equals_actual_compiled_length].
End tests.
End VerifyTests.

(** ** src/src/loader/core_detect.rs *)

Module CoreDetectTests.

(** [assert_eq!(parse_kernel_release(release), expected)]. *)
Definition assert_release (release : string) (expected : option version) : test :=
  assert_eq (parse_kernel_release (bytes release)) expected.

Definition parses_full_and_partial_versions : test :=
  _ ← assert_release "6.1.0" (Some (6, 1, 0));
  _ ← assert_release "5.15.137-generic" (Some (5, 15, 137));
  _ ← assert_release "6" (Some (6, 0, 0));
  _ ← assert_release "6.1" (Some (6, 1, 0));
  assert_release "6.8.0-31-generic" (Some (6, 8, 0)).

Definition rejects_unparseable_major_so_caller_fails_closed : test :=
  _ ← assert_release "" None;
  _ ← assert_release "unknown" None;
  _ ← assert_release "-generic" None;
  assert_release "99999999999.1.0" None.

Definition rejects_unparseable_minor_or_patch : test :=
  _ ← assert_release "6.99999999999.0" None;
  _ ← assert_release "6.abc" None;
  assert_release "6.1.xyz" None.

Definition core_detect_tests : list test :=
  [parses_full_and_partial_versions; rejects_unparseable_major_so_caller_fails_closed;
   rejects_unparseable_minor_or_patch].
End CoreDetectTests.

(** ** src/src/loader/ringbuf.rs *)

Module RingbufTests.
Section tests.
  Context `{Arch}.

Definition round_record_len_rounds_up_to_8 : test :=
  _ ← assert_eq (round_record_len 0) 8;
  _ ← assert_eq (round_record_len 1) 16;
  _ ← assert_eq (round_record_len 8) 16;
  assert_eq (round_record_len 9) 24.

Definition round_record_len_saturates_without_overflow : test :=
  let r := round_record_len usize_max in
  _ ← assert_eq r (Z.land usize_max (not_usize 7));
  _ ← assert_eq (r mod 8) 0;
  assert_eq (round_record_len (usize_max - 8)) (Z.land usize_max (not_usize 7)).

Definition record_within_mapping_accepts_valid_and_rejects_out_of_bounds : test :=
  let ring := 4096 in
  _ ← assert (record_within_mapping BPF_RINGBUF_HDR_SZ 100 ring);
  _ ← assert (record_within_mapping 0 (2 * ring) ring);
  _ ← assert (record_within_mapping ring ring ring);
  _ ← assert (negb (record_within_mapping 0 (2 * ring + 1) ring));
  assert (negb (record_within_mapping (ring + 1) ring ring)).

Definition record_within_mapping_rejects_corrupt_lengths_without_wrapping : test :=
  let ring := 4096 in
  _ ← assert (negb (record_within_mapping 8 usize_max ring));
  _ ← assert (negb (record_within_mapping usize_max 1 ring));
  _ ← assert (negb (record_within_mapping usize_max usize_max ring));
  assert (negb (record_within_mapping 0 1 usize_max)).

Definition ringbuf_tests : list test :=
  [round_record_len_rounds_up_to_8; round_record_len_saturates_without_overflow;
   record_within_mapping_accepts_valid_and_rejects_out_of_bounds;
   record_within_mapping_rejects_corrupt_lengths_without_wrapping].
End tests.
End RingbufTests.

(** ** All of them *)

Definition unit_tests `{Arch} : list test :=
  AssemblerTests.assembler_tests ++ CompilerTests.compiler_tests ++ VerifyTests.verify_tests
  ++ CoreDetectTests.core_detect_tests ++ RingbufTests.ringbuf_tests.

(** The tests with the longest patterns, from the closed form of the program. *)
Lemma long_patterns_pass `{Arch} :
  CompilerTests.max_length_pattern_compiles = Ok ()
  /\ CompilerTests.two_hundred_fifty_six_byte_identity_pattern_compiles = Ok ()
  /\ VerifyTests.literal_count_matches_compiled_program_length = Ok ().
Proof.
  assert (Hlen : forall pattern n, vec_len pattern = n -> 0 < n <= MAX_BPF_PATTERN_LEN ->
    (prog ← compile_literal_search pattern; assert (vec_len pattern <? vec_len prog)) = Ok ()).
  { intros pattern n Hl Hn. rewrite compile_literal_search_program by lia.
    rewrite Ok_bind, literal_program_len, Hl. apply assert_true.
    rewrite (proj2 (Z.eqb_neq _ _)) by lia. lia. }
  split_and!; [apply (Hlen _ MAX_BPF_PATTERN_LEN); by vm_compute|apply (Hlen _ 256); by vm_compute|].
  assert (Hcount : forall len, 0 < len <= MAX_BPF_PATTERN_LEN ->
    (prog ← unwrap (compile_literal_search (vec_repeat (chr "a") len));
     count ← literal_search_instruction_count len;
     assert_eq count (vec_len prog)) = Ok (E := CompileError) ()).
  { unfold MAX_BPF_PATTERN_LEN. intros len Hl.
    rewrite compile_literal_search_program by (unfold MAX_BPF_PATTERN_LEN; rewrite vec_len_repeat; lia).
    cbn [unwrap]. rewrite Ok_bind, literal_program_len, vec_len_repeat by lia.
    unfold literal_search_instruction_count. rewrite (proj2 (Z.eqb_neq _ _)) by lia. mach.
    apply assert_true, bool_decide_eq_true_2. lia. }
  apply for_each_passes. repeat apply Forall_cons_2; [by apply Hcount..|by apply Forall_nil].
Qed.

(** Every unit test of the crate that makes no system call passes on the model, on 32-bit
    and 64-bit targets, with and without overflow checks: 48 tests, no failed assertion
    and no error. *)
Theorem unit_tests_pass (A : Arch) : unit_tests = replicate 48 (Ok ()).
Proof.
  unfold unit_tests, CompilerTests.compiler_tests. destruct long_patterns_pass as (-> & -> & Hcount).
  unfold VerifyTests.verify_tests. rewrite Hcount.
  destruct A as [? [->| ->] [|]]; vm_compute; reflexivity.
Qed.
