(* ===== verification/RingSafety.v ===== *)
(** * Memory safety of the ring consumer against a hostile kernel

    [consume_ring_records] (src/src/loader/ringbuf.rs) builds references and slices
    from positions and lengths it reads in memory that the kernel, or any process
    that maps the ring, can change at any time.  Here every access to that memory
    is recorded, and its answer is taken from an arbitrary oracle: whatever the
    shared memory contains and however it changes between two accesses, the
    consumer stays inside its mappings. *)

From S2P Require Import Prelude Str Os Ringbuf.

(** ** The hostile system *)

Inductive access :=
| Load64 (addr : Z)
| Store64 (addr : Z)
| Load32 (addr : Z)
| Read (addr len : Z).

Record hostile := mkHostile {
  clock : nat;
  trace : list access;
}.

Section oracle.
  Context (oracle : nat -> Z) (oracle_bytes : nat -> list Z).

(** One access: it is recorded, and time passes. *)
Definition observe (a : access) (k : hostile) : hostile := mkHostile (S (clock k)) (trace k ++ [a]).

Definition answer (k : hostile) : Z * hostile := (oracle (clock k), mkHostile (S (clock k)) (trace k)).

#[export] Instance hostile_os : Os hostile := {
  errno k := oracle (clock k);
  strerror _ := [];
}.

#[export] Instance hostile_syscalls : RingSyscalls hostile := {
  ring_target := x86_64;
  bpf_map_create _ _ _ _ := answer;
  bpf_obj_get_info _ _ _ _ k := let '(rc, k) := answer k in ((rc, zeroed_info), k);
  sysconf_pagesize := answer;
  mmap _ _ _ _ _ _ := answer;
  munmap _ _ := answer;
  close _ := answer;
  epoll_create1 _ := answer;
  epoll_ctl _ _ _ _ := answer;
  epoll_wait _ _ _ := answer;
  load_u64 a _ k := (wrap_u 64 (oracle (clock k)), observe (Load64 a) k);
  store_u64 a v _ k := ((), observe (Store64 a) k);
  load_u32 a _ k := (wrap_u 32 (oracle (clock k)), observe (Load32 a) k);
  read_bytes a len k := (oracle_bytes (clock k), observe (Read a len) k);
  eprintln _ k := ((), k);
  MAP_FAILED := -1;
  PROT_READ := 1;
  PROT_WRITE := 2;
  MAP_SHARED := 1;
  EPOLL_CLOEXEC := 0;
  EPOLLIN := 1;
  EPOLL_CTL_ADD := 1;
}.

(** ** Accesses inside the mappings *)

(** The positions are read and written in the two position words only; a header
    ([size_of::<RingbufHeader>()] is 8) and a slice lie inside the doubly mapped
    data, and a header is aligned when [aligned] says that the positions are. *)
Definition access_ok (c : RingbufConsumer) (aligned : bool) (a : access) : Prop :=
  match a with
  | Load64 addr => addr = consumer_mapping c \/ addr = producer_mapping c
  | Store64 addr => addr = consumer_mapping c
  | Load32 addr => exists off, addr = data_ptr c + off
      /\ 0 <= off /\ off + BPF_RINGBUF_HDR_SZ <= 2 * (mask c + 1)
      /\ (aligned = true -> off mod 8 = 0)
  | Read addr len => exists off, addr = data_ptr c + off
      /\ 0 <= off /\ 0 <= len /\ off + len <= 2 * (mask c + 1)
  end.

(** The masks [RingbufConsumer::new] builds from the size of a ring. *)
Definition mask_ok `{Arch} (c : RingbufConsumer) : Prop :=
  exists n, 3 <= n /\ mask c = 2 ^ n - 1 /\ 2 * 2 ^ n <= usize_max.

Section triples.
  Context `{Arch} (c : RingbufConsumer) (aligned : bool).

(** The accesses of [m] are inside the mappings, and its result satisfies [Q]. *)
Definition triple {A} (m : io IoError (proc hostile) A) (Q : A -> Prop) : Prop :=
  forall p r p', m p = (r, p') ->
    (exists new, trace (sys p') = trace (sys p) ++ new /\ Forall (access_ok c aligned) new)
    /\ (forall a, r = Ok a -> Q a).

Lemma triple_lift {A} (r : res IoError A) (Q : A -> Prop) :
  (forall a, r = Ok a -> Q a) -> triple (lift r) Q.
Proof.
  intros HQ p r' p' [= <- <-]. split; [|done]. exists []. by rewrite app_nil_r.
Qed.

Lemma triple_ret {A} (a : A) (Q : A -> Prop) : Q a -> triple (mret a) Q.
Proof. intros HQ. apply (triple_lift (Ok a)). by intros ? [= <-]. Qed.

Lemma triple_bind {A B} (m : io IoError (proc hostile) A) (f : A -> io IoError (proc hostile) B) Q R :
  triple m Q -> (forall a, Q a -> triple (f a) R) -> triple (m ≫= f) R.
Proof.
  intros Hm Hf p r p' Hrun. unfold mbind, io_bind in Hrun.
  destruct (m p) as [ra p1] eqn:Ha. destruct (Hm _ _ _ Ha) as [(new & Hnew & Hok) HQ].
  destruct ra as [a|e| |]; [|injection Hrun as <- <-; split; [by exists new|done]..].
  destruct (Hf a (HQ a eq_refl) _ _ _ Hrun) as [(new' & Hnew' & Hok') HR]. split; [|done].
  exists (new ++ new'). rewrite Hnew', Hnew, app_assoc. split; [done|by apply Forall_app].
Qed.

Lemma triple_call {A} (f : hostile -> A * hostile) a (Q : A -> Prop) :
  (forall k, trace (f k).2 = trace k ++ [a] /\ Q (f k).1) -> access_ok c aligned a ->
  triple (call f) Q.
Proof.
  intros Hf Ha p r p'. unfold call, syscall, on_sys. destruct (Hf (sys p)) as [Ht HQ].
  destruct (f (sys p)) as [v k]. intros [= <- <-]. split; [exists [a]|]; [|by intros ? [= <-]].
  split; [done|by repeat constructor].
Qed.

Lemma triple_eprintln s : triple (call (eprintln s)) (fun _ => True).
Proof. intros p r p' [= <- <-]. split; [exists []; by rewrite app_nil_r|done]. Qed.

(** ** The consumer *)

Context (Hmask : mask_ok c).
Context {C : Type} (callback : C -> list Z -> C).

(** A position whose alignment is as announced. *)
Definition pos_ok (pos : Z) : Prop := 0 <= pos < 2 ^ 64 /\ (aligned = true -> pos mod 8 = 0).

(** The offset of a position. *)
Lemma offset_ok pos : pos_ok pos ->
  let off := Z.land (as_usize pos) (mask c) in
  0 <= off <= mask c /\ (aligned = true -> off mod 8 = 0).
Proof.
  intros [Hpos Hal]. cbv zeta. destruct Hmask as (n & Hn & -> & _).
  assert (0 < 2 ^ n) by (apply Z.pow_pos_nonneg; lia).
  replace (2 ^ n - 1) with (Z.ones n) by (rewrite Z.ones_equiv; lia).
  rewrite Z.land_ones by lia. rewrite Z.ones_equiv.
  pose proof (Z.mod_pos_bound (as_usize pos) (2 ^ n)). split; [lia|]. intros Ha.
  rewrite Z.mod_mod_divide by (exists (2 ^ (n - 3)); change 8 with (2 ^ 3);
    rewrite <- Z.pow_add_r by lia; f_equal; lia).
  unfold as_usize, wrap_u. rewrite Z.mod_mod_divide; [by apply Hal|].
  by destruct usize_bits_ok as [-> | ->]; [exists (2 ^ 29)|exists (2 ^ 61)].
Qed.

(** The next position. *)
Lemma next_pos_ok pos len : pos_ok pos -> 0 <= len <= usize_max ->
  forall pos', u_arith (E := IoError) 64 (pos + wrap_u 64 (round_record_len len)) = Ok pos' ->
  pos_ok pos'.
Proof.
  intros [Hpos Hal] Hlen pos' Hpos'.
  assert (Hr : round_record_len len mod 8 = 0).
  { unfold round_record_len. rewrite land_not_7; [by rewrite Z.mul_comm, Z.mod_mul|].
    unfold usize_saturating_add, BPF_RINGBUF_HDR_SZ. pose proof usize_pow_ge.
    unfold usize_max in *. lia. }
  assert (Hmod : forall z, wrap_u 64 z mod 8 = z mod 8).
  { intros z. unfold wrap_u. apply Z.mod_mod_divide. by exists (2 ^ 61). }
  unfold u_arith, in_u in Hpos'. set (sum := pos + wrap_u 64 (round_record_len len)) in *.
  assert (Hsum : aligned = true -> sum mod 8 = 0).
  { intros Ha. specialize (Hal Ha). unfold sum. rewrite Z.add_mod, Hal, Hmod, Hr by lia. done. }
  destruct (Z.leb_spec 0 sum), (Z.ltb_spec sum (2 ^ 64)), overflow_checks;
    cbn in Hpos'; simplify_eq; (split; [first [lia|apply (wrap_u_range 64); lia]|]);
    intros; rewrite ?Hmod; auto.
Qed.

Lemma triple_deliver off raw_len len x :
  0 <= off <= mask c -> 0 <= len <= usize_max ->
  triple (deliver c callback off raw_len len x) (fun _ => True).
Proof.
  intros Hoff Hlen. unfold deliver. destruct (_ =? 0); [|by apply triple_ret].
  destruct Hmask as (n & Hn & Hm & Hmax).
  assert (8 <= 2 ^ n) by (change 8 with (2 ^ 3); apply Z.pow_le_mono_r; lia).
  apply triple_bind with (Q := fun a => a = off + 8).
  { apply triple_lift. intros a. unfold usize_add, BPF_RINGBUF_HDR_SZ.
    rewrite u_arith_ok by (unfold usize_max in Hmax; lia). congruence. }
  intros ? ->. unfold usize_checked_add at 1. rewrite (proj2 (Z.leb_le (mask c + 1) _)) by lia.
  destruct (record_within_mapping (off + 8) len (mask c + 1)) eqn:Hin; cbn [negb].
  - apply record_within_mapping_iff in Hin; [|lia..].
    eapply triple_bind; [|intros a _; by apply triple_ret].
    apply (triple_call _ (Read (data_ptr c + (off + 8)) len) (fun _ => True)); [done|].
    exists (off + 8). split_and!; (done || lia).
  - eapply triple_bind; [apply triple_eprintln|]. intros. by apply triple_ret.
Qed.

Lemma triple_store pos : triple (store_consumer_pos c pos) (fun _ => True).
Proof. by apply (triple_call _ (Store64 (consumer_mapping c))). Qed.

Lemma triple_inner fuel pos prod any x : pos_ok pos ->
  triple (consume_inner c callback fuel pos prod any x)
    (fun f => match f with Done pos' _ _ => pos_ok pos' | Return _ => True end).
Proof.
  revert pos any x. induction fuel as [|fuel IH]; intros pos any x Hpos; cbn [consume_inner].
  { by apply triple_lift. }
  destruct (pos <? prod); [|by apply triple_ret]. cbv zeta.
  destruct (offset_ok pos Hpos) as [Hoff Hal]. set (off := Z.land (as_usize pos) (mask c)) in *.
  apply triple_bind with (Q := fun _ => True).
  { apply (triple_call _ (Load32 (data_ptr c + off))); [done|]. exists off.
    destruct Hmask as (n & Hn & Hm & _). unfold BPF_RINGBUF_HDR_SZ.
    assert (8 <= 2 ^ n) by (change 8 with (2 ^ 3); apply Z.pow_le_mono_r; lia).
    split_and!; (done || lia). }
  intros raw_len _. destruct (negb (Z.land raw_len BPF_RINGBUF_BUSY_BIT =? 0)).
  { eapply triple_bind; [apply triple_store|]. intros. by apply triple_ret. }
  set (len := as_usize _).
  assert (Hlen : 0 <= len <= usize_max).
  { unfold len, as_usize, usize_max. pose proof usize_bits_ge_32.
    match goal with |- 0 <= wrap_u _ ?z <= _ => pose proof (wrap_u_range usize_bits z) end. lia. }
  eapply triple_bind; [by apply triple_deliver|]. intros [x'|] _.
  - eapply triple_bind; [apply triple_lift, (next_pos_ok pos len Hpos Hlen)|]. intros pos' Hpos'.
    eapply triple_bind; [apply triple_store|]. intros. by apply IH.
  - eapply triple_bind; [apply triple_store|]. intros. by apply triple_ret.
Qed.

Lemma triple_outer fuel pos x : pos_ok pos ->
  triple (consume_outer c callback fuel pos x) (fun _ => True).
Proof.
  revert pos x. induction fuel as [|fuel IH]; intros pos x Hpos; cbn [consume_outer].
  { by apply triple_lift. }
  apply triple_bind with (Q := fun _ => True).
  { apply (triple_call _ (Load64 (producer_mapping c))); [done|]. by right. }
  intros prod _. eapply triple_bind; [by apply triple_inner|]. intros [x'|pos' any x'] Hf.
  - by apply triple_ret.
  - destruct any; cbn [negb]; [by apply IH|by apply triple_ret].
Qed.
End triples.
End oracle.

(** C6. Whatever the shared memory holds and however it changes, every access of
    [consume_ring_records] is inside the consumer's mappings: the position words,
    an 8-byte header or a slice of the doubly mapped data.  Headers are moreover
    aligned to 8 when the first position read is.  The oracle answers every load,
    the trace has every access made up to any number of iterations. *)
Theorem consume_ring_records_memory_safe `{Arch} oracle oracle_bytes c {C}
    (callback : C -> list Z -> C) fuel x :
  mask_ok c ->
  Forall (access_ok c (wrap_u 64 (oracle 0%nat) mod 8 =? 0))
    (trace (sys (consume_ring_records (H1 := hostile_syscalls oracle oracle_bytes)
                   c callback fuel x (mkProc (mkHostile 0 []) None)).2)).
Proof.
  intros Hmask. unfold consume_ring_records.
  rewrite (io_bind_run _ _ _ (wrap_u 64 (oracle 0%nat))
    (mkProc (mkHostile 1 [Load64 (consumer_mapping c)]) None)) by done.
  destruct (consume_outer _ _ _ _ _ _) as [r p'] eqn:Hrun.
  apply (triple_outer oracle oracle_bytes c (wrap_u 64 (oracle 0%nat) mod 8 =? 0))
    in Hrun as [(new & Hnew & Hok) _]; [|done|].
  - cbn [snd]. rewrite Hnew. constructor; [by left|done].
  - split; [apply wrap_u_range; lia|]. by intros ->%Z.eqb_eq.
Qed.

(** ** Witness *)

(** A 4 KiB ring, and a kernel that answers every load with a length far outside
    the mapping. *)
Definition demo_consumer : RingbufConsumer := mkRingbufConsumer 4096 8192 12288 12288 4095 4096.
Definition demo_oracle (t : nat) : Z := match t with O => 8 | 1%nat => 2 ^ 40 | _ => 2 ^ 30 - 1 end.

Lemma consume_ring_records_memory_safe_witness :
  Forall (access_ok demo_consumer true)
    (trace (sys (consume_ring_records (H := arch64_debug)
                   (H1 := hostile_syscalls demo_oracle (fun _ => []))
                   demo_consumer (fun n _ => S n) 10 0%nat (mkProc (mkHostile 0 []) None)).2)).
Proof.
  apply (consume_ring_records_memory_safe (H := arch64_debug) demo_oracle).
  exists 12. split_and!; vm_compute; congruence.
Defined.

(** The same run, evaluated: one header is read, its length is refused, and the
    position is published unchanged. *)
Example hostile_run :
  trace (sys (consume_ring_records (H := arch64_debug)
                (H1 := hostile_syscalls demo_oracle (fun _ => []))
                demo_consumer (fun n _ => S n) 10 0%nat (mkProc (mkHostile 0 []) None)).2)
  = [Load64 4096; Load64 8192; Load32 12296; Store64 4096].
Proof. vm_compute. reflexivity. Qed.

(** The other theorems of [Ringbuf] on systems that answer from an oracle: a
    successful creation, and a wait that is interrupted once. *)
Lemma create_ringbuf_spec_witness :
  create_ringbuf (H0 := hostile_os (fun _ => 3)) (H1 := hostile_syscalls (fun _ => 3) (fun _ => []))
    4096 (mkProc (mkHostile 0 []) None)
  = (Ok 3, mkProc (mkHostile 1 []) None).
Proof.
  apply (proj1 (create_ringbuf_spec (H0 := hostile_os (fun _ => 3))
    (H1 := hostile_syscalls (fun _ => 3) (fun _ => [])) 4096 (mkProc (mkHostile 0 []) None)
    ltac:(lia))) with (fd := 3); [by exists 12|reflexivity|lia].
Defined.

Definition interrupted_once (t : nat) : Z := match t with O => -1 | 1%nat => EINTR | _ => 0 end.

Lemma epoll_wait_retries_witness :
  EpollFd_wait (H0 := hostile_os interrupted_once)
    (H1 := hostile_syscalls interrupted_once (fun _ => [])) 2 5 (mkProc (mkHostile 0 []) None)
  = (Ok (), mkProc (mkHostile 2 []) None).
Proof.
  apply (epoll_wait_retries (H0 := hostile_os interrupted_once)
    (H1 := hostile_syscalls interrupted_once (fun _ => [])) 5 1 _ (mkHostile 1 []) 4 _ None);
    [|reflexivity|unfold EINTR; cbn; lia|lia].
  eapply interrupted_S; [reflexivity|done|reflexivity|constructor].
Defined.
