(* ===== verification/LoaderTests.v ===== *)
(** * Unit tests that make system calls

    The tests of src/src/loader/prog.rs and src/src/loader/ringbuf.rs that call the
    kernel, as computations on any system.  The first theorem says on which systems they
    pass.  [epoll_wait_retries_on_eintr] sends a signal from a second thread and reads
    the clock: its theorem is about a system with threads, signals and time, and covers
    every way the two threads and the signal can meet. *)

From S2P Require Import Prelude Assembler Str Compare LiteralSearch Os Prog Ringbuf.
From S2P Require Import Testing UnitTests RingSafety.

(** [Result::unwrap_err] of a call. *)
Definition io_unwrap_err {E F os A} (m : io E os A) : io F os E := fun k =>
  let '(r, k) := m k in (unwrap_err r, k).

(** The [Result] of a call, for a [match] on it. *)
Definition io_result {E F os A} (m : io E os A) : io F os (res E A) := fun k =>
  let '(r, k) := m k in (Ok r, k).

(** ** src/src/loader/prog.rs *)

Section prog_tests.
  Context {os} `{Os os} `{ProgSyscalls os}.

Definition minimal_insns : list BpfInsn :=
  [new (Z.lor (Z.lor BPF_ALU64 BPF_MOV) BPF_K) R0 0 0 0; new (Z.lor BPF_JMP BPF_EXIT) 0 0 0 0].

Definition load_filter_includes_verifier_log_in_error : io Empty_set os unit :=
  err ← io_unwrap_err (load_filter minimal_insns);
  let msg := display err in
  lift (assert (str_contains "BPF verifier log:" msg)).

Definition load_filter_rejects_empty_program : io Empty_set os unit :=
  err ← io_unwrap_err (load_filter []);
  lift (assert_eq (kind err) InvalidInput).
End prog_tests.

(** ** src/src/loader/ringbuf.rs *)

Section ringbuf_tests.
  Context `{Arch} {os} `{Os os} `{RingSyscalls os}.

Definition raw_os_error (e : IoError) : option Z :=
  match e with OsError n => Some n | CustomError _ _ => None end.

(** The numbers of [EINVAL], [EPERM], [ENOSYS] and [EOPNOTSUPP] on Linux. *)
Definition expected_errnos : list Z := [22; 1; 38; 95].

Definition create_ringbuf_rejects_non_power_of_two_sizes : io Empty_set (proc os) unit :=
  r ← io_result (create_ringbuf 3);
  error ← (match r with
           | Ok fd =>
               _ ← syscall (on_sys (close fd));
               mret (CustomError Other
                       (bytes "create_ringbuf unexpectedly accepted a non-power-of-two size"))
           | Err error => mret error
           | Panic => lift Panic
           | OutOfFuel => lift OutOfFuel
           end);
  lift (assert_eq (kind error) InvalidInput).

Definition create_ringbuf_gracefully_handles_kernel_support : io Empty_set (proc os) unit :=
  r ← io_result (create_ringbuf 4096);
  match r with
  | Ok fd =>
      close_rc ← syscall (on_sys (close fd));
      lift (assert_eq close_rc 0)
  | Err error =>
      lift (assert (match raw_os_error error with
                    | Some code => existsb (Z.eqb code) expected_errnos
                    | None => false
                    end))
  | Panic => lift Panic
  | OutOfFuel => lift OutOfFuel
  end.
End ringbuf_tests.

(** ** The test with a signal *)

(** What the second thread does. *)
Inductive thread_op := Sleep (ms : Z) | Kill (sig : Z) | WriteU64 (fd value : Z).

(** The further calls of this test.  [thread_spawn] starts a thread, [thread_join] waits
    for its end and tells whether its assertions held. *)
Class SignalSyscalls (os : Type) := {
  eventfd : Z -> Z -> os -> Z * os;
  signal : Z -> Z -> os -> Z * os;
  instant_now : os -> Z * os;                      (* in milliseconds *)
  thread_spawn : list thread_op -> os -> () * os;
  thread_join : os -> bool * os;
  EFD_CLOEXEC : Z;
  SIGUSR1 : Z;
  SIG_ERR : Z;
  noop_signal_handler : Z;
}.

Section signal_test.
  Context {os} `{Os os} `{RingSyscalls os} `{SignalSyscalls os}.

Definition io_expect {E F os' A} (m : io E os' A) : io F os' A := fun k =>
  let '(r, k) := m k in
  (match r with Ok a => Ok a | OutOfFuel => OutOfFuel | Err _ | Panic => Panic end, k).

Definition is_ok {E A} (r : res E A) : bool := match r with Ok _ => true | _ => false end.

(** [elapsed >= Duration::from_millis(ms)]. *)
Definition elapsed_ge (start end_ ms : Z) : bool := ms <=? end_ - start.

Definition sys_call {A} (f : os -> A * os) : io Empty_set (proc os) A := syscall (on_sys f).

Definition epoll_wait_retries_on_eintr (fuel : nat) : io Empty_set (proc os) unit :=
  efd ← sys_call (eventfd 0 EFD_CLOEXEC);
  _ ← lift (assert (0 <=? efd));
  old ← sys_call (signal SIGUSR1 noop_signal_handler);
  _ ← lift (assert (negb (old =? SIG_ERR)));
  epoll ← io_expect EpollFd_new;
  with_drop (EpollFd_drop epoll) (
    _ ← io_expect (EpollFd_add epoll efd);
    start ← sys_call instant_now;
    _ ← sys_call (thread_spawn [Sleep 10; Kill SIGUSR1; Sleep 10; WriteU64 efd 1]);
    result ← io_result (EpollFd_wait fuel epoll);
    _ ← lift (assert (is_ok result));
    joined ← sys_call thread_join;
    _ ← lift (assert joined);
    end_ ← sys_call instant_now;
    _ ← lift (assert (elapsed_ge start end_ 15));
    _ ← sys_call (signal SIGUSR1 old);
    _ ← sys_call (close efd);
    mret ()).
End signal_test.

(** A system with two threads.  The second one runs when the first one blocks or joins
    it, or before: [lead] of its operations happen before the first [epoll_wait].
    Every sleep takes [delay] more than asked.  A signal to the process goes to the
    first thread, and interrupts its wait, or to the second. *)
Module Timed.

Record state := mkState {
  now : Z;
  handler : Z;
  counter : Z;
  watched : bool;
  thread : list thread_op;
  thread_ok : bool;
  st_errno : Z;
  lead : nat;
  delay : Z;
  to_first : bool;
}.

Definition SIGUSR1_number : Z := 10.
Definition handler_address : Z := 4096.

Definition sleep_until (now ms delay : Z) : Z := now + ms + delay.

(** One operation of the second thread; the flag tells whether a signal reached the
    first thread. *)
Definition thread_step (op : thread_op) (k : state) : bool * state :=
  match op with
  | Sleep ms =>
      (false, mkState (sleep_until (now k) ms (delay k)) (handler k) (counter k) (watched k) (thread k)
                (thread_ok k) (st_errno k) (lead k) (delay k) (to_first k))
  | Kill sig =>
      (to_first k && (sig =? SIGUSR1_number),
       mkState (now k) (handler k) (counter k) (watched k) (thread k)
         (thread_ok k && (handler k =? handler_address)) (st_errno k) (lead k) (delay k) (to_first k))
  | WriteU64 fd value =>
      (false, mkState (now k) (handler k) (counter k + value) (watched k) (thread k)
                (thread_ok k && (fd =? 3)) (st_errno k) (lead k) (delay k) (to_first k))
  end.

Definition set_thread (k : state) (l : list thread_op) : state :=
  mkState (now k) (handler k) (counter k) (watched k) l (thread_ok k) (st_errno k) (lead k)
    (delay k) (to_first k).

(** The first [n] operations. *)
Fixpoint thread_run (n : nat) (l : list thread_op) (k : state) {struct l} : state :=
  match l, n with
  | op :: l, S n => thread_run n l (thread_step op k).2
  | _, _ => set_thread k l
  end.

(** The first thread waits: [EINTR] when a signal reaches it, 1 when the counter of the
    event descriptor is not zero. *)
Fixpoint thread_wait (l : list thread_op) (k : state) : Z * state :=
  if 0 <? counter k then (1, set_thread k l)
  else match l with
       | [] => (0, set_thread k [])
       | op :: l =>
           let '(interrupted, k) := thread_step op k in
           if interrupted then
             (-1, mkState (now k) (handler k) (counter k) (watched k) l (thread_ok k) EINTR (lead k)
                    (delay k) (to_first k))
           else thread_wait l k
       end.

Definition wait (k : state) : Z * state :=
  let k := thread_run (lead k) (thread k) k in
  let k := mkState (now k) (handler k) (counter k) (watched k) (thread k) (thread_ok k) (st_errno k)
             0 (delay k) (to_first k) in
  if watched k then thread_wait (thread k) k else (0, k).

#[export] Instance timed_os : Os state := { errno := st_errno; strerror _ := [] }.

#[export] Instance timed_syscalls : RingSyscalls state := {
  ring_target := x86_64;
  bpf_map_create _ _ _ _ k := (-1, k);
  bpf_obj_get_info _ _ _ _ k := ((-1, zeroed_info), k);
  sysconf_pagesize k := (4096, k);
  mmap _ _ _ _ _ _ k := (-1, k);
  munmap _ _ k := (0, k);
  close _ k := (0, k);
  epoll_create1 _ k := (4, k);
  epoll_ctl epfd op fd event k :=
    (0, mkState (now k) (handler k) (counter k) ((epfd =? 4) && (fd =? 3)) (thread k) (thread_ok k)
          (st_errno k) (lead k) (delay k) (to_first k));
  epoll_wait _ _ _ := wait;
  load_u64 _ _ k := (0, k);
  store_u64 _ _ _ k := ((), k);
  load_u32 _ _ k := (0, k);
  read_bytes _ _ k := ([], k);
  eprintln _ k := ((), k);
  MAP_FAILED := -1;
  PROT_READ := 1;
  PROT_WRITE := 2;
  MAP_SHARED := 1;
  EPOLL_CLOEXEC := 0;
  EPOLLIN := 1;
  EPOLL_CTL_ADD := 1;
}.

#[export] Instance timed_signals : SignalSyscalls state := {
  eventfd v _ k :=
    (3, mkState (now k) (handler k) v (watched k) (thread k) (thread_ok k) (st_errno k) (lead k)
          (delay k) (to_first k));
  signal sig h k :=
    (handler k, mkState (now k) h (counter k) (watched k) (thread k) (thread_ok k) (st_errno k)
                  (lead k) (delay k) (to_first k));
  instant_now k := (now k, k);
  thread_spawn l k := ((), set_thread k l);
  thread_join k := let k := thread_run (length (thread k)) (thread k) k in (thread_ok k, k);
  EFD_CLOEXEC := 0;
  SIGUSR1 := SIGUSR1_number;
  SIG_ERR := -1;
  noop_signal_handler := handler_address;
}.

Definition boot (t d : Z) (n : nat) (first : bool) : state :=
  mkState t 0 0 false [] true 0 n d first.
End Timed.
#[export] Existing Instances Timed.timed_os Timed.timed_syscalls Timed.timed_signals.

(** ** Theorems *)

(** The test of interrupted waits passes whenever the second thread is started, however
    far it gets before the first one waits, however long its sleeps take, and
    whichever thread the signal goes to: [wait] is called at most twice. *)
Theorem epoll_wait_retries_on_eintr_passes t d n first :
  0 <= d ->
  (epoll_wait_retries_on_eintr 2 (mkProc (Timed.boot t d n first) None)).1 = Ok ().
Proof.
  intros Hd.
  assert (Hend : elapsed_ge t (Timed.sleep_until (Timed.sleep_until t 10 d) 10 d) 15 = true).
  { unfold elapsed_ge, Timed.sleep_until. lia. }
  destruct n as [|[|[|[|n]]]], first; lazy -[elapsed_ge Timed.sleep_until]; by rewrite Hend.
Qed.

Section theorems.
  Context `{Arch} {os} `{Os os} `{ProgSyscalls os} {ros} `{Os ros} `{RingSyscalls ros}.

(** On which systems the tests with system calls pass.  The two tests of refused
    arguments pass on every system, without a call.  The test of the verifier log passes
    exactly when the kernel refuses its (valid) program, whatever the log is: a process
    that may load programs fails it.  The test of ring creation passes when the new
    ring can be closed, or when the kernel refuses with one of the four expected
    numbers. *)
Theorem loader_tests_outcome :
  (forall k : os, load_filter_rejects_empty_program k = (Ok (), k))
  /\ (forall p : proc ros, create_ringbuf_rejects_non_power_of_two_sizes p = (Ok (), p))
  /\ (forall (k : os) fd log k',
        bpf_prog_load (@SYS_BPF prog_target) BPF_PROG_LOAD (load_attr minimal_insns)
          (@sizeof_BpfAttrProgLoad prog_target) k
          = ((fd, log), k') ->
        load_filter_includes_verifier_log_in_error k = (assert (fd <? 0), k'))
  /\ (forall (p : proc ros) fd k1 rc k2,
        bpf_map_create (@SYS_BPF ring_target) BPF_MAP_CREATE
          (mkBpfAttrMapCreate BPF_MAP_TYPE_RINGBUF 0 0 4096 0 0 0 (replicate 16 0) 0 0 0 0 0 0)
          (@sizeof_BpfAttrMapCreate ring_target) (sys p) = (fd, k1) ->
        fd < 2 ^ 31 -> close fd k1 = (rc, k2) ->
        create_ringbuf_gracefully_handles_kernel_support p
        = if fd <? 0 then (assert (existsb (Z.eqb (errno k1)) expected_errnos), mkProc k1 (CACHE p))
          else (assert_eq rc 0, mkProc k2 (CACHE p))).
Proof.
  split_and!; [done|done| |].
  - intros k fd log k' Hk. unfold load_filter_includes_verifier_log_in_error.
    pose proof (load_filter_run minimal_insns k fd log k' ltac:(done) Hk) as Hrun.
    unfold mbind, io_bind, io_unwrap_err. rewrite Hrun. destruct (fd <? 0); [|done].
    cbn [unwrap_err]. unfold lift, str_contains. f_equal. apply assert_true, contains_spec.
    exists (display (os := os) (OsError (errno k')) ++ bytes " -- "), (bytes " " ++ shown_log log).
    cbn [display]. by rewrite <- !app_assoc.
  - intros p fd k1 rc k2 Hk Hfd Hc. unfold create_ringbuf_gracefully_handles_kernel_support.
    unfold mbind, io_bind, io_result.
    rewrite (create_ringbuf_run 4096 p fd k1) by done. destruct (Z.ltb_spec fd 0); [done|].
    rewrite wrap_s_small by lia. unfold syscall, on_sys. cbn [sys CACHE]. by rewrite Hc.
Qed.
End theorems.

(** ** Witnesses *)

(** A wait that is interrupted: [wait] is called twice, and once is not enough. *)
Lemma epoll_wait_retries_on_eintr_passes_witness :
  (epoll_wait_retries_on_eintr 2 (mkProc (Timed.boot 100 3 0 true) None)).1 = Ok ()
  /\ (epoll_wait_retries_on_eintr 1 (mkProc (Timed.boot 100 3 0 true) None)).1 <> Ok ().
Proof. split; [by apply epoll_wait_retries_on_eintr_passes|by vm_compute]. Defined.

Import DemoKernel.

(** A kernel that loads the program, and one that refuses a ring with [EPERM]. *)
Definition refuses_ring (t : nat) : Z := match t with O => -1 | _ => 1 end.

Lemma loader_tests_outcome_witness :
  (load_filter_includes_verifier_log_in_error DemoKernel.boot).1 = Panic
  /\ create_ringbuf_gracefully_handles_kernel_support (H0 := hostile_os refuses_ring)
       (H1 := hostile_syscalls refuses_ring (fun _ => [])) (mkProc (mkHostile 0 []) None)
     = (Ok (), mkProc (mkHostile 1 []) None).
Proof.
  destruct (loader_tests_outcome (os := DemoKernel.state) (H2 := hostile_os refuses_ring)
    (H3 := hostile_syscalls refuses_ring (fun _ => []))) as (_ & _ & Hlog & Hring).
  split.
  - rewrite (Hlog DemoKernel.boot 0 (replicate (Z.to_nat (16 * 1024)) 0)
      (DemoKernel.mkState 0 (<[0 := minimal_insns]> ∅) ∅)) by (vm_compute; reflexivity). reflexivity.
  - by rewrite (Hring _ (-1) (mkHostile 1 []) 1 (mkHostile 2 [])).
Defined.
