(* ===== verification/TestSuites.v ===== *)
(** * The tests of the compilers under src/tests

    The tests of src/tests/break_it.rs, src/tests/shard_s_perf_pmg_edge.rs,
    src/tests/unit/compiler.rs, src/tests/adversarial/compiler.rs,
    src/tests/concurrent/stress.rs and, as far as they make no system call,
    src/tests/adversarial/overflow.rs, as computations on the model.  The threads of a
    concurrent test share nothing, so they are run one after the other.  Tests with small
    inputs are evaluated; tests with large ones (up to 1 MiB) follow from the theorems on
    the compilers. *)

From S2P Require Import Prelude Assembler Utf8 Str Verify Codegen LiteralSearch CharClass Alternation Compiled.
From S2P Require Import Testing UnitTests.

(** ** Shared assertions *)

(** [assert!(r.is_ok())]. *)
Definition assert_is_ok {A} (r : res CompileError A) : test :=
  match r with Ok _ => Ok () | Err _ | Panic => Panic | OutOfFuel => OutOfFuel end.

Definition assert_is_err {A} (r : res CompileError A) : test :=
  match r with Err _ => Ok () | Ok _ | Panic => Panic | OutOfFuel => OutOfFuel end.

(** [assert!(matches!(r, Err(CompileError::PatternTooLong { .. })))], and the other variant. *)
Definition assert_too_long {A} (r : res CompileError A) : test :=
  match r with
  | Err (PatternTooLong _ _) => Ok ()
  | Err (InvalidPattern _) | Ok _ | Panic => Panic
  | OutOfFuel => OutOfFuel
  end.

Definition assert_invalid {A} (r : res CompileError A) : test :=
  match r with
  | Err (InvalidPattern _) => Ok ()
  | Err (PatternTooLong _ _) | Ok _ | Panic => Panic
  | OutOfFuel => OutOfFuel
  end.

(** [prog.last().unwrap().code & 0xF0 == BPF_EXIT]. *)
Definition assert_ends_with_exit (prog : list BpfInsn) : test :=
  last ← unwrap_some (last prog);
  assert_eq (Z.land (code last) 0xF0) BPF_EXIT.

(** ** src/tests/break_it.rs *)

Module BreakIt.

Definition assert_has_fix (err : CompileError) : test :=
  let msg := CompileError_fmt err in
  assert (str_contains "Fix:" msg).

(** [match res { Ok(_) => panic!(..), Err(e) => assert_has_fix(&e) }]. *)
Definition must_fail {A} (r : res CompileError A) : test :=
  match r with
  | Err e => assert_has_fix e
  | Ok _ | Panic => Panic
  | OutOfFuel => OutOfFuel
  end.

(** [if let Err(e) = res { assert_has_fix(&e) }]. *)
Definition may_fail {A} (r : res CompileError A) : test :=
  match r with
  | Ok _ => Ok ()
  | Err e => assert_has_fix e
  | Panic => Panic
  | OutOfFuel => OutOfFuel
  end.

Section tests.
  Context `{Arch}.

Definition test_empty_literal : test := assert_is_ok (compile_literal_search (bytes "")).

Definition test_empty_character_class : test := assert_is_ok (compile_character_class (bytes "")).

Definition test_empty_alternation_slice : test := assert_is_ok (compile_alternation []).

Definition test_null_bytes_in_literal : test := assert_is_ok (compile_literal_search [0; 0; 0; 0]).

Definition test_null_bytes_in_character_class : test :=
  assert_is_ok (compile_character_class [0; chr "-"; 0]).

Definition test_null_bytes_in_alternation : test := assert_is_ok (compile_alternation [[0; 0]; [0]]).

Definition test_max_bpf_pattern_len_exact : test :=
  let pattern := vec_repeat (chr "A") MAX_BPF_PATTERN_LEN in
  assert_is_ok (compile_literal_search pattern).

Definition test_max_bpf_pattern_len_plus_one : test :=
  let pattern := vec_repeat (chr "A") (MAX_BPF_PATTERN_LEN + 1) in
  must_fail (compile_literal_search pattern).

Definition test_huge_1mb_literal : test :=
  let pattern := vec_repeat (chr "B") (1024 * 1024) in
  must_fail (compile_literal_search pattern).

Definition test_huge_1mb_alternation : test :=
  let item := vec_repeat (chr "C") 1024 in
  let items := vec_repeat item 1024 in
  must_fail (compile_alternation items).

Definition test_concurrent_compilation : test :=
  for_each (seq 0 8) (fun _ => assert_is_ok (compile_literal_search (bytes "concurrent_pattern"))).

Definition test_concurrent_huge_compilation : test :=
  for_each (seq 0 8) (fun _ =>
    let pattern := vec_repeat (chr "A") (MAX_BPF_PATTERN_LEN + 10) in
    must_fail (compile_literal_search pattern)).

Definition test_malformed_character_class_trailing_dash : test :=
  may_fail (compile_character_class (bytes "a-")).

Definition test_malformed_character_class_leading_dash : test :=
  may_fail (compile_character_class (bytes "-z")).

Definition test_malformed_character_class_reversed_range : test :=
  must_fail (compile_character_class (bytes "z-a")).

Definition test_malformed_character_class_multiple_dashes : test :=
  must_fail (compile_character_class (bytes "a--z")).

Definition test_unicode_bom : test := assert_is_ok (compile_literal_search [0xEF; 0xBB; 0xBF]).

Definition test_unicode_overlong_sequence : test :=
  assert_is_ok (compile_literal_search [0xC1; 0x81]).

Definition test_unicode_surrogate_half : test :=
  assert_is_ok (compile_literal_search [0xED; 0xA0; 0x80]).

(** The crab is U+1F980. *)
Definition test_unicode_character_class : test :=
  may_fail (compile_character_class (bytes "a-" ++ [0xF0; 0x9F; 0xA6; 0x80])).

Definition test_duplicate_character_class : test :=
  may_fail (compile_character_class (bytes "a-za-z0-90-9")).

Definition test_duplicate_alternation : test :=
  may_fail (compile_alternation [bytes "test"; bytes "test"; bytes "test"]).

Definition test_alternation_max_items : test :=
  may_fail (compile_alternation (vec_repeat (bytes "a") 1024)).

Definition test_character_class_max_ranges : test :=
  let pattern := concat (map (fun i => [Z.of_nat i; chr "-"; Z.of_nat i]) (seq 0 128)) in
  may_fail (compile_character_class pattern).

Definition test_resource_exhaustion_alternation : test :=
  let items := vec_repeat (bytes "a") 100000 in
  must_fail (compile_alternation items).

Definition test_resource_exhaustion_character_class_long : test :=
  let pattern := vec_repeat (chr "a") 100000 in
  must_fail (compile_character_class pattern).

Definition test_alternation_with_empty_and_max_len : test :=
  let max_len_pattern := vec_repeat (chr "A") MAX_BPF_PATTERN_LEN in
  may_fail (compile_alternation [bytes ""; max_len_pattern]).

Definition test_alternation_with_too_long_item : test :=
  let too_long := vec_repeat (chr "A") (MAX_BPF_PATTERN_LEN + 1) in
  may_fail (compile_alternation [bytes "test"; too_long]).

Definition test_compile_alternation_all_empty : test :=
  assert_is_ok (compile_alternation [bytes ""; bytes ""; bytes ""]).

Definition test_compile_character_class_only_dashes : test :=
  may_fail (compile_character_class (bytes "-----")).

Definition test_compile_literal_search_verifier_limit_stress : test :=
  let pattern := vec_repeat (chr "X") MAX_BPF_PATTERN_LEN in
  may_fail (compile_literal_search pattern).

Definition test_character_class_all_bytes : test :=
  may_fail (compile_character_class [0; chr "-"; 255]).

Definition test_alternation_long_strings : test :=
  let p1 := vec_repeat (chr "A") 512 in
  let p2 := vec_repeat (chr "B") 512 in
  may_fail (compile_alternation [p1; p2]).

(** The tests with small inputs, and those with large ones. *)
Definition break_it_tests : list test :=
  [test_empty_literal; test_empty_character_class; test_empty_alternation_slice;
   test_null_bytes_in_literal; test_null_bytes_in_character_class; test_null_bytes_in_alternation;
   test_concurrent_compilation; test_malformed_character_class_trailing_dash;
   test_malformed_character_class_leading_dash; test_malformed_character_class_reversed_range;
   test_malformed_character_class_multiple_dashes; test_unicode_bom;
   test_unicode_overlong_sequence; test_unicode_surrogate_half; test_unicode_character_class;
   test_duplicate_character_class; test_duplicate_alternation; test_character_class_max_ranges;
   test_compile_alternation_all_empty; test_compile_character_class_only_dashes;
   test_character_class_all_bytes].

Definition break_it_large_tests : list test :=
  [test_max_bpf_pattern_len_exact; test_max_bpf_pattern_len_plus_one; test_huge_1mb_literal;
   test_huge_1mb_alternation; test_concurrent_huge_compilation; test_alternation_max_items;
   test_resource_exhaustion_alternation; test_resource_exhaustion_character_class_long;
   test_alternation_with_empty_and_max_len; test_alternation_with_too_long_item;
   test_compile_literal_search_verifier_limit_stress; test_alternation_long_strings].
End tests.
End BreakIt.

(** ** src/tests/shard_s_perf_pmg_edge.rs *)

Module EdgeCatalog.
Section tests.
  Context `{Arch}.

(** The body of the loop of [assert_valid_jumps]; it does not except [BPF_CALL]. *)
Definition assert_valid_jump (program_len idx : Z) (insn : BpfInsn) : test :=
  if (Z.land (code insn) 0x07 =? 0x05) && negb (Z.land (code insn) 0xF0 =? BPF_EXIT) then
    next ← isize_add (as_isize idx) 1;
    target ← isize_add next (off insn);
    assert ((0 <=? target) && (as_usize target <? program_len))
  else Ok ().

Definition assert_valid_jumps (program : list BpfInsn) : test :=
  for_enumerate 0 program (assert_valid_jump (vec_len program)).

(** [assert_valid_jumps(&r.unwrap())]. *)
Definition valid_jumps (r : res CompileError (list BpfInsn)) : test :=
  p ← unwrap r; assert_valid_jumps p.

Definition edge_literal_empty : test := valid_jumps (compile_literal_search (bytes "")).

Definition edge_literal_single_byte : test :=
  p ← unwrap (compile_literal_search (bytes "x"));
  _ ← assert_valid_jumps p;
  assert (negb (is_empty p)).

Definition edge_literal_max_len : test :=
  let pat := vec_repeat (chr "a") MAX_BPF_PATTERN_LEN in
  assert_is_ok (compile_literal_search pat).

Definition edge_literal_over_max : test :=
  let pat := vec_repeat (chr "a") (MAX_BPF_PATTERN_LEN + 1) in
  assert_too_long (compile_literal_search pat).

Definition edge_char_class_single : test := valid_jumps (compile_character_class (bytes "abc")).

Definition edge_char_class_empty : test := assert_is_ok (compile_character_class (bytes "")).

Definition edge_alternation_two : test := valid_jumps (compile_alternation [bytes "ab"; bytes "cd"]).

Definition edge_alternation_empty_branch : test :=
  valid_jumps (compile_alternation [bytes ""; bytes "x"]).

Definition edge_char_ranges_single : test :=
  valid_jumps (compile_char_class [mkCharRange (chr "a") (chr "z")]).

Definition edge_char_ranges_inverted : test :=
  p ← unwrap (compile_char_class [mkCharRange (chr "0") (chr "9")]);
  assert (negb (is_empty p)).

Definition edge_compile_with_limit_ok : test := assert_is_ok (compile_with_limit 8).

Definition edge_format_program_nonempty : test :=
  p ← unwrap (compile_literal_search (bytes "test"));
  s ← format_program p;
  assert (str_contains "exit" (bytes s)).

Definition edge_literal_null_byte : test := valid_jumps (compile_literal_search [0]).

Definition edge_literal_all_bytes_too_long : test :=
  let pat := vec_repeat (chr "a") 2044 in
  assert_is_err (compile_literal_search pat).

Definition edge_alternation_many : test :=
  valid_jumps (compile_alternation [bytes "a"; bytes "b"; bytes "c"; bytes "d"]).

Definition edge_literal_repeated : test := valid_jumps (compile_literal_search (bytes "aaaa")).

Definition edge_char_class_high_bytes : test := valid_jumps (compile_character_class [0xFF; 0xFE]).

Definition edge_alternation_one_branch : test := valid_jumps (compile_alternation [bytes "only"]).

Definition edge_char_range_point : test :=
  valid_jumps (compile_char_class [mkCharRange (chr "X") (chr "X")]).

Definition edge_literal_ascii_printable : test :=
  valid_jumps (compile_literal_search (bytes "Hello, BPF!")).

Definition edge_compile_with_limit_zero : test := assert_is_ok (compile_with_limit 0).

Definition edge_alternation_long_branches : test :=
  let a := bytes "short" in
  let b := vec_repeat (chr "x") 32 in
  valid_jumps (compile_alternation [a; b]).

Definition edge_char_class_duplicates : test := valid_jumps (compile_character_class (bytes "aaa")).

Definition edge_literal_binary_nonutf8 : test :=
  valid_jumps (compile_literal_search [0x80; 0x81; 0x82]).

Definition edge_char_ranges_adjacent : test :=
  valid_jumps (compile_char_class
    [mkCharRange (chr "a") (chr "c"); mkCharRange (chr "d") (chr "f")]).

Definition edge_program_ends_with_exit_class : test :=
  p ← unwrap (compile_literal_search (bytes "z"));
  assert (match last p with Some i => Z.land (code i) 0xF0 =? BPF_EXIT | None => false end).

Definition edge_alternation_identical_branches : test :=
  valid_jumps (compile_alternation [bytes "same"; bytes "same"]).

Definition edge_literal_two_bytes : test :=
  p ← unwrap (compile_literal_search (bytes "xy"));
  assert (2 <=? vec_len p).

Definition edge_char_class_all_range : test := valid_jumps (compile_char_class [mkCharRange 0 255]).

Definition edge_compile_with_limit_large : test := assert_is_err (compile_with_limit 10000).

Definition edge_format_empty_program : test :=
  s ← format_program [];
  assert (str_contains "program" (bytes s)).

Definition edge_literal_near_max : test :=
  let pat := vec_repeat (chr "z") (MAX_BPF_PATTERN_LEN - 1) in
  assert_is_ok (compile_literal_search pat).

Definition edge_alternation_empty_list : test := valid_jumps (compile_alternation []).

Definition edge_tests : list test :=
  [edge_literal_empty; edge_literal_single_byte; edge_char_class_single; edge_char_class_empty;
   edge_alternation_two; edge_alternation_empty_branch; edge_char_ranges_single;
   edge_char_ranges_inverted; edge_compile_with_limit_ok; edge_format_program_nonempty;
   edge_literal_null_byte; edge_alternation_many; edge_literal_repeated;
   edge_char_class_high_bytes; edge_alternation_one_branch; edge_char_range_point;
   edge_literal_ascii_printable; edge_compile_with_limit_zero; edge_alternation_long_branches;
   edge_char_class_duplicates; edge_literal_binary_nonutf8; edge_char_ranges_adjacent;
   edge_program_ends_with_exit_class; edge_alternation_identical_branches;
   edge_literal_two_bytes; edge_char_class_all_range; edge_compile_with_limit_large;
   edge_format_empty_program; edge_alternation_empty_list].

Definition edge_large_tests : list test :=
  [edge_literal_max_len; edge_literal_over_max; edge_literal_all_bytes_too_long;
   edge_literal_near_max].
End tests.
End EdgeCatalog.

(** ** src/tests/unit/compiler.rs *)

Module CompilerUnit.
Section tests.
  Context `{Arch}.

(** [assert_ne!]. *)
Definition assert_ne {A} `{EqDecision A} (a b : A) : test := assert (bool_decide (a <> b)).

(** The test's [assert_valid_jump_offsets] writes [0x80] for [BPF_CALL]. *)
Definition assert_valid_jump_offsets (program : list BpfInsn) : test :=
  for_enumerate 0 program (fun idx insn =>
    let is_jump := Z.land (code insn) 0x07 =? BPF_JMP in
    if is_jump && negb (Z.land (code insn) 0xF0 =? BPF_EXIT)
       && negb (Z.land (code insn) 0xF0 =? 0x80)
    then
      next ← isize_add (as_isize idx) 1;
      target ← isize_add next (off insn);
      assert ((0 <=? target) && (as_usize target <? vec_len program))
    else Ok ()).

Definition count_instructions (program : list BpfInsn) (code_mask code_match : Z) : Z :=
  filter_count (fun i => Z.land (code i) code_mask =? code_match) program.

Definition count_byte_loads (program : list BpfInsn) : Z :=
  count_instructions program 0xFF (Z.lor (Z.lor BPF_LDX BPF_MEM) BPF_B).

(** [insn.code == (BPF_JMP | BPF_JNE | BPF_K)]. *)
Definition is_jne (insn : BpfInsn) : bool := code insn =? Z.lor (Z.lor BPF_JMP BPF_JNE) BPF_K.

(** [iter().enumerate().filter(p)], from [idx] on. *)
Fixpoint filter_enumerate (p : BpfInsn -> bool) (idx : Z) (l : list BpfInsn) :
    list (Z * BpfInsn) :=
  match l with
  | [] => []
  | i :: rest =>
      if p i then (idx, i) :: filter_enumerate p (idx + 1) rest
      else filter_enumerate p (idx + 1) rest
  end.

Definition compile_single_literal_pattern_produces_valid_bytecode : test :=
  prog ← unwrap (compile_literal_search (bytes "test"));
  _ ← assert (negb (is_empty prog));
  _ ← assert_ends_with_exit prog;
  first ← vec_get prog 0;
  _ ← assert_eq (code first) (Z.lor (Z.lor BPF_LDX BPF_MEM) BPF_W);
  second ← vec_get prog 1;
  _ ← assert_eq (code second) (Z.lor (Z.lor BPF_LDX BPF_MEM) BPF_W);
  assert_valid_jump_offsets prog.

Definition compile_single_byte_pattern_produces_valid_program : test :=
  prog ← unwrap (compile_literal_search (bytes "X"));
  _ ← assert (8 <=? vec_len prog);
  last ← CompilerTests.from_end prog 1;
  _ ← assert_eq (Z.land (code last) 0xF0) BPF_EXIT;
  let byte_loads := count_byte_loads prog in
  _ ← assert_eq byte_loads 1;
  assert_valid_jump_offsets prog.

Definition compiled_program_instruction_count_under_bpf_limit : test :=
  let max_pattern := vec_repeat (chr "A") MAX_BPF_PATTERN_LEN in
  prog ← unwrap (compile_literal_search max_pattern);
  _ ← assert (vec_len prog <? 4096);
  for_each [1; 10; 100; 500; 1000] (fun size =>
    let pattern := vec_repeat (chr "x") size in
    prog ← unwrap (compile_literal_search pattern);
    assert (vec_len prog <? 4096)).

Definition character_class_program_instruction_count_under_limit : test :=
  prog ← unwrap (compile_character_class (bytes "a-zA-Z0-9_-"));
  assert (vec_len prog <? 4096).

Definition alternation_program_instruction_count_under_limit : test :=
  prog ← unwrap (compile_alternation
                   [bytes "get"; bytes "post"; bytes "put"; bytes "delete"; bytes "patch"]);
  assert (vec_len prog <? 4096).

Definition pattern_with_all_byte_values_compiles_correctly : test :=
  let halves := [seqZ 0 0x80; seqZ 0x80 0x80] in
  for_each halves (fun half =>
    _ ← assert (vec_len half <=? MAX_BPF_PATTERN_LEN);
    prog ← unwrap (compile_literal_search half);
    _ ← assert (negb (is_empty prog));
    _ ← assert_ends_with_exit prog;
    let byte_loads := count_byte_loads prog in
    _ ← assert_eq byte_loads (vec_len half);
    assert_valid_jump_offsets prog).

Definition pattern_with_null_bytes_compiles_correctly : test :=
  let pattern := [0; 1; 0; 2; 0] in
  prog ← unwrap (compile_literal_search pattern);
  let null_comparisons := filter_count (fun insn => is_jne insn && (imm insn =? 0)) prog in
  _ ← assert_eq null_comparisons 3;
  assert_valid_jump_offsets prog.

Definition pattern_with_high_bytes_compiles_correctly : test :=
  let high_bytes := seqZ 0x80 0x80 in
  prog ← unwrap (compile_literal_search high_bytes);
  _ ← assert (negb (is_empty prog));
  _ ← assert_ends_with_exit prog;
  assert_valid_jump_offsets prog.

Definition empty_pattern_returns_error_not_panic : test :=
  let result := compile_literal_search (bytes "") in
  _ ← assert_is_ok result;
  prog ← unwrap result;
  _ ← assert_eq (vec_len prog) 4;
  third ← vec_get prog 2;
  _ ← assert_eq (imm third) 1;
  fourth ← vec_get prog 3;
  assert_eq (Z.land (code fourth) 0xF0) BPF_EXIT.

Definition empty_character_class_returns_error_not_panic : test :=
  let result := compile_character_class (bytes "") in
  _ ← assert_is_ok result;
  prog ← unwrap result;
  _ ← assert_eq (vec_len prog) 2;
  first ← vec_get prog 0;
  assert_eq (imm first) 0.

Definition empty_alternation_returns_error_not_panic : test :=
  let result := compile_alternation [] in
  _ ← assert_is_ok result;
  prog ← unwrap result;
  _ ← assert_eq (vec_len prog) 2;
  first ← vec_get prog 0;
  assert_eq (imm first) 0.

Definition pattern_longer_than_bpf_limit_returns_error : test :=
  let oversized_pattern := vec_repeat (chr "A") (MAX_BPF_PATTERN_LEN + 1) in
  let result := compile_literal_search oversized_pattern in
  assert_too_long result.

Definition pattern_at_exact_limit_compiles_successfully : test :=
  let max_pattern := vec_repeat (chr "B") MAX_BPF_PATTERN_LEN in
  let result := compile_literal_search max_pattern in
  _ ← assert_is_ok result;
  prog ← unwrap result;
  assert (vec_len prog <? 4096).

Definition compile_with_limit_rejects_excessive_instruction_count : test :=
  let result := compile_with_limit 5000 in
  assert_err (PatternTooLong 5000 4096) result.

Definition multiple_patterns_produce_distinct_programs : test :=
  prog1 ← unwrap (compile_literal_search (bytes "pattern1"));
  prog2 ← unwrap (compile_literal_search (bytes "pattern2"));
  prog3 ← unwrap (compile_literal_search (bytes "completely_different"));
  text1 ← format_program prog1;
  text2 ← format_program prog2;
  _ ← assert_ne text1 text2;
  for_each [prog1; prog2; prog3] (fun prog =>
    _ ← assert (negb (is_empty prog));
    assert_ends_with_exit prog).

Definition identical_patterns_produce_equivalent_programs : test :=
  prog1 ← unwrap (compile_literal_search (bytes "identical"));
  prog2 ← unwrap (compile_literal_search (bytes "identical"));
  text1 ← format_program prog1;
  text2 ← format_program prog2;
  assert_eq text1 text2.

Definition multiple_character_classes_distinct : test :=
  prog_lower ← unwrap (compile_character_class (bytes "a-z"));
  prog_upper ← unwrap (compile_character_class (bytes "A-Z"));
  prog_digit ← unwrap (compile_character_class (bytes "0-9"));
  lower ← format_program prog_lower;
  upper ← format_program prog_upper;
  _ ← assert_ne lower upper;
  digit ← format_program prog_digit;
  assert_ne upper digit.

Definition backpatched_bounds_check_jumps_to_fail_block : test :=
  prog ← unwrap (compile_literal_search (bytes "test"));
  let bounds_check :=
    CompilerTests.find_enumerate (fun i => code i =? Z.lor (Z.lor BPF_JMP 0x20) 0x08) 0 prog in
  match bounds_check with
  | Some (idx, insn) =>
      next ← isize_add (as_isize idx) 1;
      target ← isize_add next (off insn);
      _ ← assert ((0 <=? target) && (as_usize target <? vec_len prog));
      target_insn ← vec_get prog (as_usize target);
      assert_eq (imm target_insn) 0
  | None => Ok ()
  end.

Definition backpatched_byte_checks_jumps_to_next_iter : test :=
  prog ← unwrap (compile_literal_search (bytes "ab"));
  let jne_instructions := filter_enumerate is_jne 0 prog in
  _ ← assert (negb (is_empty jne_instructions));
  for_each jne_instructions (fun '(idx, insn) =>
    next ← isize_add (as_isize idx) 1;
    target ← isize_add next (off insn);
    assert ((0 <=? target) && (as_usize target <? vec_len prog))).

Definition all_jump_offsets_in_character_class_are_valid : test :=
  prog ← unwrap (compile_character_class (bytes "a-zA-Z0-9"));
  assert_valid_jump_offsets prog.

Definition all_jump_offsets_in_alternation_are_valid : test :=
  prog ← unwrap (compile_alternation [bytes "foo"; bytes "bar"; bytes "baz"]);
  assert_valid_jump_offsets prog.

(** [b'a' + (i % 26) as u8] is below [b'a' + 26 <= 255]: the addition does not overflow. *)
Definition unrolled_byte_comparison_count_matches_pattern_length : test :=
  for_each [1; 5; 10; 50] (fun pattern_len =>
    let pattern := map (fun i => chr "a" + i mod 26) (seqZ 0 pattern_len) in
    prog ← unwrap (compile_literal_search pattern);
    let byte_loads := count_byte_loads prog in
    _ ← assert_eq byte_loads pattern_len;
    assert_valid_jump_offsets prog).

Definition unrolled_byte_comparison_has_correct_immediate_values : test :=
  let pattern := bytes "ABC" in
  prog ← unwrap (compile_literal_search pattern);
  let jne_instructions := List.filter is_jne prog in
  _ ← assert_eq (vec_len jne_instructions) (vec_len pattern);
  for_enumerate 0 jne_instructions (fun i insn =>
    b ← vec_get pattern i;
    assert_eq (imm insn) b).

(** [multi_byte_pattern_unrolls_correctly] of this file. *)
Definition multi_byte_hello_world_unrolls_correctly : test :=
  let pattern := bytes "hello world" in
  prog ← unwrap (compile_literal_search pattern);
  let byte_loads := count_byte_loads prog in
  _ ← assert_eq byte_loads (vec_len pattern);
  assert_valid_jump_offsets prog.

Definition single_byte_pattern_edge_cases : test :=
  for_each (seqZ 0 256) (fun byte =>
    prog ← unwrap (compile_literal_search [byte]);
    _ ← assert (negb (is_empty prog));
    _ ← assert_ends_with_exit prog;
    assert_valid_jump_offsets prog).

Definition pattern_with_repeated_bytes_compiles_correctly : test :=
  let pattern := vec_repeat (chr "A") 100 in
  prog ← unwrap (compile_literal_search pattern);
  let byte_loads := count_byte_loads prog in
  _ ← assert_eq byte_loads 100;
  let jne_insts := List.filter is_jne prog in
  for_each jne_insts (fun insn => assert_eq (imm insn) (chr "A")).

Definition char_class_compile_rejects_reversed_range : test :=
  assert_invalid (compile_char_class [mkCharRange 0x5A 0x41]).

Definition char_class_compile_accepts_valid_range : test :=
  prog ← unwrap (compile_char_class
                   [mkCharRange (chr "a") (chr "z"); mkCharRange (chr "A") (chr "Z")]);
  _ ← assert (negb (is_empty prog));
  _ ← assert_ends_with_exit prog;
  assert_valid_jump_offsets prog.

Definition compile_alternation_with_empty_alternative_matches_immediately : test :=
  prog ← unwrap (compile_alternation [bytes "ab"; bytes ""; bytes "cd"]);
  _ ← assert_eq (vec_len prog) 2;
  first ← vec_get prog 0;
  assert_eq (imm first) 1.

Definition program_formatting_is_deterministic : test :=
  let pattern := bytes "deterministic_test" in
  prog1 ← unwrap (compile_literal_search pattern);
  prog2 ← unwrap (compile_literal_search pattern);
  fmt1 ← format_program prog1;
  fmt2 ← format_program prog2;
  assert_eq fmt1 fmt2.

(** [assert_eq!(run_char_class(&prog, b), want)]. *)
Definition assert_runs (prog : list BpfInsn) (b want : Z) : test :=
  r0 ← unwrap (Interp.run_char_class prog b);
  assert_eq r0 want.

Definition two_ranges : list CharRange := [mkCharRange 10 20; mkCharRange 30 40].

Definition char_class_out_of_range_below_all_does_not_match : test :=
  prog ← unwrap (compile_char_class two_ranges);
  _ ← assert_runs prog 5 0;
  _ ← assert_runs prog 25 0;
  assert_runs prog 45 0.

Definition char_class_in_range_matches_inclusive_boundaries : test :=
  prog ← unwrap (compile_char_class two_ranges);
  _ ← for_each [10; 15; 20; 30; 35; 40] (fun b => assert_runs prog b 1);
  for_each [9; 21; 29; 41] (fun b => assert_runs prog b 0).

Definition is_ascii_lowercase (b : Z) : bool := (chr "a" <=? b) && (b <=? chr "z").

Definition is_ascii_alphanumeric (b : Z) : bool :=
  is_ascii_lowercase b || ((chr "A" <=? b) && (b <=? chr "Z")) || is_ascii_digit b.

Definition char_class_single_and_multi_range_full_byte_sweep : test :=
  lower ← unwrap (compile_char_class [mkCharRange (chr "a") (chr "z")]);
  _ ← for_each (seqZ 0 256) (fun b => assert_runs lower b (Z.b2z (is_ascii_lowercase b)));
  alnum ← unwrap (compile_char_class
    [mkCharRange (chr "0") (chr "9"); mkCharRange (chr "a") (chr "z");
     mkCharRange (chr "A") (chr "Z")]);
  for_each (seqZ 0 256) (fun b => assert_runs alnum b (Z.b2z (is_ascii_alphanumeric b))).

Definition compiler_unit_tests : list test :=
  [compile_single_literal_pattern_produces_valid_bytecode;
   compile_single_byte_pattern_produces_valid_program;
   character_class_program_instruction_count_under_limit;
   alternation_program_instruction_count_under_limit;
   pattern_with_all_byte_values_compiles_correctly; pattern_with_null_bytes_compiles_correctly;
   pattern_with_high_bytes_compiles_correctly; empty_pattern_returns_error_not_panic;
   empty_character_class_returns_error_not_panic; empty_alternation_returns_error_not_panic;
   compile_with_limit_rejects_excessive_instruction_count;
   multiple_patterns_produce_distinct_programs; identical_patterns_produce_equivalent_programs;
   multiple_character_classes_distinct; backpatched_bounds_check_jumps_to_fail_block;
   backpatched_byte_checks_jumps_to_next_iter; all_jump_offsets_in_character_class_are_valid;
   all_jump_offsets_in_alternation_are_valid;
   unrolled_byte_comparison_count_matches_pattern_length;
   unrolled_byte_comparison_has_correct_immediate_values;
   multi_byte_hello_world_unrolls_correctly; single_byte_pattern_edge_cases;
   pattern_with_repeated_bytes_compiles_correctly; char_class_compile_rejects_reversed_range;
   char_class_compile_accepts_valid_range;
   compile_alternation_with_empty_alternative_matches_immediately;
   program_formatting_is_deterministic; char_class_out_of_range_below_all_does_not_match;
   char_class_in_range_matches_inclusive_boundaries;
   char_class_single_and_multi_range_full_byte_sweep].

Definition compiler_unit_large_tests : list test :=
  [compiled_program_instruction_count_under_bpf_limit;
   pattern_longer_than_bpf_limit_returns_error; pattern_at_exact_limit_compiles_successfully].
End tests.
End CompilerUnit.

(** ** src/tests/adversarial/compiler.rs, src/tests/adversarial/overflow.rs and
    src/tests/concurrent/stress.rs *)

Module Adversarial.
Section tests.
  Context `{Arch}.

(** The two symbols are U+1F496 and U+1F680. *)
Definition compile_literal_search_unicode_high_bytes : test :=
  let pattern := encode [chr "a"; 0x1F496; chr "b"; 0x1F680; chr "c"] in
  let result := compile_literal_search pattern in
  _ ← assert_is_ok result;
  prog ← unwrap result;
  _ ← assert (negb (is_empty prog));
  assert_ends_with_exit prog.

Definition compile_literal_search_extreme_length : test :=
  let pattern := vec_repeat (chr "a") MAX_BPF_PATTERN_LEN in
  let result := compile_literal_search pattern in
  _ ← assert_is_ok result;
  let pattern_too_long := vec_repeat (chr "a") (MAX_BPF_PATTERN_LEN + 1) in
  let result_err := compile_literal_search pattern_too_long in
  assert_too_long result_err.

Definition compile_character_class_invalid_ranges : test :=
  let pattern := bytes "z-a" in
  let result := compile_character_class pattern in
  assert_invalid result.

Definition compile_alternation_empty_strings : test :=
  let patterns := [bytes "a"; bytes ""; bytes "c"] in
  let result := compile_alternation patterns in
  assert_is_ok result.

Definition adversarial_compile_overflow_pattern_len : test :=
  let pattern := vec_repeat (chr "A") (MAX_BPF_PATTERN_LEN + 1) in
  let result := compile_literal_search pattern in
  _ ← assert_is_err result;
  match result with
  | Err (PatternTooLong _ _) | Ok _ => Ok ()
  | Err (InvalidPattern _) | Panic => Panic
  | OutOfFuel => OutOfFuel
  end.

Definition adversarial_compile_extreme_u32_max_len : test :=
  let pattern := vec_repeat 0xFF (MAX_BPF_PATTERN_LEN * 10) in
  let result := compile_literal_search pattern in
  assert_is_err result.

(** What thread [i] does: 100 times the same. *)
Definition stress_thread (i : Z) : test :=
  let pattern := bytes "adversarial_pattern_match_" ++ print i in
  for_each (seq 0 100) (fun _ =>
    let prog_result := compile_literal_search pattern in
    _ ← assert_is_ok prog_result;
    prog ← unwrap prog_result;
    formatted ← format_program prog;
    _ ← assert (negb (String.length formatted =? 0)%nat);
    assert (str_contains "exit" (bytes formatted))).

Definition concurrent_compile_and_format_stress_test : test :=
  for_each (seqZ 0 32) stress_thread.

Definition adversarial_tests : list test :=
  [compile_literal_search_unicode_high_bytes; compile_character_class_invalid_ranges;
   compile_alternation_empty_strings].

Definition adversarial_large_tests : list test :=
  [compile_literal_search_extreme_length; adversarial_compile_overflow_pattern_len;
   adversarial_compile_extreme_u32_max_len; concurrent_compile_and_format_stress_test].
End tests.
End Adversarial.

(** ** The tests with small inputs, by evaluation *)

Definition small_tests `{Arch} : list test :=
  BreakIt.break_it_tests ++ EdgeCatalog.edge_tests ++ CompilerUnit.compiler_unit_tests
  ++ Adversarial.adversarial_tests.

Definition large_tests `{Arch} : list test :=
  BreakIt.break_it_large_tests ++ EdgeCatalog.edge_large_tests
  ++ CompilerUnit.compiler_unit_large_tests ++ Adversarial.adversarial_large_tests.

Definition passes (t : test) : Prop := t = Ok ().

Lemma small_tests_pass (A : Arch) : Forall passes small_tests.
Proof.
  assert (Hall : small_tests = replicate 83 (Ok ())).
  { destruct A as [? [->| ->] [|]]; vm_compute; reflexivity. }
  rewrite Hall. by apply Forall_replicate.
Qed.

(** ** The tests with large inputs, by the theorems on the compilers *)

(** The message of every compile error has the advice. *)
Lemma assert_has_fix_passes e : BreakIt.assert_has_fix e = Ok ().
Proof.
  apply assert_true, contains_spec. destruct e as [len max|reason]; cbn [CompileError_fmt].
  - exists (bytes "pattern length " ++ print len ++ bytes " exceeds BPF verifier limit of "
            ++ print max ++ bytes " bytes. ").
    eexists. rewrite <- !app_assoc. by do 4 f_equal.
  - exists (bytes "invalid pattern: " ++ bytes reason ++ bytes ". "). eexists.
    rewrite <- !app_assoc. by do 2 f_equal.
Qed.

(** A test of [if let Err(e)] fails only when the compiler panics. *)
Lemma may_fail_passes {A} (r : res CompileError A) :
  match r with Ok _ | Err _ => True | Panic | OutOfFuel => False end -> BreakIt.may_fail r = Ok ().
Proof. destruct r as [a|e| |]; [done|intros _; apply assert_has_fix_passes|done|done]. Qed.

Lemma must_fail_passes {A} (r : res CompileError A) e : r = Err e -> BreakIt.must_fail r = Ok ().
Proof. intros ->. apply assert_has_fix_passes. Qed.

Section large.
  Context `{Arch}.

Lemma repeat_compiles x n : 0 <= n <= 1024 ->
  compile_literal_search (vec_repeat x n) = Ok (literal_program (vec_repeat x n)).
Proof.
  intros. apply compile_literal_search_program. unfold MAX_BPF_PATTERN_LEN.
  rewrite vec_len_repeat; lia.
Qed.

Lemma repeat_refused x n : 1024 < n <= 2 ^ 20 ->
  exists len max, compile_literal_search (vec_repeat x n) = Err (PatternTooLong len max).
Proof.
  intros. pose proof usize_pow_ge. rewrite compile_literal_search_refused.
  - destruct (_ <=? _); by eauto.
  - unfold MAX_BPF_PATTERN_LEN. rewrite vec_len_repeat; lia.
  - unfold usize_max. rewrite vec_len_repeat; lia.
Qed.

Lemma repeat_program_short x n : 0 <= n <= 1024 ->
  (vec_len (literal_program (vec_repeat x n)) <? 4096) = true.
Proof.
  intros. rewrite literal_program_len, vec_len_repeat by lia.
  destruct (Z.eqb_spec n 0); lia.
Qed.

(** Alternatives that together do not overflow [usize] never panic; without an empty
    one, too many are refused. *)
Lemma alternation_total alts : alts_size alts <= 2 ^ 31 ->
  match compile_alternation alts with Ok _ | Err _ => True | Panic | OutOfFuel => False end.
Proof.
  intros. pose proof usize_pow_ge. rewrite compile_alternation_result by (unfold usize_max; lia).
  repeat destruct (is_empty _ || _); repeat case_match; done.
Qed.

Lemma alts_size_repeat alt n : 0 <= n -> alts_size (vec_repeat alt n) = n * alt_size alt.
Proof.
  intros Hn. unfold vec_repeat. rewrite <- (Z2Nat.id n) at 2 by done.
  induction (Z.to_nat n) as [|m IH]; [done|]. cbn [replicate alts_size]. rewrite IH. lia.
Qed.

Lemma alternation_repeat_refused b alt n : 0 < n ->
  4092 < n * alt_size (b :: alt) <= 2 ^ 31 ->
  exists e, compile_alternation (vec_repeat (b :: alt) n) = Err e.
Proof.
  intros Hn Hsz. pose proof usize_pow_ge.
  rewrite compile_alternation_result; rewrite ?alts_size_repeat by lia; [|unfold usize_max; lia].
  replace (is_empty (vec_repeat (b :: alt) n)) with false.
  2: { unfold vec_repeat. replace (Z.to_nat n) with (S (Z.to_nat (n - 1))) by lia. done. }
  replace (existsb is_empty (vec_repeat (b :: alt) n)) with false.
  2: { symmetry. unfold vec_repeat. by induction (Z.to_nat n). }
  unfold MAX_BPF_INSTRUCTION_LEN. rewrite (proj2 (Z.ltb_lt _ _)) by lia. by eauto.
Qed.

(** A class of [n] times the same letter has [n] ranges. *)
Lemma parse_repeat b n : 0 <= b < 128 -> b <> chr "\" -> b <> chr "-" ->
  parse_character_class (vec_repeat b n) = Ok (vec_repeat (Single b) n).
Proof.
  intros Hb Hbs Hd. rewrite parse_reference. unfold vec_repeat. set (m := Z.to_nat n).
  replace (non_ascii_text (replicate m b)) with false.
  2: { unfold non_ascii_text. replace (existsb _ _) with false; [by rewrite andb_false_r|].
       symmetry. induction m as [|m IH]; [done|]. cbn. rewrite IH. lia. }
  assert (Hlex : lex (replicate m b) = Ok (replicate m (Byte b))).
  { induction m as [|m IH]; [done|]. cbn [replicate lex].
    rewrite (proj2 (Z.eqb_neq _ _)), IH by done. cbn [mbind res_bind].
    by rewrite (proj2 (Z.eqb_neq _ _)) by done. }
  rewrite Hlex. cbn [mbind res_bind]. clear Hlex.
  induction m as [|m IH]; [done|]. cbn [replicate]. rewrite group_single.
  - destruct m; by rewrite IH.
  - by destruct m as [|[|]].
Qed.
End large.

Section suites.
  Context `{Arch}.

Lemma break_it_large_pass : Forall passes BreakIt.break_it_large_tests.
Proof.
  pose proof usize_pow_ge. unfold MAX_BPF_PATTERN_LEN, passes.
  assert (Hrefused : forall x n, 1024 < n <= 2 ^ 20 ->
    BreakIt.must_fail (compile_literal_search (vec_repeat x n)) = Ok ()).
  { intros x n Hn. destruct (repeat_refused x n Hn) as (len & max & Hc). by eapply must_fail_passes. }
  repeat apply Forall_cons_2; [..|by apply Forall_nil].
  - unfold BreakIt.test_max_bpf_pattern_len_exact. by rewrite repeat_compiles.
  - by apply Hrefused.
  - by apply Hrefused.
  - unfold BreakIt.test_huge_1mb_alternation.
    destruct (alternation_repeat_refused (chr "C") (vec_repeat (chr "C") 1023) 1024) as [e He];
      [done| |by eapply must_fail_passes].
    unfold alt_size. rewrite vec_len_cons, vec_len_repeat; lia.
  - apply for_each_passes. apply Forall_true. intros _. by apply Hrefused.
  - apply may_fail_passes, alternation_total. by rewrite alts_size_repeat.
  - destruct (alternation_repeat_refused (chr "a") [] 100000) as [e He];
      [done|done|by eapply must_fail_passes].
  - unfold BreakIt.test_resource_exhaustion_character_class_long.
    rewrite compile_character_class_result.
    + rewrite parse_repeat by done. rewrite vec_len_repeat by done. by eapply must_fail_passes.
    + by apply Forall_replicate.
    + pose proof isize_pow_ge. rewrite vec_len_repeat by done. lia.
  - apply may_fail_passes, alternation_total. cbn [alts_size]. unfold alt_size.
    rewrite vec_len_repeat; done.
  - apply may_fail_passes, alternation_total. cbn [alts_size]. unfold alt_size.
    rewrite vec_len_repeat; done.
  - apply may_fail_passes. by rewrite repeat_compiles.
  - apply may_fail_passes, alternation_total. cbn [alts_size]. unfold alt_size.
    rewrite !vec_len_repeat; done.
Qed.

Lemma edge_large_pass : Forall passes EdgeCatalog.edge_large_tests.
Proof.
  assert (Hrefused : forall x n, 1024 < n <= 2 ^ 20 ->
    assert_too_long (compile_literal_search (vec_repeat x n)) = Ok ()
    /\ assert_is_err (compile_literal_search (vec_repeat x n)) = Ok ()).
  { intros x n Hn. by destruct (repeat_refused x n Hn) as (len & max & ->). }
  repeat apply Forall_cons_2; [..|by apply Forall_nil].
  - unfold EdgeCatalog.edge_literal_max_len. by rewrite repeat_compiles.
  - by apply Hrefused.
  - by apply Hrefused.
  - unfold EdgeCatalog.edge_literal_near_max. by rewrite repeat_compiles.
Qed.

Lemma compiler_unit_large_pass : Forall passes CompilerUnit.compiler_unit_large_tests.
Proof.
  repeat apply Forall_cons_2; [..|by apply Forall_nil].
  - unfold CompilerUnit.compiled_program_instruction_count_under_bpf_limit.
    rewrite repeat_compiles by done. unfold unwrap. rewrite Ok_bind, repeat_program_short by done.
    apply for_each_passes. repeat apply Forall_cons_2; [..|by apply Forall_nil];
      (rewrite repeat_compiles by done; rewrite Ok_bind; by rewrite repeat_program_short).
  - unfold CompilerUnit.pattern_longer_than_bpf_limit_returns_error.
    by destruct (repeat_refused (chr "A") (MAX_BPF_PATTERN_LEN + 1)) as (len & max & ->).
  - unfold CompilerUnit.pattern_at_exact_limit_compiles_successfully.
    rewrite repeat_compiles by done. unfold unwrap. cbn [assert_is_ok].
    rewrite !Ok_bind. by rewrite repeat_program_short.
Qed.

(** The last line of a listing. *)
Lemma join_snoc sep ls s : exists pre, bytes (join sep (ls ++ [s])) = pre ++ bytes s.
Proof.
  induction ls as [|l ls [pre IH]]; [by exists []|].
  exists (bytes l ++ bytes sep ++ pre). rewrite <- !app_assoc, <- IH, <- !bytes_app.
  by destruct ls.
Qed.

(** The listing of a literal search exists, on any build, and ends with [exit]. *)
Lemma literal_listing_exit pat :
  Forall is_byte pat -> vec_len pat <= MAX_BPF_PATTERN_LEN ->
  exists text, format_program (E := CompileError) (literal_program pat) = Ok text
    /\ str_contains "exit" (bytes text) = true.
Proof.
  intros Hb Hl.
  assert (Hc : compiled (literal_program pat))
    by (by apply (compiled_literal _ pat), compile_literal_search_program).
  destruct (format_lines_ok (E := CompileError) 0 (literal_program pat)) as (lines & Hls & Hlen & Hat).
  { eapply Forall_impl; [by apply compiled_offsets|]. apply small_offset_fmt. }
  assert (Hlast : exists p, literal_program pat = p ++ [exit]).
  { apply last_Some. destruct pat as [|b pat]; [done|].
    by rewrite literal_program_segments, app_assoc, last_app. }
  destruct Hlast as [p Hp]. rewrite Hp in *. rewrite length_app in Hlen.
  destruct (exists_last (l := lines)) as (ls & s & ->).
  { intros ->. cbn in Hlen. lia. }
  rewrite length_app in Hlen. cbn in Hlen.
  destruct (Hat (length p) exit) as (t & Ht & Hs); [by rewrite list_lookup_middle|].
  rewrite list_lookup_middle in Hs by lia. injection Hs as ->. injection Ht as <-.
  destruct (join_snoc newline ls (fmt_04 (0 + Z.of_nat (length p)) +:+ ": " +:+ "exit")) as [pre Hj].
  eexists. split.
  - unfold format_program. rewrite Hls. destruct (p ++ [exit]) eqn:Hnil; [|reflexivity].
    by apply app_eq_nil in Hnil as [_ ?].
  - apply contains_spec. rewrite Hj, !bytes_app.
    exists (pre ++ bytes (fmt_04 (0 + Z.of_nat (length p))) ++ bytes ": "), [].
    by rewrite app_nil_r, <- !app_assoc.
Qed.

Lemma stress_thread_passes i : 0 <= i < 32 -> Adversarial.stress_thread i = Ok ().
Proof.
  intros Hi. unfold Adversarial.stress_thread. set (pattern := _ ++ _). cbv zeta.
  assert (Hp : Forall is_byte pattern /\ vec_len pattern <= MAX_BPF_PATTERN_LEN).
  { assert (Hall : forallb (fun i => forallb (fun b => (0 <=? b) && (b <? 256))
        (bytes "adversarial_pattern_match_" ++ print i)
        && (vec_len (bytes "adversarial_pattern_match_" ++ print i) <=? 1024)) (seqZ 0 32) = true)
      by (vm_compute; reflexivity).
    rewrite forallb_forall in Hall. specialize (Hall i).
    rewrite andb_true_iff, <- list_elem_of_In, elem_of_seqZ, forallb_forall in Hall.
    destruct (Hall ltac:(lia)) as [Hb Hl]. unfold MAX_BPF_PATTERN_LEN. split; [|fold pattern in Hl; lia].
    apply Forall_forall. intros b Hin. apply list_elem_of_In, Hb in Hin. unfold is_byte. lia. }
  destruct Hp as [Hb Hl]. destruct (literal_listing_exit pattern Hb Hl) as (text & Hf & Hx).
  apply for_each_passes, Forall_true. intros _.
  rewrite compile_literal_search_program by done. cbn [assert_is_ok unwrap].
  rewrite !Ok_bind, Hf, Ok_bind, Hx. by destruct text.
Qed.

Lemma adversarial_large_pass : Forall passes Adversarial.adversarial_large_tests.
Proof.
  repeat apply Forall_cons_2; [..|by apply Forall_nil].
  - unfold Adversarial.compile_literal_search_extreme_length.
    rewrite (repeat_compiles (chr "a") MAX_BPF_PATTERN_LEN) by done. cbn [assert_is_ok].
    rewrite Ok_bind.
    by destruct (repeat_refused (chr "a") (MAX_BPF_PATTERN_LEN + 1)) as (len & max & ->).
  - unfold Adversarial.adversarial_compile_overflow_pattern_len.
    by destruct (repeat_refused (chr "A") (MAX_BPF_PATTERN_LEN + 1)) as (len & max & ->).
  - unfold Adversarial.adversarial_compile_extreme_u32_max_len.
    by destruct (repeat_refused 0xFF (MAX_BPF_PATTERN_LEN * 10)) as (len & max & ->).
  - apply for_each_passes, Forall_forall. intros i Hi%elem_of_seqZ. by apply stress_thread_passes.
Qed.
End suites.

(** The regression check of the model against the tests, on 32-bit and 64-bit targets,
    with and without overflow checks: the 48 unit tests of the crate that make no system
    call and the 83 tests of src/tests with small inputs, by evaluation, and the 23 tests
    with inputs of up to 1 MiB or thousands of runs, by the theorems about the
    compilers. *)
Theorem test_suites_pass (A : Arch) : Forall passes (unit_tests ++ small_tests ++ large_tests).
Proof.
  apply Forall_app_2; [by rewrite unit_tests_pass; apply Forall_replicate|].
  apply Forall_app_2; [apply small_tests_pass|]. unfold large_tests. rewrite !Forall_app.
  auto using break_it_large_pass, edge_large_pass, compiler_unit_large_pass, adversarial_large_pass.
Qed.
