(* ===== verification/SystemTests.v ===== *)
(** * The tests under src/tests that depend on their environment

    The tests of src/tests/adversarial/io.rs and src/tests/adversarial/overflow.rs that
    make system calls, as computations on any system; the tests of
    src/tests/core_detect_tests.rs, on any host; and the property tests of
    src/tests/property/compiler.rs, for every string their generators produce. *)

From S2P Require Import Prelude Assembler Utf8 Str Verify Codegen LiteralSearch CharClass.
From S2P Require Import CoreDetect Os Prog Ringbuf Testing UnitTests LoaderTests TestSuites.

(** ** src/tests/adversarial/io.rs and src/tests/adversarial/overflow.rs *)

Section io_tests.
  Context `{Arch} {os} `{Os os} `{ProgSyscalls os} `{RingSyscalls os}.

Definition adversarial_io_attach_invalid_socket : io Empty_set os unit :=
  let insns := [new (Z.lor BPF_JMP BPF_EXIT) 0 0 0 0] in
  fd_result ← io_result (load_filter insns);
  match fd_result with
  | Ok prog_fd =>
      result ← io_result (attach_to_socket prog_fd (-1));
      err ← lift (unwrap_err result);
      _ ← lift (assert (bool_decide (raw_os_error err <> None)));
      _ ← syscall (close prog_fd);
      mret ()
  | Err _ => mret ()
  | Panic => lift Panic
  | OutOfFuel => lift OutOfFuel
  end.

(** The callback ignores its records. *)
Definition adversarial_io_poll_invalid_ringbuf_fd (fuel : nat) : io Empty_set (proc os) unit :=
  let cb := fun (c : unit) (_ : list Z) => c in
  result ← io_result (poll_ringbuf fuel (-1) cb ());
  match result with
  | Err _ => mret ()
  | Ok _ | Panic => lift Panic
  | OutOfFuel => lift OutOfFuel
  end.

Definition adversarial_io_create_ringbuf_zero : io Empty_set (proc os) unit :=
  err ← io_unwrap_err (create_ringbuf 0);
  lift (assert_eq (kind err) InvalidInput).

Definition adversarial_create_ringbuf_overflow_size : io Empty_set (proc os) unit :=
  result ← io_result (create_ringbuf (Z.shiftl 1 31));
  match result with
  | Err e => lift (assert (bool_decide (raw_os_error e <> None)))
  | Ok fd => _ ← syscall (on_sys (close fd)); mret ()
  | Panic => lift Panic
  | OutOfFuel => lift OutOfFuel
  end.

(** ** Theorems *)

(** On which systems these tests pass.  The two tests of ring sizes pass on every
    system; the zero size is refused without a system call.  The test of an invalid
    socket passes when the program cannot be loaded, and when the kernel refuses the
    descriptor -1.  The test of an invalid ring passes when the kernel has no map
    behind the descriptor -1, with any amount of fuel. *)
Theorem adversarial_io_outcome :
  (forall p, adversarial_io_create_ringbuf_zero p = (Ok (), p))
  /\ (forall p, (adversarial_create_ringbuf_overflow_size p).1 = Ok ())
  /\ ((forall fd k, (setsockopt (-1) SOL_SOCKET SO_ATTACH_BPF fd 4 k).1 < 0) ->
      forall k, (adversarial_io_attach_invalid_socket k).1 = Ok ())
  /\ ((forall k, (bpf_obj_get_info (@SYS_BPF ring_target) BPF_OBJ_GET_INFO_BY_FD
                    (mkBpfAttrObjInfoByFd (2 ^ 32 - 1) (@sizeof_BpfMapInfo ring_target) zeroed_info)
                    (@sizeof_BpfAttrObjInfoByFd ring_target) k).1.1 < 0) ->
      forall fuel p, (adversarial_io_poll_invalid_ringbuf_fd fuel p).1 = Ok ()).
Proof.
  split_and!.
  - done.
  - intros p. unfold adversarial_create_ringbuf_overflow_size, mbind, io_bind, io_result.
    destruct (bpf_map_create (@SYS_BPF ring_target) BPF_MAP_CREATE
      (mkBpfAttrMapCreate BPF_MAP_TYPE_RINGBUF 0 0 (2 ^ 31) 0 0 0 (replicate 16 0) 0 0 0 0 0 0)
      (@sizeof_BpfAttrMapCreate ring_target) (sys p)) as [fd k] eqn:Hk.
    rewrite (create_ringbuf_run _ p fd k) by done. destruct (fd <? 0); [done|].
    unfold syscall, on_sys. by destruct (close _ _).
  - intros Hs k. unfold adversarial_io_attach_invalid_socket. set (insns := [_]). cbv zeta.
    destruct (bpf_prog_load (@SYS_BPF prog_target) BPF_PROG_LOAD (load_attr insns)
      (@sizeof_BpfAttrProgLoad prog_target) k) as [[fd log] k1] eqn:Hk.
    unfold mbind, io_bind, io_result. rewrite (load_filter_run insns k fd log k1) by done.
    destruct (fd <? 0); [done|]. unfold attach_to_socket, mbind, io_bind, syscall.
    specialize (Hs (wrap_s 32 fd) k1). destruct (setsockopt _ _ _ _ _ _) as [rc k2].
    cbn [fst] in Hs. rewrite (proj2 (Z.ltb_lt _ _)) by done. cbn. by destruct (close _ _).
  - intros Hi fuel p. unfold adversarial_io_poll_invalid_ringbuf_fd, poll_ringbuf, map_info.
    unfold mbind, io_bind, io_result, call, syscall, on_sys.
    specialize (Hi (sys p)). change (wrap_u 32 (-1)) with (2 ^ 32 - 1).
    destruct (bpf_obj_get_info _ _ _ _ _) as [[rc info] k]. cbn [fst] in Hi.
    by rewrite (proj2 (Z.ltb_lt _ _)) by done.
Qed.
End io_tests.

(** ** src/tests/core_detect_tests.rs *)

Section core_detect_tests.
  Context `{Unicode} `{BpfTarget} (h : host).

(** The first three tests only make the call. *)
Definition has_btf_returns_bool_without_panic (p : process) : test * process :=
  let _ := has_btf h in (Ok (), p).

Definition has_ringbuf_returns_bool_without_panic (p : process) : test * process :=
  let '(_, p) := has_ringbuf h p in (Ok (), p).

Definition has_fentry_returns_bool_without_panic (p : process) : test * process :=
  let '(_, p) := has_fentry h p in (Ok (), p).

Definition diagnostics_returns_non_empty_vec (p : process) : test * process :=
  let '(diags, p) := diagnostics h p in (assert (negb (is_empty diags)), p).

Definition diagnostics_contains_kernel_version_string (p : process) : test * process :=
  let '(diags, p) := diagnostics h p in (assert (existsb (String.prefix "kernel: ") diags), p).

Definition core_detect_suite : list (process -> test * process) :=
  [has_btf_returns_bool_without_panic; has_ringbuf_returns_bool_without_panic;
   has_fentry_returns_bool_without_panic; diagnostics_returns_non_empty_vec;
   diagnostics_contains_kernel_version_string].
End core_detect_tests.

Lemma prefix_app p s : String.prefix p (p +:+ s) = true.
Proof.
  induction p as [|a p IH]; [by destruct s|]. change (String a p +:+ s) with (String a (p +:+ s)).
  cbn [String.prefix]. by destruct (Ascii.ascii_dec a a).
Qed.

(** These tests pass on every host, and whatever ran before in the process. *)
Theorem core_detect_suite_passes `{Unicode} `{BpfTarget} h :
  Forall (fun t => forall p, (t p).1 = Ok ()) (core_detect_suite h).
Proof.
  repeat apply Forall_cons_2; [..|by apply Forall_nil]; intros p;
    unfold has_btf_returns_bool_without_panic, has_ringbuf_returns_bool_without_panic,
      has_fentry_returns_bool_without_panic, diagnostics_returns_non_empty_vec,
      diagnostics_contains_kernel_version_string, diagnostics, has_ringbuf, has_fentry;
    repeat match goal with
      |- context [kernel_version h ?q] => destruct (kernel_version h q) as [[[? ?] ?] ?]
    end; destruct target_os_linux; try done; cbn [existsb app]; by rewrite prefix_app.
Qed.

(** ** src/tests/property/compiler.rs *)

Section property_tests.
  Context `{Arch}.

Definition returns_a_result {A} (result : res CompileError A) : test :=
  match result with
  | Ok _ | Err _ => Ok ()
  | Panic => Panic
  | OutOfFuel => OutOfFuel
  end.

Definition prop_compile_literal_search_doesnt_panic (s : str) : test :=
  let bytes := encode s in
  let result := compile_literal_search bytes in
  returns_a_result result.

Definition prop_compile_character_class_doesnt_panic (s : str) : test :=
  let result := compile_character_class (encode s) in
  returns_a_result result.

(** What the expressions of the generators require of a string that the theorem needs:
    the first one also excludes control characters. *)
Definition generated_literal (s : str) : Prop :=
  Forall (fun c => is_scalar c = true) s /\ vec_len s <= 1000.

Definition generated_class (s : str) : Prop :=
  Forall (fun c => CompilerUnit.is_ascii_alphanumeric c = true) s /\ vec_len s <= 50.

Lemma encode_len s : vec_len (encode s) <= 4 * vec_len s.
Proof.
  induction s as [|c s IH]; [done|]. change (encode (c :: s)) with (encode_char c ++ encode s).
  rewrite vec_len_app, vec_len_cons.
  assert (vec_len (encode_char c) <= 4) by (unfold encode_char; by repeat case_match).
  lia.
Qed.

Lemma is_ascii_alphanumeric_range c : CompilerUnit.is_ascii_alphanumeric c = true -> 0 <= c < 128.
Proof.
  unfold CompilerUnit.is_ascii_alphanumeric, CompilerUnit.is_ascii_lowercase, is_ascii_digit.
  change (chr "a") with 97. change (chr "z") with 122. change (chr "A") with 65.
  change (chr "Z") with 90. lia.
Qed.

Lemma encode_alphanumeric s :
  Forall (fun c => CompilerUnit.is_ascii_alphanumeric c = true) s -> encode s = s.
Proof.
  induction 1 as [|c s Hc _ IH]; [done|]. change (encode (c :: s)) with (encode_char c ++ encode s).
  rewrite IH. apply is_ascii_alphanumeric_range in Hc. unfold encode_char.
  by rewrite (proj2 (Z.ltb_lt _ _)) by lia.
Qed.

(** The property tests pass for every string of the generators, on every target and
    build. *)
Theorem property_tests_pass s :
  (generated_literal s -> prop_compile_literal_search_doesnt_panic s = Ok ())
  /\ (generated_class s -> prop_compile_character_class_doesnt_panic s = Ok ()).
Proof.
  pose proof usize_pow_ge. split.
  - intros [_ Hl]. unfold prop_compile_literal_search_doesnt_panic. cbv zeta.
    pose proof (encode_len s). set (pat := encode s) in *.
    destruct (Z.leb_spec (vec_len pat) MAX_BPF_PATTERN_LEN).
    + by rewrite compile_literal_search_program.
    + rewrite compile_literal_search_refused by (done || unfold usize_max; lia). done.
  - intros [Hs Hl]. unfold prop_compile_character_class_doesnt_panic. cbv zeta.
    rewrite encode_alphanumeric by done.
    rewrite compile_character_class_result.
    + destruct (parse_outcome s) as [[rs ->]|(reason & _ & ->)]; [|done]. by case_match.
    + eapply Forall_impl; [exact Hs|]. intros c Hc. apply is_ascii_alphanumeric_range in Hc.
      unfold is_byte. lia.
    + pose proof isize_pow_ge. lia.
Qed.
End property_tests.

(** ** Witnesses *)

Import DemoKernel.

(** A kernel that loads programs, and has no rings and no descriptor -1. *)
Module NoRings.

Definition refuse (errno : Z) (k : state) : Z * state :=
  (-1, mkState errno (st_programs k) (st_filters k)).

#[export] Instance syscalls : RingSyscalls state := {
  ring_target := x86_64;
  bpf_map_create _ _ _ _ := refuse 1;
  bpf_obj_get_info _ _ _ _ k := let '(rc, k) := refuse 9 k in ((rc, zeroed_info), k);
  sysconf_pagesize k := (4096, k);
  mmap _ _ _ _ _ _ := refuse 9;
  munmap _ _ := refuse 22;
  close fd k := (0, mkState (st_errno k) (delete fd (st_programs k)) (st_filters k));
  epoll_create1 _ := refuse 24;
  epoll_ctl _ _ _ _ := refuse 9;
  epoll_wait _ _ _ := refuse 9;
  load_u64 _ _ k := (0, k);
  store_u64 _ _ _ k := ((), k);
  load_u32 _ _ k := (0, k);
  read_bytes _ _ k := ([], k);
  eprintln _ k := ((), k);
  MAP_FAILED := -1;
  PROT_READ := 1;
  PROT_WRITE := 2;
  MAP_SHARED := 1;
  EPOLL_CLOEXEC := 0;
  EPOLLIN := 1;
  EPOLL_CTL_ADD := 1;
}.

(** The sockets of the process are not negative. *)
#[export] Instance sockets : ProgSyscalls state := {
  prog_target := x86_64;
  bpf_prog_load := prog_load;
  setsockopt s level name fd len k :=
    if s <? 0 then refuse 9 k else sockopt s level name fd len k;
  SOL_SOCKET := 1;
}.
End NoRings.

Lemma adversarial_io_outcome_witness :
  (adversarial_io_attach_invalid_socket (H1 := NoRings.sockets) (H2 := NoRings.syscalls) boot).1
    = Ok ()
  /\ (load_filter (H0 := NoRings.sockets) [new (Z.lor BPF_JMP BPF_EXIT) 0 0 0 0] boot).1 = Ok 0
  /\ (adversarial_io_poll_invalid_ringbuf_fd (H := arch64_debug) (H2 := NoRings.syscalls) 0
        (mkProc boot None)).1 = Ok ().
Proof.
  destruct (adversarial_io_outcome (H := arch64_debug) (H1 := NoRings.sockets)
    (H2 := NoRings.syscalls)) as (_ & _ & Hs & Hp).
  split_and!; [apply Hs; intros; cbn; lia|by vm_compute|apply Hp; intros; cbn; lia].
Defined.

Lemma property_tests_pass_witness :
  prop_compile_literal_search_doesnt_panic (H := arch64_debug) [0x1F980; 0xE9] = Ok ()
  /\ prop_compile_character_class_doesnt_panic (H := arch64_debug) (bytes "aZ9") = Ok ().
Proof.
  split; apply (property_tests_pass (H := arch64_debug)); (split; [|done]);
    repeat apply Forall_cons_2; by try apply Forall_nil.
Defined.
