(* ===== verification/RingProtocol.v ===== *)
(** * Delivery of records

    The ring buffer protocol as the kernel documents it (a sequence of records, each
    reserved, then committed or discarded), as the interface [RingProtocol] between
    the shared memory and the consumer of src/src/loader/ringbuf.rs.  Against it:
    every record is delivered exactly once and in order, discarded records are
    skipped, nothing is delivered before it is committed, no committed record at the
    head of the ring is left behind, and the call ends once the producer does.  The
    interface says what acquire loads and release stores do, and nothing of accesses
    with other orderings. *)

From S2P Require Import Prelude Str Os Ringbuf RingSafety.

(** ** The abstract ring *)

Inductive status := Busy | Committed | Discarded.

#[export] Instance status_eq_dec : EqDecision status.
Proof. solve_decision. Defined.

Record ring_record := mkRecord {
  payload : list Z;
  state : status;
}.

(** The space a record takes: its header and data, up to a multiple of 8. *)
Definition record_size (r : ring_record) : Z := 8 * ((vec_len (payload r) + 15) / 8).

(** The word in its header. *)
Definition header_word (r : ring_record) : Z :=
  vec_len (payload r)
  + match state r with Busy => 2 ^ 31 | Discarded => 2 ^ 30 | Committed => 0 end.

(** The logical position of the record of index [i]. *)
Fixpoint position (rs : list ring_record) (i : nat) : Z :=
  match i, rs with
  | S i, r :: rs => record_size r + position rs i
  | _, _ => 0
  end.

(** What the kernel does to a record: it keeps its length, and its data and state
    change only while it is busy. *)
Definition record_evolves (r r' : ring_record) : Prop :=
  r' = r \/ state r = Busy /\ length (payload r') = length (payload r).

(** What the kernel does to the records: it reserves new ones at the end. *)
Definition evolves (rs rs' : list ring_record) : Prop :=
  forall i r, rs !! i = Some r -> exists r', rs' !! i = Some r' /\ record_evolves r r'.

(** What the callback is given for the record of index [i], and for the [n] records
    from [m] on. *)
Definition emitted (rs : list ring_record) (i : nat) : list (list Z) :=
  match rs !! i with
  | Some r => match state r with Committed => [payload r] | _ => [] end
  | None => []
  end.

Definition delivered (rs : list ring_record) (m n : nat) : list (list Z) :=
  concat (map (emitted rs) (seq m n)).

(** ** Lemmas on the abstract ring *)

Lemma record_size_pos r : 8 <= record_size r.
Proof. unfold record_size. pose proof (vec_len_nonneg (payload r)). dlia. Qed.

Lemma record_evolves_size r r' : record_evolves r r' -> record_size r' = record_size r.
Proof. unfold record_size, vec_len. by intros [->|[_ ->]]. Qed.

#[export] Instance evolves_preorder : PreOrder evolves.
Proof.
  split.
  - intros rs i r Hi. exists r. split; [done|by left].
  - intros rs1 rs2 rs3 H12 H23 i r Hi. destruct (H12 i r Hi) as (r2 & Hi2 & E12).
    destruct (H23 i r2 Hi2) as (r3 & Hi3 & E23). exists r3. split; [done|].
    destruct E12 as [->|[Hb Hl]]; [done|]. right. split; [done|].
    destruct E23 as [->|[_ ->]]; done.
Qed.

Lemma evolves_length rs rs' : evolves rs rs' -> (length rs <= length rs')%nat.
Proof.
  intros He. destruct (decide (length rs <= length rs')%nat); [done|].
  destruct (lookup_lt_is_Some_2 rs (length rs')) as [r Hr]; [lia|].
  destruct (He _ _ Hr) as (r' & Hr' & _). apply lookup_lt_Some in Hr'. lia.
Qed.

(** A record that is not busy stays as it is. *)
Lemma evolves_final rs rs' i r :
  evolves rs rs' -> rs !! i = Some r -> state r <> Busy -> rs' !! i = Some r.
Proof. intros He Hi Hs. destruct (He i r Hi) as (r' & Hi' & [->|[? _]]); done. Qed.

Lemma position_S rs i r : rs !! i = Some r -> position rs (S i) = position rs i + record_size r.
Proof.
  revert i. induction rs as [|r0 rs IH]; intros [|i] Hi; [done|done|injection Hi as ->|].
  - cbn. destruct rs; cbn; lia.
  - specialize (IH i Hi). cbn [position] in *. lia.
Qed.

Lemma position_le rs i j : (i <= j <= length rs)%nat -> position rs i <= position rs j.
Proof.
  intros [Hij Hj]. induction Hij as [|j Hij IH]; [lia|].
  destruct (lookup_lt_is_Some_2 rs j) as [r Hr]; [lia|]. rewrite (position_S rs j r Hr).
  pose proof (record_size_pos r). lia.
Qed.

Lemma position_lt rs i j : (i < j <= length rs)%nat -> position rs i < position rs j.
Proof.
  intros Hij. destruct (lookup_lt_is_Some_2 rs i) as [r Hr]; [lia|].
  pose proof (position_S rs i r Hr). pose proof (record_size_pos r).
  pose proof (position_le rs (S i) j). lia.
Qed.

Lemma position_nonneg rs i : 0 <= position rs i.
Proof.
  revert i. induction rs as [|r rs IH]; intros [|i]; cbn; [done..|].
  pose proof (record_size_pos r). specialize (IH i). lia.
Qed.

Lemma position_evolves rs rs' i :
  evolves rs rs' -> (i <= length rs)%nat -> position rs' i = position rs i.
Proof.
  intros He. induction i as [|i IH]; intros Hi; [by destruct rs, rs'|].
  destruct (lookup_lt_is_Some_2 rs i) as [r Hr]; [lia|].
  destruct (He i r Hr) as (r' & Hr' & Hev).
  rewrite (position_S rs i r Hr), (position_S rs' i r' Hr'), IH, (record_evolves_size r r') by (done || lia).
  done.
Qed.

Lemma emitted_evolves rs rs' i r :
  evolves rs rs' -> rs !! i = Some r -> state r <> Busy -> emitted rs' i = emitted rs i.
Proof. intros He Hi Hs. unfold emitted. by rewrite Hi, (evolves_final rs rs' i r). Qed.

Lemma delivered_app rs m n1 n2 :
  delivered rs m (n1 + n2) = delivered rs m n1 ++ delivered rs (m + n1) n2.
Proof. unfold delivered. by rewrite seq_app, map_app, concat_app. Qed.

Lemma delivered_S rs m n : delivered rs m (S n) = emitted rs m ++ delivered rs (S m) n.
Proof. done. Qed.

(** The records from [m] on, [n] of them, are not busy. *)
Definition settled (rs : list ring_record) (m n : nat) : Prop :=
  forall i, (m <= i < m + n)%nat -> exists r, rs !! i = Some r /\ state r <> Busy.

Lemma delivered_evolves rs rs' m n :
  evolves rs rs' -> settled rs m n -> delivered rs' m n = delivered rs m n.
Proof.
  intros He Hs. unfold delivered. f_equal. apply map_ext_in. intros i Hi. apply in_seq in Hi.
  destruct (Hs i) as (r & Hr & Hst); [lia|]. by eapply emitted_evolves.
Qed.

Lemma settled_evolves rs rs' m n : evolves rs rs' -> settled rs m n -> settled rs' m n.
Proof.
  intros He Hs i Hi. destruct (Hs i Hi) as (r & Hr & Hst). exists r.
  split; [by eapply evolves_final|done].
Qed.

(** ** Header words *)

Lemma land_pow2 x n : 0 <= n -> Z.land x (2 ^ n) = if Z.testbit x n then 2 ^ n else 0.
Proof.
  intros Hn. apply Z.bits_inj'. intros m Hm. rewrite Z.land_spec, Z.pow2_bits_eqb by done.
  destruct (Z.eqb_spec n m) as [->|Hne].
  - destruct (Z.testbit x m); [by rewrite Z.pow2_bits_true|by rewrite Z.bits_0].
  - rewrite andb_false_r. destruct (Z.testbit x n); [|by rewrite Z.bits_0].
    by rewrite Z.pow2_bits_false by lia.
Qed.

Lemma header_bits r : vec_len (payload r) < 2 ^ 30 ->
  (Z.land (header_word r) BPF_RINGBUF_BUSY_BIT =? 0) = negb (bool_decide (state r = Busy))
  /\ (Z.land (header_word r) BPF_RINGBUF_DISCARD_BIT =? 0)
     = negb (bool_decide (state r = Discarded))
  /\ Z.land (header_word r) (not_u32 (Z.lor BPF_RINGBUF_BUSY_BIT BPF_RINGBUF_DISCARD_BIT))
     = vec_len (payload r).
Proof.
  intros Hlen. pose proof (vec_len_nonneg (payload r)).
  change BPF_RINGBUF_BUSY_BIT with (2 ^ 31). change BPF_RINGBUF_DISCARD_BIT with (2 ^ 30).
  change (not_u32 _) with (Z.ones 30). rewrite Z.land_ones, !land_pow2 by lia.
  rewrite !Z.testbit_eqb by lia. unfold header_word. set (len := vec_len (payload r)) in *.
  assert (Hq : len / 2 ^ 31 = 0 /\ len / 2 ^ 30 = 0 /\ (len + 2 ^ 31) / 2 ^ 31 = 1
    /\ (len + 2 ^ 31) / 2 ^ 30 = 2 /\ (len + 2 ^ 30) / 2 ^ 31 = 0 /\ (len + 2 ^ 30) / 2 ^ 30 = 1
    /\ len mod 2 ^ 30 = len /\ (len + 2 ^ 31) mod 2 ^ 30 = len /\ (len + 2 ^ 30) mod 2 ^ 30 = len)
    by dlia.
  destruct Hq as (H1 & H2 & H3 & H4 & H5 & H6 & H7 & H8 & H9).
  destruct (state r); rewrite ?Z.add_0_r, ?H1, ?H2, ?H3, ?H4, ?H5, ?H6, ?H7, ?H8, ?H9; done.
Qed.

(** ** The protocol

    The view the documentation has of a state: all the records ever reserved, and how
    many of them the published consumer position has passed. *)
Class RingView (os : Type) := {
  records : os -> list ring_record;
  consumed : os -> nat;
}.

(** What a consumer that has mapped the ring relies on.  The kernel works between any
    two accesses ([evolves]); only the consumer moves its position.  The kernel may write
    to the space of consumed records, so only the others are readable. *)
Class RingProtocol (c : RingbufConsumer) (os : Type) `{RingSyscalls os} `{RingView os} := {
  valid : os -> Prop;
  advances k k' := valid k' /\ evolves (records k) (records k') /\ consumed k' = consumed k;
  consumed_le k : valid k -> (consumed k <= length (records k))%nat;
  record_fits k i r :
    valid k -> records k !! i = Some r ->
    vec_len (payload r) < 2 ^ 30 /\ record_size r <= mask c + 1;
  positions_fit k : valid k -> position (records k) (length (records k)) < 2 ^ 64;
  load_consumer_law k v k' :
    valid k -> load_u64 (consumer_mapping c) Acquire k = (v, k') ->
    advances k k' /\ v = position (records k') (consumed k');
  load_producer_law k v k' :
    valid k -> load_u64 (producer_mapping c) Acquire k = (v, k') ->
    advances k k' /\ v = position (records k') (length (records k'));
  load_header_law k i v k' :
    valid k -> (consumed k <= i < length (records k))%nat ->
    load_u32 (data_ptr c + position (records k) i mod (mask c + 1)) Acquire k = (v, k') ->
    advances k k' /\ exists r, records k' !! i = Some r /\ v = header_word r;
  read_data_law k i r bs k' :
    valid k -> (consumed k <= i)%nat -> records k !! i = Some r -> state r = Committed ->
    read_bytes (data_ptr c + (position (records k) i mod (mask c + 1) + BPF_RINGBUF_HDR_SZ))
      (vec_len (payload r)) k = (bs, k') ->
    advances k k' /\ bs = payload r;
  store_consumer_law k i u k' :
    valid k -> (consumed k <= i <= length (records k))%nat ->
    store_u64 (consumer_mapping c) (position (records k) i) Release k = (u, k') ->
    valid k' /\ evolves (records k) (records k') /\ consumed k' = i;
}.

Section delivery.
  Context `{Arch} {os} `{!RingSyscalls os} `{!RingView os}.
  Context (c : RingbufConsumer) `{!RingProtocol c os}.
  Context (Hmask : mask_ok c).
  Context {C : Type} (callback : C -> list Z -> C).

Lemma position_u64 k i : valid k -> (i <= length (records k))%nat ->
  0 <= position (records k) i < 2 ^ 64.
Proof.
  intros Hv Hi. pose proof (position_nonneg (records k) i).
  pose proof (position_le (records k) i (length (records k))).
  pose proof (positions_fit k Hv). lia.
Qed.

(** The offset of a position is the position modulo the size of the ring. *)
Lemma offset_mod pos : 0 <= pos -> Z.land (as_usize pos) (mask c) = pos mod (mask c + 1).
Proof.
  intros Hpos. destruct Hmask as (n & Hn & -> & Hmax). unfold usize_max in Hmax.
  replace (2 ^ n - 1) with (Z.ones n) by (rewrite Z.ones_equiv; lia).
  rewrite Z.land_ones by lia. rewrite Z.ones_equiv. replace (Z.pred (2 ^ n) + 1) with (2 ^ n) by lia.
  unfold as_usize, wrap_u. apply Z.mod_mod_divide.
  assert (n <= usize_bits).
  { apply (Z.pow_le_mono_r_iff 2); [lia|pose proof usize_bits_ge_32; lia|].
    pose proof (Z.pow_pos_nonneg 2 n). lia. }
  exists (2 ^ (usize_bits - n)). rewrite <- Z.pow_add_r by lia. f_equal. lia.
Qed.

(** A settled record is handed to the callback, or skipped, as its state says. *)
Lemma deliver_run p i r x :
  valid (sys p) -> (consumed (sys p) <= i)%nat -> records (sys p) !! i = Some r -> state r <> Busy ->
  exists p', deliver c callback (position (records (sys p)) i mod (mask c + 1)) (header_word r)
               (vec_len (payload r)) x p
             = (Ok (Some (foldl callback x (emitted (records (sys p)) i))), p')
    /\ advances (sys p) (sys p').
Proof.
  intros Hv Hi Hr Hs. destruct (record_fits _ _ _ Hv Hr) as [Hlen Hsize].
  destruct (header_bits r Hlen) as (_ & Hdisc & _). unfold deliver, emitted. rewrite Hdisc, Hr.
  destruct (state r) eqn:Hst; [done| |exists p; split; [done|by split_and!]].
  rewrite bool_decide_false by done. cbn [negb]. destruct Hmask as (n & Hn & Hm & Hmax).
  assert (Hpos : 0 < mask c + 1) by (pose proof (Z.pow_pos_nonneg 2 n); lia).
  set (off := position (records (sys p)) i mod (mask c + 1)).
  pose proof (Z.mod_pos_bound (position (records (sys p)) i) (mask c + 1) Hpos) as Hoff.
  fold off in Hoff. unfold record_size in Hsize. pose proof (vec_len_nonneg (payload r)).
  rewrite (io_bind_run _ _ p (off + 8) p).
  2: { unfold lift, usize_add. rewrite u_arith_ok; [done|].
       unfold BPF_RINGBUF_HDR_SZ, usize_max in *. dlia. }
  unfold usize_checked_add at 1. rewrite (proj2 (Z.leb_le (mask c + 1) _)) by lia.
  replace (record_within_mapping _ _ _) with true
    by (symmetry; apply record_within_mapping_iff; [lia..|dlia]). cbn [negb].
  destruct (read_bytes (data_ptr c + (off + 8)) (vec_len (payload r)) (sys p)) as [bs k'] eqn:Hread.
  destruct (read_data_law _ _ _ _ _ Hv Hi Hr Hst Hread) as [Hadv ->].
  exists (mkProc k' (CACHE p)). split; [|done].
  rewrite (io_bind_run _ _ p (payload r) (mkProc k' (CACHE p))) by by apply call_run. done.
Qed.

Lemma store_run p i : valid (sys p) -> (consumed (sys p) <= i <= length (records (sys p)))%nat ->
  exists p', store_consumer_pos c (position (records (sys p)) i) p = (Ok (), p')
    /\ valid (sys p') /\ evolves (records (sys p)) (records (sys p')) /\ consumed (sys p') = i.
Proof.
  intros Hv Hi. destruct (store_u64 (consumer_mapping c) (position (records (sys p)) i) Release (sys p))
    as [[] k'] eqn:Hst.
  exists (mkProc k' (CACHE p)). split; [by apply call_run|].
  by apply (store_consumer_law _ _ _ _ Hv Hi Hst).
Qed.

(** What a run of the consumer did between two states: [d] records were settled,
    consumed, and given to the callback. *)
Definition progressed (k k' : os) (d : nat) (x x' : C) : Prop :=
  valid k' /\ evolves (records k) (records k') /\ consumed k' = (consumed k + d)%nat
  /\ settled (records k') (consumed k) d
  /\ x' = foldl callback x (delivered (records k') (consumed k) d).

Lemma progressed_refl k x : valid k -> progressed k k 0 x x.
Proof. intros Hv. split_and!; [done|done|lia| |done]. intros i Hi. lia. Qed.

(** The kernel's work at the end of a run, without new records consumed. *)
Lemma progressed_advances k k1 k2 d x x' :
  progressed k k1 d x x' -> advances k1 k2 -> progressed k k2 d x x'.
Proof.
  intros (Hv & He & Hc & Hs & ->) (Hv2 & He2 & Hc2).
  split_and!; [done|by etransitivity|lia|by eapply settled_evolves|].
  by rewrite (delivered_evolves _ _ _ _ He2).
Qed.

Lemma progressed_trans k k1 k2 d1 d2 x x1 x2 :
  progressed k k1 d1 x x1 -> progressed k1 k2 d2 x1 x2 -> progressed k k2 (d1 + d2) x x2.
Proof.
  intros (Hv & He & Hc & Hs & ->) (Hv2 & He2 & Hc2 & Hs2 & ->).
  split_and!; [done|by etransitivity|lia| |].
  - intros i Hi. destruct (decide (i < consumed k + d1)%nat).
    + apply (settled_evolves _ _ _ _ He2 Hs). lia.
    + apply Hs2. lia.
  - rewrite delivered_app, (delivered_evolves _ _ _ _ He2 Hs), foldl_app, Hc. done.
Qed.

(** Reading the header of the record at the head. *)
Lemma header_run p m : valid (sys p) -> consumed (sys p) = m -> (m < length (records (sys p)))%nat ->
  exists r p1,
    load_header_len c (Z.land (as_usize (position (records (sys p)) m)) (mask c)) p
      = (Ok (header_word r), p1)
    /\ advances (sys p) (sys p1) /\ records (sys p1) !! m = Some r
    /\ position (records (sys p)) m = position (records (sys p1)) m
    /\ vec_len (payload r) < 2 ^ 30.
Proof.
  intros Hv Hc Hm. rewrite offset_mod by apply position_nonneg.
  destruct (load_u32 (data_ptr c + position (records (sys p)) m mod (mask c + 1)) Acquire (sys p))
    as [word k1] eqn:Hload.
  destruct (load_header_law _ m _ _ Hv ltac:(lia) Hload) as [(Hv1 & He1 & Hc1) (r & Hr & ->)].
  exists r, (mkProc k1 (CACHE p)). split; [by apply call_run|].
  split; [done|]. split; [done|].
  split; [symmetry; apply position_evolves; [done|lia]|by eapply record_fits].
Qed.

(** One settled record: it is delivered and the position moves past it. *)
Lemma settled_step p m r x :
  valid (sys p) -> consumed (sys p) = m -> records (sys p) !! m = Some r -> state r <> Busy ->
  let pos := position (records (sys p)) m in
  exists x' p1 p2,
    deliver c callback (Z.land (as_usize pos) (mask c)) (header_word r) (vec_len (payload r)) x p
      = (Ok (Some x'), p1)
    /\ u_arith (E := IoError) 64 (pos + wrap_u 64 (round_record_len (vec_len (payload r))))
       = Ok (position (records (sys p)) (S m))
    /\ store_consumer_pos c (position (records (sys p)) (S m)) p1 = (Ok (), p2)
    /\ progressed (sys p) (sys p2) 1 x x'.
Proof.
  intros Hv Hc Hr Hs. cbv zeta. pose proof (lookup_lt_Some _ _ _ Hr) as Hlt.
  pose proof (position_nonneg (records (sys p)) m). rewrite offset_mod by done.
  destruct (record_fits _ _ _ Hv Hr) as [Hlen _]. pose proof (vec_len_nonneg (payload r)).
  destruct (deliver_run p m r x) as (p1 & Hd & Hv1 & He1 & Hc1); [done|lia|done|done|].
  pose proof (evolves_length _ _ He1).
  destruct (store_run p1 (S m)) as (p2 & Hst & Hv2 & He2 & Hc2); [done|lia|].
  rewrite (position_evolves _ _ (S m) He1) in Hst by lia.
  assert (He : evolves (records (sys p)) (records (sys p2))) by by etransitivity.
  eexists _, p1, p2. split; [exact Hd|]. split; [|split; [exact Hst|]].
  - rewrite round_record_len_small; [|lia|unfold usize_max; pose proof usize_pow_ge; lia].
    pose proof (position_S _ _ _ Hr) as HS. unfold record_size in HS.
    pose proof (position_u64 (sys p) (S m) Hv ltac:(lia)).
    rewrite wrap_u_small by dlia. rewrite <- HS. by apply u_arith_ok.
  - split; [done|]. split; [done|]. split; [lia|]. split.
    + intros i Hi. assert (i = m) as -> by lia. exists r. split; [by eapply evolves_final|done].
    + rewrite Hc, delivered_S. change (delivered _ _ 0) with (@nil (list Z)).
      by rewrite app_nil_r, (emitted_evolves _ _ m r He).
Qed.

(** The head of the ring of [k] stops after [d] records, before the index [n]:
    there is a busy one. *)
Definition blocked (k : os) (d n : nat) : Prop :=
  (consumed k + d < n)%nat
  /\ exists r, records k !! (consumed k + d)%nat = Some r /\ state r = Busy.

(** A record that is busy now was busy before. *)
Lemma blocked_earlier k k1 d1 d n x x1 :
  progressed k k1 d1 x x1 -> (n <= length (records k))%nat -> blocked k1 d n ->
  blocked k (d1 + d) n.
Proof.
  intros (_ & He & Hc & _) Hn (Hlt & r1 & Hr1 & Hb). rewrite Hc, <- Nat.add_assoc in *.
  split; [done|]. destruct (lookup_lt_is_Some_2 (records k) (consumed k + (d1 + d))) as [r Hr]; [lia|].
  exists r. split; [done|]. destruct (decide (state r = Busy)); [done|].
  rewrite (evolves_final _ _ _ _ He Hr) in Hr1 by done. congruence.
Qed.

(** The inner loop, up to the record of index [n] the producer position was at. *)
Lemma inner_run fuel p n any x :
  valid (sys p) -> (consumed (sys p) <= n <= length (records (sys p)))%nat ->
  match consume_inner c callback fuel (position (records (sys p)) (consumed (sys p)))
          (position (records (sys p)) n) any x p with
  | (Ok (Return x'), p') =>
      exists d, progressed (sys p) (sys p') d x x' /\ blocked (sys p) d n
  | (Ok (Done pos' any' x'), p') =>
      exists d, progressed (sys p) (sys p') d x x' /\ (consumed (sys p) + d)%nat = n
        /\ pos' = position (records (sys p')) (consumed (sys p')) /\ any' = any || (0 <? d)%nat
  | (OutOfFuel, _) => (fuel <= n - consumed (sys p))%nat
  | (Err _, _) | (Panic, _) => False
  end.
Proof.
  revert p any x. induction fuel as [|fuel IH]; intros p any x Hv Hn; cbn [consume_inner].
  { cbn. lia. }
  remember (consumed (sys p)) as m eqn:Hc. symmetry in Hc.
  destruct (Z.ltb_spec (position (records (sys p)) m) (position (records (sys p)) n)) as [Hlt|Hge].
  2: { assert (m = n) as <-.
       { destruct (decide (m = n)); [done|].
         pose proof (position_lt (records (sys p)) m n ltac:(lia)). lia. }
       exists 0%nat. rewrite Hc, orb_false_r. split_and!; [by apply progressed_refl|lia|done|done]. }
  assert (Hmn : (m < n)%nat) by (destruct (decide (m = n)) as [->|]; lia).
  destruct (header_run p m Hv Hc ltac:(lia)) as (r & p1 & Hh & Ha1 & Hr & Hpos1 & Hlen).
  cbv zeta. rewrite (io_bind_run _ _ _ _ _ Hh). rewrite Hpos1.
  destruct (header_bits r Hlen) as (Hbusy & _ & Hword). rewrite Hbusy, Hword, negb_involutive.
  pose proof (vec_len_nonneg (payload r)). rewrite as_usize_small by lia.
  pose proof (lookup_lt_Some _ _ _ Hr) as Hrlt.
  pose proof (progressed_advances _ _ _ _ _ _ (progressed_refl (sys p) x Hv) Ha1) as Hp1.
  destruct Ha1 as (Hv1 & He1 & Hc1). rewrite Hc in Hc1.
  destruct (decide (state r = Busy)) as [Hb|Hb].
  - rewrite bool_decide_true by done.
    destruct (store_run p1 m Hv1) as (p2 & Hst & Hv2 & He2 & Hc2); [lia|].
    rewrite (io_bind_run _ _ _ _ _ Hst). exists 0%nat. split.
    + eapply progressed_advances; [exact Hp1|]. split_and!; [done|done|lia].
    + apply (blocked_earlier _ _ 0 0 n _ _ Hp1); [lia|].
      unfold blocked. rewrite Hc1, Nat.add_0_r. split; [done|by exists r].
  - rewrite bool_decide_false by done.
    destruct (settled_step p1 m r x Hv1 Hc1 Hr Hb) as (x1 & p2 & p3 & Hd & Hadd & Hst & Hp3).
    rewrite (io_bind_run _ _ _ _ _ Hd).
    rewrite (io_bind_run _ _ p2 (position (records (sys p1)) (S m)) p2)
      by (unfold lift; by rewrite Hadd).
    rewrite (io_bind_run _ _ _ _ _ Hst).
    pose proof (progressed_trans _ _ _ _ _ _ _ _ Hp1 Hp3) as Hp. cbn [Nat.add] in Hp.
    clear Hp3 Hd Hst. pose proof Hp as (Hv3 & He3 & Hc3 & _).
    pose proof (evolves_length _ _ He3). rewrite Hc in Hc3.
    specialize (IH p3 true x1 Hv3 ltac:(lia)).
    replace (position (records (sys p1)) (S m)) with (position (records (sys p3)) (consumed (sys p3))).
    2: { rewrite Hc3, Nat.add_1_r, (position_evolves _ _ (S m) He3) by lia.
         symmetry. apply position_evolves; [done|lia]. }
    rewrite <- (position_evolves _ _ n He3) by lia.
    destruct (consume_inner _ _ _ _ _ _ _ _) as [[[x'|pos' any' x']| | |] p']; [| |done|done|lia].
    + destruct IH as (d & Hp' & Hblk). exists (1 + d)%nat.
      split; [by eapply progressed_trans|]. eapply blocked_earlier; [exact Hp|lia|done].
    + destruct IH as (d & Hp' & Hd' & Hpos & ->). exists (1 + d)%nat.
      split_and!; [by eapply progressed_trans|lia|done|]. by rewrite orb_true_r.
Qed.

(** Nothing that was settled at the head of the ring of [k] is beyond [d] records. *)
Definition complete (k : os) (d : nat) : Prop :=
  forall e, settled (records k) (consumed k) e -> (e <= d)%nat.

Lemma complete_blocked k k1 d n x :
  progressed k k1 0 x x -> blocked k1 d n -> complete k d.
Proof.
  intros (_ & He & Hc & _) (_ & r & Hr & Hb) e Hs. rewrite Nat.add_0_r in Hc.
  destruct (decide (e <= d)%nat); [done|]. apply (settled_evolves _ _ _ _ He) in Hs.
  destruct (Hs (consumed k + d)%nat) as (r' & Hr' & Hst); [lia|].
  rewrite Hc in Hr. congruence.
Qed.

Lemma complete_all k d : (length (records k) <= consumed k + d)%nat -> complete k d.
Proof.
  intros Hl e Hs. destruct (decide (e <= d)%nat); [done|].
  destruct (Hs (consumed k + d)%nat) as (r & Hr & _); [lia|]. apply lookup_lt_Some in Hr. lia.
Qed.

Lemma complete_trans k k1 d1 d2 x x1 :
  progressed k k1 d1 x x1 -> complete k1 d2 -> complete k (d1 + d2).
Proof.
  intros (_ & He & Hc & _) Hk1 e Hs. destruct (decide (e <= d1)%nat); [lia|].
  assert (e - d1 <= d2)%nat; [|lia]. apply Hk1. rewrite Hc.
  intros i Hi. apply (settled_evolves _ _ _ _ He) in Hs. apply Hs. lia.
Qed.

(** The outer loop. *)
Lemma outer_run fuel p x : valid (sys p) ->
  match consume_outer c callback fuel (position (records (sys p)) (consumed (sys p))) x p with
  | (Ok x', p') => exists d, progressed (sys p) (sys p') d x x' /\ complete (sys p) d
  | (OutOfFuel, _) => exists k1, valid k1 /\ (consumed (sys p) + fuel <= length (records k1))%nat
  | (Err _, _) | (Panic, _) => False
  end.
Proof.
  revert p x. induction fuel as [|fuel IH]; intros p x Hv.
  { cbn. exists (sys p). split; [done|]. pose proof (consumed_le _ Hv). lia. }
  cbn [consume_outer].
  destruct (load_u64 (producer_mapping c) Acquire (sys p)) as [prod k1] eqn:Hload.
  destruct (load_producer_law _ _ _ Hv Hload) as [Ha ->].
  rewrite (io_bind_run _ _ p _ (mkProc k1 (CACHE p))) by by apply call_run.
  set (p1 := mkProc k1 (CACHE p)). pose proof (progressed_advances _ _ _ _ _ _ (progressed_refl (sys p) x Hv) Ha) as Hp1.
  change k1 with (sys p1) in Hp1, Ha |- *. clear Hload. clearbody p1.
  destruct Ha as (Hv1 & He1 & Hc1).
  pose proof (consumed_le _ Hv). pose proof (consumed_le _ Hv1). pose proof (evolves_length _ _ He1).
  replace (position (records (sys p)) (consumed (sys p)))
    with (position (records (sys p1)) (consumed (sys p1)))
    by (rewrite Hc1; by apply position_evolves).
  pose proof (inner_run (S fuel) p1 (length (records (sys p1))) false x Hv1 ltac:(lia)) as Hin.
  unfold mbind, io_bind.
  destruct (consume_inner _ _ _ _ _ _ _ _) as [[[x'|pos' any' x']| | |] p2]; [| |done|done|].
  - destruct Hin as (d & Hp2 & Hblk). exists d. split; [|by eapply complete_blocked].
    by apply (progressed_trans _ _ _ 0 d _ _ _ Hp1 Hp2).
  - destruct Hin as (d & Hp2 & Hd & -> & ->). cbn [orb].
    pose proof (progressed_trans _ _ _ _ _ _ _ _ Hp1 Hp2) as Hp. cbn [Nat.add] in Hp.
    destruct (Nat.ltb_spec 0 d) as [Hpos|Hz]; cbn [negb].
    + pose proof Hp as (Hv2 & He2 & Hc2 & _). specialize (IH p2 x' Hv2).
      destruct (consume_outer _ _ _ _ _ _) as [[x''| | |] p']; [| |done|].
      * destruct IH as (d2 & Hp' & Hcomp). exists (d + d2)%nat.
        split; [by eapply progressed_trans|by eapply complete_trans].
      * done.
      * destruct IH as (k3 & Hv3 & Hl). exists k3. split; [done|lia].
    + exists d. split; [done|]. apply complete_all. lia.
  - exists (sys p1). split; [done|]. lia.
Qed.

(** The whole call. *)
Lemma consume_run fuel p x : valid (sys p) ->
  match consume_ring_records c callback fuel x p with
  | (Ok x', p') => exists d, progressed (sys p) (sys p') d x x' /\ complete (sys p) d
  | (OutOfFuel, _) => exists k1, valid k1 /\ (fuel <= length (records k1))%nat
  | (Err _, _) | (Panic, _) => False
  end.
Proof.
  intros Hv. unfold consume_ring_records.
  destruct (load_u64 (consumer_mapping c) Acquire (sys p)) as [pos k1] eqn:Hload.
  destruct (load_consumer_law _ _ _ Hv Hload) as [Ha ->].
  rewrite (io_bind_run _ _ p _ (mkProc k1 (CACHE p))) by by apply call_run.
  pose proof (progressed_advances _ _ _ _ _ _ (progressed_refl (sys p) x Hv) Ha) as Hp1.
  pose proof (outer_run fuel (mkProc k1 (CACHE p)) x (proj1 Ha)) as Hout.
  cbn [sys] in Hout. destruct (consume_outer _ _ _ _ _ _) as [[x'| | |] p']; [| |done|].
  - destruct Hout as (d & Hp2 & Hcomp). exists d.
    split; [by apply (progressed_trans _ _ _ 0 d _ _ _ Hp1 Hp2)|].
    exact (complete_trans _ _ _ _ _ _ Hp1 Hcomp).
  - done.
  - destruct Hout as (k & Hk & Hl). exists k. split; [done|lia].
Qed.

(** C4. Delivery: a call that ends, whatever the kernel does meanwhile, hands to the
    callback exactly the committed records among the [d] records it consumes, each
    once, in the order of the ring, and skips the discarded ones; it publishes the
    position after them; it consumes no busy record; and it leaves no record behind
    that was at the head of the ring, committed or discarded, when it was called.
    It never panics and has no error. *)
Theorem consume_ring_records_delivers fuel p x :
  valid (sys p) ->
  match consume_ring_records c callback fuel x p with
  | (Ok x', p') => exists d,
      consumed (sys p') = (consumed (sys p) + d)%nat
      /\ evolves (records (sys p)) (records (sys p'))
      /\ settled (records (sys p')) (consumed (sys p)) d
      /\ x' = foldl callback x (delivered (records (sys p')) (consumed (sys p)) d)
      /\ (forall e, settled (records (sys p)) (consumed (sys p)) e -> (e <= d)%nat)
  | (OutOfFuel, _) => exists k, valid k /\ (fuel <= length (records k))%nat
  | (Err _, _) | (Panic, _) => False
  end.
Proof.
  intros Hv. pose proof (consume_run fuel p x Hv) as Hrun.
  destruct (consume_ring_records _ _ _ _ _) as [[x'| | |] p']; [|done..].
  destruct Hrun as (d & (_ & He & Hc & Hs & Hx) & Hcomp). by exists d.
Qed.

(** C7. Termination: when the producer reserves at most [N] records in all, [N + 1]
    iterations are enough, and the call returns. *)
Theorem consume_ring_records_terminates N fuel p x :
  valid (sys p) -> (forall k, valid k -> (length (records k) <= N)%nat) -> (N < fuel)%nat ->
  exists x' p', consume_ring_records c callback fuel x p = (Ok x', p').
Proof.
  intros Hv Hbound Hfuel. pose proof (consume_run fuel p x Hv) as Hrun.
  destruct (consume_ring_records _ _ _ _ _) as [[x'| | |] p']; [by eauto|done|done|].
  destruct Hrun as (k & Hk & Hl). specialize (Hbound k Hk). lia.
Qed.
End delivery.
