(* ===== verification/RingPoll.v ===== *)
(** * Polling a ring buffer, end to end

    [poll_ringbuf] (src/src/loader/ringbuf.rs) as a whole: it asks for the size of the
    ring and of a page, maps the ring, waits and consumes.  The interface [PollKernel]
    adds to [RingProtocol] what the calls around the consumption do to the ring.
    Against it: a call that succeeds delivers records as the protocol says, a call
    that fails has consumed nothing, any sequence of calls delivers every record once
    and in order, and a call on a cooperative system returns and leaves nothing behind
    that was settled. *)

From S2P Require Import Prelude Str Os Ringbuf RingSafety RingProtocol.

(** Computations that do not change the static cache of the process. *)
Create HintDb cache.

(** The consumer [RingbufConsumer::new] builds from the addresses of its mappings. *)
Definition ring_at (size page a b : Z) : RingbufConsumer :=
  mkRingbufConsumer a b (b + page) (page + size * 2) (size - 1) page.

(** The question [map_info] asks. *)
Definition info_attr `{BpfTarget} (map_fd : Z) : BpfAttrObjInfoByFd :=
  mkBpfAttrObjInfoByFd (wrap_u 32 map_fd) sizeof_BpfMapInfo zeroed_info.

(** A system with a ring of [size] bytes behind [map_fd] and pages of [page] bytes.
    [ready] is what holds of the ring at all times; a consumer that has mapped it
    may rely on [RingProtocol].  Only the consumer moves its position. *)
Class PollKernel (map_fd size page : Z) (os : Type) `{RingSyscalls os} `{RingView os} := {
  poll_protocol :: forall a b, RingProtocol (ring_at size page a b) os;
  ready : os -> Prop;
  quiet k k' := ready k' /\ evolves (records k) (records k') /\ consumed k' = consumed k;
  mapped_ready a b k : valid (c := ring_at size page a b) k -> ready k;
  poll_info_law k rc i k' :
    ready k ->
    bpf_obj_get_info SYS_BPF BPF_OBJ_GET_INFO_BY_FD (info_attr map_fd) sizeof_BpfAttrObjInfoByFd k
      = ((rc, i), k') ->
    quiet k k' /\ (0 <= rc -> map_type i = BPF_MAP_TYPE_RINGBUF /\ max_entries i = size);
  poll_sysconf_law k v k' :
    ready k -> sysconf_pagesize k = (v, k') -> quiet k k' /\ (0 < v -> v = page);
  poll_mmap_consumer k a k' :
    ready k -> mmap 0 page (Z.lor PROT_READ PROT_WRITE) MAP_SHARED map_fd 0 k = (a, k') ->
    quiet k k';
  poll_mmap_producer k a k1 b k2 :
    ready k -> mmap 0 page (Z.lor PROT_READ PROT_WRITE) MAP_SHARED map_fd 0 k = (a, k1) ->
    a <> MAP_FAILED -> mmap 0 (page + size * 2) PROT_READ MAP_SHARED map_fd page k1 = (b, k2) ->
    quiet k1 k2 /\ (b <> MAP_FAILED -> valid (c := ring_at size page a b) k2);
  poll_munmap_law addr len k rc k' : ready k -> munmap addr len k = (rc, k') -> quiet k k';
  poll_close_law fd k rc k' : ready k -> close fd k = (rc, k') -> quiet k k';
  poll_eprintln_law s k u k' : ready k -> eprintln s k = (u, k') -> quiet k k';
  poll_create_law a b k fd k' :
    valid (c := ring_at size page a b) k -> epoll_create1 EPOLL_CLOEXEC k = (fd, k') ->
    advances (c := ring_at size page a b) k k';
  poll_ctl_law a b epfd event k rc k' :
    valid (c := ring_at size page a b) k ->
    epoll_ctl epfd EPOLL_CTL_ADD map_fd event k = (rc, k') ->
    advances (c := ring_at size page a b) k k';
  poll_wait_law a b epfd k rc k' :
    valid (c := ring_at size page a b) k -> epoll_wait epfd 1 (-1) k = (rc, k') ->
    advances (c := ring_at size page a b) k k';
}.

Section poll.
  Context `{Arch} {os} `{Os os} `{!RingSyscalls os} `{!RingView os}.
  Context (map_fd size page : Z) `{!PollKernel map_fd size page os}.
  Context {C : Type} (callback : C -> list Z -> C).

  Abbreviation Valid a b := (valid (c := ring_at size page a b)) (only parsing).

(** ** States of the process *)

(** The cached page size, if any, is the size of a page. *)
Definition page_cached (p : proc os) : Prop :=
  match CACHE p with None => True | Some v => v = page end.

Definition good (p : proc os) : Prop := ready (sys p) /\ page_cached p.

(** The ring as it was, but for the work of the kernel. *)
Definition untouched (p p' : proc os) : Prop :=
  good p' /\ evolves (records (sys p)) (records (sys p')) /\ consumed (sys p') = consumed (sys p).

Lemma untouched_refl p : good p -> untouched p p.
Proof. intros Hg. by split; [|split]. Qed.

Lemma untouched_trans p1 p2 p3 : untouched p1 p2 -> untouched p2 p3 -> untouched p1 p3.
Proof.
  intros (_ & ? & ?) (? & ? & ?). split; [done|]. split; [by etransitivity|congruence].
Qed.

Lemma quiet_untouched p k' : good p -> quiet (sys p) k' -> untouched p (mkProc k' (CACHE p)).
Proof. intros [_ Hc] (? & ? & ?). by split. Qed.

(** [d] records were consumed and given to the callback between two states. *)
Definition handed (k k' : os) (d : nat) (x x' : C) : Prop :=
  evolves (records k) (records k') /\ consumed k' = (consumed k + d)%nat
  /\ settled (records k') (consumed k) d
  /\ x' = foldl callback x (delivered (records k') (consumed k) d).

Lemma handed_refl k x : handed k k 0 x x.
Proof. split_and!; [done|lia| |done]. intros i Hi. lia. Qed.

Lemma handed_trans k k1 k2 d1 d2 x x1 x2 :
  handed k k1 d1 x x1 -> handed k1 k2 d2 x1 x2 -> handed k k2 (d1 + d2) x x2.
Proof.
  intros (He & Hc & Hs & ->) (He2 & Hc2 & Hs2 & ->).
  split_and!; [by etransitivity|lia| |].
  - intros i Hi. destruct (decide (i < consumed k + d1)%nat).
    + apply (settled_evolves _ _ _ _ He2 Hs). lia.
    + apply Hs2. lia.
  - rewrite delivered_app, (delivered_evolves _ _ _ _ He2 Hs), foldl_app, Hc. done.
Qed.

Lemma handed_untouched p p' x : untouched p p' -> handed (sys p) (sys p') 0 x x.
Proof. intros (_ & He & Hc). split_and!; [done|lia| |done]. intros i Hi. lia. Qed.

(** ** The calls before the ring is mapped *)

Context (Hpage : 0 < page < 2 ^ 31).
Context (Hsize : exists n, 3 <= n /\ size = 2 ^ n) (Hfit : page + 2 * size <= usize_max).

Lemma size_pos : 8 <= size.
Proof.
  destruct Hsize as (n & Hn & ->). change 8 with (2 ^ 3). by apply Z.pow_le_mono_r.
Qed.

Lemma ring_at_mask a b : mask_ok (ring_at size page a b).
Proof.
  destruct Hsize as (n & Hn & Hs). exists n. split_and!; [done|by cbn; rewrite Hs|].
  rewrite <- Hs. lia.
Qed.

(** The calls of a poll that can refuse, each with the error it leaves. *)
Inductive refused : IoError -> Prop :=
| refused_info k rc i k' :
    ready k ->
    bpf_obj_get_info SYS_BPF BPF_OBJ_GET_INFO_BY_FD (info_attr map_fd) sizeof_BpfAttrObjInfoByFd k
      = ((rc, i), k') -> rc < 0 -> refused (OsError (errno k'))
| refused_page k v k' :
    ready k -> sysconf_pagesize k = (v, k') -> v <= 0 -> refused (OsError (errno k'))
| refused_consumer k k' :
    ready k ->
    mmap 0 page (Z.lor PROT_READ PROT_WRITE) MAP_SHARED map_fd 0 k = (MAP_FAILED, k') ->
    refused (OsError (errno k'))
| refused_producer k k' :
    ready k -> mmap 0 (page + size * 2) PROT_READ MAP_SHARED map_fd page k = (MAP_FAILED, k') ->
    refused (OsError (errno k'))
| refused_create a b k fd k' :
    Valid a b k -> epoll_create1 EPOLL_CLOEXEC k = (fd, k') -> fd < 0 ->
    refused (OsError (errno k'))
| refused_add a b epfd event k rc k' :
    Valid a b k -> epoll_ctl epfd EPOLL_CTL_ADD map_fd event k = (rc, k') -> rc < 0 ->
    refused (OsError (errno k'))
| refused_wait a b epfd k rc k' :
    Valid a b k -> epoll_wait epfd 1 (-1) k = (rc, k') -> rc < 0 -> errno k' <> EINTR ->
    refused (OsError (errno k')).
#[local] Hint Constructors refused : core.

(** Steps before the consumption succeed with [Q] or are refused, and leave the ring
    alone. *)
Definition prepares {A} (m : io IoError (proc os) A) (Q : A -> proc os -> Prop) : Prop :=
  forall p, good p ->
  match m p with
  | (Ok a, p') => untouched p p' /\ Q a p'
  | (Err e, p') => untouched p p' /\ refused e
  | (Panic, _) | (OutOfFuel, _) => False
  end.

Lemma prepares_map_info :
  prepares (map_info map_fd)
    (fun i _ => map_type i = BPF_MAP_TYPE_RINGBUF /\ max_entries i = size).
Proof.
  intros p Hg. unfold map_info. cbv zeta. fold (info_attr map_fd).
  destruct (bpf_obj_get_info SYS_BPF BPF_OBJ_GET_INFO_BY_FD (info_attr map_fd) sizeof_BpfAttrObjInfoByFd
    (sys p)) as [[rc i] k'] eqn:Hk.
  rewrite (io_bind_run _ _ p (rc, i) (mkProc k' (CACHE p))) by by apply call_run.
  destruct (poll_info_law _ _ _ _ (proj1 Hg) Hk) as [Hq Hi].
  destruct Hg as [Hr Hc]. destruct (Z.ltb_spec rc 0).
  - split; [by apply quiet_untouched|]. cbn. eauto.
  - split; [by apply quiet_untouched|auto].
Qed.

Lemma prepares_page_size : prepares get_page_size (fun v _ => v = page).
Proof.
  intros p Hg. pose proof size_pos. unfold get_page_size, mbind, io_bind, get_cache.
  pose proof (proj2 Hg) as Hc. unfold page_cached in Hc. destruct (CACHE p) as [v|] eqn:Hcache.
  { split; [by apply untouched_refl|done]. }
  unfold call, syscall, on_sys. destruct (sysconf_pagesize (sys p)) as [v k'] eqn:Hk.
  destruct (poll_sysconf_law _ _ _ (proj1 Hg) Hk) as [Hq Hv].
  pose proof (quiet_untouched p k' Hg Hq) as Hu.
  destruct (Z.leb_spec v 0).
  { destruct Hg. split; [done|]. cbn. eauto. }
  rewrite (Hv ltac:(lia)).
  rewrite (proj2 (Z.leb_le page usize_max)) by lia. cbn. rewrite Hcache. split; [|done].
  destruct Hq as (Hr & He & Hcons). by split.
Qed.

(** The page that is mapped before the producer pages fails to be is unmapped. *)
Lemma munmap_or_warn_untouched addr len context p :
  good p -> untouched p (munmap_or_warn addr len context p).
Proof.
  intros Hg. unfold munmap_or_warn.
  destruct (munmap addr len (sys p)) as [rc k1] eqn:Hk. rewrite (on_sys_run _ _ _ _ Hk).
  pose proof (quiet_untouched p k1 Hg (poll_munmap_law _ _ _ _ _ (proj1 Hg) Hk)) as Hu1.
  destruct (negb (rc =? 0)); [|done]. eapply untouched_trans; [exact Hu1|].
  unfold on_sys. destruct (eprintln _ _) as [u k2] eqn:Hk2.
  apply (quiet_untouched (mkProc k1 (CACHE p))); [apply Hu1|].
  by eapply poll_eprintln_law; [apply Hu1|].
Qed.

Lemma close_or_warn_untouched fd context p :
  good p -> untouched p (close_or_warn fd context p).
Proof.
  intros Hg. unfold close_or_warn.
  destruct (close fd (sys p)) as [rc k1] eqn:Hk. rewrite (on_sys_run _ _ _ _ Hk).
  pose proof (quiet_untouched p k1 Hg (poll_close_law _ _ _ _ (proj1 Hg) Hk)) as Hu1.
  destruct (negb (rc =? 0)); [|done]. eapply untouched_trans; [exact Hu1|].
  unfold on_sys. destruct (eprintln _ _) as [u k2] eqn:Hk2.
  apply (quiet_untouched (mkProc k1 (CACHE p))); [apply Hu1|].
  by eapply poll_eprintln_law; [apply Hu1|].
Qed.

Lemma drop_untouched c p : good p -> untouched p (RingbufConsumer_drop c p).
Proof.
  intros Hg. unfold RingbufConsumer_drop. eapply untouched_trans.
  - by apply munmap_or_warn_untouched.
  - apply munmap_or_warn_untouched, munmap_or_warn_untouched. done.
Qed.

Lemma prepares_consumer_new :
  prepares (RingbufConsumer_new map_fd size page)
    (fun c p' => exists a b, c = ring_at size page a b /\ Valid a b (sys p')).
Proof.
  intros p Hg. pose proof size_pos. unfold RingbufConsumer_new.
  destruct (mmap 0 page (Z.lor PROT_READ PROT_WRITE) MAP_SHARED map_fd 0 (sys p)) as [a k1] eqn:Hk1.
  rewrite (io_bind_run _ _ p a (mkProc k1 (CACHE p))) by by apply call_run.
  pose proof (quiet_untouched p k1 Hg (poll_mmap_consumer _ _ _ (proj1 Hg) Hk1)) as Hu1.
  destruct (Z.eqb_spec a MAP_FAILED) as [->|Ha].
  { destruct Hg. split; [done|]. cbn. eauto. }
  rewrite (io_bind_run _ _ _ (size * 2) (mkProc k1 (CACHE p)))
    by (unfold ok_or, usize_checked_mul; by rewrite (proj2 (Z.leb_le _ _)) by lia).
  rewrite (io_bind_run _ _ _ (page + size * 2) (mkProc k1 (CACHE p)))
    by (unfold ok_or, usize_checked_add; by rewrite (proj2 (Z.leb_le _ _)) by lia).
  rewrite as_isize_small by lia.
  destruct (mmap 0 (page + size * 2) PROT_READ MAP_SHARED map_fd page k1) as [b k2] eqn:Hk2.
  rewrite (io_bind_run _ _ _ b (mkProc k2 (CACHE p)))
    by by apply (call_run _ (mkProc k1 (CACHE p))).
  destruct (poll_mmap_producer _ _ _ _ _ (proj1 Hg) Hk1 Ha Hk2) as [Hq2 Hval].
  pose proof (quiet_untouched _ _ (proj1 Hu1) Hq2) as Hu2. cbn [CACHE] in Hu2.
  pose proof (untouched_trans _ _ _ Hu1 Hu2) as Hu.
  destruct (Z.eqb_spec b MAP_FAILED) as [->|Hb].
  - split; [eapply untouched_trans; [exact Hu|]; apply munmap_or_warn_untouched, Hu|].
    apply (refused_producer k1 k2); [apply Hu1|done].
  - assert (Hm : usize_sub (E := IoError) size 1 = Ok (size - 1)).
    { unfold usize_sub. apply u_arith_ok. unfold usize_max in Hfit. lia. }
    rewrite (io_bind_run _ _ _ (size - 1) (mkProc k2 (CACHE p)))
      by (unfold lift; by rewrite Hm).
    split; [exact Hu|]. exists a, b. split; [done|]. by apply Hval.
Qed.

(** ** The consumption leaves the cached page size alone *)

Definition cache_stable {A} (m : io IoError (proc os) A) : Prop :=
  forall p, CACHE (m p).2 = CACHE p.

Lemma cache_stable_bind {A B} (m : io IoError (proc os) A) (f : A -> io IoError (proc os) B) :
  cache_stable m -> (forall a, cache_stable (f a)) -> cache_stable (m ≫= f).
Proof.
  intros Hm Hf p. specialize (Hm p). unfold mbind, io_bind.
  destruct (m p) as [[a|e| |] p1]; [|done..]. cbn [snd] in Hm. by rewrite (Hf a p1).
Qed.

Lemma cache_stable_call {A} (f : os -> A * os) : cache_stable (call f).
Proof. intros p. unfold call, syscall, on_sys. by destruct (f (sys p)). Qed.

Lemma cache_stable_lift {A} (r : res IoError A) : cache_stable (lift r).
Proof. done. Qed.

Lemma cache_stable_ret {A} (a : A) : cache_stable (mret a).
Proof. done. Qed.

#[local] Hint Resolve cache_stable_bind cache_stable_call cache_stable_lift cache_stable_ret : cache.

Lemma cache_stable_deliver c off raw len x : cache_stable (deliver c callback off raw len x).
Proof.
  unfold deliver. destruct (_ =? 0); [|auto with cache].
  apply cache_stable_bind; [auto with cache|]. intros o. cbv zeta.
  match goal with |- context [if ?b then _ else _] => destruct b end;
    apply cache_stable_bind; unfold data_slice; auto with cache.
Qed.

Lemma cache_stable_inner c fuel pos prod any x :
  cache_stable (consume_inner c callback fuel pos prod any x).
Proof.
  revert pos any x. induction fuel as [|fuel IH]; intros pos any x; cbn [consume_inner];
    [auto with cache|]. cbv zeta. destruct (pos <? prod); [|auto with cache].
  apply cache_stable_bind; [apply cache_stable_call|]. intros raw. destruct (negb _).
  { apply cache_stable_bind; [apply cache_stable_call|auto with cache]. }
  apply cache_stable_bind; [apply cache_stable_deliver|]. intros [x'|].
  - apply cache_stable_bind; [auto with cache|]. intros pos'.
    apply cache_stable_bind; [apply cache_stable_call|auto].
  - apply cache_stable_bind; [apply cache_stable_call|auto with cache].
Qed.

Lemma cache_stable_consume c fuel x : cache_stable (consume_ring_records c callback fuel x).
Proof.
  apply cache_stable_bind; [apply cache_stable_call|]. intros pos.
  revert pos x. induction fuel as [|fuel IH]; intros pos x; cbn [consume_outer]; [auto with cache|].
  apply cache_stable_bind; [apply cache_stable_call|]. intros prod.
  apply cache_stable_bind; [apply cache_stable_inner|]. intros [x'|pos' any x']; [auto with cache|].
  destruct any; cbn [negb]; auto with cache.
Qed.

(** ** The mapped ring *)

Section mapped.
  Context (a b : Z).
  Abbreviation c := (ring_at size page a b).

Lemma advances_valid_trans k1 k2 k3 :
  advances (c := c) k1 k2 -> advances (c := c) k2 k3 -> advances (c := c) k1 k3.
Proof.
  intros (_ & ? & ?) (? & ? & ?). split; [done|]. split; [by etransitivity|congruence].
Qed.

(** Calls on the mapped ring before the consumption. *)
Definition waits {A} (m : io IoError (proc os) A) (starved : os -> Prop) : Prop :=
  forall p, Valid a b (sys p) ->
  match m p with
  | (Ok _, p') => advances (c := c) (sys p) (sys p') /\ CACHE p' = CACHE p
  | (Err e, p') => advances (c := c) (sys p) (sys p') /\ CACHE p' = CACHE p /\ refused e
  | (OutOfFuel, _) => starved (sys p)
  | (Panic, _) => False
  end.

Lemma waits_new : waits EpollFd_new (fun _ => False).
Proof.
  intros p Hv. unfold EpollFd_new.
  destruct (epoll_create1 EPOLL_CLOEXEC (sys p)) as [fd k1] eqn:Hk.
  rewrite (io_bind_run _ _ p fd (mkProc k1 (CACHE p))) by by apply call_run.
  pose proof (poll_create_law a b _ _ _ Hv Hk). destruct (Z.ltb_spec fd 0); [|done].
  split_and!; cbn; eauto.
Qed.

Lemma waits_add epfd : waits (EpollFd_add epfd map_fd) (fun _ => False).
Proof.
  intros p Hv. unfold EpollFd_add.
  destruct (epoll_ctl epfd EPOLL_CTL_ADD map_fd (wrap_u 32 EPOLLIN, wrap_u 64 map_fd) (sys p))
    as [rc k1] eqn:Hk.
  rewrite (io_bind_run _ _ p rc (mkProc k1 (CACHE p))) by by apply call_run.
  pose proof (poll_ctl_law a b _ _ _ _ _ Hv Hk). destruct (Z.ltb_spec rc 0); [|done].
  split_and!; cbn; eauto.
Qed.

Lemma waits_wait fuel epfd :
  waits (EpollFd_wait fuel epfd) (fun k => exists k', interrupted epfd fuel k k').
Proof.
  induction fuel as [|fuel IH]; intros p Hv; cbn [EpollFd_wait].
  { exists (sys p). constructor. }
  destruct (epoll_wait epfd 1 (-1) (sys p)) as [rc k1] eqn:Hk.
  rewrite (io_bind_run _ _ p rc (mkProc k1 (CACHE p))) by by apply call_run.
  pose proof (poll_wait_law a b _ _ _ _ Hv Hk) as Ha. destruct (Z.ltb_spec rc 0); [|done].
  rewrite (io_bind_run _ _ _ (OsError (errno k1)) (mkProc k1 (CACHE p))) by done. cbn [kind].
  case_bool_decide as Hi; rewrite interrupted_iff in Hi; [|split_and!; cbn; eauto].
  specialize (IH (mkProc k1 (CACHE p)) (proj1 Ha)). cbn [sys CACHE] in IH.
  destruct (EpollFd_wait fuel epfd _) as [[[]|e| |] p']; [| |done|].
  - destruct IH as [IH ?]. split; [by eapply advances_valid_trans|done].
  - destruct IH as (IH & ? & ?). split; [by eapply advances_valid_trans|done].
  - destruct IH as [k' Hint]. exists k'. by eapply interrupted_S.
Qed.
End mapped.

(** ** Outcomes of a poll *)

(** What is promised of a poll from [p] with the callback state [x]. *)
Definition outcome (fuel : nat) (p : proc os) (x : C) (run : res IoError C * proc os) : Prop :=
  match run with
  | (Ok x', p') => good p'
      /\ exists d, handed (sys p) (sys p') d x x' /\ complete (sys p) d
  | (Err e, p') => untouched p p' /\ refused e
  | (Panic, _) => False
  | (OutOfFuel, _) =>
      (exists k, ready k /\ (fuel <= length (records k))%nat)
      \/ exists a b epfd k k', interrupted epfd fuel k k' /\ Valid a b k
           /\ evolves (records (sys p)) (records k) /\ consumed k = consumed (sys p)
  end.

Lemma complete_evolves k k1 d :
  evolves (records k) (records k1) -> consumed k1 = consumed k -> complete k1 d -> complete k d.
Proof. intros He Hc Hk e Hs. apply Hk. rewrite Hc. by eapply settled_evolves. Qed.

Lemma outcome_after fuel p p1 x run :
  untouched p p1 -> outcome fuel p1 x run -> outcome fuel p x run.
Proof.
  intros Hu. pose proof Hu as (_ & He & Hcons).
  destruct run as [[x'|e| |] p']; cbn [outcome]; [| |done|].
  - intros (Hg & d & Hh & Hc). split; [done|]. exists d. split; [|by eapply complete_evolves].
    by apply (handed_trans _ _ _ 0 d _ _ _ (handed_untouched _ _ x Hu) Hh).
  - intros [Hu' ?]. split; [|done]. by eapply untouched_trans.
  - intros [?|(a & b & epfd & k & k' & Hi & Hv & He' & Hc')]; [by left|right].
    exists a, b, epfd, k, k'. split_and!; [done|done|by etransitivity|congruence].
Qed.

Lemma outcome_drop fuel p x drop body :
  (forall p, good p -> untouched p (drop p)) ->
  outcome fuel p x (body p) -> outcome fuel p x (with_drop drop body p).
Proof.
  intros Hdrop. unfold with_drop. destruct (body p) as [[x'|e| |] p1]; cbn [outcome]; [| |done|done].
  - intros (Hg & d & Hh & Hc). pose proof (Hdrop _ Hg) as Hu. split; [apply Hu|]. exists d.
    split; [|done]. rewrite <- (Nat.add_0_r d).
    by eapply handed_trans; [|apply handed_untouched].
  - intros [Hu ?]. split; [|done]. eapply untouched_trans; [exact Hu|]. apply Hdrop, Hu.
Qed.

Lemma outcome_prepares {A} fuel p x (m : io IoError (proc os) A) f Q :
  prepares m Q -> good p ->
  (forall v p1, good p1 -> Q v p1 -> outcome fuel p1 x (f v p1)) ->
  outcome fuel p x ((m ≫= f) p).
Proof.
  intros Hm Hg Hf. specialize (Hm p Hg). unfold mbind, io_bind.
  destruct (m p) as [[v|e| |] p1]; [|done..]. destruct Hm as [Hu HQ].
  eapply outcome_after; [exact Hu|]. apply Hf; [apply Hu|done].
Qed.

Lemma outcome_waits {A} fuel a b p x (m : io IoError (proc os) A) f starved :
  waits a b m starved -> Valid a b (sys p) -> page_cached p ->
  (starved (sys p) -> exists epfd k', interrupted epfd fuel (sys p) k') ->
  (forall v p1, Valid a b (sys p1) -> page_cached p1 -> outcome fuel p1 x (f v p1)) ->
  outcome fuel p x ((m ≫= f) p).
Proof.
  intros Hm Hv Hc Hst Hf. specialize (Hm p Hv).
  assert (Hu : forall p1, advances (c := ring_at size page a b) (sys p) (sys p1) ->
    CACHE p1 = CACHE p -> untouched p p1).
  { intros p1 (Hv1 & He & Hcons) Hcache. split; [|done]. split; [by eapply mapped_ready|].
    unfold page_cached. by rewrite Hcache. }
  unfold mbind, io_bind. destruct (m p) as [[v|e| |] p1]; [| |done|].
  - destruct Hm as [Ha Hcache]. eapply outcome_after; [by apply Hu|].
    apply Hf; [apply Ha|]. by apply Hu.
  - destruct Hm as (Ha & Hcache & ?). split; [by apply Hu|done].
  - cbn [outcome]. right. destruct (Hst Hm) as (epfd & k' & ?). by exists a, b, epfd, (sys p), k'.
Qed.

Lemma outcome_consume fuel a b p x :
  Valid a b (sys p) -> page_cached p ->
  outcome fuel p x (consume_ring_records (ring_at size page a b) callback fuel x p).
Proof.
  intros Hv Hc. pose proof (consume_run _ (ring_at_mask a b) callback fuel p x Hv) as Hrun.
  pose proof (cache_stable_consume (ring_at size page a b) fuel x p) as Hcache.
  destruct (consume_ring_records _ _ _ _ _) as [[x'|e| |] p']; cbn [outcome snd] in *; [|done|done|].
  - destruct Hrun as (d & (Hv' & Hh) & Hcomp). split.
    + split; [by eapply mapped_ready|]. unfold page_cached. by rewrite Hcache.
    + by exists d.
  - left. destruct Hrun as (k & Hk & Hl). exists k. split; [by eapply mapped_ready|done].
Qed.

(** The whole call. *)
Lemma poll_run fuel p x :
  good p -> outcome fuel p x (poll_ringbuf fuel map_fd callback x p).
Proof.
  intros Hg. pose proof size_pos. unfold poll_ringbuf.
  eapply outcome_prepares; [apply prepares_map_info|done|].
  intros i p1 Hg1 [-> Hentries]. rewrite Z.eqb_refl. cbn [negb].
  eapply outcome_prepares; [apply prepares_page_size|done|]. intros v p2 Hg2 ->.
  rewrite Hentries, (proj2 (Z.leb_le size usize_max)) by lia.
  eapply outcome_prepares with (Q := fun v _ => v = size); [|done|].
  { intros p' Hg'. by split; [apply untouched_refl|]. }
  intros v p3 Hg3 ->. eapply outcome_prepares; [apply prepares_consumer_new|done|].
  intros c p4 Hg4 (a & b & -> & Hv). apply outcome_drop; [apply drop_untouched|].
  eapply outcome_waits; [apply waits_new|done|apply Hg4|done|]. intros epfd p5 Hv5 Hc5.
  apply outcome_drop; [intros; by apply close_or_warn_untouched|].
  eapply outcome_waits; [apply waits_add|done|done|done|]. intros _ p6 Hv6 Hc6.
  eapply outcome_waits; [apply waits_wait|done|done|by intros [k' ?]; eauto|]. intros _ p7 Hv7 Hc7.
  by apply outcome_consume.
Qed.

(** ** Theorems *)

(** C12. A poll, from the descriptor of the ring to the callback.  When it succeeds, the
    callback has been given exactly the committed ones among the [d] records the call
    consumed, once and in order, and every record that was settled at the head of the
    ring when the call was made is among them.  When it fails, nothing has been
    consumed, the records wait for the next call, and the error is that of the system
    call that was refused.  It does not panic; it only goes on for as long as the
    kernel produces records or signals interrupt the wait. *)
Theorem poll_ringbuf_delivers fuel p x :
  good p ->
  match poll_ringbuf fuel map_fd callback x p with
  | (Ok x', p') => good p' /\ exists d,
      evolves (records (sys p)) (records (sys p'))
      /\ consumed (sys p') = (consumed (sys p) + d)%nat
      /\ settled (records (sys p')) (consumed (sys p)) d
      /\ x' = foldl callback x (delivered (records (sys p')) (consumed (sys p)) d)
      /\ (forall e, settled (records (sys p)) (consumed (sys p)) e -> (e <= d)%nat)
  | (Err e, p') => refused e /\ good p'
      /\ evolves (records (sys p)) (records (sys p')) /\ consumed (sys p') = consumed (sys p)
  | (Panic, _) => False
  | (OutOfFuel, _) =>
      (exists k, ready k /\ (fuel <= length (records k))%nat)
      \/ exists epfd k k', interrupted epfd fuel k k'
  end.
Proof.
  intros Hg. pose proof (poll_run fuel p x Hg) as Hrun.
  destruct (poll_ringbuf _ _ _ _ _) as [[x'|e| |] p']; [| |done|].
  - destruct Hrun as (Hg' & d & (? & ? & ? & ?) & Hcomp). split; [done|]. by exists d.
  - by destruct Hrun as [Hu He].
  - destruct Hrun as [?|(a & b & epfd & k & k' & Hi & _)]; [by left|right; eauto].
Qed.

(** A history of polls: successful and failed calls, with work of the kernel between
    them.  A failed call has not reached the callback. *)
Inductive polls (p : proc os) (x : C) : proc os -> C -> Prop :=
| polls_start : polls p x p x
| polls_kernel p1 x1 k2 :
    polls p x p1 x1 -> quiet (sys p1) k2 -> polls p x (mkProc k2 (CACHE p1)) x1
| polls_ok fuel p1 x1 p2 x2 :
    polls p x p1 x1 -> poll_ringbuf fuel map_fd callback x1 p1 = (Ok x2, p2) -> polls p x p2 x2
| polls_failed fuel p1 x1 p2 e :
    polls p x p1 x1 -> poll_ringbuf fuel map_fd callback x1 p1 = (Err e, p2) -> polls p x p2 x1.

(** C14. Exactly once, over any history of polls: what the callback has been given in all
    is the committed records between the first and the last consumer position, each
    once and in the order of the ring, however the calls and their failures were
    interleaved with the producer. *)
Theorem polls_deliver_once p x p' x' :
  good p -> polls p x p' x' ->
  good p' /\ exists d,
    evolves (records (sys p)) (records (sys p'))
    /\ consumed (sys p') = (consumed (sys p) + d)%nat
    /\ settled (records (sys p')) (consumed (sys p)) d
    /\ x' = foldl callback x (delivered (records (sys p')) (consumed (sys p)) d).
Proof.
  intros Hg Hp. change (good p' /\ exists d, handed (sys p) (sys p') d x x').
  induction Hp as [|p1 x1 k2 _ [Hg1 [d Hd]] Hq|fuel p1 x1 p2 x2 _ [Hg1 [d Hd]] Hrun
                  |fuel p1 x1 p2 e _ [Hg1 [d Hd]] Hrun].
  - split; [done|]. exists 0%nat. apply handed_refl.
  - pose proof (quiet_untouched _ _ Hg1 Hq) as Hu. split; [apply Hu|]. exists (d + 0)%nat.
    eapply handed_trans; [exact Hd|]. by apply handed_untouched.
  - pose proof (poll_run fuel p1 x1 Hg1) as Ho. rewrite Hrun in Ho.
    destruct Ho as (Hg2 & d2 & Hd2 & _). split; [done|]. exists (d + d2)%nat.
    by eapply handed_trans.
  - pose proof (poll_run fuel p1 x1 Hg1) as Hu. rewrite Hrun in Hu. destruct Hu as [Hu _]. split; [apply Hu|].
    exists (d + 0)%nat. eapply handed_trans; [exact Hd|]. by apply handed_untouched.
Qed.

(** ** Liveness *)

(** A system that refuses no call, wakes a waiting consumer of a ring with records
    after at most [n] interruptions, and holds at most [N] records in all. *)
Record cooperative (n N : nat) : Prop := {
  coop_calls e : ~ refused e;
  coop_wait a b epfd k :
    Valid a b k -> (consumed k < length (records k))%nat ->
    exists m k1 rc k2, (m <= n)%nat /\ interrupted epfd m k k1
      /\ epoll_wait epfd 1 (-1) k1 = (rc, k2) /\ 0 <= rc;
  coop_bound k : ready k -> (length (records k) <= N)%nat;
}.

(** The system calls are functions of the state: after [m] interruptions the next call
    is the one that answers. *)
Lemma interrupted_answered epfd m k k1 rc k2 n k' :
  interrupted epfd m k k1 -> epoll_wait epfd 1 (-1) k1 = (rc, k2) -> 0 <= rc ->
  interrupted epfd n k k' -> (n <= m)%nat.
Proof.
  intros Hm Hrun Hrc. revert n k'. induction Hm as [k|m k rc' k1' k3 Hrun' Hneg Hintr Hm IH];
    intros n k' Hn; inversion Hn; subst; [lia| |lia|].
  - rewrite Hrun in *. simplify_eq. lia.
  - rewrite Hrun' in *. simplify_eq. apply le_n_S. by eapply IH.
Qed.

(** C15. Liveness: on a cooperative system the records that are settled at the head of the
    ring are delivered by the next poll, which returns.  The fuel it needs is the
    number of interruptions and of records. *)
Theorem poll_ringbuf_live n N fuel p x e :
  good p -> cooperative n N -> (n < fuel)%nat -> (N < fuel)%nat ->
  (0 < e)%nat -> settled (records (sys p)) (consumed (sys p)) e ->
  exists x' p' d, poll_ringbuf fuel map_fd callback x p = (Ok x', p') /\ (e <= d)%nat
    /\ consumed (sys p') = (consumed (sys p) + d)%nat
    /\ x' = foldl callback x (delivered (records (sys p')) (consumed (sys p)) d).
Proof.
  intros Hg [Hcalls Hwait Hbound] Hn HN He Hs. pose proof (poll_run fuel p x Hg) as Hrun.
  destruct (poll_ringbuf _ _ _ _ _) as [[x'|err| |] p']; cbn [outcome] in Hrun.
  - destruct Hrun as (_ & d & (_ & Hc & _ & Hx) & Hcomp). exists x', p', d.
    split_and!; [done|by apply Hcomp|done|done].
  - by destruct (Hcalls err), Hrun.
  - done.
  - exfalso. destruct Hrun as [(k & Hk & Hl)|(a & b & epfd & k & k' & Hi & Hv & Hev & Hc)].
    { specialize (Hbound k Hk). lia. }
    destruct (settled_evolves _ _ _ _ Hev Hs (consumed (sys p))) as (r & Hr & _); [lia|].
    apply lookup_lt_Some in Hr. destruct (Hwait a b epfd k Hv) as (m & k1 & rc & k2 & Hm & H1 & H2 & H3);
      [lia|]. pose proof (interrupted_answered _ _ _ _ _ _ _ _ H1 H2 H3 Hi). lia.
Qed.
End poll.
