(* ===== verification/RingDemo.v ===== *)
(** * A ring and its producer

    A concrete system with the behaviour [RingProtocol] describes: a 4 KiB ring and
    a producer that works through a schedule, one action before each access of the
    consumer.  It shows that the interface can be implemented, and runs the consumer
    of src/src/loader/ringbuf.rs against a producer that commits a record while the
    consumer is at work. *)

From S2P Require Import Prelude Str Os Ringbuf RingSafety RingProtocol RingPoll.

(** The actions of the producer: reserve a record of a length, settle a busy one. *)
Inductive action :=
| Reserve (len : nat)
| Commit (i : nat) (data : list Z)
| Discard (i : nat).

Record ring := mkRing {
  ring_records : list ring_record;
  ring_consumed : nat;
  ring_schedule : list action;
}.

Definition ring_size : Z := mask demo_consumer + 1.

(** The capacity of the demonstration: the number of records it can hold. *)
Definition capacity : nat := 64.

Definition settle (i : nat) (f : ring_record -> ring_record) (rs : list ring_record) :=
  match rs !! i with
  | Some r => if bool_decide (state r = Busy) then <[i := f r]> rs else rs
  | None => rs
  end.

(** The first bytes of [data], up to the reserved length; what is left keeps its
    old content. *)
Definition overwrite (data : list Z) (r : ring_record) : list Z :=
  take (length (payload r)) data ++ drop (length data) (payload r).

(** The producer reserves only space the consumer has passed. *)
Definition act (a : action) (k : ring) : list ring_record :=
  let rs := ring_records k in
  match a with
  | Reserve len =>
      let r := mkRecord (replicate len 0) Busy in
      if (position rs (length rs) + record_size r - position rs (ring_consumed k) <=? ring_size)
         && (length rs <? capacity)%nat
      then rs ++ [r] else rs
  | Commit i data => settle i (fun r => mkRecord (overwrite data r) Committed) rs
  | Discard i => settle i (fun r => mkRecord (payload r) Discarded) rs
  end.

Definition work (k : ring) : ring :=
  match ring_schedule k with
  | [] => k
  | a :: schedule => mkRing (act a k) (ring_consumed k) schedule
  end.

(** The first of the candidates with the wanted value. *)
Fixpoint locate (f : nat -> Z) (v : Z) (l : list nat) : option nat :=
  match l with
  | [] => None
  | i :: l => if f i =? v then Some i else locate f v l
  end.

Definition outstanding (k : ring) : list nat :=
  seq (ring_consumed k) (length (ring_records k) - ring_consumed k).

Definition record_addr (k : ring) (i : nat) : Z :=
  data_ptr demo_consumer + position (ring_records k) i mod ring_size.

#[export] Instance ring_os : Os ring := {
  errno _ := 0;
  strerror _ := [];
}.

#[export] Instance ring_syscalls : RingSyscalls ring := {
  ring_target := x86_64;
  bpf_map_create _ _ _ _ k := (-1, k);
  bpf_obj_get_info _ _ _ _ k :=
    ((0, mkBpfMapInfo BPF_MAP_TYPE_RINGBUF 1 0 0 ring_size 0 (replicate 16 0) 0 0 0 0 0 0 0 0), k);
  sysconf_pagesize k := (page_size demo_consumer, k);
  mmap _ _ _ _ _ offset k :=
    (if offset =? 0 then consumer_mapping demo_consumer else producer_mapping demo_consumer, work k);
  munmap _ _ k := (0, k);
  close _ k := (0, k);
  epoll_create1 _ k := (3, k);
  epoll_ctl _ _ _ _ k := (0, k);
  epoll_wait _ _ _ k := (1, work k);
  load_u64 a _ k :=
    let k := work k in
    (position (ring_records k)
       (if a =? consumer_mapping demo_consumer then ring_consumed k else length (ring_records k)), k);
  store_u64 _ v _ k :=
    ((), match locate (position (ring_records k)) v (seq 0 (S (length (ring_records k)))) with
         | Some i => mkRing (ring_records k) i (ring_schedule k)
         | None => k
         end);
  load_u32 a _ k :=
    let k := work k in
    (match locate (record_addr k) a (outstanding k) ≫= fun i => ring_records k !! i with
     | Some r => header_word r
     | None => 0
     end, k);
  read_bytes a len k :=
    let k := work k in
    (match locate (record_addr k) (a - BPF_RINGBUF_HDR_SZ) (outstanding k)
             ≫= fun i => ring_records k !! i with
     | Some r => payload r
     | None => []
     end, k);
  eprintln _ k := ((), k);
  MAP_FAILED := -1;
  PROT_READ := 1;
  PROT_WRITE := 2;
  MAP_SHARED := 1;
  EPOLL_CLOEXEC := 0;
  EPOLLIN := 1;
  EPOLL_CTL_ADD := 1;
}.

(** The outstanding records fit the ring, and there are at most [capacity]. *)
Record ring_valid (k : ring) : Prop := {
  rv_consumed : (ring_consumed k <= length (ring_records k))%nat;
  rv_fits : Forall (fun r => record_size r <= ring_size) (ring_records k);
  rv_window : position (ring_records k) (length (ring_records k))
              - position (ring_records k) (ring_consumed k) <= ring_size;
  rv_count : (length (ring_records k) <= capacity)%nat;
}.

(** ** The producer follows the protocol *)

Lemma overwrite_length data r : length (overwrite data r) = length (payload r).
Proof. unfold overwrite. rewrite length_app, length_take, length_drop. lia. Qed.

Lemma settle_evolves i f rs :
  (forall r, length (payload (f r)) = length (payload r)) -> evolves rs (settle i f rs).
Proof.
  intros Hf. unfold settle. destruct (rs !! i) as [r0|] eqn:Hi; [|done].
  destruct (bool_decide (state r0 = Busy)) eqn:Hb; [|done]. apply bool_decide_eq_true in Hb.
  intros j r Hj. destruct (decide (i = j)) as [<-|Hne].
  - exists (f r0). rewrite list_lookup_insert_eq by by eapply lookup_lt_Some.
    split; [done|]. rewrite Hi in Hj. injection Hj as ->. right. by rewrite Hf.
  - exists r. rewrite list_lookup_insert_ne by done. split; [done|by left].
Qed.

Lemma settle_length i f rs : length (settle i f rs) = length rs.
Proof.
  unfold settle. destruct (rs !! i); [|done]. destruct (bool_decide _); [|done].
  by rewrite length_insert.
Qed.

Lemma settle_fits i f rs : (forall r, length (payload (f r)) = length (payload r)) ->
  Forall (fun r => record_size r <= ring_size) rs ->
  Forall (fun r => record_size r <= ring_size) (settle i f rs).
Proof.
  intros Hf Hall. unfold settle. destruct (rs !! i) as [r|] eqn:Hi; [|done].
  destruct (bool_decide _); [|done]. apply Forall_insert; [done|].
  unfold record_size, vec_len. rewrite Hf. by apply (Forall_lookup_1 _ _ _ _ Hall Hi).
Qed.

Lemma position_app rs r : position (rs ++ [r]) (S (length rs)) = position rs (length rs) + record_size r.
Proof. induction rs as [|r0 rs IH]; cbn in *; lia. Qed.

Lemma append_evolves rs r : evolves rs (rs ++ [r]).
Proof.
  intros i r0 Hi. exists r0. split; [|by left]. rewrite lookup_app_l; [done|].
  by eapply lookup_lt_Some.
Qed.

Lemma settle_valid k i f : (forall r, length (payload (f r)) = length (payload r)) ->
  ring_valid k -> ring_valid (mkRing (settle i f (ring_records k)) (ring_consumed k) (ring_schedule k)).
Proof.
  intros Hf [Hc Hfit Hw Hn]. pose proof (settle_evolves i f (ring_records k) Hf) as He.
  split; cbn [ring_records ring_consumed]; rewrite ?settle_length; try done; [by apply settle_fits|].
  rewrite !(position_evolves _ _ _ He) by done. done.
Qed.

Lemma act_valid a k : ring_valid k ->
  ring_valid (mkRing (act a k) (ring_consumed k) (ring_schedule k))
  /\ evolves (ring_records k) (act a k).
Proof.
  intros Hv. destruct a as [len|i data|i]; cbn [act].
  - set (r := mkRecord (replicate len 0) Busy).
    destruct (_ && _) eqn:Hroom; [|destruct Hv; split; [by split|done]].
    apply andb_true_iff in Hroom as [Hroom Hcap]. apply Nat.ltb_lt in Hcap.
    split; [|apply append_evolves]. destruct Hv as [Hc Hfit Hw Hn].
    pose proof (position_le (ring_records k) (ring_consumed k) (length (ring_records k))).
    split; cbn [ring_records ring_consumed]; rewrite ?length_app; cbn [length]; try lia.
    + apply Forall_app. split; [done|]. repeat constructor. lia.
    + rewrite Nat.add_1_r, position_app.
      rewrite (position_evolves _ _ (ring_consumed k) (append_evolves (ring_records k) r)) by lia. lia.
  - split; [apply (settle_valid k i); [intros; apply overwrite_length|done]|].
    apply settle_evolves. intros. apply overwrite_length.
  - split; [by apply (settle_valid k i)|by apply settle_evolves].
Qed.

Lemma work_valid k : ring_valid k ->
  ring_valid (work k) /\ evolves (ring_records k) (ring_records (work k))
  /\ ring_consumed (work k) = ring_consumed k.
Proof.
  intros Hv. unfold work. destruct (ring_schedule k) as [|a schedule]; [done|].
  destruct (act_valid a k Hv) as [[? ? ? ?] He]. by split_and!.
Qed.

Lemma locate_found f v l i :
  i ∈ l -> f i = v -> (forall j, j ∈ l -> f j = v -> j = i) -> locate f v l = Some i.
Proof.
  intros Hin Hi Huniq. induction l as [|j l IH]; [by apply elem_of_nil in Hin|]. cbn [locate].
  destruct (Z.eqb_spec (f j) v) as [Hj|Hj].
  - f_equal. apply Huniq; [left|done].
  - apply elem_of_cons in Hin as [->|Hin]; [done|]. apply IH; [done|].
    intros j' ? ?. apply Huniq; [by right|done].
Qed.

(** Two outstanding records have different offsets. *)
Lemma record_addr_inj k i j : ring_valid k ->
  (ring_consumed k <= i < length (ring_records k))%nat ->
  (ring_consumed k <= j < length (ring_records k))%nat ->
  record_addr k i = record_addr k j -> i = j.
Proof.
  intros [Hc Hfit Hw Hn]. unfold record_addr.
  assert (Hlt : forall i j, (ring_consumed k <= i)%nat -> (i < j < length (ring_records k))%nat ->
    position (ring_records k) i mod ring_size <> position (ring_records k) j mod ring_size).
  { intros i' j' Hi Hj. pose proof (position_lt (ring_records k) i' j').
    pose proof (position_lt (ring_records k) j' (length (ring_records k))).
    pose proof (position_le (ring_records k) (ring_consumed k) i').
    change ring_size with 4096 in *. dlia. }
  intros Hi Hj Heq. destruct (Nat.lt_trichotomy i j) as [?|[?|?]]; [|done|].
  - by destruct (Hlt i j); [lia..|lia].
  - by destruct (Hlt j i); [lia..|lia].
Qed.

Lemma locate_record k i : ring_valid k ->
  (ring_consumed k <= i < length (ring_records k))%nat ->
  locate (record_addr k) (record_addr k i) (outstanding k) = Some i.
Proof.
  intros Hv Hi. unfold outstanding. apply locate_found; [apply elem_of_seq; lia|done|].
  intros j Hj Heq. apply elem_of_seq in Hj. apply (record_addr_inj k); (done || lia).
Qed.

(** The address of a record does not change while the producer works. *)
Lemma record_addr_work k i : ring_valid k -> (i < length (ring_records k))%nat ->
  record_addr (work k) i = record_addr k i.
Proof.
  intros Hv Hi. destruct (work_valid k Hv) as (_ & He & _). unfold record_addr.
  by rewrite (position_evolves _ _ i He) by lia.
Qed.

#[export] Instance ring_view : RingView ring := {
  records := ring_records;
  consumed := ring_consumed;
}.

(** The ring is mapped at the addresses of [demo_consumer]. *)
#[export] Program Instance ring_protocol c : RingProtocol c ring := {
  valid k := c = demo_consumer /\ ring_valid k;
}.
Next Obligation. by intros c k [_ []]. Qed.
Next Obligation.
  cbn. intros c k i r [-> Hv] Hr. pose proof (Forall_lookup_1 _ _ _ _ (rv_fits k Hv) Hr) as Hsize.
  change (mask demo_consumer + 1) with ring_size. split; [|done].
  cbn beta in Hsize. unfold record_size in Hsize. change ring_size with 4096 in Hsize. dlia.
Qed.
Next Obligation.
  cbn. intros c k [_ [Hc Hfit Hw Hn]].
  assert (Hpos : forall i, (i <= length (ring_records k))%nat ->
    position (ring_records k) i <= Z.of_nat i * ring_size).
  { induction i as [|i IH]; intros Hi; [by destruct (ring_records k)|].
    destruct (lookup_lt_is_Some_2 (ring_records k) i) as [r Hr]; [lia|].
    rewrite (position_S _ _ _ Hr). pose proof (Forall_lookup_1 _ _ _ _ Hfit Hr). cbn beta in *. lia. }
  specialize (Hpos (length (ring_records k)) ltac:(lia)). unfold capacity in Hn.
  change ring_size with 4096 in Hpos. lia.
Qed.
Next Obligation.
  cbn. intros c k v k' [-> Hv] [= <- <-]. destruct (work_valid k Hv) as (? & ? & ?). by split_and!.
Qed.
Next Obligation.
  cbn. intros c k v k' [-> Hv] [= <- <-]. destruct (work_valid k Hv) as (? & ? & ?). by split_and!.
Qed.
Next Obligation.
  cbn. intros c k i v k' [-> Hv] Hi [= <- <-]. destruct (work_valid k Hv) as (Hv' & He & Hc).
  split; [by split_and!|]. pose proof (evolves_length _ _ He).
  destruct (lookup_lt_is_Some_2 (ring_records (work k)) i) as [r Hr]; [lia|].
  exists r. split; [done|]. change (12288 + _) with (record_addr k i).
  rewrite <- record_addr_work by (done || lia). rewrite locate_record by (done || lia).
  cbn. by rewrite Hr.
Qed.
Next Obligation.
  cbn. intros c k i r bs k' [-> Hv] Hi Hr Hst [= <- <-].
  destruct (work_valid k Hv) as (Hv' & He & Hc).
  split; [by split_and!|]. pose proof (evolves_length _ _ He). pose proof (lookup_lt_Some _ _ _ Hr).
  replace (_ - BPF_RINGBUF_HDR_SZ) with (record_addr k i)
    by (unfold record_addr, BPF_RINGBUF_HDR_SZ; cbn [mask demo_consumer data_ptr];
        change ring_size with (4095 + 1); lia).
  rewrite <- record_addr_work by (done || lia). rewrite locate_record by (done || lia).
  cbn. rewrite (evolves_final _ _ i r He) by (done || by rewrite Hst). done.
Qed.
Next Obligation.
  intros c k i u k' [-> Hv] Hi. cbn [records consumed ring_view] in *.
  assert (Hloc : locate (position (ring_records k)) (position (ring_records k) i)
    (seq 0 (S (length (ring_records k)))) = Some i).
  { apply locate_found; [apply elem_of_seq; lia|done|]. intros j Hj Heq. apply elem_of_seq in Hj.
    destruct (Nat.lt_trichotomy i j) as [?|[?|?]]; [|done|].
    - pose proof (position_lt (ring_records k) i j). lia.
    - pose proof (position_lt (ring_records k) j i). lia. }
  unfold store_u64, ring_syscalls. rewrite Hloc. intros [= _ <-].
  destruct Hv as [Hc Hfit Hw Hn]. split; [|by split]. split; [done|].
  split; cbn [ring_records ring_consumed]; try done; [lia|].
  pose proof (position_le (ring_records k) (ring_consumed k) i). lia.
Qed.

(** Polling this ring: no call is refused, and the mappings are at the addresses of
    [demo_consumer]. *)
#[export] Program Instance ring_poll_kernel : PollKernel 5 4096 4096 ring := {
  ready := ring_valid;
}.
Next Obligation. by intros a b k [_ ?]. Qed.
Next Obligation. by intros k rc i k' Hv [= <- <- <-]. Qed.
Next Obligation. by intros k v k' Hv [= <- <-]. Qed.
Next Obligation. intros k a k' Hv [= <- <-]. by apply work_valid. Qed.
Next Obligation.
  intros k a k1 b k2 Hv [= <- <-] _ [= <- <-]. destruct (work_valid k Hv) as (Hv1 & _).
  pose proof (work_valid (work k) Hv1) as Hw. split; [done|]. intros _. by split; [|apply Hw].
Qed.
Next Obligation. by intros addr len k rc k' Hv [= <- <-]. Qed.
Next Obligation. by intros fd k rc k' Hv [= <- <-]. Qed.
Next Obligation. by intros s k u k' Hv [= <- <-]. Qed.
Next Obligation. by intros a b k fd k' Hv [= <- <-]. Qed.
Next Obligation. by intros a b epfd event k rc k' Hv [= <- <-]. Qed.
Next Obligation.
  intros a b epfd k rc k' [Hc Hv] [= <- <-]. destruct (work_valid k Hv) as (? & ? & ?). by split.
Qed.

Lemma ring_cooperative : cooperative 5 4096 4096 0 capacity.
Proof.
  split.
  - intros e He. destruct He as [k rc i k' _ Hk Hneg|k v k' _ Hk Hneg|k k' _ Hk|k k' _ Hk
      |a b k fd k' _ Hk Hneg|a b epfd event k rc k' _ Hk Hneg|a b epfd k rc k' _ Hk Hneg _];
      cbn in Hk; injection Hk; intros; subst; try lia; discriminate.
  - intros a b epfd k _ _. exists 0%nat, k, 1, (work k). split_and!; [lia|constructor|done|lia].
  - intros k Hk. apply (rv_count k Hk).
Qed.

(** ** A run

    The ring has a committed record, a discarded one and a busy one; the producer
    commits the busy one before the consumer reaches it, and reserves another. *)
Definition demo_ring : ring :=
  mkRing [mkRecord (bytes "one") Committed; mkRecord (bytes "two") Discarded;
          mkRecord (bytes "xxxxx") Busy] 0
    [Reserve 4; Commit 2 (bytes "three")].

Lemma demo_ring_valid : ring_valid demo_ring.
Proof.
  split; [cbn; lia|repeat constructor; by vm_compute|by vm_compute|unfold capacity; cbn; lia].
Qed.

Lemma demo_mask_ok : mask_ok (H := arch64_debug) demo_consumer.
Proof. exists 12. split_and!; vm_compute; congruence. Qed.

Example demo_run :
  let '(r, p) := consume_ring_records (H := arch64_debug) demo_consumer (fun c d => c ++ [d]) 10 []
                   (mkProc demo_ring None) in
  r = Ok [bytes "one"; bytes "three"] /\ ring_consumed (sys p) = 3%nat
  /\ length (ring_records (sys p)) = 4%nat.
Proof. vm_compute. done. Qed.

Lemma consume_ring_records_delivers_witness :
  exists d, ring_consumed (sys (consume_ring_records (H := arch64_debug) demo_consumer
      (fun c d => c ++ [d]) 10 [] (mkProc demo_ring None)).2) = (0 + d)%nat
    /\ (2 <= d)%nat.
Proof.
  pose proof (consume_ring_records_delivers (H := arch64_debug) demo_consumer demo_mask_ok
    (fun c d => c ++ [d]) 10 (mkProc demo_ring None) [] (conj eq_refl demo_ring_valid)) as Hd.
  pose proof demo_run as Hr. destruct (consume_ring_records _ _ _ _ _) as [r p'].
  destruct Hr as (-> & _). destruct Hd as (d & Hc & _ & _ & _ & Hall). exists d.
  split; [exact Hc|]. apply Hall. intros [|[|i]] Hi; [by eexists|by eexists|cbn in Hi; lia].
Defined.

Lemma consume_ring_records_terminates_witness :
  exists x' p', consume_ring_records (H := arch64_debug) demo_consumer (fun c d => c ++ [d]) 65 []
    (mkProc demo_ring None) = (Ok x', p').
Proof.
  apply (consume_ring_records_terminates (H := arch64_debug) demo_consumer demo_mask_ok
    (fun c d => c ++ [d]) capacity 65 (mkProc demo_ring None) []);
    [exact (conj eq_refl demo_ring_valid)|intros k [_ Hk]; apply (rv_count k Hk)|unfold capacity; lia].
Defined.

(** A whole poll of the same ring: two actions of the producer happen while it maps. *)
Lemma demo_good : good 5 4096 4096 (mkProc demo_ring None).
Proof. split; [exact demo_ring_valid|exact I]. Qed.

Example demo_poll :
  let '(r, p) := poll_ringbuf (H := arch64_debug) 65 5 (fun c d => c ++ [d]) []
                   (mkProc demo_ring None) in
  r = Ok [bytes "one"; bytes "three"] /\ ring_consumed (sys p) = 3%nat /\ CACHE p = Some 4096.
Proof. vm_compute. done. Qed.

(** The ring of the demonstration has the geometry the theorems ask for. *)
Lemma demo_geometry :
  0 < 4096 < 2 ^ 31 /\ (exists n, 3 <= n /\ 4096 = 2 ^ n)
  /\ 4096 + 2 * 4096 <= usize_max (H := arch64_debug).
Proof. split_and!; [done|done|by exists 12|by vm_compute]. Qed.

Lemma poll_ringbuf_delivers_witness :
  exists d, ring_consumed (sys (poll_ringbuf (H := arch64_debug) 65 5 (fun c d => c ++ [d]) []
      (mkProc demo_ring None)).2) = (0 + d)%nat
    /\ (2 <= d)%nat.
Proof.
  destruct demo_geometry as (Hp & Hs & Hf).
  pose proof (poll_ringbuf_delivers (H := arch64_debug) 5 4096 4096 (fun c d => c ++ [d]) Hp Hs Hf
    65 (mkProc demo_ring None) [] demo_good) as Hd.
  pose proof demo_poll as Hr. destruct (poll_ringbuf _ _ _ _ _) as [r p'].
  destruct Hr as (-> & _). destruct Hd as (_ & d & _ & Hc & _ & _ & Hall). exists d.
  split; [exact Hc|]. apply Hall. intros [|[|i]] Hi; [by eexists|by eexists|cbn in Hi; lia].
Defined.

(** A history of one poll. *)
Lemma demo_polls : exists p',
  polls (H := arch64_debug) 5 4096 4096 (fun c d => c ++ [d]) (mkProc demo_ring None) []
    p' [bytes "one"; bytes "three"].
Proof.
  pose proof demo_poll as Hr. destruct (poll_ringbuf _ _ _ _ _) as [r p1] eqn:Hrun.
  destruct Hr as [-> _]. exists p1. eapply polls_ok; [apply polls_start|exact Hrun].
Qed.

Lemma polls_deliver_once_witness :
  exists p' d, consumed (sys p') = (consumed demo_ring + d)%nat
    /\ [bytes "one"; bytes "three"]
       = foldl (fun c d => c ++ [d]) [] (delivered (records (sys p')) (consumed demo_ring) d).
Proof.
  destruct demo_geometry as (Hp & Hs & Hf). destruct demo_polls as [p' Hpolls].
  destruct (polls_deliver_once (H := arch64_debug) 5 4096 4096 (fun c d => c ++ [d]) Hp Hs Hf
    _ _ _ _ demo_good Hpolls) as (_ & d & _ & Hc & _ & Hx).
  exists p', d. split; [exact Hc|exact Hx].
Defined.

Lemma poll_ringbuf_live_witness :
  exists x' p' d, poll_ringbuf (H := arch64_debug) 65 5 (fun c d => c ++ [d]) []
      (mkProc demo_ring None) = (Ok x', p') /\ (2 <= d)%nat
    /\ consumed (sys p') = (consumed demo_ring + d)%nat
    /\ x' = foldl (fun c d => c ++ [d]) [] (delivered (records (sys p')) (consumed demo_ring) d).
Proof.
  destruct demo_geometry as (Hp & Hs & Hf).
  apply (poll_ringbuf_live (H := arch64_debug) 5 4096 4096 (fun c d => c ++ [d]) Hp Hs Hf
    0 capacity 65 (mkProc demo_ring None) [] 2); [exact demo_good|exact ring_cooperative| | |lia|].
  - lia.
  - unfold capacity. lia.
  - intros [|[|i]] Hi; [by eexists|by eexists|cbn in Hi; lia].
Defined.
