(* ===== verification/RingWeak.v ===== *)
(** * The consumer on weakly ordered memory

    [RingProtocol] lets the kernel work between any two accesses of the consumer, but
    leaves open where its laws come from.  On a processor that reorders memory
    accesses they come from the orderings of the atomic accesses in
    src/src/loader/ringbuf.rs: [Acquire] for the loads of the producer position and of
    the record headers, [Release] for the stores of the consumer position.

    This file has a machine with release and acquire accesses in the style of view
    semantics: every location has a history of writes, the consumer has a view of the
    latest write it knows of at each location, a load may return any write that is not
    older than the view, and only an acquire load takes over the view the writer
    released with it.  The data of a record is not atomic: reading it without knowing
    of all its writes gives arbitrary bytes.  The kernel does what the documentation
    of the ring buffer says: it writes the header of a reserved record before it
    publishes the new producer position, and the data of a record before it settles
    the header; it reuses space only up to a consumer position it has read.

    The machine is an instance of [RingProtocol] with the records the consumer knows
    of, so the theorems of the consumer hold on it: whatever the writes the loads
    return and whatever the kernel does meanwhile, what is delivered is what the
    kernel committed, and no space is reused while the consumer still reads it. *)

From S2P Require Import Prelude Str Os Ringbuf RingSafety RingProtocol RingDemo.

(** ** Views *)

Inductive location := LProducer | LHeader (i : nat) | LData (i : nat).

#[export] Instance location_eq_dec : EqDecision location.
Proof. solve_decision. Defined.

(** The number of the latest known write at each location. *)
Definition view : Type := location -> nat.

Definition view_bot : view := fun _ => 0%nat.
Definition view_at (l : location) (t : nat) : view := fun l' => if decide (l' = l) then t else 0%nat.
Definition view_join (v w : view) : view := fun l => Nat.max (v l) (w l).
Definition view_le (v w : view) : Prop := forall l, (v l <= w l)%nat.

#[export] Instance view_le_preorder : PreOrder view_le.
Proof. split; [by intros v l|]. intros u v w H1 H2 l. specialize (H1 l). specialize (H2 l). lia. Qed.

Lemma view_join_l v w : view_le v (view_join v w).
Proof. intros l. unfold view_join. lia. Qed.

Lemma view_at_eq l t : view_at l t l = t.
Proof. unfold view_at. by rewrite decide_True. Qed.

Lemma view_at_ne l l' t : l' <> l -> view_at l t l' = 0%nat.
Proof. intros. unfold view_at. by rewrite decide_False. Qed.

Definition acquires (o : Ordering) : bool :=
  match o with Acquire | AcqRel | SeqCst => true | _ => false end.
Definition releases (o : Ordering) : bool :=
  match o with Release | AcqRel | SeqCst => true | _ => false end.

(** ** The machine *)

(** A record and the number of writes to its data. *)
Record wrecord := mkWrecord {
  truth : ring_record;
  version : nat;
}.

(** The actions of the kernel: reserve a record whose space holds [old] bytes, going by
    the [m]-th store of the consumer position; write data; settle the header. *)
Inductive waction :=
| WReserve (old : list Z) (m : nat)
| WWrite (i : nat) (data : list Z)
| WSettle (i : nat) (st : status).

(** A store of the consumer position: the index it stands for, and the data reads of
    the consumer that are ordered before it. *)
Record position_store := mkStore {
  stored : nat;
  reads_before : list nat;
}.

Record weak := mkWeak {
  w_consumer : RingbufConsumer;
  w_records : list wrecord;
  w_view : view;                          (* of the consumer *)
  w_consumed : nat;
  w_stores : list position_store;         (* of the consumer position *)
  w_reads : list nat;                     (* records whose data was read *)
  w_race : bool;                          (* space was reused under a read *)
  w_clock : nat;
  w_schedule : nat -> list waction;       (* what the kernel does at each access *)
  w_choice : nat -> nat;                  (* which write a load returns *)
  w_junk : nat -> list Z;                 (* what a racing read returns *)
}.

Definition truths (k : weak) : list ring_record := truth <$> w_records k.

Definition w_size (k : weak) : Z := mask (w_consumer k) + 1.

Definition set_records (k : weak) (rs : list wrecord) : weak :=
  mkWeak (w_consumer k) rs (w_view k) (w_consumed k) (w_stores k) (w_reads k) (w_race k)
    (w_clock k) (w_schedule k) (w_choice k) (w_junk k).

Definition set_race (k : weak) (b : bool) : weak :=
  mkWeak (w_consumer k) (w_records k) (w_view k) (w_consumed k) (w_stores k) (w_reads k) b
    (w_clock k) (w_schedule k) (w_choice k) (w_junk k).

Definition set_view (k : weak) (v : view) : weak :=
  mkWeak (w_consumer k) (w_records k) v (w_consumed k) (w_stores k) (w_reads k) (w_race k)
    (w_clock k) (w_schedule k) (w_choice k) (w_junk k).

Definition set_choice (k : weak) (f : nat -> nat) : weak :=
  mkWeak (w_consumer k) (w_records k) (w_view k) (w_consumed k) (w_stores k) (w_reads k) (w_race k)
    (w_clock k) (w_schedule k) f (w_junk k).

(** Reserving with the store [s] reuses the space of the records before [stored s]. *)
Definition reuses_under_read (k : weak) (s : position_store) : bool :=
  existsb (fun j => (j <? stored s)%nat && negb (bool_decide (j ∈ reads_before s))) (w_reads k).

Definition wact (k : weak) (a : waction) : weak :=
  match a with
  | WReserve old m =>
      let r := mkRecord old Busy in
      let end_ := position (truths k) (length (truths k)) + record_size r in
      match w_stores k !! m with
      | Some s =>
          if (end_ - position (truths k) (stored s) <=? w_size k)
             && (vec_len old <? 2 ^ 30) && (end_ <? 2 ^ 64)
          then set_race (set_records k (w_records k ++ [mkWrecord r 0]))
                 (w_race k || reuses_under_read k s)
          else k
      | None => k
      end
  | WWrite i data =>
      match w_records k !! i with
      | Some w =>
          if bool_decide (state (truth w) = Busy) then
            set_records k (<[i := mkWrecord (mkRecord (overwrite data (truth w)) Busy) (S (version w))]>
              (w_records k))
          else k
      | None => k
      end
  | WSettle i st =>
      match w_records k !! i with
      | Some w =>
          if bool_decide (state (truth w) = Busy) then
            set_records k (<[i := mkWrecord (mkRecord (payload (truth w)) st) (version w)]> (w_records k))
          else k
      | None => k
      end
  end.

(** The work of the kernel before an access. *)
Definition wwork (k : weak) : weak :=
  let k' := foldl wact k (w_schedule k (w_clock k)) in
  mkWeak (w_consumer k') (w_records k') (w_view k') (w_consumed k') (w_stores k') (w_reads k')
    (w_race k') (S (w_clock k')) (w_schedule k') (w_choice k') (w_junk k').

(** The write that a load returns, between the known one and the latest. *)
Definition pick (k : weak) (lo hi : nat) : nat :=
  (lo + w_choice k (w_clock k) mod (S (hi - lo)))%nat.

(** The view of a load of the write [t] at [l], released with the view [released]. *)
Definition after_load (v : view) (o : Ordering) (l : location) (t : nat) (released : view) : view :=
  view_join (view_join v (view_at l t)) (if acquires o then released else view_bot).

(** The writes of the headers come before those of the producer position, and the
    writes of the data before the settled header. *)
Definition producer_view (t : nat) : view := fun l =>
  match l with LHeader j => if (j <? t)%nat then 1%nat else 0%nat | _ => 0%nat end.

(** The writes of a header: the busy one and, once settled, the final one.  The memory
    had something else before. *)
Definition last_header (w : wrecord) : nat :=
  if bool_decide (state (truth w) = Busy) then 1%nat else 2%nat.

Definition word_at (k : weak) (w : wrecord) (t : nat) : Z :=
  match t with
  | O => wrap_u 32 (default 0 (head (w_junk k (w_clock k))))
  | 1%nat => header_word (mkRecord (payload (truth w)) Busy)
  | _ => header_word (truth w)
  end.

Definition header_view (i : nat) (w : wrecord) (t : nat) : view :=
  if (2 <=? t)%nat then view_at (LData i) (version w) else view_bot.

Definition w_addr (k : weak) (i : nat) : Z :=
  data_ptr (w_consumer k) + position (truths k) i mod w_size k.

Definition w_outstanding (k : weak) : list nat :=
  seq (w_consumed k) (length (w_records k) - w_consumed k).

(** The record at an address of the data pages. *)
Definition w_find (k : weak) (a : Z) : option (nat * wrecord) :=
  i ← locate (w_addr k) a (w_outstanding k); w ← w_records k !! i; Some (i, w).

Definition load_position (a : Z) (o : Ordering) (k : weak) : Z * weak :=
  let k := wwork k in
  if a =? consumer_mapping (w_consumer k) then (position (truths k) (w_consumed k), k)
  else
    let t := pick k (w_view k LProducer) (length (w_records k)) in
    (position (truths k) t, set_view k (after_load (w_view k) o LProducer t (producer_view t))).

Definition load_header (a : Z) (o : Ordering) (k : weak) : Z * weak :=
  let k := wwork k in
  match w_find k a with
  | Some (i, w) =>
      let t := pick k (w_view k (LHeader i)) (last_header w) in
      (word_at k w t, set_view k (after_load (w_view k) o (LHeader i) t (header_view i w t)))
  | None => (0, k)
  end.

Definition read_data (a len : Z) (k : weak) : list Z * weak :=
  let k := wwork k in
  match w_find k (a - BPF_RINGBUF_HDR_SZ) with
  | Some (i, w) =>
      (if (version w <=? w_view k (LData i))%nat then payload (truth w) else w_junk k (w_clock k),
       mkWeak (w_consumer k) (w_records k) (w_view k) (w_consumed k) (w_stores k) (i :: w_reads k)
         (w_race k) (w_clock k) (w_schedule k) (w_choice k) (w_junk k))
  | None => ([], k)
  end.

Definition store_position (a v : Z) (o : Ordering) (k : weak) : () * weak :=
  let k := wwork k in
  ((), match locate (position (truths k)) v (seq 0 (S (length (w_records k)))) with
       | Some i =>
           mkWeak (w_consumer k) (w_records k) (w_view k) i
             (mkStore i (if releases o then w_reads k else []) :: w_stores k) (w_reads k)
             (w_race k) (w_clock k) (w_schedule k) (w_choice k) (w_junk k)
       | None => k
       end).

#[export] Instance weak_os : Os weak := { errno _ := 0; strerror _ := [] }.

(** The other calls are those of a ring that is already mapped. *)
#[export] Instance weak_syscalls : RingSyscalls weak := {
  ring_target := x86_64;
  bpf_map_create _ _ _ _ k := (-1, k);
  bpf_obj_get_info _ _ _ _ k := ((-1, zeroed_info), k);
  sysconf_pagesize k := (page_size (w_consumer k), k);
  mmap _ _ _ _ _ _ k := (-1, k);
  munmap _ _ k := (0, k);
  close _ k := (0, k);
  epoll_create1 _ k := (-1, k);
  epoll_ctl _ _ _ _ k := (-1, k);
  epoll_wait _ _ _ k := (-1, k);
  load_u64 := load_position;
  store_u64 := store_position;
  load_u32 := load_header;
  read_bytes := read_data;
  eprintln _ k := ((), k);
  MAP_FAILED := -1;
  PROT_READ := 1;
  PROT_WRITE := 2;
  MAP_SHARED := 1;
  EPOLL_CLOEXEC := 0;
  EPOLLIN := 1;
  EPOLL_CTL_ADD := 1;
}.

(** ** What the consumer knows *)

(** A record is settled for the consumer when it knows of its final header. *)
Definition visible (v : view) (i : nat) (w : wrecord) : ring_record :=
  if (2 <=? v (LHeader i))%nat then truth w
  else mkRecord (replicate (length (payload (truth w))) 0) Busy.

Definition visible_records (k : weak) : list ring_record :=
  imap (visible (w_view k)) (take (w_view k LProducer) (w_records k)).

#[export] Instance weak_view : RingView weak := {
  records := visible_records;
  consumed := w_consumed;
}.

(** The invariant of the machine. *)
Record weak_valid (c : RingbufConsumer) (k : weak) : Prop := {
  wv_consumer : w_consumer k = c;
  wv_mapped : 0 < mask c + 1 /\ consumer_mapping c <> producer_mapping c;
  wv_consumed : (w_consumed k <= w_view k LProducer <= length (w_records k))%nat;
  wv_fits : forall i w, w_records k !! i = Some w ->
    vec_len (payload (truth w)) < 2 ^ 30 /\ record_size (truth w) <= w_size k;
  wv_total : position (truths k) (length (w_records k)) < 2 ^ 64;
  wv_window : position (truths k) (length (w_records k)) - position (truths k) (w_consumed k)
              <= w_size k;
  wv_published : forall i, (i < w_view k LProducer)%nat -> (1 <= w_view k (LHeader i))%nat;
  wv_headers : forall i w, w_records k !! i = Some w -> (w_view k (LHeader i) <= last_header w)%nat;
  wv_unreserved : forall i, (length (w_records k) <= i)%nat -> w_view k (LHeader i) = 0%nat;
  wv_settled : forall i w, w_records k !! i = Some w -> (2 <= w_view k (LHeader i))%nat ->
    (version w <= w_view k (LData i))%nat;
  wv_stores : Forall (fun s => (stored s <= w_consumed k)%nat
    /\ forall j, j ∈ w_reads k -> (j < stored s)%nat -> j ∈ reads_before s) (w_stores k);
  wv_race : w_race k = false;
}.

(** ** The kernel *)

Definition wevolves (rs rs' : list wrecord) : Prop := forall i w, rs !! i = Some w ->
  exists w', rs' !! i = Some w'
    /\ (w' = w \/ state (truth w) = Busy /\ length (payload (truth w')) = length (payload (truth w))).

#[export] Instance wevolves_preorder : PreOrder wevolves.
Proof.
  split.
  - intros rs i w Hi. exists w. split; [done|by left].
  - intros rs1 rs2 rs3 H12 H23 i w Hi. destruct (H12 i w Hi) as (w2 & Hi2 & E12).
    destruct (H23 i w2 Hi2) as (w3 & Hi3 & E23). exists w3. split; [done|].
    destruct E12 as [->|[Hb Hl]]; [done|]. right. split; [done|].
    destruct E23 as [->|[_ ->]]; done.
Qed.

Lemma wevolves_truths rs rs' : wevolves rs rs' -> evolves (truth <$> rs) (truth <$> rs').
Proof.
  intros He i r Hi. apply list_lookup_fmap_Some in Hi as (w & -> & Hi).
  destruct (He i w Hi) as (w' & Hi' & Hev). exists (truth w').
  rewrite list_lookup_fmap, Hi'. split; [done|]. destruct Hev as [->|Hb]; [by left|by right].
Qed.

Lemma wevolves_update rs i w w' :
  rs !! i = Some w -> state (truth w) = Busy ->
  length (payload (truth w')) = length (payload (truth w)) -> wevolves rs (<[i := w']> rs).
Proof.
  intros Hi Hb Hl j v Hj. destruct (decide (i = j)) as [<-|Hne].
  - exists w'. rewrite list_lookup_insert_eq by by eapply lookup_lt_Some.
    split; [done|]. rewrite Hi in Hj. injection Hj as <-. by right.
  - exists v. rewrite list_lookup_insert_ne by done. split; [done|by left].
Qed.

Lemma wevolves_append rs w : wevolves rs (rs ++ [w]).
Proof.
  intros i v Hi. exists v. split; [|by left]. rewrite lookup_app_l; [done|].
  by eapply lookup_lt_Some.
Qed.

Lemma last_header_range w : (1 <= last_header w <= 2)%nat.
Proof. unfold last_header. case_bool_decide; lia. Qed.

Section kernel.
  Context (c : RingbufConsumer).

(** The kernel changes the records only. *)
Definition kernel_step (k k' : weak) : Prop :=
  weak_valid c k' /\ wevolves (w_records k) (w_records k') /\ w_view k' = w_view k
  /\ w_consumed k' = w_consumed k.

(** A busy record changes. *)
Lemma update_valid k i w w' :
  weak_valid c k -> w_records k !! i = Some w -> state (truth w) = Busy ->
  length (payload (truth w')) = length (payload (truth w)) ->
  kernel_step k (set_records k (<[i := w']> (w_records k))).
Proof.
  intros [] Hi Hb Hl. pose proof (wevolves_update _ _ _ _ Hi Hb Hl) as He.
  split_and!; [|done..]. pose proof (wevolves_truths _ _ He) as Het.
  assert (Hsame : forall j v, <[i := w']> (w_records k) !! j = Some v ->
    i = j /\ v = w' \/ i <> j /\ w_records k !! j = Some v).
  { intros j v Hj. destruct (decide (i = j)) as [<-|Hne].
    - left. rewrite list_lookup_insert_eq in Hj by by eapply lookup_lt_Some. by injection Hj as <-.
    - right. by rewrite list_lookup_insert_ne in Hj. }
  pose proof (wv_headers0 i w Hi) as Hh. unfold last_header in Hh.
  rewrite bool_decide_true in Hh by done.
  split; unfold truths, set_records, w_size in *; cbn [w_consumer w_records w_view w_consumed w_stores
    w_reads w_race] in *; rewrite ?length_insert; try done.
  - intros j v [[-> ->]|[_ Hj]]%Hsame; [|by eapply wv_fits0].
    destruct (wv_fits0 _ _ Hi) as [H1 H2]. unfold record_size, vec_len in *. by rewrite Hl.
  - rewrite (position_evolves _ _ _ Het); [done|by rewrite length_fmap].
  - rewrite !(position_evolves _ _ _ Het); [done|rewrite length_fmap; lia..].
  - intros j v [[<- ->]|[_ Hj]]%Hsame; [|by eapply wv_headers0].
    pose proof (last_header_range w'). lia.
  - intros j v [[<- ->]|[_ Hj]]%Hsame; [lia|by eapply wv_settled0].
Qed.

Lemma truths_app k w : truths (set_records k (w_records k ++ [w])) = truths k ++ [truth w].
Proof. unfold truths, set_records. cbn [w_records]. by rewrite fmap_app. Qed.

Lemma reserve_valid k old s :
  weak_valid c k -> s ∈ w_stores k ->
  let r := mkRecord old Busy in
  let end_ := position (truths k) (length (truths k)) + record_size r in
  end_ - position (truths k) (stored s) <= w_size k -> vec_len old < 2 ^ 30 -> end_ < 2 ^ 64 ->
  kernel_step k (set_race (set_records k (w_records k ++ [mkWrecord r 0]))
                   (w_race k || reuses_under_read k s)).
Proof.
  intros [] Hs r end_ Hroom Hlen Hend. split_and!; [|apply wevolves_append|done|done].
  apply (proj1 (Forall_forall _ _)) with (x := s) in wv_stores0 as Hstore; [|done].
  destruct Hstore as [Hle Hreads]. unfold end_ in *. clear end_.
  assert (Hn : length (truths k) = length (w_records k)) by apply length_fmap.
  pose proof (append_evolves (truths k) r) as Het.
  pose proof (position_le (truths k) (stored s) (w_consumed k) ltac:(lia)).
  pose proof (position_le (truths k) (w_consumed k) (length (w_records k)) ltac:(lia)).
  rewrite Hn in Hroom, Hend.
  assert (Hnew : position (truths k ++ [r]) (S (length (w_records k)))
    = position (truths k) (length (w_records k)) + record_size r) by (rewrite <- Hn; apply position_app).
  assert (Hlast : forall j v, (w_records k ++ [mkWrecord r 0]) !! j = Some v ->
    w_records k !! j = Some v \/ j = length (w_records k) /\ v = mkWrecord r 0).
  { intros j v Hj. apply lookup_app_Some in Hj as [Hj|[Hj1 Hj2]]; [by left|right].
    apply list_lookup_singleton_Some in Hj2 as [? <-]. split; [lia|done]. }
  pose proof (truths_app k (mkWrecord r 0)) as Happ. cbn [truth] in Happ. unfold truths, w_size in *.
  split; unfold truths, w_size; cbn [set_race set_records w_consumer w_records w_view w_consumed
    w_stores w_reads w_race] in *; try done; rewrite ?length_app; cbn [length]; rewrite ?Happ.
  - lia.
  - intros j v [Hj|[-> ->]]%Hlast; [by eapply wv_fits0|]. split; [exact Hlen|]. cbn [truth]. lia.
  - rewrite Nat.add_1_r. lia.
  - rewrite Nat.add_1_r. rewrite (position_evolves _ _ (w_consumed k) Het) by (rewrite length_fmap; lia). lia.
  - intros j v [Hj|[-> ->]]%Hlast; [by eapply wv_headers0|]. rewrite wv_unreserved0 by lia. lia.
  - intros j Hj. apply wv_unreserved0. lia.
  - intros j v [Hj|[-> ->]]%Hlast; [by eapply wv_settled0|]. cbn [version]. lia.
  - rewrite wv_race0. cbn [orb]. apply not_true_iff_false. unfold reuses_under_read.
    intros (j & Hj & [Hlt Hno]%andb_true_iff)%existsb_exists. apply Nat.ltb_lt in Hlt.
    apply list_elem_of_In in Hj. rewrite bool_decide_true in Hno by auto. done.
Qed.

Lemma kernel_step_refl k : weak_valid c k -> kernel_step k k.
Proof. by intros. Qed.

Lemma wact_valid k a : weak_valid c k -> kernel_step k (wact k a).
Proof.
  intros Hv. destruct a as [old m|i data|i st]; cbn [wact].
  - destruct (w_stores k !! m) as [s|] eqn:Hs; [|done]. destruct (_ && _) eqn:Hroom; [|done].
    rewrite !andb_true_iff in Hroom. apply reserve_valid; [done|by eapply list_elem_of_lookup_2|lia..].
  - destruct (w_records k !! i) as [w|] eqn:Hi; [|done]. case_bool_decide as Hb; [|done].
    apply (update_valid k i w); [done..|]. apply overwrite_length.
  - destruct (w_records k !! i) as [w|] eqn:Hi; [|done]. case_bool_decide as Hb; [|done].
    by apply (update_valid k i w).
Qed.

Lemma wacts_valid l k : weak_valid c k -> kernel_step k (foldl wact k l).
Proof.
  revert k. induction l as [|a l IH]; intros k Hv; [done|]. cbn [foldl].
  destruct (wact_valid k a Hv) as (Hv1 & He1 & Hw1 & Hc1).
  destruct (IH _ Hv1) as (Hv2 & He2 & Hw2 & Hc2).
  split_and!; [done|by etrans|congruence|congruence].
Qed.

Lemma wwork_valid k : weak_valid c k -> kernel_step k (wwork k).
Proof.
  intros Hv. destruct (wacts_valid (w_schedule k (w_clock k)) k Hv) as ([] & He & Hw & Hc).
  split_and!; [by split|done..].
Qed.
End kernel.

(** ** The records the consumer knows of *)

Lemma lookup_visible k i r :
  visible_records k !! i = Some r <->
  (i < w_view k LProducer)%nat /\ exists w, w_records k !! i = Some w /\ r = visible (w_view k) i w.
Proof.
  unfold visible_records. rewrite list_lookup_imap. split.
  - intros (w & Hw & ->)%fmap_Some. apply lookup_take_Some in Hw as [Hw Hi]. eauto.
  - intros (Hi & w & Hw & ->). by rewrite lookup_take_lt, Hw.
Qed.

Lemma visible_length c k : weak_valid c k -> length (visible_records k) = w_view k LProducer.
Proof.
  intros []. unfold visible_records. rewrite length_imap, length_take. lia.
Qed.

Lemma visible_payload v i w : length (payload (visible v i w)) = length (payload (truth w)).
Proof. unfold visible. destruct (_ <=? _)%nat; [done|]. apply length_replicate. Qed.

(** What the kernel knows is ahead of what the consumer knows. *)
Lemma visible_truths k : evolves (visible_records k) (truths k).
Proof.
  intros i r (_ & w & Hw & ->)%lookup_visible. exists (truth w). unfold truths.
  rewrite list_lookup_fmap, Hw. split; [done|]. unfold visible, record_evolves.
  destruct (_ <=? _)%nat; [by left|]. right. cbn. by rewrite length_replicate.
Qed.

Lemma visible_position c k i :
  weak_valid c k -> (i <= w_view k LProducer)%nat ->
  position (truths k) i = position (visible_records k) i.
Proof.
  intros Hv Hi. apply position_evolves; [apply visible_truths|]. by rewrite (visible_length c k Hv).
Qed.

(** The records change as the protocol says, when the kernel works and the consumer
    learns. *)
Lemma visible_evolves c k k' :
  weak_valid c k -> weak_valid c k' -> wevolves (w_records k) (w_records k') ->
  view_le (w_view k) (w_view k') -> evolves (visible_records k) (visible_records k').
Proof.
  intros Hv Hv' He Hle i r (Hi & w & Hw & ->)%lookup_visible.
  destruct (He i w Hw) as (w' & Hw' & Hev). exists (visible (w_view k') i w').
  split; [apply lookup_visible; specialize (Hle LProducer); split; [lia|eauto]|].
  pose proof (wv_headers c k Hv i w Hw) as Hh. specialize (Hle (LHeader i)).
  assert (Hlen : length (payload (truth w')) = length (payload (truth w))).
  { destruct Hev as [->|[_ ->]]; done. }
  destruct (Nat.leb_spec 2 (w_view k (LHeader i))) as [Hs|Hs].
  - left. assert (w' = w) as ->.
    { destruct Hev as [->|[Hb _]]; [done|]. unfold last_header in Hh.
      rewrite bool_decide_true in Hh by done. lia. }
    unfold visible. by rewrite !(proj2 (Nat.leb_le _ _)) by lia.
  - right. rewrite !visible_payload. split; [|done]. unfold visible.
    by rewrite (proj2 (Nat.leb_gt _ _)) by lia.
Qed.

Lemma kernel_step_advances c k k' :
  weak_valid c k -> kernel_step c k k' ->
  weak_valid c k' /\ evolves (visible_records k) (visible_records k') /\ w_consumed k' = w_consumed k.
Proof.
  intros Hv (Hv' & He & Hw & Hc). split_and!; [done| |done].
  eapply visible_evolves; [done..|]. by rewrite Hw.
Qed.

(** The consumer learns of writes: what must hold of the new view. *)
Lemma learn_valid c k v :
  weak_valid c k -> view_le (w_view k) v -> (v LProducer <= length (w_records k))%nat ->
  (forall i, (i < v LProducer)%nat -> (1 <= v (LHeader i))%nat) ->
  (forall i w, w_records k !! i = Some w -> (v (LHeader i) <= last_header w)%nat
     /\ ((2 <= v (LHeader i))%nat -> (version w <= v (LData i))%nat)) ->
  (forall i, (length (w_records k) <= i)%nat -> v (LHeader i) = 0%nat) ->
  weak_valid c (set_view k v) /\ evolves (visible_records k) (visible_records (set_view k v)).
Proof.
  intros Hv Hle Hp Hpub Hrec Hun.
  assert (Hv' : weak_valid c (set_view k v)).
  { destruct Hv. split; try done; cbn [set_view w_view w_records w_consumed].
    - pose proof (Hle LProducer). lia.
    - intros i w Hw. by apply Hrec.
    - intros i w Hw. by apply Hrec. }
  split; [done|]. by eapply visible_evolves.
Qed.

(** ** The protocol *)

Lemma w_addr_inj c k i j : weak_valid c k ->
  (w_consumed k <= i < length (w_records k))%nat -> (w_consumed k <= j < length (w_records k))%nat ->
  w_addr k i = w_addr k j -> i = j.
Proof.
  intros [] Hi Hj Heq. assert (Hn : length (truths k) = length (w_records k)) by apply length_fmap.
  assert (Hlt : forall i j, (w_consumed k <= i < j)%nat -> (j < length (w_records k))%nat ->
    position (truths k) i mod w_size k <> position (truths k) j mod w_size k).
  { intros i' j' Hi' Hj'. pose proof (position_lt (truths k) i' j').
    pose proof (position_lt (truths k) j' (length (w_records k))).
    pose proof (position_le (truths k) (w_consumed k) i').
    assert (Hs : 0 < w_size k) by (unfold w_size; by subst c; apply wv_mapped0).
    set (s := w_size k) in *. clearbody s. set (a := position _ i') in *.
    set (b := position _ j') in *. intros Hab.
    assert (b - a = s * (b / s - a / s)).
    { pose proof (Z.div_mod a s). pose proof (Z.div_mod b s). lia. }
    assert (0 < b / s - a / s < 1) by nia. lia. }
  unfold w_addr in Heq. destruct (Nat.lt_trichotomy i j) as [?|[?|?]]; [|done|].
  - by destruct (Hlt i j); [lia..|lia].
  - by destruct (Hlt j i); [lia..|lia].
Qed.

Lemma w_find_record c k i w : weak_valid c k -> (w_consumed k <= i)%nat -> w_records k !! i = Some w ->
  w_find k (w_addr k i) = Some (i, w).
Proof.
  intros Hv Hi Hw. pose proof (lookup_lt_Some _ _ _ Hw). unfold w_find, w_outstanding.
  rewrite (locate_found _ _ _ i); [cbn; by rewrite Hw|apply elem_of_seq; lia|done|].
  intros j Hj Heq. apply elem_of_seq in Hj. apply (w_addr_inj c k); (done || lia).
Qed.

Lemma pick_range k lo hi : (lo <= hi)%nat -> (lo <= pick k lo hi <= hi)%nat.
Proof.
  intros Hle. unfold pick. pose proof (Nat.mod_upper_bound (w_choice k (w_clock k)) (S (hi - lo))). lia.
Qed.

(** Publishing shows the headers of the records up to the position read. *)
Lemma producer_learn c k t :
  weak_valid c k -> (w_view k LProducer <= t <= length (w_records k))%nat ->
  let k' := set_view k (after_load (w_view k) Acquire LProducer t (producer_view t)) in
  weak_valid c k' /\ evolves (visible_records k) (visible_records k') /\ w_view k' LProducer = t.
Proof.
  intros Hv Ht k'. set (v := after_load _ _ _ _ _) in k'.
  assert (Hp : v LProducer = t).
  { unfold v, after_load, view_join. cbn [acquires producer_view]. rewrite view_at_eq. lia. }
  assert (Hh : forall i, v (LHeader i) = Nat.max (w_view k (LHeader i)) (if (i <? t)%nat then 1 else 0)).
  { intros i. unfold v, after_load, view_join. cbn [acquires producer_view].
    rewrite view_at_ne by done. lia. }
  assert (Hd : forall i, v (LData i) = w_view k (LData i)).
  { intros i. unfold v, after_load, view_join. cbn [acquires producer_view].
    rewrite view_at_ne by done. lia. }
  destruct (learn_valid c k v Hv) as [Hv' He]; [| | | | |by split_and!].
  - unfold v, after_load. intros l. unfold view_join. lia.
  - lia.
  - intros i Hi. rewrite Hh, Hp in *. rewrite (proj2 (Nat.ltb_lt _ _)) by lia. lia.
  - intros i w Hw. rewrite Hh, Hd. pose proof (wv_headers c k Hv i w Hw).
    pose proof (wv_settled c k Hv i w Hw). pose proof (last_header_range w).
    destruct (i <? t)%nat; split; intros; try lia; apply H0; lia.
  - intros i Hi. rewrite Hh, (wv_unreserved c k Hv i Hi), (proj2 (Nat.ltb_ge _ _)) by lia. done.
Qed.

(** Reading the settled header of a record shows its data. *)
Lemma header_learn c k i w t :
  weak_valid c k -> w_records k !! i = Some w -> (i < w_view k LProducer)%nat ->
  (w_view k (LHeader i) <= t <= last_header w)%nat ->
  let k' := set_view k (after_load (w_view k) Acquire (LHeader i) t (header_view i w t)) in
  weak_valid c k' /\ evolves (visible_records k) (visible_records k')
  /\ w_view k' LProducer = w_view k LProducer /\ w_view k' (LHeader i) = t.
Proof.
  intros Hv Hw Hi Ht k'. set (v := after_load _ _ _ _ _) in k'.
  assert (Hdv : forall l, (forall j, l <> LData j) -> header_view i w t l = 0%nat).
  { intros l Hl. unfold header_view. destruct (_ <=? _)%nat; [by apply view_at_ne|done]. }
  assert (Hp : v LProducer = w_view k LProducer).
  { unfold v, after_load, view_join. cbn [acquires]. rewrite Hdv, view_at_ne by done. lia. }
  assert (Hh : forall j, v (LHeader j) = if decide (j = i) then t else w_view k (LHeader j)).
  { intros j. unfold v, after_load, view_join. cbn [acquires]. rewrite Hdv by done.
    destruct (decide (j = i)) as [->|]; [rewrite view_at_eq; lia|].
    rewrite view_at_ne by congruence. lia. }
  assert (Hle : view_le (w_view k) v) by (intros l; unfold v, after_load, view_join; lia).
  destruct (learn_valid c k v Hv) as [Hv' He]; [done| | | | |].
  - rewrite Hp. apply (wv_consumed c k Hv).
  - rewrite Hp. intros j Hj. rewrite Hh. pose proof (wv_published c k Hv j Hj).
    pose proof (wv_published c k Hv i Hi). destruct (decide _); lia.
  - intros j u Hu. rewrite Hh. destruct (decide (j = i)) as [->|Hne].
    + rewrite Hw in Hu. injection Hu as <-. split; [lia|]. intros H2.
      unfold v, after_load, view_join, header_view. cbn [acquires].
      rewrite (proj2 (Nat.leb_le _ _)) by done. rewrite view_at_eq. lia.
    + pose proof (wv_headers c k Hv j u Hu). pose proof (wv_settled c k Hv j u Hu) as Hs.
      split; [done|]. intros H2. specialize (Hs H2). specialize (Hle (LData j)). lia.
  - intros j Hj. rewrite Hh. pose proof (lookup_lt_Some _ _ _ Hw).
    destruct (decide (j = i)); [lia|]. by apply (wv_unreserved c k Hv).
  - split_and!; [done|done|done|]. cbn [k' set_view w_view]. rewrite Hh. by rewrite decide_True.
Qed.

(** The word read is the header of the record as the consumer then knows it. *)
Lemma word_visible k w t i v :
  (1 <= t <= last_header w)%nat -> v (LHeader i) = t ->
  word_at k w t = header_word (visible v i w).
Proof.
  intros Ht Hv. unfold visible. rewrite Hv. pose proof (last_header_range w).
  destruct t as [|[|[|t]]]; [lia| |done|lia].
  cbn. unfold header_word, vec_len. cbn. by rewrite length_replicate.
Qed.

Lemma data_read_valid c k i :
  weak_valid c k -> (w_consumed k <= i)%nat ->
  weak_valid c (mkWeak (w_consumer k) (w_records k) (w_view k) (w_consumed k) (w_stores k)
    (i :: w_reads k) (w_race k) (w_clock k) (w_schedule k) (w_choice k) (w_junk k)).
Proof.
  intros [] Hi. split; try done. eapply Forall_impl; [exact wv_stores0|].
  intros s [Hs Hr]. split; [done|]. cbn [w_reads].
  intros j [->|Hj]%elem_of_cons Hlt; [cbn [w_consumed] in *; lia|by apply Hr].
Qed.

(** A release store of a later position. *)
Lemma store_valid c k i :
  weak_valid c k -> (w_consumed k <= i <= w_view k LProducer)%nat ->
  weak_valid c (mkWeak (w_consumer k) (w_records k) (w_view k) i
    (mkStore i (w_reads k) :: w_stores k) (w_reads k)
    (w_race k) (w_clock k) (w_schedule k) (w_choice k) (w_junk k)).
Proof.
  intros [] Hi. split; try done; cbn [w_consumed w_view w_records w_stores w_reads].
  - lia.
  - unfold truths, w_size in *. cbn [w_records w_consumer].
    pose proof (position_le (truth <$> w_records k) (w_consumed k) i) as Hp.
    rewrite length_fmap in Hp. lia.
  - apply Forall_cons. split; [by split|]. eapply Forall_impl; [exact wv_stores0|].
    intros s [Hs Hr]. split; [lia|done].
Qed.

#[export] Program Instance weak_protocol c : RingProtocol c weak := {
  valid := weak_valid c;
}.
Next Obligation.
  cbn. intros c k Hv. rewrite (visible_length c k Hv). apply (wv_consumed c k Hv).
Qed.
Next Obligation.
  cbn. intros c k i r Hv (_ & w & Hw & ->)%lookup_visible.
  destruct (wv_fits c k Hv i w Hw) as [Hl Hs].
  unfold w_size, record_size, vec_len in *. rewrite (wv_consumer c k Hv) in Hs.
  by rewrite visible_payload.
Qed.
Next Obligation.
  cbn. intros c k Hv. rewrite (visible_length c k Hv), <- (visible_position c k) by (done || lia).
  pose proof (wv_total c k Hv). pose proof (wv_consumed c k Hv).
  pose proof (position_le (truths k) (w_view k LProducer) (length (w_records k))) as Hp.
  unfold truths in Hp at 1. rewrite length_fmap in Hp. lia.
Qed.
Next Obligation.
  cbn. unfold load_position. intros c k v k' Hv. pose proof (wwork_valid c k Hv) as Hstep.
  set (k1 := wwork k) in *. clearbody k1.
  destruct (kernel_step_advances c k _ Hv Hstep) as (Hv1 & He & Hc).
  rewrite (wv_consumer c _ Hv1), Z.eqb_refl. intros [= <- <-]. split; [by split_and!|].
  apply (visible_position c); [done|]. apply (wv_consumed c _ Hv1).
Qed.
Next Obligation.
  cbn. unfold load_position. intros c k v k' Hv. pose proof (wwork_valid c k Hv) as Hstep.
  set (k1 := wwork k) in *. clearbody k1.
  destruct (kernel_step_advances c k _ Hv Hstep) as (Hv1 & He & Hc).
  rewrite (wv_consumer c _ Hv1).
  destruct (Z.eqb_spec (producer_mapping c) (consumer_mapping c)) as [Heq|_].
  { destruct (wv_mapped c k Hv) as [_ Hne]. congruence. }
  pose proof (wv_consumed c _ Hv1) as Hcons.
  pose proof (pick_range k1 (w_view k1 LProducer) (length (w_records k1))
    ltac:(lia)) as Ht.
  set (t := pick _ _ _) in *. intros [= <- <-].
  destruct (producer_learn c _ t Hv1 Ht) as (Hv2 & He2 & Hp2).
  split; [split_and!; [done|by etrans|done]|].
  rewrite (visible_length c _ Hv2), Hp2, <- (visible_position c _ _ Hv2) by lia. done.
Qed.
Next Obligation.
  cbn. unfold load_header. intros c k i v k' Hv Hi. rewrite (visible_length c k Hv) in Hi.
  pose proof (wwork_valid c k Hv) as Hstep.
  set (k1 := wwork k) in *. clearbody k1.
  destruct (kernel_step_advances c k _ Hv Hstep) as (Hv1 & He & Hc).
  destruct Hstep as (_ & Hw1 & Hview & _).
  destruct (lookup_lt_is_Some_2 (w_records k1) i) as [w Hw].
  { pose proof (wv_consumed c _ Hv1). rewrite Hview in *. lia. }
  rewrite <- (visible_position c k i Hv) by lia.
  replace (data_ptr c + _) with (w_addr k1 i).
  2: { unfold w_addr, w_size. rewrite (wv_consumer c _ Hv1). do 2 f_equal.
       apply (position_evolves (truths k)); [by apply wevolves_truths|].
       pose proof (wv_consumed c k Hv). unfold truths. rewrite length_fmap. lia. }
  rewrite (w_find_record c _ i w Hv1 ltac:(lia) Hw).
  pose proof (wv_headers c _ Hv1 i w Hw) as Hh. pose proof (pick_range k1 _ _ Hh) as Ht.
  set (t := pick _ _ _) in *. intros [= <- <-].
  destruct (header_learn c _ i w t Hv1 Hw ltac:(rewrite Hview; lia) Ht) as (Hv2 & He2 & Hp2 & Hh2).
  split; [split_and!; [done|by etrans|done]|].
  exists (visible (w_view (set_view k1 (after_load (w_view k1) Acquire (LHeader i) t
    (header_view i w t)))) i w). split.
  - apply lookup_visible. rewrite Hp2, Hview. split; [lia|]. by exists w.
  - apply word_visible; [|done]. pose proof (wv_published c _ Hv1 i ltac:(rewrite Hview; lia)). lia.
Qed.
Next Obligation.
  cbn. unfold read_data. intros c k i r bs k' Hv Hi Hr Hst.
  pose proof Hr as (Hlt & w0 & Hw0 & Hrw)%lookup_visible.
  pose proof (wwork_valid c k Hv) as Hstep.
  set (k1 := wwork k) in *. clearbody k1.
  destruct (kernel_step_advances c k _ Hv Hstep) as (Hv1 & He & Hc).
  destruct Hstep as (_ & Hw1 & Hview & _).
  pose proof (evolves_final _ _ _ _ He Hr ltac:(by rewrite Hst)) as (_ & w & Hw & Hrw1)%lookup_visible.
  rewrite <- (visible_position c k i Hv) by lia.
  replace (_ - BPF_RINGBUF_HDR_SZ) with (w_addr k1 i).
  2: { unfold w_addr, w_size. rewrite (wv_consumer c _ Hv1).
       rewrite (position_evolves (truths k) (truths k1) i).
       - unfold BPF_RINGBUF_HDR_SZ. lia.
       - by apply wevolves_truths.
       - pose proof (wv_consumed c k Hv). unfold truths. rewrite length_fmap. lia. }
  rewrite (w_find_record c _ i w Hv1 ltac:(lia) Hw).
  unfold visible in Hrw1. destruct (Nat.leb_spec 2 (w_view k1 (LHeader i))) as [H2|H2];
    [|by rewrite Hrw1 in Hst].
  rewrite (proj2 (Nat.leb_le _ _)) by by apply (wv_settled c _ Hv1).
  intros [= <- <-]. split; [|by rewrite Hrw1].
  split_and!; [apply data_read_valid; [done|lia]|done|done].
Qed.
Next Obligation.
  cbn. unfold store_position. intros c k i u k' Hv Hi. rewrite (visible_length c k Hv) in Hi.
  pose proof (wwork_valid c k Hv) as Hstep.
  set (k1 := wwork k) in *. clearbody k1.
  destruct (kernel_step_advances c k _ Hv Hstep) as (Hv1 & He & Hc).
  destruct Hstep as (_ & Hw1 & Hview & _). pose proof (wv_consumed c _ Hv1) as Hle1.
  assert (Hn : length (truths k1) = length (w_records k1)) by apply length_fmap.
  rewrite Hview in Hle1. rewrite (locate_found _ _ _ i).
  - cbn [releases]. intros [= _ <-]. split_and!; [apply store_valid; [done|rewrite Hview; lia]|done|done].
  - apply elem_of_seq. lia.
  - rewrite <- (position_evolves _ _ i He) by (rewrite (visible_length c k Hv); lia).
    apply (visible_position c); [done|]. rewrite Hview. lia.
  - intros j Hj. apply elem_of_seq in Hj.
    rewrite <- (position_evolves _ _ i He), <- (visible_position c _ _ Hv1)
      by (rewrite ?Hview, ?(visible_length c k Hv); lia).
    intros Heq. destruct (Nat.lt_trichotomy i j) as [?|[?|?]]; [|done|].
    + pose proof (position_lt (truths k1) i j). lia.
    + pose proof (position_lt (truths k1) j i). lia.
Qed.

(** ** Theorem *)

Section weak_delivery.
  Context `{Arch} (c : RingbufConsumer) (Hmask : mask_ok c).
  Context {C : Type} (callback : C -> list Z -> C).

(** C5. The consumer is correct on weakly ordered memory.  Whatever writes its loads
    return within what its view allows, and whatever the kernel does between its
    accesses, a call that ends hands to the callback exactly what the kernel
    committed to the records it consumes, in order: no stale or torn data, no record
    that the kernel has not settled; it consumes every record that it knew to be
    settled; and the kernel never reuses the space of a record while the consumer may
    still read it.  This rests on the orderings in the code: with a relaxed load or
    store in place of an acquire load or a release store it fails, see
    [relaxed_header] and [relaxed_store]. *)
Theorem consume_on_weak_memory fuel k cache x :
  weak_valid c k ->
  match consume_ring_records c callback fuel x (mkProc k cache) with
  | (Ok x', p') => exists d,
      w_consumed (sys p') = (w_consumed k + d)%nat
      /\ settled (truths (sys p')) (w_consumed k) d
      /\ x' = foldl callback x (delivered (truths (sys p')) (w_consumed k) d)
      /\ (forall e, settled (visible_records k) (w_consumed k) e -> (e <= d)%nat)
      /\ w_race (sys p') = false
  | (OutOfFuel, _) => exists k', weak_valid c k' /\ (fuel <= length (w_records k'))%nat
  | (Err _, _) | (Panic, _) => False
  end.
Proof.
  intros Hv. pose proof (consume_run c Hmask callback fuel (mkProc k cache) x Hv) as Hrun.
  destruct (consume_ring_records _ _ _ _ _) as [[x'| | |] p']; [|done|done|].
  - destruct Hrun as (d & (Hv' & He & Hc & Hs & Hx) & Hcomp). exists d. cbn in *.
    pose proof (visible_truths (sys p')) as Ht.
    split_and!; [done|by eapply settled_evolves| |done|apply (wv_race c _ Hv')].
    by rewrite (delivered_evolves _ _ _ _ Ht Hs).
  - destruct Hrun as (k' & Hv' & Hl). exists k'. split; [done|]. cbn in *.
    rewrite (visible_length c k' Hv') in Hl. pose proof (wv_consumed c k' Hv'). lia.
Qed.
End weak_delivery.

(** ** Runs *)

(** A ring that the consumer knows nothing of yet: a committed record, a discarded one
    and a busy one, which the kernel writes and commits while the consumer is at
    work.  The loads return old writes at first. *)
Definition demo_weak : weak :=
  mkWeak demo_consumer
    [mkWrecord (mkRecord (bytes "one") Committed) 1; mkWrecord (mkRecord (bytes "two") Discarded) 2;
     mkWrecord (mkRecord (bytes "xxxxx") Busy) 0]
    view_bot 0 [mkStore 0 []] [] false 0
    (fun n => if (n =? 3)%nat then [WWrite 2 (bytes "th"); WWrite 2 (bytes "three")]
              else if (n =? 4)%nat then [WSettle 2 Committed; WReserve (bytes "old") 0] else [])
    (fun n => if (n =? 1)%nat then 2%nat else 1%nat) (fun _ => bytes "junk").

Lemma demo_weak_valid : weak_valid demo_consumer demo_weak.
Proof.
  assert (Hlast : forall (P : nat -> wrecord -> Prop) i w, w_records demo_weak !! i = Some w ->
    P 0%nat (mkWrecord (mkRecord (bytes "one") Committed) 1) ->
    P 1%nat (mkWrecord (mkRecord (bytes "two") Discarded) 2) ->
    P 2%nat (mkWrecord (mkRecord (bytes "xxxxx") Busy) 0) -> P i w).
  { intros P [|[|[|i]]] w Hw; cbn in Hw; by try injection Hw as <-. }
  split; cbn [demo_weak w_view w_consumer w_consumed w_stores w_reads w_race w_records length]; unfold view_bot; try done; try lia.
  - intros i w Hw. apply (Hlast (fun _ w => vec_len (payload (truth w)) < 2 ^ 30
      /\ record_size (truth w) <= w_size demo_weak) i w Hw); by vm_compute.
  - repeat constructor. intros j Hj. by apply elem_of_nil in Hj.
Qed.

Example demo_weak_run :
  let '(r, p) := consume_ring_records (H := arch64_debug) demo_consumer (fun c d => c ++ [d]) 10 []
                   (mkProc demo_weak None) in
  r = Ok [bytes "one"; bytes "three"] /\ w_consumed (sys p) = 3%nat /\ w_race (sys p) = false.
Proof. vm_compute. done. Qed.

Lemma consume_on_weak_memory_witness :
  exists d p', w_consumed (sys p') = (0 + d)%nat
    /\ [bytes "one"; bytes "three"]
       = foldl (fun c d => c ++ [d]) [] (delivered (truths (sys p')) 0 d)
    /\ w_race (sys p') = false.
Proof.
  pose proof (consume_on_weak_memory (H := arch64_debug) demo_consumer demo_mask_ok
    (fun c d => c ++ [d]) 10 demo_weak None [] demo_weak_valid) as Hd.
  pose proof demo_weak_run as Hr. destruct (consume_ring_records _ _ _ _ _) as [r p'].
  destruct Hr as (-> & _ & _). destruct Hd as (d & Hc & _ & Hx & _ & Hrace).
  exists d, p'. by split_and!.
Defined.

(** The first record of the ring, once the consumer knows the producer position. *)
Definition known_weak : weak := (load_position (producer_mapping demo_consumer) Acquire demo_weak).2.

(** After a relaxed load of the settled header the data read may be anything. *)
Example relaxed_header :
  let a := data_ptr demo_consumer in
  let read o := (read_data (a + 8) 3 (load_header a o known_weak).2).1 in
  read Acquire = bytes "one" /\ read Relaxed = bytes "junk".
Proof. vm_compute. done. Qed.

(** With a relaxed load of the producer position the header may be an old word. *)
Example relaxed_producer :
  let word o := (load_header (data_ptr demo_consumer) Acquire
    (set_choice (load_position (producer_mapping demo_consumer) o demo_weak).2 (fun _ => 0%nat))).1 in
  word Acquire = 2 ^ 31 + 3 /\ word Relaxed = 106.
Proof. vm_compute. done. Qed.

(** After a relaxed store of the position the kernel may reuse space under the read. *)
Example relaxed_store :
  let read := (read_data (data_ptr demo_consumer + 8) 3
    (load_header (data_ptr demo_consumer) Acquire known_weak).2).2 in
  let reserve o := wact (store_position (consumer_mapping demo_consumer) 16 o read).2
    (WReserve (bytes "new") 0) in
  w_race (reserve Release) = false /\ w_race (reserve Relaxed) = true.
Proof. vm_compute. done. Qed.
