(* ===== verification/RingResources.v ===== *)
(** * Resources of the ring consumer

    [poll_ringbuf] (src/src/loader/ringbuf.rs) maps two regions and opens an epoll
    descriptor; destructors release them.  The interface [RingResources] says what
    mmap(2), munmap(2), close(2) and epoll(7) do to the mappings and descriptors of
    the process, and what it has printed.  A failed munmap(2) changes nothing; close(2)
    releases the descriptor even when it reports an error, as on Linux.  Against it:
    every call of [poll_ringbuf], with success, an error or a panic at any point,
    closes what it opened, and unmaps what it mapped except for mappings the kernel
    refuses to take back, each of which is reported; and the one path that does not
    ask the kernel to take a mapping back is isolated. *)

From S2P Require Import Prelude Str Compare Os Ringbuf RingSafety.

Class RingResources (os : Type) `{RingSyscalls os} := {
  mappings : os -> gmap Z Z;
  descriptors : os -> gset Z;
  printed : os -> list str;
  unchanged k k' :=
    mappings k' = mappings k /\ descriptors k' = descriptors k /\ printed k' = printed k;
  get_info_law nr cmd attr size k rc i k' :
    bpf_obj_get_info nr cmd attr size k = ((rc, i), k') ->
    unchanged k k' /\ (0 <= rc -> map_type i = BPF_MAP_TYPE_RINGBUF -> 1 <= max_entries i < 2 ^ 32);
  sysconf_law k v k' : sysconf_pagesize k = (v, k') -> unchanged k k' /\ v < 2 ^ 32;
  mmap_ok addr len prot flags fd off k a k' :
    mmap addr len prot flags fd off k = (a, k') -> a <> MAP_FAILED ->
    mappings k !! a = None /\ mappings k' = <[a := len]> (mappings k)
    /\ descriptors k' = descriptors k /\ printed k' = printed k;
  mmap_failed addr len prot flags fd off k k' :
    mmap addr len prot flags fd off k = (MAP_FAILED, k') -> unchanged k k';
  munmap_ok addr len k k' :
    munmap addr len k = (0, k') -> mappings k !! addr = Some len ->
    mappings k' = delete addr (mappings k) /\ descriptors k' = descriptors k
    /\ printed k' = printed k;
  munmap_failed addr len k rc k' : munmap addr len k = (rc, k') -> rc <> 0 -> unchanged k k';
  close_law fd k rc k' :
    close fd k = (rc, k') ->
    mappings k' = mappings k /\ descriptors k' = descriptors k ∖ {[fd]} /\ printed k' = printed k;
  epoll_create_ok flags k fd k' :
    epoll_create1 flags k = (fd, k') -> 0 <= fd ->
    mappings k' = mappings k /\ (fd ∉ descriptors k) /\ (descriptors k' = {[fd]} ∪ descriptors k)
    /\ printed k' = printed k;
  epoll_create_err flags k fd k' : epoll_create1 flags k = (fd, k') -> fd < 0 -> unchanged k k';
  epoll_ctl_law epfd op fd event k rc k' : epoll_ctl epfd op fd event k = (rc, k') -> unchanged k k';
  epoll_wait_law epfd n timeout k rc k' : epoll_wait epfd n timeout k = (rc, k') -> unchanged k k';
  load_u64_law a o k v k' : load_u64 a o k = (v, k') -> unchanged k k';
  store_u64_law a v o k u k' : store_u64 a v o k = (u, k') -> unchanged k k';
  load_u32_law a o k v k' : load_u32 a o k = (v, k') -> unchanged k k';
  read_bytes_law a len k bs k' : read_bytes a len k = (bs, k') -> unchanged k k';
  eprintln_law s k u k' :
    eprintln s k = (u, k') ->
    mappings k' = mappings k /\ descriptors k' = descriptors k /\ printed k' = printed k ++ [s];
}.

(** A line that reports a mapping that could not be released. *)
Definition leak_report (line : str) : bool := is_prefix (bytes "ebpfkit: munmap failed while ") line.

Section resources.
  Context `{Arch} {os} `{Os os} `{!RingSyscalls os} `{!RingResources os}.
  Abbreviation M := (io IoError (proc os)).

(** The number of mappings reported as lost. *)
Definition reports (k : os) : nat := length (List.filter leak_report (printed k)).

(** Nothing acquired, released or reported. *)
Definition same (k k' : os) : Prop :=
  mappings k' = mappings k /\ descriptors k' = descriptors k /\ reports k' = reports k.

(** The system takes back what it is asked to. *)
Definition unmaps : Prop := forall addr len k, (munmap addr len k).1 = 0.

(** Nothing is left but mappings, each with its report; none where the system unmaps. *)
Definition leaves (k k' : os) : Prop :=
  mappings k ⊆ mappings k' /\ descriptors k' = descriptors k
  /\ (size (mappings k') + reports k = size (mappings k) + reports k')%nat
  /\ (unmaps -> mappings k' = mappings k).

#[local] Instance same_trans : Transitive same.
Proof. intros k1 k2 k3 (? & ? & ?) (? & ? & ?). split_and!; congruence. Qed.

#[local] Instance leaves_trans : Transitive leaves.
Proof.
  intros k1 k2 k3 (? & ? & ? & Hu) (? & ? & ? & Hu').
  split_and!; [by etrans|congruence|lia|intros Hm; rewrite Hu'; auto].
Qed.

Lemma unchanged_same k k' : unchanged k k' -> same k k'.
Proof. intros (? & ? & Hp). split_and!; [done|done|]. unfold reports. by rewrite Hp. Qed.

Lemma same_leaves k k' : same k k' -> leaves k k'.
Proof. intros (Hm & ? & Hr). split_and!; [by rewrite Hm|done|rewrite Hm; lia|done]. Qed.

(** The cached page size, if any, is one [sysconf] returned. *)
Definition cache_ok (p : proc os) : Prop :=
  match CACHE p with None => True | Some v => 0 < v < 2 ^ 32 end.

(** [m] changes the system by [R] only, and its result satisfies [Q]. *)
Definition within (R : os -> os -> Prop) {A} (m : M A) (Q : A -> Prop) : Prop :=
  forall p r p', cache_ok p -> m p = (r, p') ->
    R (sys p) (sys p') /\ cache_ok p' /\ (forall a, r = Ok a -> Q a).

Abbreviation keeps := (within same).

Lemma keeps_leaves {A} (m : M A) Q : keeps m Q -> within leaves m Q.
Proof.
  intros Hm p r p' Hc Hrun. destruct (Hm _ _ _ Hc Hrun) as (Hs & ? & ?).
  split_and!; [by apply same_leaves|done|done].
Qed.

Lemma keeps_lift {A} (r : res IoError A) (Q : A -> Prop) :
  (forall a, r = Ok a -> Q a) -> keeps (lift r) Q.
Proof. intros HQ p r' p' Hc [= <- <-]. by split_and!. Qed.

Lemma keeps_ret {A} (a : A) (Q : A -> Prop) : Q a -> keeps (mret a) Q.
Proof. intros HQ. apply (keeps_lift (Ok a)). by intros ? [= <-]. Qed.

Lemma keeps_throw {A} e (Q : A -> Prop) : keeps (throw e) Q.
Proof. by apply (keeps_lift (Err e)). Qed.

Lemma within_bind R `{!Transitive R} {A B} (m : M A) (f : A -> M B) Q S :
  within R m Q -> (forall a, Q a -> within R (f a) S) -> within R (m ≫= f) S.
Proof.
  intros Hm Hf p r p' Hc Hrun. unfold mbind, io_bind in Hrun.
  destruct (m p) as [ra p1] eqn:Ha. destruct (Hm _ _ _ Hc Ha) as (Hs & Hc1 & HQ).
  destruct ra as [a|e| |]; [|injection Hrun as <- <-; by split_and!..].
  destruct (Hf a (HQ a eq_refl) _ _ _ Hc1 Hrun) as (Hs2 & Hc2 & HR).
  split_and!; [by etrans|done|done].
Qed.

Lemma keeps_call {A} (f : os -> A * os) (Q : A -> Prop) :
  (forall k a k', f k = (a, k') -> same k k' /\ Q a) -> keeps (call f) Q.
Proof.
  intros Hf p r p' Hc. unfold call, syscall, on_sys. destruct (f (sys p)) as [a k'] eqn:Hk.
  destruct (Hf _ _ _ Hk) as [Hs HQ]. intros [= <- <-]. split_and!; [done|done|by intros ? [= <-]].
Qed.

Lemma keeps_call_any {A} (f : os -> A * os) :
  (forall k a k', f k = (a, k') -> unchanged k k') -> keeps (call f) (fun _ => True).
Proof. intros Hf. apply keeps_call. intros k a k' Hk. split; [by eapply unchanged_same, Hf|done]. Qed.

(** Printing anything but a report. *)
Lemma eprintln_same line k u k' :
  eprintln line k = (u, k') -> leak_report line = false -> same k k'.
Proof.
  intros (? & ? & Hp)%eprintln_law Hl. split_and!; [done|done|]. unfold reports.
  rewrite Hp, List.filter_app. cbn [List.filter]. rewrite Hl. by rewrite app_nil_r.
Qed.

Lemma keeps_last_os_error : keeps last_os_error (fun _ => True).
Proof. intros p r p' Hc [= <- <-]. by split_and!. Qed.

Lemma keeps_fail_os {A} (Q : A -> Prop) : keeps fail_os Q.
Proof. eapply (within_bind same); [apply keeps_last_os_error|]. intros. apply keeps_throw. Qed.

(** ** The operations that hold no resource *)

Lemma keeps_map_info fd :
  keeps (map_info fd) (fun i => map_type i = BPF_MAP_TYPE_RINGBUF -> 1 <= max_entries i < 2 ^ 32).
Proof.
  unfold map_info. eapply (within_bind same); [apply keeps_call|].
  { intros k [rc i] k' Hk. destruct (get_info_law _ _ _ _ _ _ _ _ Hk) as [Hs%unchanged_same Hi]. split; [done|].
    exact (Hi : (fun '(rc, i) => 0 <= rc -> map_type i = BPF_MAP_TYPE_RINGBUF ->
      1 <= max_entries i < 2 ^ 32) (rc, i)). }
  intros [rc i] Hi. destruct (Z.ltb_spec rc 0); [apply keeps_fail_os|apply keeps_ret; auto].
Qed.

Lemma keeps_page_size : keeps get_page_size (fun v => 0 < v < 2 ^ 32).
Proof.
  intros p r p' Hc. unfold get_page_size, mbind, io_bind, get_cache. pose proof Hc as Hc0.
  unfold cache_ok in Hc0. destruct (CACHE p) as [v|] eqn:Hcache.
  { intros [= <- <-]. split_and!; [done|done|by intros ? [= <-]]. }
  unfold call, syscall, on_sys. destruct (sysconf_pagesize (sys p)) as [v k'] eqn:Hk.
  destruct (sysconf_law _ _ _ Hk) as [Hs%unchanged_same Hv]. rewrite Hcache.
  assert (Hok : cache_ok (mkProc k' None)) by done.
  destruct (Z.leb_spec v 0); [intros [= <- <-]; by split_and!|].
  destruct (Z.leb_spec v usize_max); [|intros [= <- <-]; by split_and!].
  intros [= <- <-]. split_and!; [done|done|by intros ? [= <-]].
Qed.

Lemma keeps_add epfd fd : keeps (EpollFd_add epfd fd) (fun _ => True).
Proof.
  unfold EpollFd_add. eapply (within_bind same); [apply keeps_call_any; intros; by eapply epoll_ctl_law|].
  intros rc _. destruct (rc <? 0); [apply keeps_fail_os|by apply keeps_ret].
Qed.

Lemma keeps_wait fuel epfd : keeps (EpollFd_wait fuel epfd) (fun _ => True).
Proof.
  induction fuel as [|fuel IH]; cbn [EpollFd_wait]; [by apply keeps_lift|].
  eapply (within_bind same); [apply keeps_call_any; intros; by eapply epoll_wait_law|].
  intros rc _. destruct (rc <? 0); [|by apply keeps_ret].
  eapply (within_bind same); [apply keeps_last_os_error|]. intros e _.
  destruct (bool_decide _); [done|apply keeps_throw].
Qed.

Section consume.
  Context (c : RingbufConsumer) {C : Type} (callback : C -> list Z -> C).

Lemma keeps_deliver off raw len x : keeps (deliver c callback off raw len x) (fun _ => True).
Proof.
  unfold deliver. destruct (_ =? 0); [|by apply keeps_ret].
  eapply (within_bind same); [by apply keeps_lift with (Q := fun _ => True)|]. intros o _. cbv zeta.
  match goal with |- context [if ?b then _ else _] => destruct b end.
  - eapply (within_bind same) with (Q := fun _ => True); [apply keeps_call; intros k u k' Hk|].
    { split; [by eapply eprintln_same|done]. }
    intros. by apply keeps_ret.
  - eapply (within_bind same); [apply keeps_call_any; intros; by eapply read_bytes_law|].
    intros. by apply keeps_ret.
Qed.

Lemma keeps_store pos : keeps (store_consumer_pos c pos) (fun _ => True).
Proof. apply keeps_call_any. intros. by eapply store_u64_law. Qed.

Lemma keeps_inner fuel pos prod any x :
  keeps (consume_inner c callback fuel pos prod any x) (fun _ => True).
Proof.
  revert pos any x. induction fuel as [|fuel IH]; intros pos any x; cbn [consume_inner];
    [by apply keeps_lift|]. cbv zeta. destruct (pos <? prod); [|by apply keeps_ret].
  eapply (within_bind same); [apply keeps_call_any; intros; by eapply load_u32_law|].
  intros raw _. destruct (negb _).
  { eapply (within_bind same); [apply keeps_store|]. intros. by apply keeps_ret. }
  eapply (within_bind same); [apply keeps_deliver|]. intros [x'|] _.
  - eapply (within_bind same); [by apply keeps_lift with (Q := fun _ => True)|]. intros pos' _.
    eapply (within_bind same); [apply keeps_store|]. intros. apply IH.
  - eapply (within_bind same); [apply keeps_store|]. intros. by apply keeps_ret.
Qed.

Lemma keeps_consume fuel x : keeps (consume_ring_records c callback fuel x) (fun _ => True).
Proof.
  eapply (within_bind same); [apply keeps_call_any; intros; by eapply load_u64_law|]. intros pos _.
  revert pos x. induction fuel as [|fuel IH]; intros pos x; cbn [consume_outer]; [by apply keeps_lift|].
  eapply (within_bind same); [apply keeps_call_any; intros; by eapply load_u64_law|]. intros prod _.
  eapply (within_bind same); [apply keeps_inner|]. intros [x'|pos' any x'] _; [by apply keeps_ret|].
  destruct any; cbn [negb]; [apply IH|by apply keeps_ret].
Qed.
End consume.

(** ** Destructors *)

Lemma size_delete_insert (m : gmap Z Z) a x :
  m !! a = Some x -> size m = S (size (delete a m)).
Proof.
  intros Hm. rewrite <- (insert_delete_id m a x Hm) at 1.
  by rewrite map_size_insert_None by apply lookup_delete_eq.
Qed.

(** Either way of [munmap], one mapping less or one report more. *)
Lemma munmap_or_warn_run addr len context p :
  mappings (sys p) !! addr = Some len ->
  let p' := munmap_or_warn addr len context p in
  (forall b, b <> addr -> mappings (sys p') !! b = mappings (sys p) !! b)
  /\ (size (mappings (sys p')) + reports (sys p) + 1 = size (mappings (sys p)) + reports (sys p'))%nat
  /\ (unmaps -> mappings (sys p') = delete addr (mappings (sys p)))
  /\ descriptors (sys p') = descriptors (sys p) /\ CACHE p' = CACHE p.
Proof.
  intros Hm. cbv zeta. unfold munmap_or_warn.
  destruct (munmap addr len (sys p)) as [rc k'] eqn:Hk. rewrite (on_sys_run _ _ _ _ Hk).
  destruct (Z.eqb_spec rc 0) as [->|Hrc]; cbn [negb sys CACHE].
  - destruct (munmap_ok _ _ _ _ Hk Hm) as (Hd & Hf & Hp). rewrite Hd, Hf. unfold reports. rewrite Hp.
    rewrite (size_delete_insert _ _ _ Hm). split_and!; [|lia|done|done|done].
    intros b Hb. by rewrite lookup_delete_ne.
  - destruct (munmap_failed _ _ _ _ _ Hk Hrc) as (Hd & Hf & Hp).
    match goal with |- context [on_sys (eprintln ?s) ?q] => set (line := s) end.
    unfold on_sys. cbn [sys CACHE]. destruct (eprintln line k') as [u k2] eqn:He.
    destruct (eprintln_law _ _ _ _ He) as (Hd2 & Hf2 & Hp2). cbn [snd sys CACHE].
    rewrite Hd2, Hd, Hf2, Hf. unfold reports. rewrite Hp2, Hp, List.filter_app, length_app.
    assert (Hl : leak_report line = true) by done. cbn [List.filter]. rewrite Hl. cbn [length].
    split_and!; [done|lia| |done|done].
    intros Hu. specialize (Hu addr len (sys p)). by rewrite Hk in Hu.
Qed.

Lemma close_or_warn_run fd context p :
  let p' := close_or_warn fd context p in
  mappings (sys p') = mappings (sys p) /\ reports (sys p') = reports (sys p)
  /\ descriptors (sys p') = descriptors (sys p) ∖ {[fd]} /\ CACHE p' = CACHE p.
Proof.
  cbv zeta. unfold close_or_warn.
  destruct (close fd (sys p)) as [rc k'] eqn:Hk. rewrite (on_sys_run _ _ _ _ Hk).
  destruct (close_law _ _ _ _ Hk) as (Hd & Hf & Hp).
  assert (Hr : reports k' = reports (sys p)) by (unfold reports; by rewrite Hp).
  destruct (negb (rc =? 0)); [|by split_and!].
  match goal with |- context [on_sys (eprintln ?s) ?q] => set (line := s) end.
  unfold on_sys. cbn [sys CACHE]. destruct (eprintln line k') as [u k2] eqn:He.
  destruct (eprintln_same _ _ _ _ He ltac:(done)) as (Hd2 & Hf2 & Hr2). cbn [snd sys CACHE].
  rewrite Hd2, Hd, Hf2, Hf, Hr2, Hr. by split_and!.
Qed.

(** ** The operations that acquire a resource *)

(** The epoll descriptor lives as long as the body that uses it. *)
Lemma keeps_epoll {A} (body : Z -> M A) Q :
  (forall fd, keeps (body fd) Q) ->
  keeps (epoll_fd ← EpollFd_new; with_drop (EpollFd_drop epoll_fd) (body epoll_fd)) Q.
Proof.
  intros Hbody p r p' Hc. unfold EpollFd_new.
  destruct (epoll_create1 EPOLL_CLOEXEC (sys p)) as [fd k1] eqn:Hk.
  destruct (Z.ltb_spec fd 0) as [Hneg|Hpos].
  { rewrite (io_bind_Err _ _ _ (OsError (errno k1)) (mkProc k1 (CACHE p))).
    - intros [= <- <-]. split_and!; [by eapply unchanged_same, epoll_create_err|done|done].
    - rewrite (io_bind_run _ _ p fd (mkProc k1 (CACHE p))) by by apply call_run.
      by rewrite (proj2 (Z.ltb_lt _ _)). }
  rewrite (io_bind_run _ _ p fd (mkProc k1 (CACHE p))).
  2: { rewrite (io_bind_run _ _ p fd (mkProc k1 (CACHE p))) by by apply call_run.
       by rewrite (proj2 (Z.ltb_ge _ _)). }
  destruct (epoll_create_ok _ _ _ _ Hk Hpos) as (Hm & Hnew & Hfds & Hp).
  assert (Hr : reports k1 = reports (sys p)) by (unfold reports; by rewrite Hp).
  unfold with_drop. destruct (body fd (mkProc k1 (CACHE p))) as [r' p2] eqn:Hrun.
  destruct (Hbody fd (mkProc k1 (CACHE p)) _ _ Hc Hrun) as ((Hm2 & Hf2 & Hr2) & Hc2 & HQ).
  intros [= <- <-]. unfold EpollFd_drop.
  destruct (close_or_warn_run fd (bytes "closing epoll fd") p2)
    as (Hm3 & Hr3 & Hf3 & Hc3).
  cbn [sys] in *. split_and!; [split_and!|by unfold cache_ok; rewrite Hc3|done]; [congruence| |congruence].
  rewrite Hf3, Hf2, Hfds. apply set_eq. intros x.
  rewrite elem_of_difference, elem_of_union, elem_of_singleton. split; [tauto|].
  intros Hx. split; [by right|]. by intros ->.
Qed.

(** What a constructed consumer holds. *)
Definition holds (p0 p : proc os) (c : RingbufConsumer) : Prop :=
  mappings (sys p0) !! consumer_mapping c = None
  /\ <[consumer_mapping c := page_size c]> (mappings (sys p0)) !! producer_mapping c = None
  /\ mappings (sys p) = <[producer_mapping c := mapping_len c]>
       (<[consumer_mapping c := page_size c]> (mappings (sys p0)))
  /\ descriptors (sys p) = descriptors (sys p0) /\ reports (sys p) = reports (sys p0).

(** A map that agrees outside of addresses another one does not have includes it. *)
Lemma subseteq_elsewhere (m m' m0 : gmap Z Z) a :
  m0 ⊆ m -> m0 !! a = None -> (forall b, b <> a -> m' !! b = m !! b) -> m0 ⊆ m'.
Proof.
  rewrite !map_subseteq_spec. intros Hsub Ha Hm b x Hb. rewrite Hm; [by apply Hsub|]. congruence.
Qed.

(** Dropping the consumer releases its two mappings, or reports them. *)
Lemma drop_releases p0 p c : holds p0 p c ->
  leaves (sys p0) (sys (RingbufConsumer_drop c p)) /\ CACHE (RingbufConsumer_drop c p) = CACHE p.
Proof.
  intros (H1 & H2 & Hm & Hf & Hr). unfold RingbufConsumer_drop.
  assert (Hne : producer_mapping c <> consumer_mapping c).
  { intros Heq. rewrite Heq, lookup_insert_eq in H2. done. }
  destruct (munmap_or_warn_run (consumer_mapping c) (page_size c)
    (bytes "unmapping ring consumer page") p) as (Ho1 & Hs1 & Hu1 & Hf1 & Hc1).
  { by rewrite Hm, lookup_insert_ne, lookup_insert_eq. }
  set (p1 := munmap_or_warn _ _ _ p) in *.
  destruct (munmap_or_warn_run (producer_mapping c) (mapping_len c)
    (bytes "unmapping ring producer/data pages") p1) as (Ho2 & Hs2 & Hu2 & Hf2 & Hc2).
  { by rewrite Ho1, Hm, lookup_insert_eq. }
  assert (Hsize : size (mappings (sys p)) = S (S (size (mappings (sys p0))))).
  { by rewrite Hm, !map_size_insert_None. }
  assert (Hsub : mappings (sys p0) ⊆ mappings (sys p)).
  { rewrite Hm. etrans; by apply insert_subseteq. }
  rewrite lookup_insert_ne in H2 by done.
  split; [|congruence]. split_and!; [|congruence|lia|].
  - eapply subseteq_elsewhere; [|exact H2|exact Ho2].
    eapply subseteq_elsewhere; [exact Hsub|exact H1|exact Ho1].
  - intros Hu. rewrite Hu2, Hu1, Hm by done. rewrite delete_insert_ne by congruence.
    rewrite (delete_insert_id _ (consumer_mapping c)) by done. by rewrite delete_insert_id.
Qed.

Lemma consumer_new_run fd ring page p r p' :
  1 <= ring -> 0 < page -> page + 2 * ring <= usize_max ->
  RingbufConsumer_new fd ring page p = (r, p') ->
  CACHE p' = CACHE p
  /\ match r with
     | Ok c => holds p p' c /\ mask c = ring - 1 /\ data_ptr c = producer_mapping c + page
         /\ mapping_len c = page + 2 * ring /\ page_size c = page
     | Err _ => leaves (sys p) (sys p')
     | Panic | OutOfFuel => False
     end.
Proof.
  intros Hring Hpage Hmax. unfold RingbufConsumer_new.
  destruct (mmap 0 page (Z.lor PROT_READ PROT_WRITE) MAP_SHARED fd 0 (sys p)) as [cm k1] eqn:Hk1.
  rewrite (io_bind_run _ _ p cm (mkProc k1 (CACHE p))) by by apply call_run.
  destruct (Z.eqb_spec cm MAP_FAILED) as [->|Hcm].
  { intros [= <- <-]. split; [done|]. by eapply same_leaves, unchanged_same, mmap_failed. }
  destruct (mmap_ok _ _ _ _ _ _ _ _ _ Hk1 Hcm) as (Hn1 & Hm1 & Hf1 & Hp1).
  assert (Hr1 : reports k1 = reports (sys p)) by (unfold reports; by rewrite Hp1).
  rewrite (io_bind_run _ _ _ (ring * 2) (mkProc k1 (CACHE p)))
    by (unfold ok_or, usize_checked_mul; by rewrite (proj2 (Z.leb_le _ _)) by lia).
  rewrite (io_bind_run _ _ _ (page + ring * 2) (mkProc k1 (CACHE p)))
    by (unfold ok_or, usize_checked_add; by rewrite (proj2 (Z.leb_le _ _)) by lia).
  destruct (mmap 0 (page + ring * 2) PROT_READ MAP_SHARED fd (as_isize page) k1) as [pm k2] eqn:Hk2.
  rewrite (io_bind_run _ _ _ pm (mkProc k2 (CACHE p)))
    by by apply (call_run _ (mkProc k1 (CACHE p))).
  destruct (Z.eqb_spec pm MAP_FAILED) as [->|Hpm].
  { rewrite (io_bind_run _ _ _ (OsError (errno k2)) (mkProc k2 (CACHE p))) by done.
    intros [= <- <-].
    destruct (unchanged_same _ _ (mmap_failed _ _ _ _ _ _ _ _ Hk2)) as (Hm2 & Hf2 & Hr2).
    match goal with |- context [munmap_or_warn ?a ?l ?ctx ?q] =>
      destruct (munmap_or_warn_run a l ctx q) as (Ho3 & Hs3 & Hu3 & Hf3 & Hc3) end.
    { cbn [sys]. by rewrite Hm2, Hm1, lookup_insert_eq. }
    split; [done|]. cbn [sys] in *. rewrite Hm2, Hm1, map_size_insert_None in Hs3 by done.
    split_and!; [|congruence|lia|].
    - eapply subseteq_elsewhere; [|exact Hn1|exact Ho3]. rewrite Hm2, Hm1. by apply insert_subseteq.
    - intros Hu. rewrite Hu3, Hm2, Hm1 by done. by rewrite delete_insert_id. }
  destruct (mmap_ok _ _ _ _ _ _ _ _ _ Hk2 Hpm) as (Hn2 & Hm2 & Hf2 & Hp2). cbv zeta.
  assert (Hr2 : reports k2 = reports k1) by (unfold reports; by rewrite Hp2).
  rewrite (io_bind_run _ _ _ (ring - 1) (mkProc k2 (CACHE p)))
    by (unfold lift, usize_sub; by rewrite u_arith_ok by (unfold usize_max in *; lia)).
  intros [= <- <-]. split; [done|]. split; [|split_and!; [done|done|cbn; lia|done]].
  unfold holds. cbn [consumer_mapping producer_mapping mapping_len page_size sys].
  split_and!; [done|by rewrite <- Hm1|by rewrite Hm2, Hm1|congruence|congruence].
Qed.

(** The mappings live as long as the body that uses the consumer. *)
Lemma leaves_consumer {A} fd ring page (body : RingbufConsumer -> M A) Q :
  1 <= ring -> 0 < page -> page + 2 * ring <= usize_max -> (forall c, keeps (body c) Q) ->
  within leaves (consumer ← RingbufConsumer_new fd ring page;
                 with_drop (RingbufConsumer_drop consumer) (body consumer)) Q.
Proof.
  intros Hring Hpage Hmax Hbody p r p' Hc. unfold mbind, io_bind.
  destruct (RingbufConsumer_new fd ring page p) as [rc p1] eqn:Hnew.
  destruct (consumer_new_run _ _ _ _ _ _ Hring Hpage Hmax Hnew) as [Hc1 Hspec].
  assert (Hok1 : cache_ok p1) by (unfold cache_ok; by rewrite Hc1).
  destruct rc as [c|e| |]; [|intros [= <- <-]; by split_and!|done|done].
  destruct Hspec as (Hholds & _). unfold with_drop. destruct (body c p1) as [r2 p2] eqn:Hrun.
  destruct (Hbody c _ _ _ Hok1 Hrun) as ((Hm2 & Hf2 & Hr2) & Hok2 & HQ). intros [= <- <-].
  destruct (drop_releases p p2 c) as [Hleaves Hcache].
  { destruct Hholds as (? & ? & ? & ? & ?). split_and!; [done|done|congruence..]. }
  split_and!; [done|unfold cache_ok; by rewrite Hcache|done].
Qed.

Lemma poll_ringbuf_leaves fuel map_fd {C} (callback : C -> list Z -> C) x :
  usize_bits = 64 -> within leaves (poll_ringbuf fuel map_fd callback x) (fun _ => True).
Proof.
  intros Hbits. unfold poll_ringbuf.
  eapply (within_bind leaves); [apply keeps_leaves, keeps_map_info|]. intros i Hi.
  destruct (Z.eqb_spec (map_type i) BPF_MAP_TYPE_RINGBUF) as [Ht|_]; cbn [negb];
    [|apply keeps_leaves, keeps_throw].
  specialize (Hi Ht). eapply (within_bind leaves); [apply keeps_leaves, keeps_page_size|].
  intros page Hpage. eapply (within_bind leaves) with (Q := fun ring => 1 <= ring < 2 ^ 32).
  { apply keeps_leaves. destruct (_ <=? _); [by apply keeps_ret|apply keeps_throw]. }
  intros ring Hring. cbn beta in *.
  apply leaves_consumer; [lia|lia|unfold usize_max; rewrite Hbits; lia|].
  intros c. apply keeps_epoll. intros fd.
  eapply (within_bind same); [apply keeps_add|]. intros _ _.
  eapply (within_bind same); [apply keeps_wait|]. intros _ _. apply keeps_consume.
Qed.

(** C13. On a 64-bit target every call of [poll_ringbuf] releases what it acquired, as far
    as the kernel lets it: with success, with an error at any step, or with a panic, and
    for every descriptor, callback and number of iterations, the process has the
    descriptors it had before; it has the mappings it had before, and besides them
    exactly one for each failure of [munmap] that was reported on standard error.  So
    without a report the mappings are those from before, and on a system that unmaps
    what it is asked to there is none to report.  The cached page size is one the
    system reported. *)
Theorem poll_ringbuf_releases fuel map_fd {C} (callback : C -> list Z -> C) x p :
  usize_bits = 64 -> cache_ok p ->
  let p' := (poll_ringbuf fuel map_fd callback x p).2 in
  descriptors (sys p') = descriptors (sys p) /\ mappings (sys p) ⊆ mappings (sys p')
  /\ (size (mappings (sys p')) + reports (sys p) = size (mappings (sys p)) + reports (sys p'))%nat
  /\ (reports (sys p') = reports (sys p) -> mappings (sys p') = mappings (sys p))
  /\ (unmaps -> mappings (sys p') = mappings (sys p) /\ reports (sys p') = reports (sys p))
  /\ cache_ok p'.
Proof.
  intros Hbits Hc. cbv zeta.
  destruct (poll_ringbuf fuel map_fd callback x p) as [r p'] eqn:Hrun.
  destruct (poll_ringbuf_leaves fuel map_fd callback x Hbits _ _ _ Hc Hrun)
    as ((Hsub & Hf & Hs & Hu) & Hc' & _). cbn [snd].
  split_and!; [done|done|done| | |done].
  - intros Hr. symmetry. apply map_subseteq_size_eq; [done|lia].
  - intros Hm%Hu. split; [done|]. rewrite Hm in Hs. lia.
Qed.

(** C35. A consumer is built only with a consistent geometry: for a ring of [2^n] bytes,
    [n >= 3], whose doubled size and the page fit [usize], the mask selects offsets
    in the ring, and the doubly mapped data behind [data_ptr], which the bounds check
    allows to be read, is inside the producer mapping, after its first page. *)
Theorem ringbuf_consumer_new_geometry fd n page p c p' :
  3 <= n -> 0 < page -> page + 2 * 2 ^ n <= usize_max ->
  RingbufConsumer_new fd (2 ^ n) page p = (Ok c, p') ->
  mask_ok c /\ mask c + 1 = 2 ^ n
  /\ mappings (sys p') !! consumer_mapping c = Some page
  /\ mappings (sys p') !! producer_mapping c = Some (mapping_len c)
  /\ producer_mapping c + page = data_ptr c
  /\ data_ptr c + 2 * (mask c + 1) = producer_mapping c + mapping_len c.
Proof.
  intros Hn Hpage Hmax Hnew. assert (0 < 2 ^ n) by (apply Z.pow_pos_nonneg; lia).
  destruct (consumer_new_run fd (2 ^ n) page p (Ok c) p' ltac:(lia) Hpage Hmax Hnew)
    as (_ & (Hn1 & Hn2 & Hm & _) & Hmask & Hdata & Hlen & Hp).
  assert (Hne : producer_mapping c <> consumer_mapping c).
  { intros Heq. rewrite Heq, lookup_insert_eq in Hn2. done. }
  rewrite Hmask. split_and!; [exists n; split_and!; lia|lia| |by rewrite Hm, lookup_insert_eq|lia|lia].
  rewrite Hm, lookup_insert_ne, lookup_insert_eq by done. by rewrite Hp.
Qed.

(** C40. The path that leaks: when the doubled ring size does not fit [usize] (possible
    on a 32-bit target only), construction fails after the consumer page was mapped,
    and the mapping stays. *)
Theorem ringbuf_consumer_new_overflow_leaks fd ring page p a k1 :
  usize_max < ring * 2 ->
  mmap 0 page (Z.lor PROT_READ PROT_WRITE) MAP_SHARED fd 0 (sys p) = (a, k1) -> a <> MAP_FAILED ->
  let '(r, p') := RingbufConsumer_new fd ring page p in
  r = Err overflow_error /\ mappings (sys p') = <[a := page]> (mappings (sys p))
  /\ mappings (sys p) !! a = None.
Proof.
  intros Hring Hk1 Ha. unfold RingbufConsumer_new.
  rewrite (io_bind_run _ _ p a (mkProc k1 (CACHE p))) by by apply call_run.
  rewrite (proj2 (Z.eqb_neq _ _)) by done.
  rewrite (io_bind_Err _ _ _ overflow_error (mkProc k1 (CACHE p)))
    by (unfold ok_or, usize_checked_mul; by rewrite (proj2 (Z.leb_gt _ _)) by lia).
  destruct (mmap_ok _ _ _ _ _ _ _ _ _ Hk1 Ha) as (Hn1 & Hm1 & _ & _). by split_and!.
Qed.
End resources.

(** ** Witnesses

    A process whose system calls succeed, except [munmap] when [st_stuck] says so: fresh
    addresses and descriptors, and a 4 KiB ring that stays empty. *)
Module DemoProcess.

Record state := mkState {
  st_maps : gmap Z Z;
  st_fds : gset Z;
  st_printed : list str;
  st_stuck : bool;
}.

Definition set_maps (k : state) (m : gmap Z Z) : state :=
  mkState m (st_fds k) (st_printed k) (st_stuck k).

Definition set_fds (k : state) (fds : gset Z) : state :=
  mkState (st_maps k) fds (st_printed k) (st_stuck k).

Definition fresh_address (k : state) : Z :=
  Z.of_nat (fresh (set_map (C := gset Z) (D := gset nat) Z.to_nat (dom (st_maps k)))).

Definition fresh_fd (k : state) : Z :=
  Z.of_nat (fresh (set_map (C := gset Z) (D := gset nat) Z.to_nat (st_fds k))).

Lemma fresh_Z (X : gset Z) :
  Z.of_nat (fresh (set_map (C := gset Z) (D := gset nat) Z.to_nat X)) ∉ X.
Proof.
  set (n := fresh _). intros Hin.
  apply (is_fresh (set_map (C := gset Z) (D := gset nat) Z.to_nat X)).
  apply elem_of_map. exists (Z.of_nat n). by rewrite Nat2Z.id.
Qed.

Definition ring_info : BpfMapInfo :=
  mkBpfMapInfo BPF_MAP_TYPE_RINGBUF 0 0 0 4096 0 (replicate 16 0) 0 0 0 0 0 0 0 0.

#[export] Instance process_os : Os state := {
  errno _ := 22;
  strerror _ := bytes "Invalid argument";
}.

#[export] Instance process_syscalls : RingSyscalls state := {
  ring_target := x86_64;
  bpf_map_create _ _ _ _ k := (0, k);
  bpf_obj_get_info _ _ _ _ k := ((0, ring_info), k);
  sysconf_pagesize k := (4096, k);
  mmap _ len _ _ _ _ k := (fresh_address k, set_maps k (<[fresh_address k := len]> (st_maps k)));
  munmap addr len k := if st_stuck k then (-1, k) else (0, set_maps k (delete addr (st_maps k)));
  close fd k := (0, set_fds k (st_fds k ∖ {[fd]}));
  epoll_create1 _ k := (fresh_fd k, set_fds k ({[fresh_fd k]} ∪ st_fds k));
  epoll_ctl _ _ _ _ k := (0, k);
  epoll_wait _ _ _ k := (1, k);
  load_u64 _ _ k := (0, k);
  store_u64 _ _ _ k := ((), k);
  load_u32 _ _ k := (0, k);
  read_bytes _ _ k := ([], k);
  eprintln line k := ((), mkState (st_maps k) (st_fds k) (st_printed k ++ [line]) (st_stuck k));
  MAP_FAILED := -1;
  PROT_READ := 1;
  PROT_WRITE := 2;
  MAP_SHARED := 1;
  EPOLL_CLOEXEC := 0;
  EPOLLIN := 1;
  EPOLL_CTL_ADD := 1;
}.

#[export] Program Instance process_resources : RingResources state := {
  mappings := st_maps;
  descriptors := st_fds;
  printed := st_printed;
}.
Next Obligation. intros nr cmd attr size k rc i k' Hk. simplify_eq/=. split; [done|lia]. Qed.
Next Obligation. intros k v k' Hk. simplify_eq/=. split; [done|lia]. Qed.
Next Obligation.
  intros addr len prot flags fd off k a k' Hk _. simplify_eq/=. split_and!; [|done|done|done].
  apply not_elem_of_dom, fresh_Z.
Qed.
Next Obligation.
  intros addr len prot flags fd off k k' Hk. apply (f_equal fst) in Hk. cbn in Hk.
  unfold fresh_address in Hk. lia.
Qed.
Next Obligation.
  intros addr len k k' Hk _. cbn in Hk. destruct (st_stuck k); [done|]. by simplify_eq/=.
Qed.
Next Obligation.
  intros addr len k rc k' Hk Hrc. cbn in Hk. destruct (st_stuck k); by simplify_eq/=.
Qed.
Next Obligation. by intros; simplify_eq/=. Qed.
Next Obligation.
  intros flags k fd k' Hk _. simplify_eq/=. split_and!; [done|apply fresh_Z|done|done].
Qed.
Next Obligation.
  intros flags k fd k' Hk Hneg. apply (f_equal fst) in Hk. cbn in Hk.
  unfold fresh_fd in Hk. lia.
Qed.
Next Obligation. by intros; simplify_eq/=. Qed.
Next Obligation. by intros; simplify_eq/=. Qed.
Next Obligation. by intros; simplify_eq/=. Qed.
Next Obligation. by intros; simplify_eq/=. Qed.
Next Obligation. by intros; simplify_eq/=. Qed.
Next Obligation. by intros; simplify_eq/=. Qed.
Next Obligation. by intros; simplify_eq/=. Qed.

Definition start : state := mkState ∅ {[0; 1; 2]} [] false.
Definition stuck : state := mkState ∅ {[0; 1; 2]} [] true.
End DemoProcess.
Import DemoProcess.

(** Everything is released, or both mappings stay and are reported. *)
Lemma poll_ringbuf_releases_witness :
  (let p' := (poll_ringbuf (H := arch64_debug) 10 5 (fun n _ => S n) 0%nat (mkProc start None)).2 in
   mappings (sys p') = mappings start /\ descriptors (sys p') = descriptors start)
  /\ (let p' := (poll_ringbuf (H := arch64_debug) 10 5 (fun n _ => S n) 0%nat (mkProc stuck None)).2 in
      size (mappings (sys p')) = 2%nat /\ reports (sys p') = 2%nat
      /\ descriptors (sys p') = descriptors stuck).
Proof.
  split; cbv zeta.
  - destruct (poll_ringbuf_releases (H := arch64_debug) 10 5 (fun n _ => S n) 0%nat
      (mkProc start None)) as (Hf & _ & _ & Hm & _); [reflexivity|exact I|].
    split; [apply Hm; vm_compute; reflexivity|exact Hf].
  - destruct (poll_ringbuf_releases (H := arch64_debug) 10 5 (fun n _ => S n) 0%nat
      (mkProc stuck None)) as (Hf & _ & Hs & _ & _); [reflexivity|exact I|].
    assert (Hr : reports (sys (poll_ringbuf (H := arch64_debug) 10 5 (fun n _ => S n) 0%nat
      (mkProc stuck None)).2) = 2%nat) by (vm_compute; reflexivity).
    rewrite Hr in Hs. split; [|by split]. clear Hf Hr. revert Hs.
    change (reports (sys (mkProc stuck None))) with 0%nat.
    change (size (mappings (sys (mkProc stuck None)))) with 0%nat. lia.
Defined.

(** The two lines. *)
Example stuck_reports :
  st_printed (sys (poll_ringbuf (H := arch64_debug) 10 5 (fun n _ => S n) 0%nat (mkProc stuck None)).2)
  = map bytes
    ["ebpfkit: munmap failed while unmapping ring consumer page: Invalid argument (os error 22) (mapping may be leaked)";
     "ebpfkit: munmap failed while unmapping ring producer/data pages: Invalid argument (os error 22) (mapping may be leaked)"]%string.
Proof. vm_compute. reflexivity. Qed.

Lemma ringbuf_consumer_new_geometry_witness :
  let c := mkRingbufConsumer 0 1 4097 12288 4095 4096 in
  mask_ok (H := arch64_debug) c /\ data_ptr c + 2 * (mask c + 1) = producer_mapping c + mapping_len c.
Proof.
  destruct (ringbuf_consumer_new_geometry (H := arch64_debug) 5 12 4096 (mkProc start None)
    (mkRingbufConsumer 0 1 4097 12288 4095 4096)
    (RingbufConsumer_new (H := arch64_debug) 5 (2 ^ 12) 4096 (mkProc start None)).2)
    as (Hm & _ & _ & _ & _ & Hd); [lia|lia|vm_compute; discriminate|vm_compute; reflexivity|].
  by split.
Defined.

Lemma ringbuf_consumer_new_overflow_leaks_witness :
  let '(r, p') := RingbufConsumer_new (H := arch32_debug) 5 (2 ^ 31) 4096 (mkProc start None) in
  r = Err overflow_error /\ mappings (sys p') = <[0 := 4096]> (mappings start)
  /\ mappings start !! 0 = None.
Proof.
  apply (ringbuf_consumer_new_overflow_leaks (H := arch32_debug) 5 (2 ^ 31) 4096
    (mkProc start None) 0 (mkState (<[0 := 4096]> ∅) {[0; 1; 2]} [] false));
    [reflexivity|vm_compute; reflexivity|discriminate].
Defined.
