(* ===== verification/Concurrent.v ===== *)
(** * Threads and the two statics

    The crate has two process-wide variables: the [OnceLock] that caches the page size
    ([page_size] of src/src/loader/ringbuf.rs) and the [Once] behind the warning of
    src/src/loader/core_detect.rs.  [Ringbuf] and [CoreDetect] have their sequential
    behaviour.  This file splits the two functions into their atomic steps and runs any
    number of threads through them, in any interleaving, with the rest of the system at
    work in between.

    The steps of one thread, run alone, are the sequential functions. *)

From stdpp Require Import relations.
From S2P Require Import Prelude Str Os Ringbuf RingSafety RingProtocol RingDemo CoreDetect.

(** ** The cached page size *)

Section page_size_threads.
  Context `{Arch} {os} `{Os os} `{RingSyscalls os}.

(** Where a thread is in [page_size]: before [CACHE.get], before [sysconf], before
    [CACHE.set], or returned. *)
Inductive stage :=
| Start
| Ask
| Store (value : Z)
| Finished (r : res IoError Z).

(** The error of a page size that [usize] cannot hold. *)
Definition page_size_error : IoError :=
  CustomError InvalidData
    (bytes "system page size does not fit in usize. Fix: run on a supported userspace architecture.").

(** One atomic step.  [errno] belongs to the thread, so the call and the reading of its
    error number are one step. *)
Definition stage_step (st : stage) (p : proc os) : stage * proc os :=
  match st with
  | Start => (match CACHE p with Some value => Finished (Ok value) | None => Ask end, p)
  | Ask =>
      let '(value, p) := on_sys sysconf_pagesize p in
      (if value <=? 0 then Finished (Err (OsError (errno p)))
       else if value <=? usize_max then Store value else Finished (Err page_size_error), p)
  | Store value => (Finished (Ok value), (set_cache value p).2)
  | Finished r => (Finished r, p)
  end.

Fixpoint stage_run (n : nat) (st : stage) (p : proc os) : stage * proc os :=
  match n with O => (st, p) | S n => let '(st, p) := stage_step st p in stage_run n st p end.

(** A thread on its own computes [page_size]. *)
Lemma stage_run_sequential p :
  stage_run 3 Start p = let '(r, p') := get_page_size p in (Finished r, p').
Proof.
  unfold get_page_size, get_cache, Ringbuf.call, syscall, mbind, io_bind. cbn [stage_run stage_step].
  destruct (CACHE p) as [v|] eqn:Hc; [done|]. cbn [stage_step].
  destruct (on_sys sysconf_pagesize p) as [value p1].
  destruct (value <=? 0); [done|]. by destruct (value <=? usize_max).
Qed.

(** Threads that share the cache.  Any thread moves, or the rest of the system does,
    which does not touch the cache. *)
Record pool := mkPool {
  stages : list stage;
  shared : proc os;
}.

Inductive pool_step : pool -> pool -> Prop :=
| pool_thread i st st' l p p' :
    l !! i = Some st -> stage_step st p = (st', p') ->
    pool_step (mkPool l p) (mkPool (<[i := st']> l) p')
| pool_system l k k' cache :
    pool_step (mkPool l (mkProc k cache)) (mkPool l (mkProc k' cache)).

(** The number of steps a thread still takes. *)
Definition stage_left (st : stage) : nat :=
  match st with Start => 3 | Ask => 2 | Store _ => 1 | Finished _ => 0 end.

Lemma stage_step_left st p :
  (stage_left (stage_step st p).1 < stage_left st)%nat \/ stage_left st = 0%nat.
Proof.
  destruct st as [| |value|r]; cbn; [..|by right]; left.
  - destruct (CACHE p); cbn; lia.
  - destruct (on_sys _ p) as [value p']. repeat case_match; cbn; lia.
  - lia.
Qed.

(** What holds at any time while [sysconf] answers [page]. *)
Definition stage_ok (page : Z) (cache : option Z) (st : stage) : Prop :=
  match st with
  | Start | Ask => True
  | Store value => value = page
  | Finished r => r = Ok page /\ cache = Some page
  end.

Definition pool_ok (page : Z) (w : pool) : Prop :=
  (CACHE (shared w) = None \/ CACHE (shared w) = Some page)
  /\ Forall (stage_ok page (CACHE (shared w))) (stages w).

Lemma stage_step_ok page st st' p p' :
  (forall k, (sysconf_pagesize k).1 = page) -> 0 < page <= usize_max ->
  CACHE p = None \/ CACHE p = Some page -> stage_ok page (CACHE p) st ->
  stage_step st p = (st', p') ->
  (CACHE p' = None \/ CACHE p' = Some page) /\ stage_ok page (CACHE p') st'
  /\ (forall v, CACHE p = Some v -> CACHE p' = Some v).
Proof.
  intros Hsys Hpage Hc Hst. destruct st as [| |value|r]; cbn [stage_step].
  - intros [= <- <-]. destruct Hc as [Hc|Hc]; rewrite Hc; cbn; auto.
  - unfold on_sys. pose proof (Hsys (sys p)) as Hv.
    destruct (sysconf_pagesize (sys p)) as [value k]. cbn [fst] in Hv. subst value.
    rewrite (proj2 (Z.leb_gt _ _)), (proj2 (Z.leb_le _ _)) by lia. intros [= <- <-]. cbn. auto.
  - cbn in Hst. subst value. unfold set_cache. intros [= <- <-]. cbn [snd].
    destruct Hc as [Hc|Hc]; rewrite Hc; cbn; rewrite ?Hc; split_and!; auto; by intros v [= <-].
  - intros [= <- <-]. auto.
Qed.

Lemma stage_ok_mono page cache cache' st :
  (forall v, cache = Some v -> cache' = Some v) -> stage_ok page cache st -> stage_ok page cache' st.
Proof. intros Hm. destruct st; cbn; try done. intros [? ?]. auto. Qed.

Lemma pool_step_ok page w w' :
  (forall k, (sysconf_pagesize k).1 = page) -> 0 < page <= usize_max ->
  pool_ok page w -> pool_step w w' -> pool_ok page w'.
Proof.
  intros Hsys Hpage [Hc Hall] Hstep. destruct Hstep as [i st st' l p p' Hi Hst|l k k' cache]; [|done].
  cbn [stages shared] in *. pose proof (Forall_lookup_1 _ _ _ _ Hall Hi) as Hok.
  destruct (stage_step_ok page st st' p p' Hsys Hpage Hc Hok Hst) as (Hc' & Hok' & Hm).
  split; [done|]. cbn [stages shared]. apply Forall_insert; [|done].
  eapply Forall_impl; [exact Hall|]. intros s. by apply stage_ok_mono.
Qed.

(** C33. Concurrent calls of [page_size] agree.  While the system has a fixed page size
    that [usize] holds, any number of threads, interleaved in any way with each other
    and with the rest of the system, all return that page size; the cache holds it
    as soon as one of them has returned, and never holds anything else.  A thread
    returns after at most three of its own steps, whatever the others do. *)
Theorem page_size_threads page n p w :
  (forall k, (sysconf_pagesize k).1 = page) -> 0 < page <= usize_max ->
  CACHE p = None -> rtc pool_step (mkPool (replicate n Start) p) w ->
  (CACHE (shared w) = None \/ CACHE (shared w) = Some page)
  /\ (forall i r, stages w !! i = Some (Finished r) -> r = Ok page /\ CACHE (shared w) = Some page)
  /\ (forall i st, stages w !! i = Some st -> (stage_left st <= 3)%nat
      /\ ((stage_left (stage_step st (shared w)).1 < stage_left st)%nat \/ exists r, st = Finished r)).
Proof.
  intros Hsys Hpage Hnone Hrun.
  assert (Hok : pool_ok page w).
  { assert (Hinit : pool_ok page (mkPool (replicate n Start) p)).
    { split; [by left|]. cbn. apply Forall_replicate. done. }
    clear Hnone. induction Hrun as [w|w1 w2 w3 Hstep _ IH]; [done|].
    apply IH. by eapply pool_step_ok. }
  destruct Hok as [Hc Hall]. split_and!; [done| |].
  - intros i r Hi. by apply (Forall_lookup_1 _ _ _ _ Hall Hi).
  - intros i st _. split; [destruct st; cbn; lia|].
    destruct (stage_step_left st (shared w)) as [?|Hz]; [by left|]. right.
    destruct st; cbn in Hz; try lia. by eexists.
Qed.
End page_size_threads.

(** ** The single warning *)

(** The states of [std::sync::Once]: the closure has not run, runs in some thread, has
    returned. *)
Inductive once := Incomplete | Running | Complete.

(** Where a thread is in [warn_kernel_undetected]: about to enter [call_once], in the
    closure, or past it. *)
Inductive warn_stage :=
| Calling (reason : str)
| Printing (reason : str)
| Passed.

Record warn_pool := mkWarnPool {
  once_state : once;
  printed : list str;
  warners : list warn_stage;
}.

(** The first thread to arrive runs the closure; the others wait until it has returned. *)
Inductive warn_step : warn_pool -> warn_pool -> Prop :=
| warn_begin i r out ws :
    ws !! i = Some (Calling r) ->
    warn_step (mkWarnPool Incomplete out ws) (mkWarnPool Running out (<[i := Printing r]> ws))
| warn_print i r out ws :
    ws !! i = Some (Printing r) ->
    warn_step (mkWarnPool Running out ws) (mkWarnPool Complete (out ++ [warning r]) (<[i := Passed]> ws))
| warn_skip i r out ws :
    ws !! i = Some (Calling r) ->
    warn_step (mkWarnPool Complete out ws) (mkWarnPool Complete out (<[i := Passed]> ws)).

(** A thread on its own behaves like [warn_kernel_undetected], the flag of which stands
    for a completed [Once]. *)
Definition once_of (p : process) : once := if WARNED p then Complete else Incomplete.

Lemma warn_sequential reason p :
  exists s, rtc warn_step (mkWarnPool (once_of p) (stderr p) [Calling reason]) s
    /\ warners s = [Passed]
    /\ once_state s = once_of (warn_kernel_undetected reason p)
    /\ printed s = stderr (warn_kernel_undetected reason p).
Proof.
  unfold once_of, warn_kernel_undetected. destruct (WARNED p) eqn:Hw; cbn [WARNED stderr]; rewrite ?Hw.
  - exists (mkWarnPool Complete (stderr p) [Passed]). split_and!; [|done..].
    apply rtc_once. by apply (warn_skip 0 reason _ [Calling reason]).
  - exists (mkWarnPool Complete (stderr p ++ [warning reason]) [Passed]). split_and!; [|done..].
    eapply rtc_l; [by apply (warn_begin 0 reason _ [Calling reason])|].
    apply rtc_once. by apply (warn_print 0 reason _ [Printing reason]).
Qed.

(** The invariant: no thread is in the closure unless [Once] is running, then exactly one
    is; none has passed before the warning was printed. *)
Definition calling (reasons : list str) (w : warn_stage) : Prop :=
  match w with Calling r => r ∈ reasons | _ => False end.

Definition waiting (reasons : list str) (w : warn_stage) : Prop :=
  match w with Calling r => r ∈ reasons | Printing _ => False | Passed => True end.

Definition warn_ok (reasons : list str) (s : warn_pool) : Prop :=
  match once_state s with
  | Incomplete => printed s = [] /\ Forall (calling reasons) (warners s)
  | Running => printed s = [] /\ exists i r, warners s !! i = Some (Printing r) /\ r ∈ reasons
      /\ forall j w, j <> i -> warners s !! j = Some w -> calling reasons w
  | Complete => (exists r, r ∈ reasons /\ printed s = [warning r]) /\ Forall (waiting reasons) (warners s)
  end.

Lemma calling_waiting reasons w : calling reasons w -> waiting reasons w.
Proof. by destruct w. Qed.

Lemma warn_step_ok reasons s s' : warn_ok reasons s -> warn_step s s' -> warn_ok reasons s'.
Proof.
  intros Hok Hstep. destruct Hstep as [i r out ws Hi|i r out ws Hi|i r out ws Hi]; unfold warn_ok in *;
    cbn [once_state printed warners] in *.
  - destruct Hok as [-> Hall]. split; [done|]. exists i, r. split_and!.
    + rewrite list_lookup_insert_eq; [done|by eapply lookup_lt_Some].
    + by apply (Forall_lookup_1 _ _ _ _ Hall Hi).
    + intros j w Hj Hw. rewrite list_lookup_insert_ne in Hw by done.
      by apply (Forall_lookup_1 _ _ _ _ Hall Hw).
  - destruct Hok as (-> & i' & r' & Hi' & Hr & Hothers).
    assert (i = i') as <-.
    { destruct (decide (i = i')); [done|]. by destruct (Hothers i (Printing r)). }
    rewrite Hi in Hi'. injection Hi' as <-. split; [by exists r|].
    apply Forall_lookup. intros j w Hw. destruct (decide (i = j)) as [<-|Hne].
    + rewrite list_lookup_insert_eq in Hw by by eapply lookup_lt_Some. by injection Hw as <-.
    + rewrite list_lookup_insert_ne in Hw by done. apply calling_waiting. by eapply Hothers.
  - destruct Hok as [Hp Hall]. split; [done|]. by apply Forall_insert.
Qed.

(** The steps a thread still takes. *)
Definition warn_left (w : warn_stage) : nat :=
  match w with Calling _ => 2 | Printing _ => 1 | Passed => 0 end.

Definition pool_left (s : warn_pool) : nat := sum_list_with warn_left (warners s).

Lemma sum_list_insert ws i w w' : ws !! i = Some w -> (warn_left w' < warn_left w)%nat ->
  (sum_list_with warn_left (<[i := w']> ws) < sum_list_with warn_left ws)%nat.
Proof.
  revert i. induction ws as [|v ws IH]; intros [|i] Hi Hlt; [done|done|injection Hi as ->|].
  - change (<[0%nat := w']> (w :: ws)) with (w' :: ws). cbn [sum_list_with]. lia.
  - specialize (IH i Hi Hlt). change (<[S i := w']> (v :: ws)) with (v :: <[i := w']> ws).
    cbn [sum_list_with]. lia.
Qed.

Lemma warn_step_left s s' : warn_step s s' -> (pool_left s' < pool_left s)%nat.
Proof.
  destruct 1; unfold pool_left; cbn [warners]; eapply sum_list_insert; (done || cbn; lia).
Qed.

(** Nobody waits for ever: while a thread has not passed, some thread can move. *)
Lemma warn_progress reasons s w :
  warn_ok reasons s -> w ∈ warners s -> w <> Passed -> exists s', warn_step s s'.
Proof.
  destruct s as [st out ws]. intros Hok [i Hi]%list_elem_of_lookup_1 Hw. unfold warn_ok in Hok.
  cbn [once_state printed warners] in *. destruct st.
  - destruct Hok as [_ Hall]. pose proof (Forall_lookup_1 _ _ _ _ Hall Hi) as Hc.
    destruct w; try done. eexists. by eapply warn_begin.
  - destruct Hok as (_ & j & r & Hj & _). eexists. by eapply warn_print.
  - destruct Hok as [_ Hall]. pose proof (Forall_lookup_1 _ _ _ _ Hall Hi) as Hc.
    destruct w; try done. eexists. by eapply warn_skip.
Qed.

(** C32. The warning is printed once, whatever the number of threads that find the
    version unknown at the same time and however they interleave: no thread gets past
    the warning before it was printed, and then exactly one line was, for the reason of
    one of them; a step is always possible until all have passed, and every step
    brings one of them nearer, so all of them do, and the line is there. *)
Theorem warns_once_threads reasons s :
  rtc warn_step (mkWarnPool Incomplete [] (Calling <$> reasons)) s ->
  (Passed ∈ warners s -> exists r, r ∈ reasons /\ printed s = [warning r])
  /\ (printed s = [] \/ exists r, r ∈ reasons /\ printed s = [warning r])
  /\ ((exists w, w ∈ warners s /\ w <> Passed) -> exists s', warn_step s s')
  /\ (forall s', warn_step s s' -> (pool_left s' < pool_left s)%nat)
  /\ length (warners s) = length reasons.
Proof.
  intros Hrun.
  assert (Hok : warn_ok reasons s /\ length (warners s) = length reasons).
  { assert (Hinit : warn_ok reasons (mkWarnPool Incomplete [] (Calling <$> reasons))
      /\ length (warners (mkWarnPool Incomplete [] (Calling <$> reasons))) = length reasons).
    { split; [|apply length_fmap]. split; [done|]. cbn. apply Forall_fmap, Forall_forall.
      by intros r Hr. }
    induction Hrun as [s|s1 s2 s3 Hstep _ IH]; [done|]. apply IH. destruct Hinit as [H1 H2].
    split; [by eapply warn_step_ok|]. rewrite <- H2. destruct Hstep; cbn; by rewrite length_insert. }
  destruct Hok as [Hok Hlen]. split_and!; [| | |by apply warn_step_left|done].
  - intros [i Hi]%list_elem_of_lookup_1. unfold warn_ok in Hok. destruct (once_state s).
    + destruct Hok as [_ Hall]. by pose proof (Forall_lookup_1 _ _ _ _ Hall Hi).
    + destruct Hok as (_ & j & r & Hj & _ & Hothers). destruct (decide (i = j)) as [->|Hne]; [congruence|].
      by destruct (Hothers i Passed Hne Hi).
    + by destruct Hok as [? _].
  - unfold warn_ok in Hok. destruct (once_state s); [by left; apply Hok..|by right; apply Hok].
  - intros (w & Hw & Hp). by eapply warn_progress.
Qed.

(** ** Witnesses *)

(** Two threads that both find the cache empty and both ask the system. *)
Lemma racing_threads :
  rtc (pool_step (H := arch64_debug)) (mkPool (replicate 2 Start) (mkProc demo_ring None))
    (mkPool [Finished (Ok 4096); Store 4096] (mkProc demo_ring (Some 4096))).
Proof.
  eapply rtc_l; [by eapply (pool_thread 0)|]. eapply rtc_l; [by eapply (pool_thread 1)|].
  eapply rtc_l; [by eapply (pool_thread 1)|]. eapply rtc_l; [by eapply (pool_thread 0)|].
  eapply rtc_l; [by eapply (pool_thread 0)|]. apply rtc_refl.
Qed.

Lemma page_size_threads_witness :
  exists w, rtc (pool_step (H := arch64_debug) (os := ring))
      (mkPool (replicate 2 Start) (mkProc demo_ring None)) w
    /\ stages w !! 0%nat = Some (Finished (Ok 4096)) /\ CACHE (shared w) = Some 4096.
Proof.
  eexists. split; [exact racing_threads|]. split; [done|].
  apply (page_size_threads (H := arch64_debug) 4096 2 (mkProc demo_ring None) _
    ltac:(done) ltac:(vm_compute; split; congruence) eq_refl racing_threads)
    with (i := 0%nat) (r := Ok 4096).
  reflexivity.
Defined.

(** Two threads with different reasons: the second one to arrive prints nothing. *)
Lemma racing_warnings :
  rtc warn_step (mkWarnPool Incomplete [] (Calling <$> [bytes "a"; bytes "b"]))
    (mkWarnPool Complete [warning (bytes "b")] [Passed; Passed]).
Proof.
  eapply rtc_l; [by eapply (warn_begin 1)|]. eapply rtc_l; [by eapply (warn_print 1)|].
  eapply rtc_l; [by eapply (warn_skip 0)|]. apply rtc_refl.
Qed.

Lemma warns_once_threads_witness :
  exists r, r ∈ [bytes "a"; bytes "b"] /\ [warning (bytes "b")] = [warning r].
Proof. apply (proj1 (warns_once_threads _ _ racing_warnings)). left. Defined.
